(** * cloud-syncer: one-way reconciliation of a local tree into Google Drive

    A shallow embedding of [main.go].  The program is a sequence of calls on
    two external collaborators, the Drive service ([srv]) and the local
    filesystem; both are part of an explicit [world] that every function
    threads through a small state-and-error monad.  The Go maps
    [remoteFiles] and [localFiles] are [gmap]s; [folderCache] is an
    association list that keeps every write, newest first.  The
    goroutines of [main] are trees of calls that a schedule interleaves. *)

From Stdlib Require Import Ascii String Lia.
From stdpp Require Import base option list gmap strings pretty.

Local Open Scope string_scope.
Local Open Scope list_scope.
Local Open Scope nat_scope.

(** ** Strings and paths (Go's [strings] and [path/filepath], Unix) *)

Definition slash : ascii := "/"%char.

(** [split_aux s] is the segment before the first separator and the
    segments after it. *)
Fixpoint split_aux (s : string) : string * list string :=
  match s with
  | EmptyString => (EmptyString, [])
  | String c s' =>
      let '(h, t) := split_aux s' in
      if decide (c = slash) then (EmptyString, h :: t) else (String c h, t)
  end.

(** [strings.Split(s, "/")]: never empty, [ [""] ] on the empty string. *)
Definition strings_Split (s : string) : list string :=
  let '(h, t) := split_aux s in h :: t.

(** [strings.Join(parts, "/")]. *)
Fixpoint strings_Join (parts : list string) : string :=
  match parts with
  | [] => ""
  | [x] => x
  | x :: rest => x +:+ "/" +:+ strings_Join rest
  end.

(** [filepath.ToSlash]: the separator already is the slash. *)
Definition filepath_ToSlash (p : string) : string := p.

(** One element of the path handed to [filepath.Clean]; [stack] holds the
    elements kept so far, last one first. *)
Definition clean_step (rooted : bool) (stack : list string) (c : string)
  : list string :=
  if decide (c = "") then stack
  else if decide (c = ".") then stack
  else if decide (c = "..") then
    match stack with
    | top :: rest => if decide (top = "..") then c :: stack else rest
    | [] => if rooted then [] else [c]
    end
  else c :: stack.

Definition is_rooted (p : string) : bool :=
  match p with
  | String c _ => bool_decide (c = slash)
  | EmptyString => false
  end.

(** [filepath.Clean]: drops empty and [.] elements, resolves [..] against
    the element before it, and turns an empty result into [.]. *)
Definition filepath_Clean (p : string) : string :=
  if decide (p = "") then "."
  else
    let rooted := is_rooted p in
    let body :=
      strings_Join (rev (foldl (clean_step rooted) [] (strings_Split p))) in
    if rooted then "/" +:+ body
    else if decide (body = "") then "." else body.

(** [filepath.Join(a, b)]: empty elements are ignored, the rest is joined
    with a slash and cleaned; all empty gives the empty string. *)
Definition filepath_Join (a b : string) : string :=
  if decide (a = "") then
    if decide (b = "") then "" else filepath_Clean b
  else filepath_Clean (a +:+ "/" +:+ b).

(** ** Results *)

(** A value or a Go [error] (its message). *)
Inductive result (A : Type) : Type :=
| Good (a : A)
| Bad (err : string).
Arguments Good {A} a.
Arguments Bad {A} err.

(** What a call of the program produces: a value, an error, or no answer
    within the recursion budget of the remote scan. *)
Inductive res (A : Type) : Type :=
| Ok (a : A)
| Err (e : string)
| Timeout.
Arguments Ok {A} a.
Arguments Err {A} e.
Arguments Timeout {A}.

(** ** The Drive store *)

Definition Id := nat.

Definition folderMime : string := "application/vnd.google-apps.folder".
Definition uploadMime : string := "application/octet-stream".

(** [drive.File], with the fields the program reads or writes.  Ids are
    opaque and only compared; a file has one parent. *)
Record File : Type := mkFile {
  FId : Id;
  Name : string;
  MimeType : string;
  Md5Checksum : string;
  Parent : Id;
  Trashed : bool
}.

Global Instance File_eq_dec : EqDecision File.
Proof. solve_decision. Defined.

Definition isFolder (f : File) : Prop := MimeType f = folderMime.

(** The two search queries the program builds with [fmt.Sprintf]. *)
Inductive query : Type :=
| InParents (parent : Id)
    (* '%s' in parents and trashed=false *)
| FolderNamed (name : string) (parent : Id).
    (* name='%s' and '%s' in parents and mimeType='...folder' and trashed=false *)

Definition matches (q : query) (f : File) : Prop :=
  match q with
  | InParents p => Parent f = p ∧ Trashed f = false
  | FolderNamed n p =>
      Name f = n ∧ Parent f = p ∧ isFolder f ∧ Trashed f = false
  end.

Global Instance matches_dec q f : Decision (matches q f).
Proof. destruct q; unfold matches, isFolder; apply _. Defined.

(** ** The local filesystem *)

(** What opening and reading a local path gives. *)
Inductive fentry : Type :=
| Unreadable (err : string)   (* os.Open fails *)
| ReadFails (err : string)    (* opens, reading fails *)
| Content (bytes : string).

(** One call of the walk function by [filepath.Walk]: its [path], [err]
    and [info.IsDir()] arguments, and what [filepath.Rel(localDir, path)]
    gives for it. *)
Record visit : Type := mkVisit {
  v_path : string;
  v_err : option string;
  v_isDir : bool;
  v_rel : result string
}.

(** ** Calls and the world *)

Inductive call : Type :=
| CallList (q : query) (pageToken : nat)
| CallCreate (name mime : string) (parent : Id) (media : option fentry)
| CallUpdate (id : Id) (media : fentry)
| CallDelete (id : Id).

Inductive event : Type :=
| Api (c : call) (ok : bool)
| WalkDir (root : string).

Record world : Type := mkWorld {
  store : list File;            (* the objects of the Drive *)
  next_id : Id;                 (* the id the next created object gets *)
  pageSize : nat;               (* entries per page of a listing *)
  faults : list nat;            (* positions in [trace] of calls that fail *)
  trace : list event;           (* calls made so far, oldest first *)
  out : list string;            (* lines printed *)
  fs : gmap string fentry;      (* local files by path *)
  walks : gmap string (list visit)  (* what Walk visits under a root *)
}.

Definition set_store (s : list File) (n : Id) (w : world) : world :=
  mkWorld s n (pageSize w) (faults w) (trace w) (out w) (fs w) (walks w).

Definition log (e : event) (w : world) : world :=
  mkWorld (store w) (next_id w) (pageSize w) (faults w) (trace w ++ [e])
          (out w) (fs w) (walks w).

Definition print (line : string) (w : world) : world :=
  mkWorld (store w) (next_id w) (pageSize w) (faults w) (trace w)
          (out w ++ [line]) (fs w) (walks w).

(** The call about to be made is one the fault plan makes fail. *)
Definition api_fails (w : world) : bool :=
  bool_decide (length (trace w) ∈ faults w).

(** ** The monad *)

Definition M (A : Type) : Type := world → world * res A.

Definition ret {A} (a : A) : M A := λ w, (w, Ok a).
Definition fail {A} (e : string) : M A := λ w, (w, Err e).
Definition bind {A B} (m : M A) (k : A → M B) : M B :=
  λ w, match m w with
       | (w1, Ok a) => k a w1
       | (w1, Err e) => (w1, Err e)
       | (w1, Timeout) => (w1, Timeout)
       end.

(** [fmt.Errorf(msg ++ ": %v", err)] around a call. *)
Definition wrap {A} (msg : string) (m : M A) : M A :=
  λ w, match m w with
       | (w1, Err e) => (w1, Err (msg +:+ e))
       | r => r
       end.

Definition printf (line : string) : M unit := λ w, (print line w, Ok tt).

Notation "'let*' x ':=' m 'in' k" := (bind m (λ x, k))
  (at level 10, x name, m at level 100, k at level 200, only parsing).
Notation "'let*' ' p ':=' m 'in' k" :=
  (bind m (λ x, match x with p => k end))
  (at level 10, p pattern, m at level 100, k at level 200, only parsing).
Notation "m ;; k" := (bind m (λ _, k))
  (at level 100, k at level 200, right associativity, only parsing).

Definition lift {A} (r : result A) : M A :=
  match r with Good a => ret a | Bad e => fail e end.

(** ** The Drive API ([srv.Files]) *)

Definition apiError : string := "googleapi: Error".
Definition notFound : string := "googleapi: Error 404: File not found".

Definition page_len (w : world) : nat := Nat.max 1 (pageSize w).

(** The page of a listing that starts at offset [tok], and the token of
    the page after it; the first and the absent token are both [0]. *)
Definition page_of (n tok : nat) (all : list File) : list File * nat :=
  (take n (drop tok all), if decide (tok + n < length all) then tok + n else 0).

(** The program writes a name into its search query between single
    quotes as it is, without escaping it: a quote in the name ends the
    string of the query early. *)
Fixpoint has_quote (s : string) : bool :=
  match s with
  | EmptyString => false
  | String c s' => bool_decide (c = "'"%char) || has_quote s'
  end.

(** The query text that [fmt.Sprintf] builds is one the Drive can read. *)
Definition query_ok (q : query) : bool :=
  match q with
  | InParents _ => true
  | FolderNamed n _ => negb (has_quote n)
  end.

Definition badQuery : string := "googleapi: Error 400: Invalid Value, invalid".

(** [srv.Files.List().Q(q).PageToken(tok).Do()]; a query the Drive cannot
    read is rejected. *)
Definition Files_List (q : query) (tok : nat) : M (list File * nat) := λ w,
  if api_fails w then (log (Api (CallList q tok) false) w, Err apiError)
  else if query_ok q
  then (log (Api (CallList q tok) true) w,
        Ok (page_of (page_len w) tok (filter (matches q) (store w))))
  else (log (Api (CallList q tok) false) w, Err badQuery).

(** ** What the program takes from its platform *)

Class Platform : Type := {
  (** the content digest, [md5] rendered as lowercase hex; the Drive
      computes the same digest for what is uploaded *)
  md5hex : string → string;
  (** the order in which Go ranges over [remoteFiles]: any *)
  rangeFiles : gmap string File → list (string * File);
  rangeFiles_perm : ∀ m, rangeFiles m ≡ₚ map_to_list m;
  (** [json.Unmarshal] into the map of [main], given as the pairs its loop
      ranges over, in the order it does *)
  json_Unmarshal : string → result (list (string * Id));
  (** [drive.NewService] with what the credentials file holds *)
  drive_NewService : option fentry → result unit
}.

Section Program.
Context `{Platform}.

Definition media_md5 (media : option fentry) : string :=
  match media with
  | Some (Content c) => md5hex c
  | _ => ""
  end.

Definition media_readable (media : option fentry) : bool :=
  match media with
  | Some (Content _) | None => true
  | _ => false
  end.

(** [srv.Files.Create(file).Media(r).Do()]: a new object with a fresh id
    under [parent]. *)
Definition Files_Create (name mime : string) (parent : Id)
    (media : option fentry) : M File := λ w,
  let c := CallCreate name mime parent media in
  if api_fails w || negb (media_readable media)
  then (log (Api c false) w, Err apiError)
  else
    let f := mkFile (next_id w) name
                    (if decide (mime = "") then uploadMime else mime)
                    (media_md5 media) parent false in
    (log (Api c true) (set_store (store w ++ [f]) (S (next_id w)) w), Ok f).

Definition set_md5 (id : Id) (h : string) (f : File) : File :=
  if decide (FId f = id)
  then mkFile (FId f) (Name f) (MimeType f) h (Parent f) (Trashed f)
  else f.

(** [srv.Files.Update(id, nil).Media(r).Do()]: new content, same object. *)
Definition Files_Update (id : Id) (media : fentry) : M unit := λ w,
  let c := CallUpdate id media in
  if api_fails w || negb (media_readable (Some media))
  then (log (Api c false) w, Err apiError)
  else if decide (id ∈ FId <$> store w)
  then (log (Api c true)
          (set_store (set_md5 id (media_md5 (Some media)) <$> store w)
                     (next_id w) w), Ok tt)
  else (log (Api c false) w, Err notFound).

(** [srv.Files.Delete(id).Do()]: the object is gone for good. *)
Definition Files_Delete (id : Id) : M unit := λ w,
  let c := CallDelete id in
  if api_fails w then (log (Api c false) w, Err apiError)
  else if decide (id ∈ FId <$> store w)
  then (log (Api c true)
          (set_store (filter (λ f, FId f ≠ id) (store w)) (next_id w) w),
        Ok tt)
  else (log (Api c false) w, Err notFound).

(** [os.Open]. *)
Definition os_Open (path : string) : M fentry := λ w,
  match fs w !! path with
  | None => (w, Err ("open " +:+ path +:+ ": no such file or directory"))
  | Some (Unreadable e) => (w, Err e)
  | Some f => (w, Ok f)
  end.

(** ** The program *)

(** The [for _, file := range result.Files] loop of [fetchRemoteFiles];
    [recur] stands for the recursive call. *)
Fixpoint scan_page
    (recur : Id → string → gmap string File → M (gmap string File))
    (path : string) (files : list File) (remoteFiles : gmap string File)
  : M (gmap string File) :=
  match files with
  | [] => ret remoteFiles
  | file :: rest =>
      let remotePath := filepath_Join path (Name file) in
      if decide (isFolder file) then
        let* rf := recur (FId file) remotePath remoteFiles in
        scan_page recur path rest rf
      else scan_page recur path rest (<[remotePath := file]> remoteFiles)
  end.

(** The [for] loop of [fetchRemoteFiles] entered with [pageToken]; each
    listing and each recursive call takes one unit of [fuel]. *)
Fixpoint fetch_from (fuel : nat) (parentID : Id) (path : string)
    (pageToken : nat) (remoteFiles : gmap string File)
  : M (gmap string File) :=
  match fuel with
  | 0 => λ w, (w, Timeout)
  | S k =>
      let* '(files, next) :=
        wrap "unable to list files: "
             (Files_List (InParents parentID) pageToken) in
      let* rf :=
        scan_page (λ id p rf, fetch_from k id p 0 rf) path files remoteFiles in
      if decide (next = 0) then ret rf
      else fetch_from k parentID path next rf
  end.

Definition fetchRemoteFiles (fuel : nat) (parentID : Id) (path : string)
    (remoteFiles : gmap string File) : M (gmap string File) :=
  fetch_from fuel parentID path 0 remoteFiles.

Definition computeMD5 (filePath : string) : M string :=
  let* file := wrap "unable to open file: " (os_Open filePath) in
  match file with
  | Content c => ret (md5hex c)
  | ReadFails e => fail ("unable to compute hash: " +:+ e)
  | Unreadable e => fail ("unable to open file: " +:+ e)
  end.

Definition updateFile (filePath : string) (fileID : Id) : M unit :=
  let* file := wrap "unable to open file: " (os_Open filePath) in
  wrap "unable to update file: " (Files_Update fileID file);;
  printf ("Updated: " +:+ filePath).

Definition createOrGetFolder (folderName : string) (parentID : Id) : M Id :=
  let* '(files, _) :=
    wrap "unable to query folders: "
         (Files_List (FolderNamed folderName parentID) 0) in
  match files with
  | f :: _ => ret (FId f)
  | [] =>
      let* createdFolder :=
        wrap "unable to create folder: "
             (Files_Create folderName folderMime parentID None) in
      ret (FId createdFolder)
  end.

(** [folderCache]: every write is kept, the newest first; a lookup finds
    the newest write of the key. *)
Definition folderCache := list (string * Id).

Fixpoint cache_lookup (key : string) (c : folderCache) : option Id :=
  match c with
  | [] => None
  | (k, id) :: rest => if decide (k = key) then Some id else cache_lookup key rest
  end.

(** The loop of [uploadFile] over [drivePathParts[:len-1]], at index [i]
    with [todo] the parts from [i] on. *)
Fixpoint resolve_parts (drivePathParts : list string) (i : nat)
    (todo : list string) (parentID : Id) (cache : folderCache)
  : M (Id * folderCache) :=
  match todo with
  | [] => ret (parentID, cache)
  | part :: rest =>
      let cacheKey := strings_Join (take (S i) drivePathParts) in
      match cache_lookup cacheKey cache with
      | Some cachedID => resolve_parts drivePathParts (S i) rest cachedID cache
      | None =>
          let* id :=
            wrap ("unable to create or get folder '" +:+ cacheKey +:+ "': ")
                 (createOrGetFolder part parentID) in
          resolve_parts drivePathParts (S i) rest id ((cacheKey, id) :: cache)
      end
  end.

Definition uploadFile (filePath relativePath : string) (parentID : Id)
    (cache : folderCache) : M folderCache :=
  let drivePathParts := strings_Split (filepath_ToSlash relativePath) in
  let* '(parentID, cache) :=
    resolve_parts drivePathParts 0
      (take (length drivePathParts - 1) drivePathParts) parentID cache in
  let fileName := List.last drivePathParts "" in
  let* file := wrap "unable to open file: " (os_Open filePath) in
  wrap "unable to upload file: "
       (Files_Create fileName "" parentID (Some file));;
  printf ("Uploaded: " +:+ filePath);;
  ret cache.

Definition uploadOrUpdateFile (filePath relativePath checksum : string)
    (remoteFiles : gmap string File) (parentID : Id) (cache : folderCache)
  : M folderCache :=
  match remoteFiles !! relativePath with
  | Some remoteFile =>
      if decide (Md5Checksum remoteFile = checksum) then
        printf ("File already exists and is identical: " +:+ relativePath);;
        ret cache
      else
        printf ("Updating file: " +:+ relativePath);;
        updateFile filePath (FId remoteFile);;
        ret cache
  | None =>
      printf ("Uploading new file: " +:+ relativePath);;
      uploadFile filePath relativePath parentID cache
  end.

Fixpoint delete_loop (localFiles : gmap string string)
    (items : list (string * File)) : M unit :=
  match items with
  | [] => ret tt
  | (remotePath, remoteFile) :: rest =>
      match localFiles !! remotePath with
      | Some _ => delete_loop localFiles rest
      | None =>
          printf ("Deleting remote file: " +:+ remotePath);;
          wrap ("failed to delete file " +:+ remotePath +:+ ": ")
               (Files_Delete (FId remoteFile));;
          delete_loop localFiles rest
      end
  end.

Definition deleteRemoteFiles (localFiles : gmap string string)
    (remoteFiles : gmap string File) : M unit :=
  delete_loop localFiles (rangeFiles remoteFiles).

(** The state the walk function of [syncFiles] closes over and writes. *)
Definition walkState : Type := gmap string string * folderCache.

(** The function [syncFiles] hands to [filepath.Walk]. *)
Definition walkFn (remoteFolderID : Id) (remoteFiles : gmap string File)
    (st : walkState) (v : visit) : M walkState :=
  match v_err v with
  | Some err => fail err
  | None =>
      if v_isDir v then ret st
      else
        let* relativePath :=
          wrap "failed to compute relative path: " (lift (v_rel v)) in
        let* checksum :=
          wrap ("failed to compute checksum for " +:+ v_path v +:+ ": ")
               (computeMD5 (v_path v)) in
        let localFiles := <[relativePath := checksum]> (st.1) in
        let* cache :=
          uploadOrUpdateFile (v_path v) relativePath checksum remoteFiles
                             remoteFolderID (st.2) in
        ret (localFiles, cache)
  end.

(** [filepath.Walk] calls the function on each entry in turn and stops at
    the first error it returns. *)
Fixpoint walk_visits (fn : walkState → visit → M walkState)
    (st : walkState) (visits : list visit) : M walkState :=
  match visits with
  | [] => ret st
  | v :: rest => let* st1 := fn st v in walk_visits fn st1 rest
  end.

(** The entries [filepath.Walk] reports under [root]; a root that is not
    there is one entry with the error of [os.Lstat]. *)
Definition walk_script (root : string) (w : world) : list visit :=
  match walks w !! root with
  | Some vs => vs
  | None =>
      [mkVisit root (Some ("lstat " +:+ root +:+ ": no such file or directory"))
               false (Bad "")]
  end.

Definition filepath_Walk (root : string)
    (fn : walkState → visit → M walkState) (st : walkState) : M walkState :=
  λ w, walk_visits fn st (walk_script root w) (log (WalkDir root) w).

Definition syncFiles (fuel : nat) (localDir : string) (remoteFolderID : Id)
  : M unit :=
  let* remoteFiles :=
    wrap "failed to fetch remote files: "
         (fetchRemoteFiles fuel remoteFolderID "" ∅) in
  let* st := filepath_Walk localDir (walkFn remoteFolderID remoteFiles) (∅, []) in
  wrap "failed to delete remote files: "
       (deleteRemoteFiles (st.1) remoteFiles).

(** *** [main] *)

Definition inputFolderMapPath : string := "dir_map.json".
Definition credFilePath : string := "service-account.json".

Definition os_ReadFile (path : string) : M string := λ w,
  match fs w !! path with
  | None => (w, Err ("open " +:+ path +:+ ": no such file or directory"))
  | Some (Unreadable e) | Some (ReadFails e) => (w, Err e)
  | Some (Content c) => (w, Ok c)
  end.

Definition getDriveService : M unit := λ w,
  wrap "unable to create Drive service: "
       (lift (drive_NewService (fs w !! credFilePath))) w.

(** Runs [m] and hands its error, if any, to the caller as a value. *)
Definition catch {A} (m : M A) : M (result A) := λ w,
  match m w with
  | (w1, Ok a) => (w1, Ok (Good a))
  | (w1, Err e) => (w1, Ok (Bad e))
  | (w1, Timeout) => (w1, Timeout)
  end.

End Program.

(** ** Goroutines *)

(** [main] runs [syncFiles] once per mapping, each in a goroutine of its
    own, on the one Drive service.  A function as a goroutine runs it is
    a tree of calls on the world: it has returned ([Done]), or it makes
    one call ([Atomic], a remote call, a print, the opening of a file)
    and goes on with what the call gave.  Between two calls of a
    goroutine the others can make theirs, so each call finds the world
    that the calls made in between have left. *)
Inductive prog (A : Type) : Type :=
| Done (r : res A)
| Atomic {X : Type} (a : M X) (k : res X → prog A).
Arguments Done {A} r.
Arguments Atomic {A X} a k.

(** The function run on its own, without a pause. *)
Fixpoint run {A} (p : prog A) : M A :=
  match p with
  | Done r => λ w, (w, r)
  | Atomic a k => λ w, let '(w1, r) := a w in run (k r) w1
  end.

(** The functions of the program once more, with the same text, as such
    trees; run on its own each of them is the function of the same name
    above. *)
Module Steps.

Definition atom {A} (a : M A) : prog A := Atomic a Done.
Definition ret {A} (a : A) : prog A := Done (Ok a).
Definition fail {A} (e : string) : prog A := Done (Err e).
Definition timeout {A} : prog A := Done Timeout.

Fixpoint bind {A B} (p : prog A) (k : A → prog B) : prog B :=
  match p with
  | Done (Ok a) => k a
  | Done (Err e) => Done (Err e)
  | Done Timeout => Done Timeout
  | Atomic a k1 => Atomic a (λ r, bind (k1 r) k)
  end.

Fixpoint wrap {A} (msg : string) (p : prog A) : prog A :=
  match p with
  | Done (Err e) => Done (Err (msg +:+ e))
  | Done r => Done r
  | Atomic a k => Atomic a (λ r, wrap msg (k r))
  end.

Fixpoint catch {A} (p : prog A) : prog (result A) :=
  match p with
  | Done (Ok a) => Done (Ok (Good a))
  | Done (Err e) => Done (Ok (Bad e))
  | Done Timeout => Done Timeout
  | Atomic a k => Atomic a (λ r, catch (k r))
  end.

Definition lift {A} (r : result A) : prog A :=
  match r with Good a => ret a | Bad e => fail e end.

Declare Scope steps_scope.
Notation "'let*' x ':=' m 'in' k" := (bind m (λ x, k))
  (at level 10, x name, m at level 100, k at level 200, only parsing)
  : steps_scope.
Notation "'let*' ' p ':=' m 'in' k" :=
  (bind m (λ x, match x with p => k end))
  (at level 10, p pattern, m at level 100, k at level 200, only parsing)
  : steps_scope.
Notation "m ;; k" := (bind m (λ _, k))
  (at level 100, k at level 200, right associativity, only parsing)
  : steps_scope.
#[local] Open Scope steps_scope.

Section Calls.
Context `{Platform}.

Definition printf (line : string) : prog unit := atom (printf line).
Definition Files_List (q : query) (tok : nat) : prog (list File * nat) :=
  atom (Files_List q tok).
Definition Files_Create (name mime : string) (parent : Id)
    (media : option fentry) : prog File :=
  atom (Files_Create name mime parent media).
Definition Files_Update (id : Id) (media : fentry) : prog unit :=
  atom (Files_Update id media).
Definition Files_Delete (id : Id) : prog unit := atom (Files_Delete id).
Definition os_Open (path : string) : prog fentry := atom (os_Open path).

Fixpoint scan_page
    (recur : Id → string → gmap string File → prog (gmap string File))
    (path : string) (files : list File) (remoteFiles : gmap string File)
  : prog (gmap string File) :=
  match files with
  | [] => ret remoteFiles
  | file :: rest =>
      let remotePath := filepath_Join path (Name file) in
      if decide (isFolder file) then
        let* rf := recur (FId file) remotePath remoteFiles in
        scan_page recur path rest rf
      else scan_page recur path rest (<[remotePath := file]> remoteFiles)
  end.

Fixpoint fetch_from (fuel : nat) (parentID : Id) (path : string)
    (pageToken : nat) (remoteFiles : gmap string File)
  : prog (gmap string File) :=
  match fuel with
  | 0 => timeout
  | S k =>
      let* '(files, next) :=
        wrap "unable to list files: "
             (Files_List (InParents parentID) pageToken) in
      let* rf :=
        scan_page (λ id p rf, fetch_from k id p 0 rf) path files remoteFiles in
      if decide (next = 0) then ret rf
      else fetch_from k parentID path next rf
  end.

Definition fetchRemoteFiles (fuel : nat) (parentID : Id) (path : string)
    (remoteFiles : gmap string File) : prog (gmap string File) :=
  fetch_from fuel parentID path 0 remoteFiles.

Definition computeMD5 (filePath : string) : prog string :=
  let* file := wrap "unable to open file: " (os_Open filePath) in
  match file with
  | Content c => ret (md5hex c)
  | ReadFails e => fail ("unable to compute hash: " +:+ e)
  | Unreadable e => fail ("unable to open file: " +:+ e)
  end.

Definition updateFile (filePath : string) (fileID : Id) : prog unit :=
  let* file := wrap "unable to open file: " (os_Open filePath) in
  wrap "unable to update file: " (Files_Update fileID file);;
  printf ("Updated: " +:+ filePath).

Definition createOrGetFolder (folderName : string) (parentID : Id)
  : prog Id :=
  let* '(files, _) :=
    wrap "unable to query folders: "
         (Files_List (FolderNamed folderName parentID) 0) in
  match files with
  | f :: _ => ret (FId f)
  | [] =>
      let* createdFolder :=
        wrap "unable to create folder: "
             (Files_Create folderName folderMime parentID None) in
      ret (FId createdFolder)
  end.

Fixpoint resolve_parts (drivePathParts : list string) (i : nat)
    (todo : list string) (parentID : Id) (cache : folderCache)
  : prog (Id * folderCache) :=
  match todo with
  | [] => ret (parentID, cache)
  | part :: rest =>
      let cacheKey := strings_Join (take (S i) drivePathParts) in
      match cache_lookup cacheKey cache with
      | Some cachedID => resolve_parts drivePathParts (S i) rest cachedID cache
      | None =>
          let* id :=
            wrap ("unable to create or get folder '" +:+ cacheKey +:+ "': ")
                 (createOrGetFolder part parentID) in
          resolve_parts drivePathParts (S i) rest id ((cacheKey, id) :: cache)
      end
  end.

Definition uploadFile (filePath relativePath : string) (parentID : Id)
    (cache : folderCache) : prog folderCache :=
  let drivePathParts := strings_Split (filepath_ToSlash relativePath) in
  let* '(parentID, cache) :=
    resolve_parts drivePathParts 0
      (take (length drivePathParts - 1) drivePathParts) parentID cache in
  let fileName := List.last drivePathParts "" in
  let* file := wrap "unable to open file: " (os_Open filePath) in
  wrap "unable to upload file: "
       (Files_Create fileName "" parentID (Some file));;
  printf ("Uploaded: " +:+ filePath);;
  ret cache.

Definition uploadOrUpdateFile (filePath relativePath checksum : string)
    (remoteFiles : gmap string File) (parentID : Id) (cache : folderCache)
  : prog folderCache :=
  match remoteFiles !! relativePath with
  | Some remoteFile =>
      if decide (Md5Checksum remoteFile = checksum) then
        printf ("File already exists and is identical: " +:+ relativePath);;
        ret cache
      else
        printf ("Updating file: " +:+ relativePath);;
        updateFile filePath (FId remoteFile);;
        ret cache
  | None =>
      printf ("Uploading new file: " +:+ relativePath);;
      uploadFile filePath relativePath parentID cache
  end.

Fixpoint delete_loop (localFiles : gmap string string)
    (items : list (string * File)) : prog unit :=
  match items with
  | [] => ret tt
  | (remotePath, remoteFile) :: rest =>
      match localFiles !! remotePath with
      | Some _ => delete_loop localFiles rest
      | None =>
          printf ("Deleting remote file: " +:+ remotePath);;
          wrap ("failed to delete file " +:+ remotePath +:+ ": ")
               (Files_Delete (FId remoteFile));;
          delete_loop localFiles rest
      end
  end.

Definition deleteRemoteFiles (localFiles : gmap string string)
    (remoteFiles : gmap string File) : prog unit :=
  delete_loop localFiles (rangeFiles remoteFiles).

Definition walkFn (remoteFolderID : Id) (remoteFiles : gmap string File)
    (st : walkState) (v : visit) : prog walkState :=
  match v_err v with
  | Some err => fail err
  | None =>
      if v_isDir v then ret st
      else
        let* relativePath :=
          wrap "failed to compute relative path: " (lift (v_rel v)) in
        let* checksum :=
          wrap ("failed to compute checksum for " +:+ v_path v +:+ ": ")
               (computeMD5 (v_path v)) in
        let localFiles := <[relativePath := checksum]> (st.1) in
        let* cache :=
          uploadOrUpdateFile (v_path v) relativePath checksum remoteFiles
                             remoteFolderID (st.2) in
        ret (localFiles, cache)
  end.

Fixpoint walk_visits (fn : walkState → visit → prog walkState)
    (st : walkState) (visits : list visit) : prog walkState :=
  match visits with
  | [] => ret st
  | v :: rest => let* st1 := fn st v in walk_visits fn st1 rest
  end.

(** [filepath.Walk] reads the entries under [root] when it starts. *)
Definition filepath_Walk (root : string)
    (fn : walkState → visit → prog walkState) (st : walkState)
  : prog walkState :=
  let* visits :=
    atom (λ w, (log (WalkDir root) w, Ok (walk_script root w))) in
  walk_visits fn st visits.

Definition syncFiles (fuel : nat) (localDir : string) (remoteFolderID : Id)
  : prog unit :=
  let* remoteFiles :=
    wrap "failed to fetch remote files: "
         (fetchRemoteFiles fuel remoteFolderID "" ∅) in
  let* st := filepath_Walk localDir (walkFn remoteFolderID remoteFiles) (∅, []) in
  wrap "failed to delete remote files: "
       (deleteRemoteFiles (st.1) remoteFiles).

(** What the goroutine does with the outcome of its [syncFiles]. *)
Definition report (localDir : string) (r : result unit) : prog unit :=
  match r with
  | Bad err => printf ("Error syncing files for " +:+ localDir +:+ ": " +:+ err)
  | Good _ => ret tt
  end.

(** The function [main] starts as a goroutine for one mapping. *)
Definition goroutine (fuel : nat) (mapping : string * Id) : prog unit :=
  let '(localDir, remoteFolderID) := mapping in
  printf ("Syncing " +:+ localDir +:+ " with folder ID " +:+ pretty remoteFolderID);;
  let* r := catch (syncFiles fuel localDir remoteFolderID) in
  report localDir r.

End Calls.
End Steps.

(** The goroutine [i] of the goroutines [c.2] of [main] makes its next
    call, if it has one left. *)
Definition step (i : nat) (c : world * list (prog unit))
  : world * list (prog unit) :=
  match c.2 !! i with
  | Some (Atomic a k) => let '(w1, r) := a (c.1) in (w1, <[i := k r]> (c.2))
  | _ => c
  end.

(** The goroutines take their steps in the order of [sched]. *)
Definition interleave (sched : list nat) (c : world * list (prog unit))
  : world * list (prog unit) :=
  foldl (λ c i, step i c) c sched.

(** The goroutine has returned, and its [wg.Done()] has run. *)
Definition returned {A} (p : prog A) : bool :=
  match p with
  | Done (Ok _) | Done (Err _) => true
  | _ => false
  end.

(** [wg.Wait()] after the goroutines [gs] were started: it returns once
    all of them have returned.  After the steps of [sched] they have, or
    [main] is still waiting for one that has calls left or ran out of
    fuel. *)
Definition wg_Wait (sched : list nat) (gs : list (prog unit)) : M unit := λ w,
  let '(w1, ps) := interleave sched (w, gs) in
  if forallb returned ps then (w1, Ok tt) else (w1, Timeout).

Section Main.
Context `{Platform}.

(** [main]; the value is the exit status of the process.  The mappings
    come in the order the loop of [main] ranges over the map, which is
    any; [sched] is the order in which the scheduler lets the goroutines
    make their calls. *)
Definition main (fuel : nat) (sched : list nat) : M nat :=
  let* bx := catch (os_ReadFile inputFolderMapPath) in
  match bx with
  | Bad err =>
      printf ("Error reading input folder map: " +:+ err);; ret 1
  | Good bx =>
      match json_Unmarshal bx with
      | Bad err =>
          printf ("Error unmarshaling input folder map: " +:+ err);; ret 1
      | Good localServerDirMap =>
          let* srv := catch getDriveService in
          match srv with
          | Bad err =>
              printf ("Error creating Drive service: " +:+ err);; ret 1
          | Good _ =>
              wg_Wait sched (Steps.goroutine fuel <$> localServerDirMap);;
              printf "Sync completed successfully!";;
              ret 0
          end
      end
  end.

End Main.

(** ** Observations on a run *)

Definition is_list (e : event) : bool :=
  match e with Api (CallList _ _) _ => true | _ => false end.
Definition is_create (e : event) : bool :=
  match e with Api (CallCreate _ _ _ _) _ => true | _ => false end.
Definition is_update (e : event) : bool :=
  match e with Api (CallUpdate _ _) _ => true | _ => false end.
Definition is_delete (e : event) : bool :=
  match e with Api (CallDelete _) _ => true | _ => false end.
Definition is_write (e : event) : bool :=
  is_create e || is_update e || is_delete e.

(** The lookup and the create call of [createOrGetFolder]. *)
Definition is_folder_lookup (e : event) : bool :=
  match e with Api (CallList (FolderNamed _ _) _) _ => true | _ => false end.
Definition is_folder_create (e : event) : bool :=
  match e with Api (CallCreate _ _ _ None) _ => true | _ => false end.

(** The events of [w'] that [w] does not have yet. *)
Definition new_events (w w' : world) : list event :=
  drop (length (trace w)) (trace w').

(** What a call does to the Drive, given as its objects and the id of the
    next one: nothing unless it succeeded. *)
Definition replay_event `{Platform} (d : list File * Id) (e : event) :
    list File * Id :=
  match e with
  | Api (CallCreate name mime parent media) true =>
      (d.1 ++ [mkFile d.2 name
                      (if decide (mime = "") then uploadMime else mime)
                      (media_md5 media) parent false], S d.2)
  | Api (CallUpdate id media) true =>
      (set_md5 id (media_md5 (Some media)) <$> d.1, d.2)
  | Api (CallDelete id) true => (filter (λ f, FId f ≠ id) d.1, d.2)
  | _ => d
  end.

Definition replay `{Platform} (evs : list event) (d : list File * Id) :
    list File * Id :=
  foldl replay_event d evs.

(** [w'] is [w] after the calls [evs]: the Drive of [w'] is the Drive of
    [w] with the calls that succeeded applied in order, and what the
    program cannot change is the same. *)
Definition extends `{Platform} (w w' : world) (evs : list event) : Prop :=
  trace w' = trace w ++ evs ∧ faults w' = faults w ∧
  pageSize w' = pageSize w ∧ fs w' = fs w ∧ walks w' = walks w ∧
  (store w', next_id w') = replay evs (store w, next_id w).

(** Every call [m] makes satisfies [P]. *)
Definition emits `{Platform} {A} (P : event → Prop) (m : M A) : Prop :=
  ∀ w w' r, m w = (w', r) → ∃ evs, extends w w' evs ∧ Forall P evs.

(** [m] leaves the Drive as it is. *)
Definition keeps_store {A} (m : M A) : Prop :=
  ∀ w w' r, m w = (w', r) → store w' = store w ∧ next_id w' = next_id w.

(** The ids of the delete calls, in the order they were made. *)
Definition delete_calls (evs : list event) : list Id :=
  omap (λ e, match e with Api (CallDelete id) _ => Some id | _ => None end)
       evs.

(** The entries of the remote index whose path the local index lacks. *)
Definition orphans (localFiles : gmap string string)
    (remoteFiles : gmap string File) : list (string * File) :=
  filter (λ pf, localFiles !! pf.1 = None) (map_to_list remoteFiles).

(** [rel] is the relative path of a regular file among the visits. *)
Definition visited_file (visits : list visit) (rel : string) : Prop :=
  ∃ v, v ∈ visits ∧ v_err v = None ∧ v_isDir v = false ∧ v_rel v = Good rel.

(** Startup of [main] fails: the mapping file cannot be read or parsed,
    or the Drive service cannot be created. *)
Definition startup_fails `{Platform} (w : world) : Prop :=
  match fs w !! inputFolderMapPath with
  | Some (Content bx) =>
      match json_Unmarshal bx with
      | Bad _ => True
      | Good _ =>
          match drive_NewService (fs w !! credFilePath) with
          | Bad _ => True
          | Good _ => False
          end
      end
  | _ => True
  end.

(** Startup of [main] succeeds with the mappings [ms]. *)
Definition startup_ok `{Platform} (w : world) (ms : list (string * Id)) : Prop :=
  ∃ bx, fs w !! inputFolderMapPath = Some (Content bx) ∧
        json_Unmarshal bx = Good ms ∧
        drive_NewService (fs w !! credFilePath) = Good tt.


(** ** The remote tree, as the scan sees it *)

Global Instance isFolder_dec f : Decision (isFolder f).
Proof. unfold isFolder. apply _. Defined.

(** What a listing of the folder [pid] returns, all pages together. *)
Definition children (s : list File) (pid : Id) : list File :=
  filter (matches (InParents pid)) s.

(** [entry_from s pid prefix path f]: below the folder [pid], whose own
    path is [prefix], the file [f] (not a folder) has the path [path]. *)
Inductive entry_from (s : list File) : Id → string → string → File → Prop :=
| entry_here pid prefix f :
    f ∈ children s pid → ¬ isFolder f →
    entry_from s pid prefix (filepath_Join prefix (Name f)) f
| entry_below pid prefix d path f :
    d ∈ children s pid → isFolder d →
    entry_from s (FId d) (filepath_Join prefix (Name d)) path f →
    entry_from s pid prefix path f.

(** The file [f] has the path [path] relative to the folder [root]. *)
Definition remote_file (s : list File) (root : Id) (path : string) (f : File)
  : Prop := entry_from s root "" path f.

(** The calls of a scan of the folder [parent] from the page [tok] on, in a
    Drive [s] that lists [n] entries per page: the listing of the page,
    then the scans of the folders on that page, in the order of the page,
    then, if there is a next page, the same from that page on. *)
#[warnings="-register-all"]
Inductive scan_trace (s : list File) (n : nat) : Id → nat → list event → Prop :=
| scan_last_page parent tok files subs :
    page_of n tok (children s parent) = (files, 0) →
    Forall2 (λ d evs, scan_trace s n (FId d) 0 evs) (filter isFolder files) subs →
    scan_trace s n parent tok
      (Api (CallList (InParents parent) tok) true :: concat subs)
| scan_more_pages parent tok files next subs rest :
    page_of n tok (children s parent) = (files, next) →
    next ≠ 0 →
    Forall2 (λ d evs, scan_trace s n (FId d) 0 evs) (filter isFolder files) subs →
    scan_trace s n parent next rest →
    scan_trace s n parent tok
      (Api (CallList (InParents parent) tok) true :: concat subs ++ rest).

(** [entry_via s c prefix path f]: the entry [c] of a listing of the
    folder with path [prefix] is the file [f] at [path], or a folder that
    has it below. *)
Definition entry_via (s : list File) (c : File) (prefix path : string)
    (f : File) : Prop :=
  (¬ isFolder c ∧ path = filepath_Join prefix (Name c) ∧ f = c) ∨
  (isFolder c ∧ entry_from s (FId c) (filepath_Join prefix (Name c)) path f).

(** A scan that succeeds, as a relation: [scanned s n parent path tok rf
    rf' evs] when [fetchRemoteFiles], entered at the page [tok] of the
    folder [parent] with the index [rf], returns the index [rf'] after the
    calls [evs]; [scanned_page] is its loop over one page. *)
Inductive scanned (s : list File) (n : nat)
  : Id → string → nat → gmap string File → gmap string File → list event
    → Prop :=
| scanned_last parent path tok files rf rf' evs :
    page_of n tok (children s parent) = (files, 0) →
    scanned_page s n path files rf rf' evs →
    scanned s n parent path tok rf rf'
      (Api (CallList (InParents parent) tok) true :: evs)
| scanned_more parent path tok files next rf rf1 rf' evs1 evs2 :
    page_of n tok (children s parent) = (files, next) →
    next ≠ 0 →
    scanned_page s n path files rf rf1 evs1 →
    scanned s n parent path next rf1 rf' evs2 →
    scanned s n parent path tok rf rf'
      (Api (CallList (InParents parent) tok) true :: evs1 ++ evs2)
with scanned_page (s : list File) (n : nat)
  : string → list File → gmap string File → gmap string File → list event
    → Prop :=
| scanned_nil path rf : scanned_page s n path [] rf rf []
| scanned_folder path d rest rf rf1 rf' evs1 evs2 :
    isFolder d →
    scanned s n (FId d) (filepath_Join path (Name d)) 0 rf rf1 evs1 →
    scanned_page s n path rest rf1 rf' evs2 →
    scanned_page s n path (d :: rest) rf rf' (evs1 ++ evs2)
| scanned_file path f rest rf rf' evs :
    ¬ isFolder f →
    scanned_page s n path rest (<[filepath_Join path (Name f) := f]> rf) rf' evs →
    scanned_page s n path (f :: rest) rf rf' evs.

Scheme scanned_mut := Minimality for scanned Sort Prop
  with scanned_page_mut := Minimality for scanned_page Sort Prop.


(** The reading of C6 that the code does not satisfy: in a scan that
    succeeds, every listing call for the parent of a folder comes before
    every listing call for that folder. *)
Definition parent_pages_before_child (fuel : nat) (root : Id) (w : world)
  : Prop :=
  ∀ w' rf d i j tok tok',
    fetchRemoteFiles fuel root "" ∅ w = (w', Ok rf) →
    d ∈ store w → isFolder d →
    new_events w w' !! i
      = Some (Api (CallList (InParents (Parent d)) tok) true) →
    new_events w w' !! j
      = Some (Api (CallList (InParents (FId d)) tok') true) →
    i < j.

(** The reading of C7 that the code does not satisfy: a folder right under
    the root makes its path present in the remote index. *)
Definition folder_counts_as_present (fuel : nat) (root : Id) (w : world)
  : Prop :=
  ∀ w' rf d,
    fetchRemoteFiles fuel root "" ∅ w = (w', Ok rf) →
    d ∈ children (store w) root → isFolder d →
    is_Some (rf !! filepath_Join "" (Name d)).


(** ** Folder resolution *)

(** The cache keys of the ancestor directories of a relative path: the
    joins of the proper prefixes of its parts. *)
Definition dir_keys (rel : string) : list string :=
  let parts := strings_Split (filepath_ToSlash rel) in
  (λ j, strings_Join (take (S j) parts)) <$> seq 0 (length parts - 1).

(** The relative paths of the regular files among the visits. *)
Definition file_rels (visits : list visit) : list string :=
  omap (λ v, match v_err v, v_isDir v, v_rel v with
             | None, false, Good rel => Some rel
             | _, _, _ => None
             end) visits.

(** The distinct ancestor directory paths of the files visited. *)
Definition walk_dirs (visits : list visit) : gset string :=
  list_to_set (file_rels visits ≫= dir_keys).

Definition folder_lookups (evs : list event) : nat :=
  length (filter (λ e, is_folder_lookup e = true) evs).
Definition folder_creates (evs : list event) : nat :=
  length (filter (λ e, is_folder_create e = true) evs).


(** ** Well-formed Drives and local walks *)

(** [reach s pid0 q0 pid q]: going down from the folder [pid0], whose path
    is [q0], through folders the listings show, one arrives at the folder
    [pid], whose path is [q]. *)
Inductive reach (s : list File) (pid0 : Id) (q0 : string)
  : Id → string → Prop :=
| reach_here : reach s pid0 q0 pid0 q0
| reach_step pid q d :
    reach s pid0 q0 pid q → d ∈ children s pid → isFolder d →
    reach s pid0 q0 (FId d) (filepath_Join q (Name d)).

(** Two records of the same object that differ at most in the digest. *)
Definition same_meta (g0 g : File) : Prop :=
  FId g0 = FId g ∧ Name g0 = Name g ∧ MimeType g0 = MimeType g ∧
  Parent g0 = Parent g ∧ Trashed g0 = Trashed g.

(** Ids are unique and older than the next fresh one, as is every parent
    and the root; the store holds what is below the root, not the root
    itself. *)
Definition wf_drive (root : Id) (s : list File) (n : Id) : Prop :=
  NoDup (FId <$> s) ∧
  (∀ f, f ∈ s → FId f < n ∧ Parent f < n) ∧
  root < n ∧ root ∉ FId <$> s.

(** Splitting a relative path at the slashes and joining the parts again
    with [filepath.Join] gives the path back. *)
Definition canonical (rel : string) : Prop :=
  foldl filepath_Join "" (strings_Split (filepath_ToSlash rel)) = rel.

(** The regular files of a walk have distinct, canonical relative
    paths. *)
Definition tidy_walk (visits : list visit) : Prop :=
  NoDup (file_rels visits) ∧ Forall canonical (file_rels visits).

(** No two remote files have the same path. *)
Definition unique_paths (s : list File) (root : Id) : Prop :=
  ∀ p f f', remote_file s root p f → remote_file s root p f' → f = f'.


Fixpoint noslash (s : string) : Prop :=
  match s with
  | EmptyString => True
  | String c s' => c ≠ slash ∧ noslash s'
  end.

(** The path a cache key stands for. *)
Definition key_path (key : string) : string :=
  foldl filepath_Join "" (strings_Split key).

(** What holds of the Drive [s], its next id [n] and the state [st] of the
    walk at every point of the walk of a run that started in the Drive
    [s0] with next id [n0] and scanned the index [rf]. *)
Record walk_inv (root : Id) (s0 : list File) (n0 : Id)
    (rf : gmap string File) (s : list File) (n : Id) (st : walkState)
  : Prop := {
  inv_wf : wf_drive root s n;
  inv_age : n0 ≤ n;
  (* nothing was removed, and no object changed but in its digest *)
  inv_kept : ∀ g0, g0 ∈ s0 → ∃ g, g ∈ s ∧ same_meta g0 g;
  inv_old : ∀ g, g ∈ s → FId g < n0 → ∃ g0, g0 ∈ s0 ∧ same_meta g0 g;
  (* a cached id is the folder at the path of its key *)
  inv_cache : ∀ k id, (k, id) ∈ st.2 → reach s root "" id (key_path k);
  (* index entries of paths not visited yet are as they were *)
  inv_untouched : ∀ p f0, rf !! p = Some f0 → st.1 !! p = None → f0 ∈ s;
  (* every path visited has a file with the local digest: the one of the
     index, or a new one *)
  inv_local : ∀ rel h, st.1 !! rel = Some h →
    ∃ f, remote_file s root rel f ∧ Md5Checksum f = h ∧
         ((∃ f0, rf !! rel = Some f0 ∧ FId f0 = FId f) ∨ n0 ≤ FId f);
  (* with unique paths, every file is an untouched old one at a path not
     visited, or has the local digest of its path *)
  inv_all : unique_paths s0 root →
    ∀ p g, remote_file s root p g →
      (st.1 !! p = None ∧ remote_file s0 root p g) ∨
      st.1 !! p = Some (Md5Checksum g)
}.

Definition set_faults (fl : list nat) (w : world) : world :=
  mkWorld (store w) (next_id w) (pageSize w) fl (trace w) (out w) (fs w)
          (walks w).

(** C1 as stated: after a run that succeeds, every path of the local
    index has a remote file with the digest the index holds, and no
    remote file seen at scan time at a path the local index lacks is
    still there. *)
Definition converges_as_stated `{Platform}
    (fuel : nat) (localDir : string) (root : Id) (w : world) : Prop :=
  ∀ w1 rf w2 st w',
    fetchRemoteFiles fuel root "" ∅ w = (w1, Ok rf) →
    filepath_Walk localDir (walkFn root rf) (∅, []) w1 = (w2, Ok st) →
    syncFiles fuel localDir root w = (w', Ok tt) →
    (∀ rel h, st.1 !! rel = Some h →
       ∃ f, remote_file (store w') root rel f ∧ Md5Checksum f = h) ∧
    (∀ p f, remote_file (store w) root p f → st.1 !! p = None →
            FId f ∉ FId <$> store w').

(** C4 as stated, its second half: the delete pass of a run that succeeds
    has made a delete call for every remote file found at scan time at a
    path that the local index lacks. *)
Definition deletes_unobserved_as_stated `{Platform}
    (fuel : nat) (localDir : string) (root : Id) (w : world) : Prop :=
  ∀ w1 rf w2 st w',
    fetchRemoteFiles fuel root "" ∅ w = (w1, Ok rf) →
    filepath_Walk localDir (walkFn root rf) (∅, []) w1 = (w2, Ok st) →
    syncFiles fuel localDir root w = (w', Ok tt) →
    ∀ p f, remote_file (store w) root p f → st.1 !! p = None →
           FId f ∈ delete_calls (new_events w w').

(** C2 as stated: a second run right after a run that succeeded, on the
    same local tree, makes no create, update or delete call, whatever
    calls fail in it. *)
Definition second_run_silent_as_stated `{Platform}
    (fuel : nat) (localDir : string) (root : Id) (w : world) : Prop :=
  ∀ w1 fl fuel2 w2 r2,
    syncFiles fuel localDir root w = (w1, Ok tt) →
    syncFiles fuel2 localDir root (set_faults fl w1) = (w2, r2) →
    Forall (λ e, is_write e = false) (new_events (set_faults fl w1) w2).


(** The folders of [s] form a forest: [rank] decreases from a folder to
    the folders in it. *)
Definition ranked (s : list File) (rank : Id → nat) : Prop :=
  ∀ d, d ∈ s → isFolder d → rank (FId d) < rank (Parent d).

(** Fuel that lets the scan of a folder of rank at most [r] return, from
    the page [tok] of its [len] entries on. *)
Definition scan_budget (s : list File) (r len tok : nat) : nat :=
  len - tok + S (r * S (length s)).


(** ** Kinds of calls and of steps *)

(** A listing of the children of a folder, as the scan makes them. *)
Definition list_only (e : event) : Prop :=
  ∃ parent tok ok, e = Api (CallList (InParents parent) tok) ok.
Definition no_delete (e : event) : Prop := is_delete e = false.
Definition delete_only (e : event) : Prop := is_delete e = true.

(** [evs] has one folder lookup per key of [att] and at most as many
    folder creations. *)
Definition counted (evs : list event) (att : list string) : Prop :=
  folder_lookups evs = length att ∧ folder_creates evs ≤ length att.

(** A step that makes no folder call. *)
Definition quiet `{Platform} {A} (m : M A) : Prop :=
  emits (λ e, is_folder_lookup e = false ∧ is_folder_create e = false) m.

(** The keys [att] were looked up for entries [from .. from + n) of the
    parts, none of them was in the cache, and none twice. *)
Definition fresh_keys (parts : list string) (from n : nat)
    (cache : folderCache) (att : list string) : Prop :=
  NoDup att ∧
  ∀ k, k ∈ att →
       (k ∉ cache.*1) ∧
       ∃ j, from ≤ j < from + n ∧ k = strings_Join (take (S j) parts).

(** What one call resolved: the keys [att], none of them in the cache
    before, none twice, all of them ancestor directories of [rels]. *)
Definition resolved (rels : list string) (cache : folderCache)
    (att : list string) : Prop :=
  NoDup att ∧
  ∀ k, k ∈ att → (k ∉ cache.*1) ∧ (k ∈ rels ≫= dir_keys).

(** [m] never runs out of fuel: only the remote scan can. *)
Definition halts {A} (m : M A) : Prop := ∀ w w', m w ≠ (w', Timeout).

(** Not a create, update or delete call. *)
Definition silent (e : event) : Prop := is_write e = false.

(** The index [rf] has, for every regular file of [visits] whose content
    can be read, a file with the digest of that content. *)
Definition in_sync `{Platform} (F : gmap string fentry) (rf : gmap string File)
    (visits : list visit) : Prop :=
  ∀ v rel c, v ∈ visits → v_isDir v = false → v_rel v = Good rel →
             F !! v_path v = Some (Content c) →
             ∃ g, rf !! rel = Some g ∧ Md5Checksum g = md5hex c.

(** ** Further observations *)

(** A listing of the children of a folder that succeeded, that failed. *)
Definition ok_listing (e : event) : Prop :=
  ∃ parent tok, e = Api (CallList (InParents parent) tok) true.
Definition failed_listing (e : event) : Prop :=
  ∃ parent tok, e = Api (CallList (InParents parent) tok) false.

(** What a scan leaves, by its outcome: nothing printed, the Drive as it
    was, listings only, all of which succeeded but the last one of a scan that
    fails. *)
Definition scan_outcome `{Platform} {A} (w w' : world) (r : res A) : Prop :=
  out w' = out w ∧ store w' = store w ∧ next_id w' = next_id w ∧
  ∃ evs, extends w w' evs ∧
    match r with
    | Err e =>
        e = "unable to list files: " +:+ apiError ∧
        ∃ pre last, evs = pre ++ [last] ∧ Forall ok_listing pre ∧
                    failed_listing last
    | _ => Forall ok_listing evs
    end.

(** A name that [filepath.Clean] keeps as it is: not empty, no slash, not
    [.] or [..]. *)
Definition plain (s : string) : Prop :=
  noslash s ∧ s ≠ "" ∧ s ≠ "." ∧ s ≠ "..".

(** The ids of the entries of the remote index whose path the local index
    lacks. *)
Definition orphan_ids (localFiles : gmap string string)
    (remoteFiles : gmap string File) : list Id :=
  (λ pf, FId pf.2) <$> orphans localFiles remoteFiles.

(** The call [e] updates or deletes the object [id]. *)
Definition touches (id : Id) (e : event) : Prop :=
  (∃ media ok, e = Api (CallUpdate id media) ok) ∨
  (∃ ok, e = Api (CallDelete id) ok).

(** Every object that [e] updates or deletes is an entry of the index. *)
Definition aims_at (remoteFiles : gmap string File) (e : event) : Prop :=
  ∀ id, touches id e → ∃ p f, remoteFiles !! p = Some f ∧ FId f = id.

(** [rel] is the relative path of a regular file of the visits whose
    content has the digest [h]. *)
Definition local_digest `{Platform} (F : gmap string fentry)
    (visits : list visit) (rel h : string) : Prop :=
  ∃ v c, v ∈ visits ∧ v_isDir v = false ∧ v_rel v = Good rel ∧
         F !! v_path v = Some (Content c) ∧ h = md5hex c.

(** A name that a query holds as it is between its quotes: no quote in
    it, and no backslash, the escape character of the query language. *)
Fixpoint literal (s : string) : bool :=
  match s with
  | EmptyString => true
  | String c s' =>
      negb (bool_decide (c = "'"%char)) &&
      negb (bool_decide (c = "\"%char)) && literal s'
  end.

(** The directories of a relative path have such names. *)
Definition literal_dirs (rel : string) : Prop :=
  let parts := strings_Split (filepath_ToSlash rel) in
  Forall (λ part, literal part = true) (take (length parts - 1) parts).

(** An entry of a walk that the walk function can handle: the walk reports
    no error for it and, when it is a regular file, its relative path can
    be computed, its directories have names a query can hold and its
    content can be read. *)
Definition readable (F : gmap string fentry) (v : visit) : Prop :=
  v_err v = None ∧
  (v_isDir v = false →
   ∃ rel c, v_rel v = Good rel ∧ literal_dirs rel ∧
            F !! v_path v = Some (Content c)).

(** ** Goroutines *)

(** A schedule that lets each of [n] goroutines take a step again and
    again. *)
Definition fair (n : nat) (σ : nat → nat) : Prop :=
  ∀ i k, i < n → ∃ m, k ≤ m ∧ σ m = i.

(** [q] is a place [p] can get to. *)
Fixpoint reaches {A} (p q : prog A) : Prop :=
  q = p ∨
  match p with
  | Done _ => False
  | Atomic a k => ∃ w, reaches (k (a w).2) q
  end.

(** Wherever [p] ends, it ends with a result in [P]. *)
Fixpoint ends_in {A} (P : res A → Prop) (p : prog A) : Prop :=
  match p with
  | Done r => P r
  | Atomic a k => ∀ w, ends_in P (k (a w).2)
  end.

(** ** Fuel for goroutines *)

(** The calls a goroutine makes for one entry of its walk can create as
    many objects as the relative path of a regular file has parts: its
    folders and the file. *)
Definition visit_cost (v : visit) : nat :=
  match v_err v, v_isDir v, v_rel v with
  | None, false, Good rel => length (strings_Split (filepath_ToSlash rel))
  | _, _, _ => 0
  end.
Definition walk_cost (visits : list visit) : nat :=
  sum_list (visit_cost <$> visits).

(** A run that starts with the next id [start_id], [start_len] objects
    and the walks [start_walks], and in which at most [max_new] objects
    can be created; [start_rank] ranks the folders there are at the
    start. *)
Class Budget : Type := {
  start_id : nat;
  max_new : nat;
  start_len : nat;
  start_rank : Id → nat;
  start_walks : gmap string (list visit)
}.

Section Budget.
Context {budget : Budget}.

(** The rank extended to the folders the run makes: they are below the
    old ones, and a newer one is below an older one. *)
Definition run_rank (id : Id) : nat :=
  if decide (id < start_id) then start_rank id + max_new + 1
  else start_id + max_new - id.

(** What holds of the world at every time of the run. *)
Definition steady (w : world) : Prop :=
  ranked (store w) run_rank ∧ (∀ f, f ∈ store w → FId f < next_id w) ∧
  start_id ≤ next_id w ∧ walks w = start_walks.

(** [good post lo c p]: from a time on at which the next id is at least
    [lo], and whatever other calls are made between its own, [p] creates
    at most [c] objects, keeps the world steady, does not run out of fuel,
    and when it returns [x] at a time the next id is at least [lo'] and
    [c'] of the [c] are left, [post lo' c' x] holds. *)
Fixpoint good {A} (post : nat → nat → A → Prop) (lo c : nat) (p : prog A)
  : Prop :=
  match p with
  | Done (Ok x) => post lo c x
  | Done (Err _) => True
  | Done Timeout => False
  | Atomic a k =>
      ∀ w, steady w → lo ≤ next_id w →
           next_id w + c ≤ start_id + max_new →
           length (store w) + c ≤ start_len + max_new →
           steady (a w).1 ∧ next_id w ≤ next_id (a w).1 ∧
           ∃ c', next_id (a w).1 + c' ≤ next_id w + c ∧
                 length (store (a w).1) + c' ≤ length (store w) + c ∧
                 good post (next_id (a w).1) c' (k (a w).2)
  end.

(** What [filepath.Walk] visits under [root] in such a run. *)
Definition start_script (root : string) : list visit :=
  match start_walks !! root with
  | Some vs => vs
  | None =>
      [mkVisit root (Some ("lstat " +:+ root +:+ ": no such file or directory"))
               false (Bad "")]
  end.

(** The goroutines with the budgets [cs] are good for the rest of the
    run, and the world has room for what they may create. *)
Definition pool_good (w : world) (ps : list (prog unit)) (cs : list nat)
  : Prop :=
  steady w ∧
  Forall2 (λ p c, ∃ lo, lo ≤ next_id w ∧ good (λ _ _ _, True) lo c p) ps cs ∧
  next_id w + sum_list cs ≤ start_id + max_new ∧
  length (store w) + sum_list cs ≤ start_len + max_new.

(** Fuel for the scan of the folder [id] from the page [tok] on. *)
Definition scan_fuel (id : Id) (tok : nat) : nat :=
  run_rank id * (start_len + max_new + 2) + (start_len + max_new - tok) + 1.

End Budget.

(** [post] stays true when the next id and the budget left grow. *)
Definition monotone {A} (post : nat → nat → A → Prop) : Prop :=
  ∀ lo c x lo' c', post lo c x → lo ≤ lo' → c ≤ c' → post lo' c' x.

(** At the end the next id is no less than [lo] and at least [c] of the
    budget are left. *)
Definition kept {A} (lo c : nat) : nat → nat → A → Prop :=
  λ lo' c' _, lo ≤ lo' ∧ c ≤ c'.

(** The same, and the ids of the cache are there. *)
Definition cached (lo c : nat) : nat → nat → folderCache → Prop :=
  λ lo' c' cache, lo ≤ lo' ∧ c ≤ c' ∧ ∀ k id, (k, id) ∈ cache → id < lo'.

(** The same for the folder a path resolves to and the cache. *)
Definition resolved_to (lo c : nat) : nat → nat → Id * folderCache → Prop :=
  λ lo' c' r, lo ≤ lo' ∧ c ≤ c' ∧ r.1 < lo' ∧
              ∀ k id, (k, id) ∈ r.2 → id < lo'.

(** The objects the goroutines of the mappings [ms] can create. *)
Definition sync_cost (w : world) (ms : list (string * Id)) : nat :=
  sum_list ((λ m, walk_cost (walk_script m.1 w)) <$> ms).

(** Fuel that lets every scan of the goroutines return, when the roots
    of the mappings have rank at most [r]. *)
Definition sync_fuel (r : nat) (w : world) (ms : list (string * Id)) : nat :=
  let c := sync_cost w ms in
  (r + c + 1) * (length (store w) + c + 2) + (length (store w) + c) + 1.

(** ** Folders made by a run *)

(** A folder was made: a call of [srv.Files.Create] without content that
    succeeded, as [createOrGetFolder] makes them. *)
Definition is_folder_made (e : event) : bool :=
  match e with Api (CallCreate _ _ _ None) true => true | _ => false end.
Definition folders_made (evs : list event) : nat :=
  length (filter (λ e, is_folder_made e = true) evs).

(** A relative path of plain names, and a walk whose regular files have
    such paths, all distinct. *)
Definition plain_path (rel : string) : Prop :=
  Forall plain (strings_Split (filepath_ToSlash rel)).
Definition plain_walk (visits : list visit) : Prop :=
  NoDup (file_rels visits) ∧ Forall plain_path (file_rels visits).

(** What holds of the folder cache and of the calls [evs] made since the
    walk began, at every point of the walk of a run that started with the
    next id [n0]: the new folders of the Drive [s] are all in the cache,
    as many folders were made as the cache has entries with a new id, and
    the keys are paths of plain names, no two the same. *)
Record dirs_inv (n0 : Id) (s : list File) (cache : list (string * Id))
    (evs : list event) : Prop := {
  dirs_new : ∀ d, d ∈ s → isFolder d → n0 ≤ FId d → FId d ∈ cache.*2;
  dirs_made :
    folders_made evs = length (filter (λ kid, n0 ≤ kid.2) cache);
  dirs_keys : ∀ k, k ∈ cache.*1 →
    ∃ parts, parts ≠ [] ∧ Forall plain parts ∧ k = strings_Join parts;
  dirs_once : NoDup (cache.*1)
}.

(** ** A platform and worlds to run the program on *)

Module Demo.

Definition mappings : list (string * Id) := [("/l", 0); ("/gone", 0)].

#[export] Instance platform : Platform := {|
  md5hex s := "md5:" +:+ s;
  rangeFiles := map_to_list;
  rangeFiles_perm m := Permutation_refl (map_to_list m);
  json_Unmarshal s :=
    if decide (s = "{}") then Good mappings else Bad "unexpected end of JSON input";
  drive_NewService cred :=
    match cred with
    | Some (Content _) => Good tt
    | _ => Bad "credentials: could not find default credentials"
    end
|}.

Definition sub : File := mkFile 1 "sub" folderMime "" 0 false.
Definition b_txt : File := mkFile 2 "b.txt" "text/plain" "md5:old" 1 false.
Definition x_txt : File := mkFile 3 "x" "text/plain" "md5:X" 0 false.

Definition local_files : gmap string fentry :=
  list_to_map
    [("/l/a.txt", Content "A"); ("/l/sub/b.txt", Content "B");
     ("/l/sub/c/d.txt", Content "D"); ("/l/sub/c/e.txt", Content "E");
     ("dir_map.json", Content "{}"); ("service-account.json", Content "key")].

Definition local_walk : list visit :=
  [mkVisit "/l" None true (Good ".");
   mkVisit "/l/a.txt" None false (Good "a.txt");
   mkVisit "/l/sub" None true (Good "sub");
   mkVisit "/l/sub/b.txt" None false (Good "sub/b.txt");
   mkVisit "/l/sub/c" None true (Good "sub/c");
   mkVisit "/l/sub/c/d.txt" None false (Good "sub/c/d.txt");
   mkVisit "/l/sub/c/e.txt" None false (Good "sub/c/e.txt")].

(** A Drive with a folder, a stale file in it and a file the local tree
    does not have; one entry per page. *)
Definition w0 : world :=
  mkWorld [sub; b_txt; x_txt] 10 1 [] [] [] local_files
          (list_to_map [("/l", local_walk)]).

(** The same with the sixth call failing: the update of [sub/b.txt]. *)
Definition w_fault : world :=
  mkWorld [sub; b_txt; x_txt] 10 1 [5] [] [] local_files
          (list_to_map [("/l", local_walk)]).

(** The same without the mapping file. *)
Definition w_noconfig : world :=
  mkWorld [sub; b_txt; x_txt] 10 1 [] [] []
          (delete "dir_map.json" local_files)
          (list_to_map [("/l", local_walk)]).

(** A root with two files of the same name, and nothing local. *)
Definition twin1 : File := mkFile 1 "x" "text/plain" "md5:1" 0 false.
Definition twin2 : File := mkFile 2 "x" "text/plain" "md5:2" 0 false.
Definition w_twins : world :=
  mkWorld [twin1; twin2] 10 100 [] [] [] ∅
          (list_to_map [("/l", [mkVisit "/l" None true (Good ".")])]).

(** A root with only a folder [sub], and a local file of that name. *)
Definition w_clash : world :=
  mkWorld [sub] 10 100 [] [] []
          (list_to_map [("/l/sub", Content "S")])
          (list_to_map [("/l", [mkVisit "/l" None true (Good ".");
                                mkVisit "/l/sub" None false (Good "sub")])]).

(** An empty Drive below the root. *)
Definition w_fresh : world :=
  mkWorld [] 10 1 [] [] [] local_files (list_to_map [("/l", local_walk)]).

(** The worlds the runs leave. *)
Definition run0 : world * res unit :=
  Eval vm_compute in syncFiles 10 "/l" 0 w0.
Definition scan0 : world * res (gmap string File) :=
  Eval vm_compute in fetchRemoteFiles 10 0 "" ∅ w0.
Definition index0 : gmap string File :=
  list_to_map [("sub/b.txt", b_txt); ("x", x_txt)].
Definition run_fault : world * res unit :=
  Eval vm_compute in syncFiles 10 "/l" 0 w_fault.
Definition run_fresh : world * res unit :=
  Eval vm_compute in syncFiles 10 "/l" 0 w_fresh.
Definition rerun_fresh : world * res unit :=
  Eval vm_compute in syncFiles 10 "/l" 0 (set_faults [] run_fresh.1).
Definition scan_twins : world * res (gmap string File) :=
  Eval vm_compute in fetchRemoteFiles 10 0 "" ∅ w_twins.
Definition walk_twins : world * res walkState :=
  Eval vm_compute in
    filepath_Walk "/l" (walkFn 0 {["x" := twin2]}) (∅, []) scan_twins.1.
Definition run_twins : world * res unit :=
  Eval vm_compute in syncFiles 10 "/l" 0 w_twins.
Definition rerun_twins : world * res unit :=
  Eval vm_compute in syncFiles 10 "/l" 0 (set_faults [] run_twins.1).
Definition scan_clash : world * res (gmap string File) :=
  Eval vm_compute in fetchRemoteFiles 10 0 "" ∅ w_clash.
(** The two goroutines of [mappings] take turns. *)
Definition sched0 : list nat := concat (replicate 60 [0; 1]).
Definition turns (n : nat) : nat := n mod 2.
Definition main0 : world * res nat := Eval vm_compute in main 10 sched0 w0.

End Demo.

(** ** More worlds: failures, single calls *)

Module Cases.
Import Demo.

(** The Drive of [w0] with the second call failing: the listing of the
    folder [sub]. *)
Definition w_scanfault : world :=
  mkWorld [sub; b_txt; x_txt] 10 1 [1] [] [] local_files
          (list_to_map [("/l", local_walk)]).

(** A regular file of a walk that is not there when it is opened. *)
Definition gone_txt : visit :=
  mkVisit "/l/gone.txt" None false (Good "gone.txt").

(** The root above the folder [sub] of [w0]. *)
Definition rank0 (id : Id) : nat := if decide (id = 0) then 1 else 0.

Definition scan_fault : world * res (gmap string File) :=
  Eval vm_compute in fetchRemoteFiles 10 0 "" ∅ w_scanfault.
Definition find_sub : world * res Id :=
  Eval vm_compute in createOrGetFolder "sub" 0 w0.
Definition make_new : world * res Id :=
  Eval vm_compute in createOrGetFolder "new" 0 w0.
Definition upload_a : world * res folderCache :=
  Eval vm_compute in uploadFile "/l/a.txt" "a.txt" 0 [] w0.
Definition delete0 : world * res unit :=
  Eval vm_compute in deleteRemoteFiles {["sub/b.txt" := "md5:B"]} index0 w0.
Definition walk0 : world * res walkState :=
  Eval vm_compute in filepath_Walk "/l" (walkFn 0 index0) (∅, []) scan0.1.
Definition walk_part : world * res walkState :=
  Eval vm_compute in
    walk_visits (walkFn 0 index0) (∅, []) (take 6 local_walk)
                (log (WalkDir "/l") scan0.1).
Definition upload_e : world * res folderCache :=
  Eval vm_compute in
    uploadFile "/l/sub/c/e.txt" "sub/c/e.txt" 0 [("sub/c", 11); ("sub", 1)]
               walk_part.1.
Definition walk0_state : walkState :=
  Eval vm_compute in
    match walk0.2 with Ok st => st | _ => (∅, []) end.

End Cases.


Section Proofs.
Context `{Platform}.

(** ** The monad *)

Lemma bind_inv {A B} (m : M A) (k : A → M B) w w' r :
  bind m k w = (w', r) →
  (∃ w1 a, m w = (w1, Ok a) ∧ k a w1 = (w', r)) ∨
  (∃ e, m w = (w', Err e) ∧ r = Err e) ∨
  (m w = (w', Timeout) ∧ r = Timeout).
Proof.
  unfold bind. destruct (m w) as [w1 [a|e|]]; intros E.
  - left. eauto.
  - right. left. inversion E. eauto.
  - right. right. by inversion E.
Qed.

Lemma bind_Ok {A B} (m : M A) (k : A → M B) w w' b :
  bind m k w = (w', Ok b) → ∃ w1 a, m w = (w1, Ok a) ∧ k a w1 = (w', Ok b).
Proof.
  intros E. apply bind_inv in E as [E|[(e & _ & E)|[_ E]]]; [done|done..].
Qed.

Lemma wrap_inv {A} msg (m : M A) w w' r :
  wrap msg m w = (w', r) →
  (m w = (w', r) ∧ ∀ e, r ≠ Err e) ∨
  (∃ e, m w = (w', Err e) ∧ r = Err (msg +:+ e)).
Proof.
  unfold wrap. destruct (m w) as [w1 [a|e|]]; intros E; inversion E; subst.
  - left. done.
  - right. eauto.
  - left. done.
Qed.

Lemma wrap_Ok {A} msg (m : M A) w w' a :
  wrap msg m w = (w', Ok a) → m w = (w', Ok a).
Proof. intros E. apply wrap_inv in E as [[E _]|(e & _ & E)]; done. Qed.

Lemma extends_refl w : extends w w [].
Proof. unfold extends. by rewrite app_nil_r. Qed.

Lemma extends_trans w1 w2 w3 evs1 evs2 :
  extends w1 w2 evs1 → extends w2 w3 evs2 → extends w1 w3 (evs1 ++ evs2).
Proof.
  unfold extends, replay.
  intros (-> & -> & -> & -> & -> & E1) (-> & -> & -> & -> & -> & ->).
  rewrite foldl_app, <- E1. by rewrite app_assoc.
Qed.

Lemma extends_new_events w w' evs : extends w w' evs → new_events w w' = evs.
Proof.
  intros [E _]. unfold new_events. rewrite E. by rewrite drop_app_length.
Qed.

Lemma extends_print line w : extends w (print line w) [].
Proof. unfold extends; simpl. by rewrite app_nil_r. Qed.

Lemma extends_log e w :
  (∀ d, replay_event d e = d) → extends w (log e w) [e].
Proof. intros He. unfold extends, replay. simpl. by rewrite He. Qed.

Lemma emits_ret {A} P (a : A) : emits P (ret a).
Proof. intros w w' r [= <- <-]. exists []. split; [apply extends_refl|done]. Qed.

Lemma emits_fail {A} P e : emits P (@fail A e).
Proof. intros w w' r [= <- <-]. exists []. split; [apply extends_refl|done]. Qed.

Lemma emits_lift {A} P (x : result A) : emits P (lift x).
Proof. destruct x; [apply emits_ret|apply emits_fail]. Qed.

Lemma emits_printf P line : emits P (printf line).
Proof. intros w w' r [= <- <-]. exists []. split; [apply extends_print|done]. Qed.

Lemma emits_bind {A B} P (m : M A) (k : A → M B) :
  emits P m → (∀ a, emits P (k a)) → emits P (bind m k).
Proof.
  intros Hm Hk w w' r E.
  apply bind_inv in E as [(w1 & a & E1 & E2)|[(e & E & ->)|[E ->]]]; [|eauto..].
  destruct (Hm _ _ _ E1) as (evs1 & X1 & F1).
  destruct (Hk _ _ _ _ E2) as (evs2 & X2 & F2).
  exists (evs1 ++ evs2). split; [by eapply extends_trans|].
  by apply Forall_app.
Qed.

Lemma emits_wrap {A} P msg (m : M A) : emits P m → emits P (wrap msg m).
Proof.
  intros Hm w w' r E. apply wrap_inv in E as [[E _]|(e & E & _)]; eauto.
Qed.

Lemma emits_catch {A} P (m : M A) : emits P m → emits P (catch m).
Proof.
  intros Hm w w' r. unfold catch.
  destruct (m w) as [w1 [a|e|]] eqn:E; intros [= <- <-]; eauto.
Qed.

Lemma emits_mono {A} (P Q : event → Prop) (m : M A) :
  (∀ e, P e → Q e) → emits P m → emits Q m.
Proof.
  intros PQ Hm w w' r E. destruct (Hm _ _ _ E) as (evs & X & F).
  exists evs. split; [done|]. eapply Forall_impl; eauto.
Qed.

Lemma emits_os_Open P path : emits P (os_Open path).
Proof.
  intros w w' r. unfold os_Open.
  destruct (fs w !! path) as [[]|]; intros [= <- <-];
    exists []; (split; [apply extends_refl|done]).
Qed.

Lemma emits_Files_List (P : event → Prop) q tok :
  (∀ ok, P (Api (CallList q tok) ok)) → emits P (Files_List q tok).
Proof.
  intros HP w w' r. unfold Files_List.
  destruct (api_fails w); [|destruct (query_ok q)]; intros [= <- <-];
    eexists [_]; (split; [by apply extends_log|by constructor]).
Qed.

Lemma emits_Files_Create (P : event → Prop) name mime parent media :
  (∀ ok, P (Api (CallCreate name mime parent media) ok)) →
  emits P (Files_Create name mime parent media).
Proof.
  intros HP w w' r. unfold Files_Create.
  destruct (_ || _); intros [= <- <-];
    eexists [_]; (split; [done|by constructor]).
Qed.

Lemma emits_Files_Update (P : event → Prop) id media :
  (∀ ok, P (Api (CallUpdate id media) ok)) → emits P (Files_Update id media).
Proof.
  intros HP w w' r. unfold Files_Update.
  destruct (_ || _); [|case_decide]; intros [= <- <-];
    eexists [_]; (split; [done|by constructor]).
Qed.

Lemma emits_Files_Delete (P : event → Prop) id :
  (∀ ok, P (Api (CallDelete id) ok)) → emits P (Files_Delete id).
Proof.
  intros HP w w' r. unfold Files_Delete.
  destruct (api_fails w); [|case_decide]; intros [= <- <-];
    eexists [_]; (split; [done|by constructor]).
Qed.

(** ** Which calls each function makes *)

Lemma emits_scan_page P recur path files rf :
  (∀ id p rf', emits P (recur id p rf')) → emits P (scan_page recur path files rf).
Proof.
  intros Hrec. revert rf. induction files as [|file rest IH]; intros rf; simpl.
  - apply emits_ret.
  - case_decide; [|apply IH]. apply emits_bind; [apply Hrec|]. intros a. apply IH.
Qed.

Lemma emits_fetch_from fuel parentID path tok rf :
  emits list_only (fetch_from fuel parentID path tok rf).
Proof.
  revert parentID path tok rf.
  induction fuel as [|k IH]; intros parentID path tok rf; simpl.
  - intros w w' r [= <- <-]. exists []. split; [apply extends_refl|done].
  - apply emits_bind.
    { apply emits_wrap, emits_Files_List. intros ok. by eexists _, _, _. }
    intros [files next]. apply emits_bind.
    { apply emits_scan_page. intros. apply IH. }
    intros rf'. case_decide; [apply emits_ret|apply IH].
Qed.

Lemma keeps_store_bind {A B} (m : M A) (k : A → M B) :
  keeps_store m → (∀ a, keeps_store (k a)) → keeps_store (bind m k).
Proof.
  intros Hm Hk w w' r E.
  apply bind_inv in E as [(w1 & a & E1 & E2)|[(e & E & ->)|[E ->]]]; [|eauto..].
  destruct (Hm _ _ _ E1) as [S1 N1]. destruct (Hk _ _ _ _ E2) as [S2 N2].
  split; congruence.
Qed.

Lemma keeps_store_wrap {A} msg (m : M A) : keeps_store m → keeps_store (wrap msg m).
Proof.
  intros Hm w w' r E. apply wrap_inv in E as [[E _]|(e & E & _)]; eauto.
Qed.

Lemma keeps_store_ret {A} (a : A) : keeps_store (ret a).
Proof. by intros w w' r [= <- <-]. Qed.

Lemma keeps_store_Files_List q tok : keeps_store (Files_List q tok).
Proof.
  intros w w' r. unfold Files_List.
  by destruct (api_fails w); [|destruct (query_ok q)]; intros [= <- <-].
Qed.

Lemma keeps_store_scan_page recur path files rf :
  (∀ id p rf', keeps_store (recur id p rf')) →
  keeps_store (scan_page recur path files rf).
Proof.
  intros Hrec. revert rf. induction files as [|file rest IH]; intros rf; simpl.
  - apply keeps_store_ret.
  - case_decide; [|apply IH].
    apply keeps_store_bind; [apply Hrec|]. intros a. apply IH.
Qed.

Lemma keeps_store_fetch_from fuel parentID path tok rf :
  keeps_store (fetch_from fuel parentID path tok rf).
Proof.
  revert parentID path tok rf.
  induction fuel as [|k IH]; intros parentID path tok rf; simpl.
  - by intros w w' r [= <- <-].
  - apply keeps_store_bind.
    { apply keeps_store_wrap, keeps_store_Files_List. }
    intros [files next]. apply keeps_store_bind.
    { apply keeps_store_scan_page. intros. apply IH. }
    intros rf'. case_decide; [apply keeps_store_ret|apply IH].
Qed.

Lemma emits_createOrGetFolder name parentID :
  emits no_delete (createOrGetFolder name parentID).
Proof.
  unfold createOrGetFolder. apply emits_bind.
  { apply emits_wrap, emits_Files_List. done. }
  intros [[|f files] next]; [|apply emits_ret].
  apply emits_bind; [|intros; apply emits_ret].
  apply emits_wrap, emits_Files_Create. done.
Qed.

Lemma emits_resolve_parts parts i todo parentID cache :
  emits no_delete (resolve_parts parts i todo parentID cache).
Proof.
  revert i parentID cache.
  induction todo as [|part rest IH]; intros i parentID cache; simpl.
  - apply emits_ret.
  - destruct (cache_lookup _ _); [apply IH|].
    apply emits_bind; [|intros; apply IH].
    apply emits_wrap, emits_createOrGetFolder.
Qed.

Lemma emits_uploadFile filePath rel parentID cache :
  emits no_delete (uploadFile filePath rel parentID cache).
Proof.
  unfold uploadFile. apply emits_bind; [apply emits_resolve_parts|].
  intros [pid c]. apply emits_bind; [apply emits_wrap, emits_os_Open|].
  intros file. apply emits_bind.
  { apply emits_wrap, emits_Files_Create. done. }
  intros _. apply emits_bind; [apply emits_printf|intros; apply emits_ret].
Qed.

Lemma emits_updateFile filePath id : emits no_delete (updateFile filePath id).
Proof.
  unfold updateFile. apply emits_bind; [apply emits_wrap, emits_os_Open|].
  intros file. apply emits_bind; [|intros; apply emits_printf].
  apply emits_wrap, emits_Files_Update. done.
Qed.

Lemma emits_uploadOrUpdateFile filePath rel checksum rf parentID cache :
  emits no_delete (uploadOrUpdateFile filePath rel checksum rf parentID cache).
Proof.
  unfold uploadOrUpdateFile. destruct (rf !! rel) as [remoteFile|].
  - case_decide.
    + apply emits_bind; [apply emits_printf|intros; apply emits_ret].
    + apply emits_bind; [apply emits_printf|intros].
      apply emits_bind; [apply emits_updateFile|intros; apply emits_ret].
  - apply emits_bind; [apply emits_printf|intros; apply emits_uploadFile].
Qed.

Lemma emits_computeMD5 P path : emits P (computeMD5 path).
Proof.
  unfold computeMD5. apply emits_bind; [apply emits_wrap, emits_os_Open|].
  intros [e|e|c]; [apply emits_fail..|apply emits_ret].
Qed.

Lemma emits_walkFn root rf st v : emits no_delete (walkFn root rf st v).
Proof.
  unfold walkFn. destruct (v_err v); [apply emits_fail|].
  destruct (v_isDir v); [apply emits_ret|].
  apply emits_bind; [apply emits_wrap, emits_lift|]. intros rel.
  apply emits_bind; [apply emits_wrap, emits_computeMD5|]. intros checksum.
  apply emits_bind; [apply emits_uploadOrUpdateFile|intros; apply emits_ret].
Qed.

Lemma emits_walk_visits P fn st visits :
  (∀ st' v, emits P (fn st' v)) → emits P (walk_visits fn st visits).
Proof.
  intros Hfn. revert st. induction visits as [|v rest IH]; intros st; simpl.
  - apply emits_ret.
  - apply emits_bind; [apply Hfn|intros; apply IH].
Qed.

Lemma emits_filepath_Walk (P : event → Prop) root fn st :
  P (WalkDir root) → (∀ st' v, emits P (fn st' v)) →
  emits P (filepath_Walk root fn st).
Proof.
  intros HP Hfn w w' r E. unfold filepath_Walk in E.
  apply (emits_walk_visits P) in E as (evs & X & F); [|done].
  exists ([WalkDir root] ++ evs). split.
  - eapply extends_trans; [by apply extends_log|done].
  - by constructor.
Qed.

Lemma emits_delete_loop localFiles items :
  emits delete_only (delete_loop localFiles items).
Proof.
  induction items as [|[p f] rest IH]; simpl; [apply emits_ret|].
  destruct (localFiles !! p); [done|].
  apply emits_bind; [apply emits_printf|intros _].
  apply emits_bind; [|by intros _].
  apply emits_wrap, emits_Files_Delete. done.
Qed.

(** ** Single steps, read backwards *)

Lemma lift_Ok {A} (x : result A) w w' a :
  lift x w = (w', Ok a) → x = Good a ∧ w' = w.
Proof. destruct x; intros [= <- <-]; done. Qed.

Lemma os_Open_Ok path w w' f :
  os_Open path w = (w', Ok f) →
  w' = w ∧ fs w !! path = Some f ∧ ∀ e, f ≠ Unreadable e.
Proof.
  unfold os_Open. destruct (fs w !! path) as [[]|]; intros [= <- <-]; done.
Qed.

Lemma computeMD5_Ok path w w' h :
  computeMD5 path w = (w', Ok h) →
  w' = w ∧ ∃ c, fs w !! path = Some (Content c) ∧ h = md5hex c.
Proof.
  unfold computeMD5. intros E.
  apply bind_Ok in E as (w1 & f & E1 & E2).
  apply wrap_Ok, os_Open_Ok in E1 as (-> & Hf & _).
  destruct f; inversion E2; subst. eauto.
Qed.

Lemma walkFn_Ok root rf st v w w' st' :
  walkFn root rf st v w = (w', Ok st') →
  v_err v = None ∧
  ((v_isDir v = true ∧ st' = st ∧ w' = w) ∨
   (v_isDir v = false ∧ ∃ rel c cache,
      v_rel v = Good rel ∧ fs w !! v_path v = Some (Content c) ∧
      uploadOrUpdateFile (v_path v) rel (md5hex c) rf root (st.2) w
        = (w', Ok cache) ∧
      st' = (<[rel := md5hex c]> (st.1), cache))).
Proof.
  unfold walkFn. destruct (v_err v); [done|]. intros E. split; [done|].
  destruct (v_isDir v).
  { left. by inversion E. }
  right. split; [done|].
  apply bind_Ok in E as (w1 & rel & E1 & E).
  apply wrap_Ok, lift_Ok in E1 as [Hrel ->].
  apply bind_Ok in E as (w2 & h & E2 & E).
  apply wrap_Ok, computeMD5_Ok in E2 as (-> & c & Hc & ->).
  apply bind_Ok in E as (w3 & cache & E3 & E).
  inversion E; subst. eauto 10.
Qed.

Lemma walk_visits_index root rf st visits w w' st' :
  walk_visits (walkFn root rf) st visits w = (w', Ok st') →
  ∀ rel, is_Some (st'.1 !! rel) ↔
         is_Some (st.1 !! rel) ∨ visited_file visits rel.
Proof.
  revert st w. induction visits as [|v rest IH]; intros st w; simpl.
  - intros [= <- <-] rel. split; [by left|].
    intros [?|(v & Hv & _)]; [done|]. by apply elem_of_nil in Hv.
  - intros E rel. apply bind_Ok in E as (w1 & st1 & E1 & E2).
    rewrite (IH _ _ E2).
    apply walkFn_Ok in E1 as [Herr [(Hdir & -> & ->)|(Hdir & r0 & c & cache & Hrel & _ & _ & ->)]].
    + split; (intros [?|(v' & Hv' & He & Hd & Hr)]; [by left|right]).
      * exists v'. split; [by right|done].
      * apply elem_of_cons in Hv' as [->|Hv']; [congruence|]. by exists v'.
    + simpl. rewrite lookup_insert_is_Some. split.
      * intros [[->|[_ ?]]|(v' & Hv' & ?)]; [|by left|].
        -- right. exists v. split; [by left|done].
        -- right. exists v'. split; [by right|done].
      * intros [?|(v' & Hv' & He & Hd & Hr)].
        -- left. destruct (decide (r0 = rel)); [by left|by right].
        -- apply elem_of_cons in Hv' as [->|Hv'].
           ++ left. left. congruence.
           ++ right. by exists v'.
Qed.

(** ** The delete pass *)

(** The ids of the delete calls, in the order they were made. *)
Lemma delete_loop_calls localFiles items w w' r :
  delete_loop localFiles items w = (w', r) →
  r ≠ Timeout ∧
  ∃ evs, extends w w' evs ∧ Forall delete_only evs ∧
    delete_calls evs `prefix_of`
      (λ pf, FId pf.2) <$> filter (λ pf, localFiles !! pf.1 = None) items ∧
    (r = Ok tt →
     evs = (λ pf, Api (CallDelete (FId pf.2)) true) <$>
             filter (λ pf : string * File, localFiles !! pf.1 = None) items).
Proof.
  revert w. induction items as [|[p f] rest IH]; intros w; simpl.
  - intros [= <- <-]. split; [done|]. exists []. split; [apply extends_refl|].
    split; [done|]. split; [by exists []|done].
  - rewrite filter_cons. simpl. destruct (localFiles !! p) eqn:Hp.
    { rewrite decide_False by done. apply IH. }
    rewrite decide_True by done. intros E.
    apply bind_inv in E as [(w1 & [] & E1 & E)|[(e & E & _)|[E _]]]; [|done..].
    inversion E1; subst w1; clear E1.
    assert (X0 := extends_print ("Deleting remote file: " +:+ p) w).
    apply bind_inv in E as [(w1 & [] & E1 & E)|[(e & E & ->)|[E ->]]].
    + apply wrap_Ok in E1.
      assert (Hev : extends (print ("Deleting remote file: " +:+ p) w) w1
                      [Api (CallDelete (FId f)) true]).
      { unfold Files_Delete in E1. destruct (api_fails _); [done|].
        case_decide; [|done]. by inversion E1. }
      destruct (IH _ E) as (Hr & evs & X & F & Hpre & Hok). split; [done|].
      exists ([] ++ [Api (CallDelete (FId f)) true] ++ evs). split.
      { eapply extends_trans; [done|]. by eapply extends_trans. }
      split; [by constructor|]. split.
      * simpl. by apply prefix_cons.
      * intros ->. simpl. f_equal. by apply Hok.
    + split; [done|].
      apply wrap_inv in E as [[E Hne]|(e' & E & _)]; [by destruct (Hne e)|].
      assert (Hev : extends (print ("Deleting remote file: " +:+ p) w) w'
                      [Api (CallDelete (FId f)) false]).
      { unfold Files_Delete in E. destruct (api_fails _); [by inversion E|].
        case_decide; [done|]. by inversion E. }
      exists ([] ++ [Api (CallDelete (FId f)) false]). split.
      { by eapply extends_trans. }
      split; [by constructor|]. split; [|done].
      simpl. apply prefix_cons, prefix_nil.
    + apply wrap_inv in E as [[E _]|(e' & E & ?)]; [|done].
      unfold Files_Delete in E. destruct (api_fails _); [done|].
      by case_decide.
Qed.

(** ** One run of [syncFiles], phase by phase *)

Lemma syncFiles_inv fuel localDir root w w' r :
  syncFiles fuel localDir root w = (w', r) →
  (∃ r0, fetchRemoteFiles fuel root "" ∅ w = (w', r0) ∧
         (∀ rf, r0 ≠ Ok rf) ∧ (∀ x, r ≠ Ok x)) ∨
  (∃ w1 rf, fetchRemoteFiles fuel root "" ∅ w = (w1, Ok rf) ∧
     ((∃ r1, filepath_Walk localDir (walkFn root rf) (∅, []) w1 = (w', r1) ∧
             (∀ st, r1 ≠ Ok st) ∧ (∀ x, r ≠ Ok x)) ∨
      (∃ w2 st, filepath_Walk localDir (walkFn root rf) (∅, []) w1
                  = (w2, Ok st) ∧
                wrap "failed to delete remote files: "
                     (deleteRemoteFiles (st.1) rf) w2 = (w', r)))).
Proof.
  unfold syncFiles. intros E.
  apply bind_inv in E as [(w1 & rf & E1 & E)|[(e & E & ->)|[E ->]]].
  - right. apply wrap_Ok in E1. exists w1, rf. split; [done|].
    apply bind_inv in E as [(w2 & st & E2 & E)|[(e & E & ->)|[E ->]]].
    + right. eauto.
    + left. eexists. split; [done|]. done.
    + left. eexists. split; [done|]. done.
  - left. apply wrap_inv in E as [[E Hne]|(e' & E & _)].
    + by destruct (Hne e).
    + eexists. split; [done|]. done.
  - left. apply wrap_inv in E as [[E _]|(e' & E & ?)]; [|done].
    eexists. split; [done|]. done.
Qed.

Lemma emits_fetchRemoteFiles fuel root rf :
  emits no_delete (fetchRemoteFiles fuel root "" rf).
Proof.
  eapply emits_mono; [|apply emits_fetch_from].
  by intros e (parent & tok & ok & ->).
Qed.

Lemma emits_walk localDir root rf st :
  emits no_delete (filepath_Walk localDir (walkFn root rf) st).
Proof. apply emits_filepath_Walk; [done|]. intros. apply emits_walkFn. Qed.

Lemma emits_syncFiles fuel localDir root :
  emits (λ _, True) (syncFiles fuel localDir root).
Proof.
  unfold syncFiles. apply emits_bind.
  { apply emits_wrap. eapply emits_mono; [|apply emits_fetch_from]. done. }
  intros rf. apply emits_bind.
  { eapply emits_mono; [|apply emits_walk]. done. }
  intros st. apply emits_wrap.
  eapply emits_mono; [|apply emits_delete_loop]. done.
Qed.

Lemma filepath_Walk_index localDir root rf w w' st :
  filepath_Walk localDir (walkFn root rf) (∅, []) w = (w', Ok st) →
  ∀ rel, is_Some (st.1 !! rel) ↔ visited_file (walk_script localDir w) rel.
Proof.
  unfold filepath_Walk. intros E rel.
  apply walk_visits_index with (rel := rel) in E. rewrite E. simpl.
  rewrite lookup_empty. split; [|by right].
  intros [[? ?]|?]; done.
Qed.

Lemma fmap_FId_set_md5 id h (s : list File) :
  FId <$> (set_md5 id h <$> s) = FId <$> s.
Proof.
  rewrite <- list_fmap_compose. apply list_fmap_ext. intros i f _.
  unfold set_md5. simpl. by case_decide.
Qed.

(** Calls other than delete calls leave every object of the Drive where
    it is: objects are only added, after the ones there. *)
Lemma replay_keeps_ids evs d :
  Forall no_delete evs → FId <$> d.1 `prefix_of` FId <$> (replay evs d).1.
Proof.
  intros F. revert d. induction F as [|e evs He _ IH]; intros d; [done|].
  unfold replay. simpl. etrans; [|apply IH].
  destruct e as [[q tok|name mime parent media|id media|id] [|]|r]; simpl;
    try done.
  - rewrite fmap_app. by apply prefix_app_r.
  - by rewrite fmap_FId_set_md5.
Qed.

(** C10.  When the local walk of a mapping fails, at whichever entry and
    for whichever reason the walk function returns an error,
    [syncFiles] returns that error in the world the walk left: the run
    makes no delete call at all, and what was created or updated before
    the failure stays as it is, the Drive being the one the run found
    with the create and update calls that succeeded applied in order,
    so that every object it had is still there. *)
Theorem walk_failure_skips_delete_pass fuel localDir root w w1 rf w2 e :
  fetchRemoteFiles fuel root "" ∅ w = (w1, Ok rf) →
  filepath_Walk localDir (walkFn root rf) (∅, []) w1 = (w2, Err e) →
  syncFiles fuel localDir root w = (w2, Err e) ∧
  Forall no_delete (new_events w w2) ∧
  (store w2, next_id w2) = replay (new_events w w2) (store w, next_id w) ∧
  FId <$> store w `prefix_of` FId <$> store w2.
Proof.
  intros Hscan Hwalk.
  assert (Hrun : syncFiles fuel localDir root w = (w2, Err e)).
  { unfold syncFiles, bind, wrap. by rewrite Hscan, Hwalk. }
  apply emits_fetchRemoteFiles in Hscan as (evs1 & X1 & F1).
  apply emits_walk in Hwalk as (evs2 & X2 & F2).
  pose proof (extends_trans _ _ _ _ _ X1 X2) as X.
  assert (F : Forall no_delete (evs1 ++ evs2)) by by apply Forall_app.
  rewrite (extends_new_events _ _ _ X).
  destruct X as (_ & _ & _ & _ & _ & R).
  split; [done|]. split; [done|]. split; [done|].
  pose proof (replay_keeps_ids _ (store w, next_id w) F) as K.
  by rewrite <- R in K.
Qed.

(** C4, as the code has it.  The calls of one run are a first part
    without any delete call followed by a part of delete calls only.  The second part is empty
    unless the scan and the whole walk went through; it then starts in
    the world the complete walk left, where the local index holds every
    regular file visited, and its calls go to entries of the remote index
    whose path the local index lacks, one call per entry; when the run
    succeeds every such entry got its call. *)
Theorem delete_pass_after_walk fuel localDir root w w' r :
  syncFiles fuel localDir root w = (w', r) →
  ∃ pre dels,
    new_events w w' = pre ++ dels ∧
    Forall no_delete pre ∧ Forall delete_only dels ∧
    ((dels = [] ∧ ∀ x, r ≠ Ok x) ∨
     ∃ w1 rf w2 st,
       fetchRemoteFiles fuel root "" ∅ w = (w1, Ok rf) ∧
       filepath_Walk localDir (walkFn root rf) (∅, []) w1 = (w2, Ok st) ∧
       new_events w w2 = pre ∧
       (∀ rel, is_Some (st.1 !! rel) ↔
               visited_file (walk_script localDir w) rel) ∧
       delete_calls dels ⊆+ (λ pf, FId pf.2) <$> orphans (st.1) rf ∧
       (r = Ok tt →
        dels ≡ₚ (λ pf, Api (CallDelete (FId pf.2)) true) <$>
                  orphans (st.1) rf)).
Proof.
  intros E.
  apply syncFiles_inv in E
    as [(r0 & E & _ & Hr)|(w1 & rf & E1 & [(r1 & E & _ & Hr)|(w2 & st & E2 & E)])].
  - apply emits_fetchRemoteFiles in E as (evs & X & F).
    exists evs, []. rewrite app_nil_r.
    split; [by apply extends_new_events|]. split; [done|]. split; [done|].
    by left.
  - apply emits_fetchRemoteFiles in E1 as (evs1 & X1 & F1).
    apply emits_walk in E as (evs2 & X2 & F2).
    exists (evs1 ++ evs2), []. rewrite app_nil_r. split.
    { apply extends_new_events. by eapply extends_trans. }
    split; [by apply Forall_app|]. split; [done|]. by left.
  - assert (Hidx := filepath_Walk_index _ _ _ _ _ _ E2).
    pose proof E1 as E1'. pose proof E2 as E2'.
    apply emits_fetchRemoteFiles in E1 as (evs1 & X1 & F1).
    apply emits_walk in E2 as (evs2 & X2 & F2).
    assert (X12 := extends_trans _ _ _ _ _ X1 X2).
    assert (∃ r', delete_loop (st.1) (rangeFiles rf) w2 = (w', r') ∧
                  (r = Ok tt → r' = Ok tt)) as (r' & E' & Hrr).
    { apply wrap_inv in E as [[E _]|(e & E & ->)]; [by eauto|].
      eexists. split; [exact E|done]. }
    apply delete_loop_calls in E' as (_ & evs3 & X3 & F3 & Hpre & Hok).
    exists (evs1 ++ evs2), evs3. split.
    { apply extends_new_events. by eapply extends_trans. }
    split; [by apply Forall_app|]. split; [done|]. right.
    exists w1, rf, w2, st. split; [done|]. split; [done|].
    split; [by apply extends_new_events|]. split.
    { intros rel. rewrite Hidx. unfold walk_script.
      destruct X1 as (_ & _ & _ & _ & -> & _). done. }
    split.
    + destruct Hpre as [k Hk]. unfold orphans.
      rewrite <- (rangeFiles_perm rf), Hk. by apply submseteq_inserts_r.
    + intros ->. rewrite (Hok (Hrr eq_refl)). unfold orphans.
      by rewrite (rangeFiles_perm rf).
Qed.

(** ** The decision for a path the remote index has *)

Lemma new_events_print line w : new_events w (print line w) = [].
Proof. unfold new_events. simpl. by rewrite drop_all. Qed.

(** C5.  For a path the remote index has: with equal digests the call
    returns at once, no remote call is made and the Drive is as before;
    with different digests the only remote call there can be is one
    update of the object the index holds, by its id, after which every
    object of the Drive has the id it had (nothing is deleted or created)
    and, when the call succeeds, that object has the digest of the local
    content and is otherwise unchanged. *)
Theorem present_path_skip_or_update
    filePath rel checksum rf root cache remoteFile w w' r :
  rf !! rel = Some remoteFile →
  uploadOrUpdateFile filePath rel checksum rf root cache w = (w', r) →
  (Md5Checksum remoteFile = checksum →
     r = Ok cache ∧ new_events w w' = [] ∧
     store w' = store w ∧ next_id w' = next_id w) ∧
  (Md5Checksum remoteFile ≠ checksum →
     (new_events w w' = [] ∨
      ∃ media ok,
        new_events w w' = [Api (CallUpdate (FId remoteFile) media) ok]) ∧
     FId <$> store w' = FId <$> store w ∧ next_id w' = next_id w ∧
     (∀ x, r = Ok x →
        x = cache ∧
        ∃ c, fs w !! filePath = Some (Content c) ∧
             new_events w w'
               = [Api (CallUpdate (FId remoteFile) (Content c)) true] ∧
             store w' = set_md5 (FId remoteFile) (md5hex c) <$> store w)).
Proof.
  intros Hrf E. unfold uploadOrUpdateFile in E. rewrite Hrf in E.
  case_decide as Hmd5; [split; [|done]|split; [done|]]; intros _.
  - unfold bind, printf, ret in E. inversion E; subst.
    split; [done|]. split; [apply new_events_print|done].
  - cbv beta delta [bind printf updateFile wrap os_Open ret] in E. simpl in E.
    destruct (fs w !! filePath) as [[e|e|c]|] eqn:Hfs;
      try (inversion E; subst; rewrite new_events_print;
           split; [by left|done]).
    + unfold Files_Update in E. simpl in E. rewrite orb_true_r in E.
      inversion E; subst. split; [|done]. right.
      eexists _, _. unfold new_events. simpl. by rewrite drop_app_length.
    + unfold Files_Update in E. simpl in E. rewrite orb_false_r in E.
      destruct (api_fails _).
      { inversion E; subst. split; [|done]. right.
        eexists _, _. unfold new_events. simpl. by rewrite drop_app_length. }
      case_decide; inversion E; subst; simpl.
      * split.
        { right. eexists _, _. unfold new_events. simpl.
          by rewrite drop_app_length. }
        split; [apply fmap_FId_set_md5|]. split; [done|].
        intros x [= <-]. split; [done|]. exists c. split; [done|].
        split; [|done]. unfold new_events. simpl. by rewrite drop_app_length.
      * split; [|done]. right.
        eexists _, _. unfold new_events. simpl. by rewrite drop_app_length.
Qed.

(** ** [main] *)

(** C8.  When the mapping file cannot be read or parsed, or the Drive
    service cannot be created, [main] prints one line and exits with
    status 1, whatever the schedule; the trace has no new entry (no
    remote call, no walk was started, no goroutine took a step) and the
    Drive is as before. *)
Theorem fatal_startup_exits_before_sync fuel sched w :
  startup_fails w →
  ∃ line, main fuel sched w = (print line w, Ok 1) ∧
          new_events w (print line w) = [] ∧
          store (print line w) = store w.
Proof.
  unfold startup_fails, main, bind, catch, os_ReadFile, getDriveService,
    wrap, lift.
  destruct (fs w !! inputFolderMapPath) as [[e|e|bx]|]; intros Hf;
    try (eexists; split; [reflexivity|];
         split; [apply new_events_print|done]).
  destruct (json_Unmarshal bx) as [ms|e];
    [|eexists; split; [reflexivity|]; split; [apply new_events_print|done]].
  simpl. destruct (drive_NewService _) as [[]|e]; [done|].
  eexists; split; [reflexivity|]; split; [apply new_events_print|done].
Qed.

(** ** The remote scan *)

Lemma Files_List_Ok q tok w w' r :
  Files_List q tok w = (w', Ok r) →
  w' = log (Api (CallList q tok) true) w ∧
  r = page_of (page_len w) tok (filter (matches q) (store w)).
Proof.
  unfold Files_List.
  destruct (api_fails w); [|destruct (query_ok q)]; intros [= <- <-]; done.
Qed.

Lemma scan_page_scanned s n recur path files rf w w' rf' :
  (∀ id p rf0 w0 w0' rf0',
     store w0 = s → page_len w0 = n →
     recur id p rf0 w0 = (w0', Ok rf0') →
     ∃ evs, extends w0 w0' evs ∧ store w0' = s ∧
            scanned s n id p 0 rf0 rf0' evs) →
  store w = s → page_len w = n →
  scan_page recur path files rf w = (w', Ok rf') →
  ∃ evs, extends w w' evs ∧ store w' = s ∧
         scanned_page s n path files rf rf' evs.
Proof.
  intros Hrec. revert rf w.
  induction files as [|file rest IH]; intros rf w Hs Hn; simpl.
  - intros [= <- <-]. exists []. split; [apply extends_refl|].
    split; [done|]. constructor.
  - case_decide as Hdir.
    + intros E. apply bind_Ok in E as (w1 & rf1 & E1 & E2).
      apply Hrec in E1 as (evs1 & X1 & S1 & Sc1); [|done..].
      apply IH in E2 as (evs2 & X2 & S2 & Sc2); [|done|].
      2:{ unfold page_len. destruct X1 as (_ & _ & -> & _). done. }
      exists (evs1 ++ evs2). split; [by eapply extends_trans|].
      split; [done|].
      by apply scanned_folder with (rf1 := rf1) (evs1 := evs1) (evs2 := evs2).
    + intros E. apply IH in E as (evs & X & S & Sc); [|done..].
      exists evs. split; [done|]. split; [done|]. by apply scanned_file.
Qed.

Lemma fetch_from_scanned fuel parentID path tok rf w w' rf' :
  fetch_from fuel parentID path tok rf w = (w', Ok rf') →
  ∃ evs, extends w w' evs ∧ store w' = store w ∧
         scanned (store w) (page_len w) parentID path tok rf rf' evs.
Proof.
  revert parentID path tok rf w w' rf'.
  induction fuel as [|k IH]; intros parentID path tok rf w w' rf'; [done|].
  simpl. intros E. apply bind_Ok in E as (w1 & [files next] & E1 & E).
  apply wrap_Ok, Files_List_Ok in E1 as [-> Hpage]. symmetry in Hpage.
  apply bind_Ok in E as (w2 & rf1 & E2 & E).
  eapply (scan_page_scanned (store w) (page_len w)) in E2
    as (evs1 & X1 & S1 & Sc1); [|clear E|done|done].
  2:{ intros id p rf0 w0 w0' rf0' <- <- E0.
      apply IH in E0 as (evs & X & S & Sc). eauto. }
  case_decide as Hnext.
  - inversion E; subst.
    exists ([Api (CallList (InParents parentID) tok) true] ++ evs1).
    split; [eapply extends_trans; [by apply extends_log|done]|].
    split; [done|]. by eapply scanned_last.
  - apply IH in E as (evs2 & X2 & S2 & Sc2).
    exists ([Api (CallList (InParents parentID) tok) true] ++ evs1 ++ evs2).
    split.
    { eapply extends_trans; [by apply extends_log|]. by eapply extends_trans. }
    split; [congruence|].
    apply scanned_more with (files := files) (next := next) (rf1 := rf1)
                            (evs1 := evs1) (evs2 := evs2); [done..|].
    rewrite S1 in Sc2. simpl in Sc2.
    replace (page_len w2) with (page_len w) in Sc2; [done|].
    unfold page_len. destruct X1 as (_ & _ & -> & _). done.
Qed.

Lemma page_of_inv n tok all files next :
  page_of n tok all = (files, next) →
  files = take n (drop tok all) ∧
  ((next = 0 ∧ drop tok all = files) ∨
   (next = tok + n ∧ tok + n < length all ∧
    drop tok all = files ++ drop next all)).
Proof.
  unfold page_of. intros [= <- <-]. split; [done|]. case_decide.
  - right. split; [done|]. split; [done|].
    by rewrite <- drop_drop, take_drop.
  - left. split; [done|]. rewrite take_ge; [done|]. rewrite length_drop. lia.
Qed.

Lemma page_of_subseteq n tok all files next c :
  page_of n tok all = (files, next) → c ∈ files → c ∈ all.
Proof.
  intros [-> _]%page_of_inv Hc.
  by eapply subseteq_drop, subseteq_take.
Qed.

Lemma scanned_scan_trace s n parent path tok rf rf' evs :
  scanned s n parent path tok rf rf' evs → scan_trace s n parent tok evs.
Proof.
  revert parent path tok rf rf' evs.
  apply (scanned_mut s n
    (λ parent _ tok _ _ evs, scan_trace s n parent tok evs)
    (λ _ files _ _ evs,
       ∃ subs, Forall2 (λ d evs', scan_trace s n (FId d) 0 evs')
                       (filter isFolder files) subs ∧ evs = concat subs)).
  - intros parent path tok files rf rf' evs Hp _ (subs & F & ->).
    by eapply scan_last_page.
  - intros parent path tok files next rf rf1 rf' evs1 evs2 Hp Hn _
      (subs & F & ->) _ IH.
    by eapply scan_more_pages.
  - intros. exists []. split; [|done]. rewrite filter_nil. constructor.
  - intros path d rest rf rf1 rf' evs1 evs2 Hd _ IH1 _ (subs & F & ->).
    exists (evs1 :: subs). split; [|done].
    rewrite filter_cons_True by done. by constructor.
  - intros path f rest rf rf' evs Hf _ (subs & F & ->).
    exists subs. split; [|done]. by rewrite filter_cons_False.
Qed.

Lemma entry_from_not_folder s pid prefix path f :
  entry_from s pid prefix path f → ¬ isFolder f.
Proof. induction 1; done. Qed.

Lemma entry_from_via s pid prefix path f :
  entry_from s pid prefix path f ↔
  ∃ c, c ∈ children s pid ∧ entry_via s c prefix path f.
Proof.
  split.
  - intros E. inversion E; subst.
    + eexists. split; [done|]. by left.
    + eexists. split; [done|]. by right.
  - intros (c & Hc & [(Hf & -> & ->)|(Hd & E)]).
    + by apply entry_here.
    + by eapply entry_below.
Qed.

(** What the index holds after a scan was put there by the scan, for a
    file below the folder scanned, at the path of that file. *)
Lemma scanned_sound s n parent path tok rf rf' evs :
  scanned s n parent path tok rf rf' evs →
  ∀ p f, rf' !! p = Some f → rf !! p = Some f ∨ entry_from s parent path p f.
Proof.
  revert parent path tok rf rf' evs.
  apply (scanned_mut s n
    (λ parent path _ rf rf' _,
       ∀ p f, rf' !! p = Some f →
              rf !! p = Some f ∨ entry_from s parent path p f)
    (λ path files rf rf' _,
       ∀ parent, (∀ c, c ∈ files → c ∈ children s parent) →
       ∀ p f, rf' !! p = Some f →
              rf !! p = Some f ∨ entry_from s parent path p f)).
  - intros parent path tok files rf rf' evs Hp _ IH p f Hpf.
    eapply IH; [|done]. intros c. by eapply page_of_subseteq.
  - intros parent path tok files next rf rf1 rf' evs1 evs2 Hp Hn _ IH1 _ IH2
      p f Hpf.
    destruct (IH2 _ _ Hpf) as [H1|?]; [|by right].
    eapply IH1; [|done]. intros c. by eapply page_of_subseteq.
  - intros. by left.
  - intros path d rest rf rf1 rf' evs1 evs2 Hd _ IH1 _ IH2 parent Hsub p f Hpf.
    destruct (IH2 parent (λ c Hc, Hsub c (list_elem_of_further _ _ _ Hc)) _ _ Hpf)
      as [H1|?]; [|by right].
    destruct (IH1 _ _ H1) as [?|E]; [by left|]. right.
    eapply entry_below; [|done..]. apply Hsub. by left.
  - intros path f0 rest rf rf' evs Hf _ IH parent Hsub p f Hpf.
    destruct (IH parent (λ c Hc, Hsub c (list_elem_of_further _ _ _ Hc)) _ _ Hpf)
      as [H1|?]; [|by right].
    apply lookup_insert_Some in H1 as [[<- <-]|[_ ?]]; [|by left].
    right. apply entry_here; [|done]. apply Hsub. by left.
Qed.

(** The index after a scan has every path a file below the folder has. *)
Lemma scanned_complete s n parent path tok rf rf' evs :
  0 < n →
  scanned s n parent path tok rf rf' evs →
  (∀ p, is_Some (rf !! p) → is_Some (rf' !! p)) ∧
  ∀ c p f, c ∈ drop tok (children s parent) →
           entry_via s c path p f → is_Some (rf' !! p).
Proof.
  intros Hn0. revert parent path tok rf rf' evs.
  apply (scanned_mut s n
    (λ parent path tok rf rf' _,
       (∀ p, is_Some (rf !! p) → is_Some (rf' !! p)) ∧
       ∀ c p f, c ∈ drop tok (children s parent) →
                entry_via s c path p f → is_Some (rf' !! p))
    (λ path files rf rf' _,
       (∀ p, is_Some (rf !! p) → is_Some (rf' !! p)) ∧
       ∀ c p f, c ∈ files → entry_via s c path p f → is_Some (rf' !! p))).
  - intros parent path tok files rf rf' evs Hp _ [M IH].
    split; [done|]. intros c p f Hc Hv.
    apply page_of_inv in Hp as [_ [[_ Hd]|[? _]]]; [|lia].
    rewrite Hd in Hc. eauto.
  - intros parent path tok files next rf rf1 rf' evs1 evs2 Hp Hn _ [M1 IH1] _
      [M2 IH2].
    split; [by auto|]. intros c p f Hc Hv.
    apply page_of_inv in Hp as [_ [[? _]|(-> & _ & Hd)]]; [done|].
    rewrite Hd in Hc. apply elem_of_app in Hc as [Hc|Hc]; eauto.
  - intros path rf. split; [done|]. intros c p f Hc. by apply elem_of_nil in Hc.
  - intros path d rest rf rf1 rf' evs1 evs2 Hd _ [M1 IH1] _ [M2 IH2].
    split; [by auto|]. intros c p f Hc Hv.
    apply elem_of_cons in Hc as [->|Hc]; [|by eauto].
    destruct Hv as [[Hf _]|[_ E]]; [done|].
    apply entry_from_via in E as (c' & Hc' & Hv'). apply M2. eauto.
  - intros path f0 rest rf rf' evs Hf _ [M IH].
    split.
    { intros p Hp. apply M. rewrite lookup_insert_is_Some.
      destruct (decide (filepath_Join path (Name f0) = p)); auto. }
    intros c p f Hc Hv.
    apply elem_of_cons in Hc as [->|Hc]; [|by eauto].
    destruct Hv as [(_ & -> & _)|[? _]]; [|done].
    apply M. by rewrite lookup_insert_eq.
Qed.

Lemma fetchRemoteFiles_sound fuel root w w' rf :
  fetchRemoteFiles fuel root "" ∅ w = (w', Ok rf) →
  ∀ p f, rf !! p = Some f → remote_file (store w) root p f.
Proof.
  intros E p f Hpf. apply fetch_from_scanned in E as (evs & _ & _ & Sc).
  eapply scanned_sound in Sc as [Hempty|?]; [|done..].
  by rewrite lookup_empty in Hempty.
Qed.

Lemma fetchRemoteFiles_complete fuel root w w' rf :
  fetchRemoteFiles fuel root "" ∅ w = (w', Ok rf) →
  ∀ p f, remote_file (store w) root p f → is_Some (rf !! p).
Proof.
  intros E p f Hpf. apply fetch_from_scanned in E as (evs & _ & _ & Sc).
  apply scanned_complete in Sc as [_ Hc]; [|unfold page_len; lia].
  apply entry_from_via in Hpf as (c & Hin & Hv). eauto.
Qed.

(** ** Folder resolution: one lookup per directory path *)

Lemma cache_lookup_None key (c : folderCache) :
  cache_lookup key c = None ↔ key ∉ c.*1.
Proof.
  induction c as [|[k id] c IH]; simpl.
  - split; [intros _; apply not_elem_of_nil|done].
  - case_decide as Hk.
    + split; [done|]. intros Hn. exfalso. apply Hn. subst. by left.
    + rewrite IH, not_elem_of_cons. split; [|by intros [_ ?]].
      intros Hn. split; [by intros ->|done].
Qed.

Lemma folder_lookups_app evs1 evs2 :
  folder_lookups (evs1 ++ evs2) = folder_lookups evs1 + folder_lookups evs2.
Proof. unfold folder_lookups. by rewrite filter_app, length_app. Qed.

Lemma folder_creates_app evs1 evs2 :
  folder_creates (evs1 ++ evs2) = folder_creates evs1 + folder_creates evs2.
Proof. unfold folder_creates. by rewrite filter_app, length_app. Qed.

Lemma counted_app evs1 evs2 att1 att2 :
  counted evs1 att1 → counted evs2 att2 → counted (evs1 ++ evs2) (att2 ++ att1).
Proof.
  unfold counted. rewrite folder_lookups_app, folder_creates_app, length_app.
  lia.
Qed.

Lemma counted_nil : counted [] [].
Proof. done. Qed.

Lemma quiet_counted evs :
  Forall (λ e, is_folder_lookup e = false ∧ is_folder_create e = false) evs →
  counted evs [].
Proof.
  intros F. unfold counted, folder_lookups, folder_creates.
  induction F as [|e evs [H1 H2] _ [IH1 IH2]]; [done|].
  rewrite !filter_cons, H1, H2. simpl. done.
Qed.

Lemma wrap_run {A} msg (m : M A) w w' r :
  wrap msg m w = (w', r) →
  ∃ r0, m w = (w', r0) ∧ (r = Timeout → r0 = Timeout) ∧
        (∀ a, r = Ok a → r0 = Ok a).
Proof.
  intros E. apply wrap_inv in E as [[E _]|(e & E & ->)]; eauto.
  eexists. split; [done|]. done.
Qed.

Lemma Files_List_ev q tok w w' r :
  Files_List q tok w = (w', r) →
  r ≠ Timeout ∧ ∃ ok, extends w w' [Api (CallList q tok) ok].
Proof.
  unfold Files_List.
  destruct (api_fails w); [|destruct (query_ok q)]; intros [= <- <-];
    (split; [done|]); eexists; by apply extends_log.
Qed.

Lemma Files_Create_ev name mime parent media w w' r :
  Files_Create name mime parent media w = (w', r) →
  r ≠ Timeout ∧
  ∃ ok, extends w w' [Api (CallCreate name mime parent media) ok].
Proof.
  unfold Files_Create. destruct (_ || _); intros [= <- <-];
    (split; [done|]); eexists; done.
Qed.

Ltac count_events :=
  unfold counted, folder_lookups, folder_creates; simpl; split;
  [reflexivity|lia].

Lemma createOrGetFolder_counted name parentID w w' r :
  createOrGetFolder name parentID w = (w', r) →
  r ≠ Timeout ∧ ∃ evs, extends w w' evs ∧ counted evs [name].
Proof.
  unfold createOrGetFolder. intros E.
  apply bind_inv in E as [(w1 & [files next] & E1 & E)|[(e & E & ->)|[E ->]]].
  - apply wrap_Ok, Files_List_ev in E1 as (_ & ok1 & X1).
    destruct files as [|f files].
    + assert (∃ r0, Files_Create name folderMime parentID None w1 = (w', r0) ∧
                    (r = Timeout → r0 = Timeout)) as (r0 & E0 & Hr0).
      { apply bind_inv in E as [(w2 & g & E2 & E)|[(e & E & ->)|[E ->]]].
        - inversion E; subst. apply wrap_Ok in E2.
          eexists. split; [done|done].
        - apply wrap_run in E as (r0 & E & _). eexists. split; [done|done].
        - apply wrap_run in E as (r0 & E & Hr & _). eauto. }
      apply Files_Create_ev in E0 as (Hne & ok2 & X2).
      split; [intros ->; by apply Hne, Hr0|].
      eexists. split; [by eapply extends_trans|].
      count_events.
    + inversion E; subst. split; [done|]. eexists. split; [done|].
      count_events.
  - split; [done|]. apply wrap_run in E as (r0 & E & _).
    apply Files_List_ev in E as (_ & ok & X). eexists. split; [done|].
    count_events.
  - apply wrap_run in E as (r0 & E & Hr & _).
    apply Files_List_ev in E as [Hne _]. destruct Hne. by apply Hr.
Qed.

Lemma resolve_parts_counted parts i todo parentID cache w w' r :
  resolve_parts parts i todo parentID cache w = (w', r) →
  r ≠ Timeout ∧
  ∃ evs att,
    extends w w' evs ∧ counted evs att ∧
    fresh_keys parts i (length todo) cache att ∧
    ∀ x, r = Ok x →
         x.2.*1 = att ++ cache.*1 ∧
         ∀ j, i ≤ j < i + length todo →
              strings_Join (take (S j) parts) ∈ x.2.*1.
Proof.
  revert i parentID cache w.
  induction todo as [|part rest IH]; intros i parentID cache w; simpl.
  - intros [= <- <-]. split; [done|]. exists [], [].
    split; [apply extends_refl|]. split; [done|].
    split; [split; [constructor|]; intros k Hk; by apply elem_of_nil in Hk|].
    intros x [= <-]. split; [done|]. intros j ?. lia.
  - destruct (cache_lookup _ cache) as [cachedID|] eqn:Hc.
    + intros E. apply IH in E as (Hr & evs & att & X & C & [ND F] & Hok).
      split; [done|]. exists evs, att. split; [done|]. split; [done|].
      split.
      { split; [done|]. intros k Hk. destruct (F k Hk) as (Hn & j & Hj & ->).
        split; [done|]. exists j. split; [lia|done]. }
      intros x ->. destruct (Hok _ eq_refl) as [Hx Hall]. split; [done|].
      intros j Hj. destruct (decide (j = i)) as [->|]; [|apply Hall; lia].
      rewrite Hx. apply elem_of_app. right.
      destruct (decide (strings_Join (take (S i) parts) ∈ cache.*1)); [done|].
      apply cache_lookup_None in n. congruence.
    + apply cache_lookup_None in Hc. intros E.
      apply bind_inv in E as [(w1 & id & E1 & E)|[(e & E & ->)|[E ->]]].
      * apply wrap_Ok, createOrGetFolder_counted in E1 as (_ & evs1 & X1 & C1).
        apply IH in E as (Hr & evs2 & att & X2 & C2 & [ND F] & Hok).
        split; [done|].
        exists (evs1 ++ evs2), (att ++ [strings_Join (take (S i) parts)]).
        split; [by eapply extends_trans|].
        split; [by apply (counted_app _ _ [_])|].
        split.
        { split.
          - apply NoDup_app. split; [done|]. split; [|apply NoDup_singleton].
            intros k Hk Hk'. apply list_elem_of_singleton in Hk' as ->.
            destruct (F _ Hk) as [Hn _]. apply Hn. simpl. by left.
          - intros k Hk. apply elem_of_app in Hk as [Hk|Hk].
            + destruct (F k Hk) as (Hn & j & Hj & ->). split.
              * intros Hin. apply Hn. simpl. by right.
              * exists j. split; [lia|done].
            + apply list_elem_of_singleton in Hk as ->. split; [done|].
              exists i. split; [lia|done]. }
        intros x ->. destruct (Hok _ eq_refl) as [Hx Hall]. split.
        { rewrite Hx. simpl. by rewrite <- app_assoc. }
        intros j Hj. destruct (decide (j = i)) as [->|]; [|apply Hall; lia].
        rewrite Hx. apply elem_of_app. right. simpl. by left.
      * split; [done|].
        assert (∃ r0, createOrGetFolder part parentID w = (w', r0))
          as [r0 E0].
        { apply wrap_inv in E as [[E _]|(e' & E & _)]; eauto. }
        apply createOrGetFolder_counted in E0 as (_ & evs1 & X1 & C1).
        exists evs1, [strings_Join (take (S i) parts)].
        split; [done|]. split; [done|]. split; [|done].
        split; [apply NoDup_singleton|]. intros k Hk.
        apply list_elem_of_singleton in Hk as ->. split; [done|].
        exists i. split; [lia|done].
      * apply wrap_inv in E as [[E _]|(e' & E & ?)]; [|done].
        by apply createOrGetFolder_counted in E as [? _].
Qed.

Lemma quiet_run {A} (m : M A) w w' r :
  quiet m → m w = (w', r) → ∃ evs, extends w w' evs ∧ counted evs [].
Proof.
  intros Hq E. apply Hq in E as (evs & X & F). exists evs.
  split; [done|]. by apply quiet_counted.
Qed.

Lemma quiet_upload name parent file :
  quiet (wrap "unable to upload file: "
              (Files_Create name "" parent (Some file))).
Proof. apply emits_wrap, emits_Files_Create. done. Qed.

Lemma elem_of_dir_keys rel k :
  k ∈ dir_keys rel ↔
  ∃ j, j < length (strings_Split (filepath_ToSlash rel)) - 1 ∧
       k = strings_Join (take (S j) (strings_Split (filepath_ToSlash rel))).
Proof.
  unfold dir_keys. rewrite list_elem_of_fmap. split.
  - intros (j & -> & Hj). apply elem_of_seq in Hj. exists j. split; [lia|done].
  - intros (j & Hj & ->). exists j. split; [done|]. apply elem_of_seq. lia.
Qed.

Lemma uploadFile_counted filePath rel parentID cache w w' r :
  uploadFile filePath rel parentID cache w = (w', r) →
  r ≠ Timeout ∧
  ∃ evs att,
    extends w w' evs ∧ counted evs att ∧ resolved [rel] cache att ∧
    ∀ c, r = Ok c →
         c.*1 = att ++ cache.*1 ∧ ∀ k, k ∈ dir_keys rel → k ∈ c.*1.
Proof.
  unfold uploadFile. intros E.
  set (parts := strings_Split (filepath_ToSlash rel)) in *.
  assert (Hlen : length (take (length parts - 1) parts) = length parts - 1).
  { rewrite length_take. lia. }
  assert (Hres : ∀ att, fresh_keys parts 0 (length parts - 1) cache att →
                        resolved [rel] cache att).
  { intros att [ND F]. split; [done|]. intros k Hk.
    destruct (F k Hk) as (Hn & j & Hj & ->). split; [done|].
    simpl. rewrite app_nil_r. apply (proj2 (elem_of_dir_keys _ _)). exists j.
    split; [fold parts; lia|done]. }
  apply bind_inv in E as [(w1 & [pid c1] & E1 & E)|[(e & E & ->)|[E ->]]].
  - apply resolve_parts_counted in E1 as (_ & evs1 & att & X1 & C1 & F & Hok).
    rewrite Hlen in F, Hok. destruct (Hok _ eq_refl) as [Hc1 Hall].
    simpl in Hc1, Hall.
    assert (∃ evs2, extends w1 w' evs2 ∧ counted evs2 [] ∧ r ≠ Timeout ∧
                    ∀ c, r = Ok c → c = c1) as (evs2 & X2 & C2 & Hr & Hc).
    { apply bind_inv in E as [(w2 & file & E2 & E)|[(e & E & ->)|[E ->]]].
      - apply (quiet_run _ _ _ _ (emits_wrap _ _ _ (emits_os_Open _ _))) in E2
          as (evs2 & X2 & C2).
        apply bind_inv in E as [(w3 & g & E3 & E)|[(e & E & ->)|[E ->]]].
        + apply (quiet_run _ _ _ _ (quiet_upload _ _ _)) in E3
            as (evs3 & X3 & C3).
          unfold bind, printf, ret in E. inversion E; subst.
          exists (evs2 ++ evs3 ++ []). split.
          { eapply extends_trans; [done|]. eapply extends_trans; [done|].
            apply extends_print. }
          split; [|split; [done|by intros c [= <-]]].
          apply (counted_app _ _ [] []); [done|].
          rewrite app_nil_r. done.
        + apply (quiet_run _ _ _ _ (quiet_upload _ _ _)) in E
            as (evs3 & X3 & C3).
          exists (evs2 ++ evs3). split; [by eapply extends_trans|].
          split; [by apply (counted_app _ _ [] [])|done].
        + apply wrap_run in E as (r0 & E & Hr & _).
          apply Files_Create_ev in E as [Hne _]. destruct Hne. by apply Hr.
      - apply (quiet_run _ _ _ _ (emits_wrap _ _ _ (emits_os_Open _ _))) in E
          as (evs2 & X2 & C2).
        exists evs2. done.
      - apply wrap_run in E as (r0 & E & Hr & _).
        unfold os_Open in E. specialize (Hr eq_refl). subst r0.
        destruct (fs w1 !! filePath) as [[]|]; done. }
    split; [done|]. exists (evs1 ++ evs2), att.
    split; [by eapply extends_trans|].
    split; [by apply (counted_app _ _ att [])|].
    split; [by apply Hres|].
    intros c ->. rewrite (Hc _ eq_refl). split; [done|].
    intros k (j & Hj & ->)%elem_of_dir_keys. apply Hall. unfold parts. lia.
  - apply resolve_parts_counted in E as (_ & evs1 & att & X1 & C1 & F & _).
    rewrite Hlen in F. split; [done|]. exists evs1, att.
    split; [done|]. split; [done|]. split; [by apply Hres|done].
  - by apply resolve_parts_counted in E as [? _].
Qed.

(** ** Calls that return *)

Lemma halts_ret {A} (a : A) : halts (ret a).
Proof. by intros w w'. Qed.
Lemma halts_fail {A} e : halts (@fail A e).
Proof. by intros w w'. Qed.
Lemma halts_lift {A} (x : result A) : halts (lift x).
Proof. by destruct x. Qed.
Lemma halts_printf line : halts (printf line).
Proof. by intros w w'. Qed.
Lemma halts_bind {A B} (m : M A) (k : A → M B) :
  halts m → (∀ a, halts (k a)) → halts (bind m k).
Proof.
  intros Hm Hk w w' E.
  apply bind_inv in E as [(w1 & a & _ & E)|[(e & _ & ?)|[E _]]];
    [by eapply Hk|done|by eapply Hm].
Qed.
Lemma halts_wrap {A} msg (m : M A) : halts m → halts (wrap msg m).
Proof.
  intros Hm w w' E. apply wrap_run in E as (r0 & E & Hr & _).
  rewrite (Hr eq_refl) in E. by eapply Hm.
Qed.
Lemma halts_os_Open path : halts (os_Open path).
Proof. intros w w'. unfold os_Open. by destruct (fs w !! path) as [[]|]. Qed.
Lemma halts_Files_List q tok : halts (Files_List q tok).
Proof. intros w w' E. by apply Files_List_ev in E as [? _]. Qed.
Lemma halts_Files_Create name mime parent media :
  halts (Files_Create name mime parent media).
Proof. intros w w' E. by apply Files_Create_ev in E as [? _]. Qed.
Lemma halts_Files_Update id media : halts (Files_Update id media).
Proof.
  intros w w'. unfold Files_Update. destruct (_ || _); [done|]. by case_decide.
Qed.
Lemma halts_Files_Delete id : halts (Files_Delete id).
Proof.
  intros w w'. unfold Files_Delete. destruct (api_fails w); [done|].
  by case_decide.
Qed.
Lemma halts_computeMD5 path : halts (computeMD5 path).
Proof.
  apply halts_bind; [apply halts_wrap, halts_os_Open|].
  intros [e|e|c]; [apply halts_fail..|apply halts_ret].
Qed.
Lemma halts_updateFile filePath id : halts (updateFile filePath id).
Proof.
  apply halts_bind; [apply halts_wrap, halts_os_Open|]. intros file.
  apply halts_bind; [apply halts_wrap, halts_Files_Update|].
  intros _. apply halts_printf.
Qed.

Lemma quiet_updateFile filePath id : quiet (updateFile filePath id).
Proof.
  unfold updateFile. apply emits_bind; [apply emits_wrap, emits_os_Open|].
  intros file. apply emits_bind; [|intros; apply emits_printf].
  apply emits_wrap, emits_Files_Update. done.
Qed.

Lemma uploadOrUpdateFile_counted filePath rel checksum rf root cache w w' r :
  uploadOrUpdateFile filePath rel checksum rf root cache w = (w', r) →
  r ≠ Timeout ∧
  ∃ evs att,
    extends w w' evs ∧ counted evs att ∧ resolved [rel] cache att ∧
    ∀ c, r = Ok c →
         c.*1 = att ++ cache.*1 ∧
         (rf !! rel = None → ∀ k, k ∈ dir_keys rel → k ∈ c.*1).
Proof.
  assert (Hnil : resolved [rel] cache []).
  { split; [constructor|]. intros k Hk. by apply elem_of_nil in Hk. }
  unfold uploadOrUpdateFile. destruct (rf !! rel) as [remoteFile|] eqn:Hrf.
  - case_decide.
    + intros E. unfold bind, printf, ret in E. inversion E; subst.
      split; [done|]. exists [], []. split; [apply extends_print|].
      split; [done|]. split; [done|]. by intros c [= <-].
    + intros E. split.
      { intros ->. revert E. apply halts_bind; [apply halts_printf|intros _].
        apply halts_bind; [apply halts_updateFile|intros; apply halts_ret]. }
      apply bind_inv in E as [(w1 & [] & E1 & E)|[(e & E & ->)|[E ->]]];
        [|done..].
      inversion E1; subst.
      assert (∃ evs, extends (print ("Updating file: " +:+ rel) w) w' evs ∧
                     counted evs [] ∧ ∀ c, r = Ok c → c = cache)
        as (evs & X & C & Hc).
      { apply bind_inv in E as [(w2 & [] & E2 & E)|[(e & E & ->)|[E ->]]].
        - inversion E; subst.
          apply (quiet_run _ _ _ _ (quiet_updateFile _ _)) in E2
            as (evs & X & C).
          exists evs. split; [done|]. split; [done|]. by intros c [= <-].
        - apply (quiet_run _ _ _ _ (quiet_updateFile _ _)) in E
            as (evs & X & C). exists evs. done.
        - apply (quiet_run _ _ _ _ (quiet_updateFile _ _)) in E
            as (evs & X & C). exists evs. done. }
      exists ([] ++ evs), []. split.
      { eapply extends_trans; [apply extends_print|done]. }
      split; [done|]. split; [done|]. intros c ->. by rewrite (Hc _ eq_refl).
  - intros E.
    apply bind_inv in E as [(w1 & [] & E1 & E)|[(e & E & ->)|[E ->]]];
      [|done..].
    inversion E1; subst.
    apply uploadFile_counted in E as (Hr & evs & att & X & C & R & Hok).
    split; [done|]. exists ([] ++ evs), att. split.
    { eapply extends_trans; [apply extends_print|done]. }
    split; [done|]. split; [done|]. intros c ->.
    destruct (Hok _ eq_refl) as [Hc Hall]. split; [done|]. by intros _.
Qed.

Lemma file_rels_cons v visits :
  file_rels (v :: visits) = file_rels [v] ++ file_rels visits.
Proof.
  unfold file_rels. simpl.
  destruct (v_err v); [done|]. destruct (v_isDir v); [done|].
  by destruct (v_rel v).
Qed.

Lemma walkFn_counted root rf st v w w' r :
  walkFn root rf st v w = (w', r) →
  r ≠ Timeout ∧
  ∃ evs att,
    extends w w' evs ∧ counted evs att ∧ resolved (file_rels [v]) (st.2) att ∧
    ∀ st', r = Ok st' →
      st'.2.*1 = att ++ st.2.*1 ∧
      ∀ rel k, rel ∈ file_rels [v] → rf !! rel = None →
               k ∈ dir_keys rel → k ∈ st'.2.*1.
Proof.
  assert (Hnil : ∀ rels, resolved rels (st.2) []).
  { split; [constructor|]. intros k Hk. by apply elem_of_nil in Hk. }
  unfold walkFn, file_rels. simpl. destruct (v_err v) as [err|].
  { intros [= <- <-]. split; [done|]. exists [], [].
    split; [apply extends_refl|]. done. }
  destruct (v_isDir v).
  { intros [= <- <-]. split; [done|]. exists [], [].
    split; [apply extends_refl|]. split; [done|]. split; [done|].
    intros st' [= <-]. split; [done|]. intros rel k Hrel.
    by apply elem_of_nil in Hrel. }
  destruct (v_rel v) as [rel|e]; simpl.
  2:{ intros [= <- <-]. split; [done|]. exists [], [].
      split; [apply extends_refl|]. done. }
  intros E.
  apply bind_inv in E as [(w1 & rel' & E1 & E)|[(e & E & _)|[E _]]]; [|done..].
  inversion E1; subst rel' w1; clear E1.
  apply bind_inv in E as [(w1 & checksum & E1 & E)|[(e & E & ->)|[E ->]]].
  - apply wrap_Ok, computeMD5_Ok in E1 as (-> & _).
    apply bind_inv in E as [(w2 & cache & E2 & E)|[(e & E & ->)|[E ->]]].
    + inversion E; subst.
      apply uploadOrUpdateFile_counted in E2 as (_ & evs & att & X & C & R & Hok).
      split; [done|]. exists evs, att. split; [done|]. split; [done|].
      split; [done|]. intros st' [= <-]. simpl.
      destruct (Hok _ eq_refl) as [Hc Hall]. split; [done|].
      intros rel' k ->%list_elem_of_singleton Hrf Hk. by apply Hall.
    + apply uploadOrUpdateFile_counted in E as (_ & evs & att & X & C & R & Hok).
      split; [done|]. exists evs, att. done.
    + by apply uploadOrUpdateFile_counted in E as [? _].
  - split; [done|].
    destruct (emits_wrap _ _ _ (emits_computeMD5 (λ _, False) (v_path v))
                _ _ _ E) as (evs & X & F).
    destruct evs; [|by inversion F]. exists [], []. done.
  - apply wrap_run in E as (r0 & E & Hr & _). rewrite (Hr eq_refl) in E.
    by apply halts_computeMD5 in E.
Qed.

Lemma walk_visits_counted root rf st visits w w' r :
  walk_visits (walkFn root rf) st visits w = (w', r) →
  r ≠ Timeout ∧
  ∃ evs att,
    extends w w' evs ∧ counted evs att ∧
    resolved (file_rels visits) (st.2) att ∧
    ∀ st', r = Ok st' →
      st'.2.*1 = att ++ st.2.*1 ∧
      ∀ rel k, rel ∈ file_rels visits → rf !! rel = None →
               k ∈ dir_keys rel → k ∈ st'.2.*1.
Proof.
  revert st w. induction visits as [|v rest IH]; intros st w.
  - simpl. intros [= <- <-]. split; [done|]. exists [], [].
    split; [apply extends_refl|]. split; [done|]. split.
    { split; [constructor|]. intros k Hk. by apply elem_of_nil in Hk. }
    intros st' [= <-]. split; [done|]. intros rel k Hrel.
    by apply elem_of_nil in Hrel.
  - cbn [walk_visits]. intros E. rewrite file_rels_cons.
    apply bind_inv in E as [(w1 & st1 & E1 & E)|[(e & E & ->)|[E ->]]].
    + apply walkFn_counted in E1 as (_ & evs1 & att1 & X1 & C1 & [ND1 F1] & Hok1).
      apply IH in E as (Hr & evs2 & att2 & X2 & C2 & [ND2 F2] & Hok2).
      destruct (Hok1 _ eq_refl) as [Hc1 Hall1].
      split; [done|]. exists (evs1 ++ evs2), (att2 ++ att1).
      split; [by eapply extends_trans|]. split; [by apply counted_app|].
      split.
      { split.
        - apply NoDup_app. split; [done|]. split; [|done].
          intros k Hk Hk'. destruct (F2 k Hk) as [Hn _]. apply Hn.
          rewrite Hc1. apply elem_of_app. by left.
        - intros k [Hk|Hk]%elem_of_app.
          + destruct (F2 k Hk) as [Hn Hd]. split.
            * intros Hin. apply Hn. rewrite Hc1. apply elem_of_app. by right.
            * rewrite bind_app. apply elem_of_app. by right.
          + destruct (F1 k Hk) as [Hn Hd]. split; [done|].
            rewrite bind_app. apply elem_of_app. by left. }
      intros st' ->. destruct (Hok2 _ eq_refl) as [Hc2 Hall2]. split.
      { by rewrite Hc2, Hc1, app_assoc. }
      intros rel k [Hrel|Hrel]%elem_of_app Hrf Hk; [|by eauto].
      rewrite Hc2. apply elem_of_app. right. eauto.
    + apply walkFn_counted in E as (_ & evs1 & att1 & X1 & C1 & [ND1 F1] & _).
      split; [done|]. exists evs1, att1. split; [done|]. split; [done|].
      split; [|done]. split; [done|]. intros k Hk.
      destruct (F1 k Hk) as [Hn Hd]. split; [done|].
      rewrite bind_app. apply elem_of_app. by left.
    + by apply walkFn_counted in E as [? _].
Qed.

Lemma filepath_Walk_counted localDir root rf w w' r :
  filepath_Walk localDir (walkFn root rf) (∅, []) w = (w', r) →
  r ≠ Timeout ∧
  ∃ evs att,
    extends w w' evs ∧ counted evs att ∧ NoDup att ∧
    (∀ k, k ∈ att → k ∈ walk_dirs (walk_script localDir w)) ∧
    ∀ st, r = Ok st →
      st.2.*1 = att ∧
      ∀ rel k, rel ∈ file_rels (walk_script localDir w) → rf !! rel = None →
               k ∈ dir_keys rel → k ∈ st.2.*1.
Proof.
  unfold filepath_Walk. intros E.
  apply walk_visits_counted in E as (Hr & evs & att & X & C & [ND F] & Hok).
  split; [done|]. exists ([WalkDir localDir] ++ evs), att.
  split; [eapply extends_trans; [by apply extends_log|done]|].
  split.
  { assert (C0 : counted [WalkDir localDir] []) by count_events.
    pose proof (counted_app _ _ _ _ C0 C) as C'.
    by rewrite app_nil_r in C'. }
  split; [done|]. split.
  { intros k Hk. destruct (F k Hk) as [_ Hd]. unfold walk_dirs.
    by apply elem_of_list_to_set. }
  intros st ->. destruct (Hok _ eq_refl) as [Hc Hall].
  simpl in Hc. rewrite app_nil_r in Hc. done.
Qed.

Lemma NoDup_length_le_size (l : list string) (X : gset string) :
  NoDup l → (∀ k, k ∈ l → k ∈ X) → length l ≤ size X.
Proof.
  intros ND Hsub. rewrite <- (size_list_to_set (C := gset string) l ND).
  apply subseteq_size. intros k Hk. apply elem_of_list_to_set in Hk. auto.
Qed.

Lemma quiet_fetchRemoteFiles fuel root rf :
  quiet (fetchRemoteFiles fuel root "" rf).
Proof.
  eapply emits_mono; [|apply emits_fetch_from].
  by intros e (parent & tok & ok & ->).
Qed.

Lemma quiet_deleteRemoteFiles localFiles rf :
  quiet (wrap "failed to delete remote files: "
              (deleteRemoteFiles localFiles rf)).
Proof.
  apply emits_wrap. eapply emits_mono; [|apply emits_delete_loop].
  intros [[]|]; done.
Qed.

(** In one run of [syncFiles] there are at most as many folder
    creations as folder lookups, and at most as many folder lookups as the
    files visited have distinct ancestor directory paths.  When the walk
    goes through, no directory path was written to the folder cache twice,
    the folder lookups are as many as the cache has entries, and every
    ancestor directory of a file that was uploaded is in the cache. *)
Lemma folders_counted fuel localDir root w w' r :
  syncFiles fuel localDir root w = (w', r) →
  folder_creates (new_events w w') ≤ folder_lookups (new_events w w') ∧
  folder_lookups (new_events w w')
    ≤ size (walk_dirs (walk_script localDir w)) ∧
  ∀ w1 rf w2 st,
    fetchRemoteFiles fuel root "" ∅ w = (w1, Ok rf) →
    filepath_Walk localDir (walkFn root rf) (∅, []) w1 = (w2, Ok st) →
    NoDup (st.2.*1) ∧
    folder_lookups (new_events w w') = length (st.2) ∧
    ∀ rel k, rel ∈ file_rels (walk_script localDir w) → rf !! rel = None →
             k ∈ dir_keys rel → k ∈ st.2.*1.
Proof.
  intros E.
  apply syncFiles_inv in E
    as [(r0 & E & Hr0 & _)|(w1 & rf & E1 & [(r1 & E & Hr1 & _)|(w2 & st & E2 & E)])].
  - pose proof E as E0.
    apply (quiet_run _ _ _ _ (quiet_fetchRemoteFiles _ _ _)) in E
      as (evs & X & [C1 C2]).
    rewrite (extends_new_events _ _ _ X), C1. simpl in *.
    split; [done|]. split; [lia|]. intros w1 rf w2 st E1.
    rewrite E1 in E0. inversion E0; subst. by destruct (Hr0 rf).
  - pose proof E1 as E1'.
    apply (quiet_run _ _ _ _ (quiet_fetchRemoteFiles _ _ _)) in E1
      as (evs1 & X1 & C1).
    pose proof E as E'.
    apply filepath_Walk_counted in E as (_ & evs2 & att & X2 & C2 & ND & F & _).
    assert (Hw : walk_script localDir w1 = walk_script localDir w).
    { unfold walk_script. by destruct X1 as (_ & _ & _ & _ & -> & _). }
    rewrite Hw in F.
    rewrite (extends_new_events _ _ _ (extends_trans _ _ _ _ _ X1 X2)).
    destruct (counted_app _ _ _ _ C1 C2) as [HL HC].
    rewrite app_nil_r in HL, HC. rewrite HL.
    split; [done|]. split; [by apply NoDup_length_le_size|].
    intros w1' rf' w2' st' E1''. rewrite E1' in E1''.
    inversion E1''; subst. intros E2. rewrite E' in E2. inversion E2; subst.
    by destruct (Hr1 st').
  - pose proof E1 as E1'.
    apply (quiet_run _ _ _ _ (quiet_fetchRemoteFiles _ _ _)) in E1
      as (evs1 & X1 & C1).
    pose proof E2 as E2'.
    apply filepath_Walk_counted in E2
      as (_ & evs2 & att & X2 & C2 & ND & F & Hok).
    apply (quiet_run _ _ _ _ (quiet_deleteRemoteFiles _ _)) in E
      as (evs3 & X3 & C3).
    assert (Hw : walk_script localDir w1 = walk_script localDir w).
    { unfold walk_script. by destruct X1 as (_ & _ & _ & _ & -> & _). }
    rewrite Hw in F, Hok.
    assert (X := extends_trans _ _ _ _ _ (extends_trans _ _ _ _ _ X1 X2) X3).
    rewrite (extends_new_events _ _ _ X).
    destruct (counted_app _ _ _ _ (counted_app _ _ _ _ C1 C2) C3) as [HL HC].
    rewrite app_nil_r in HL, HC. simpl in HL, HC. rewrite HL.
    split; [done|]. split; [by apply NoDup_length_le_size|].
    intros w1' rf' w2' st' E1''. rewrite E1' in E1''.
    inversion E1''; subst. intros E2''. rewrite E2' in E2''.
    inversion E2''; subst. destruct (Hok _ eq_refl) as [Hc Hall].
    split; [by rewrite Hc|]. split; [|done].
    by rewrite <- Hc, length_fmap.
Qed.

(** ** Splitting and joining *)

Lemma split_aux_noslash s : noslash s → split_aux s = (s, []).
Proof.
  induction s as [|c s IH]; simpl; [done|]. intros [Hc Hs].
  rewrite (IH Hs). by rewrite decide_False.
Qed.

Lemma split_aux_sep a b :
  noslash a → split_aux (a +:+ String slash b) = (a, strings_Split b).
Proof.
  induction a as [|c a IH]; simpl.
  - intros _. unfold strings_Split. by destruct (split_aux b) as [h t].
  - intros [Hc Ha]. rewrite (IH Ha). by rewrite decide_False.
Qed.

Lemma split_aux_parts s h t :
  split_aux s = (h, t) → noslash h ∧ Forall noslash t.
Proof.
  revert h t. induction s as [|c s IH]; simpl; intros h t.
  - intros [= <- <-]. done.
  - destruct (split_aux s) as [h' t']. destruct (IH _ _ eq_refl) as [Hh Ht].
    case_decide; intros [= <- <-]; simpl; auto.
Qed.

Lemma strings_Split_noslash s : Forall noslash (strings_Split s).
Proof.
  unfold strings_Split. destruct (split_aux s) as [h t] eqn:E.
  apply split_aux_parts in E as [Hh Ht]. by constructor.
Qed.

Lemma strings_Split_Join parts :
  parts ≠ [] → Forall noslash parts →
  strings_Split (strings_Join parts) = parts.
Proof.
  induction parts as [|x [|y rest] IH]; [done|..]; intros _ F.
  - simpl. unfold strings_Split. rewrite split_aux_noslash; [done|].
    by inversion F.
  - inversion F as [|? ? Hx F']; subst.
    change (strings_Join (x :: y :: rest))
      with (x +:+ String slash (strings_Join (y :: rest))).
    unfold strings_Split at 1. rewrite split_aux_sep by done.
    by rewrite IH.
Qed.

Lemma strings_Split_length s : 0 < length (strings_Split s).
Proof. unfold strings_Split. destruct (split_aux s). simpl. lia. Qed.

(** The key of a prefix of the parts of a path stands for the join of
    that prefix. *)
Lemma key_path_prefix rel j :
  j < length (strings_Split rel) →
  key_path (strings_Join (take (S j) (strings_Split rel)))
  = foldl filepath_Join "" (take (S j) (strings_Split rel)).
Proof.
  intros Hj. unfold key_path. rewrite strings_Split_Join; [done|..].
  - destruct (strings_Split rel); simpl in *; [lia|done].
  - apply Forall_take, strings_Split_noslash.
Qed.

(** ** Paths in the Drive *)

Lemma elem_of_children s pid f :
  f ∈ children s pid ↔ f ∈ s ∧ Parent f = pid ∧ Trashed f = false.
Proof. unfold children. rewrite list_elem_of_filter. simpl. tauto. Qed.

Lemma same_id_eq (s : list File) f g :
  NoDup (FId <$> s) → f ∈ s → g ∈ s → FId f = FId g → f = g.
Proof.
  induction s as [|x s IH]; simpl; intros ND Hf Hg E.
  { by apply elem_of_nil in Hf. }
  apply NoDup_cons in ND as [Hx ND].
  apply elem_of_cons in Hf as [->|Hf]; apply elem_of_cons in Hg as [->|Hg];
    [done| | |by apply IH].
  - destruct Hx. rewrite E. by apply list_elem_of_fmap_2.
  - destruct Hx. rewrite <- E. by apply list_elem_of_fmap_2.
Qed.

Lemma reach_trans s pid0 q0 pid1 q1 pid q :
  reach s pid0 q0 pid1 q1 → reach s pid1 q1 pid q → reach s pid0 q0 pid q.
Proof. intros R1 R2. induction R2; [done|]. by eapply reach_step. Qed.

Lemma reach_entry_from s pid0 q0 pid q p f :
  reach s pid0 q0 pid q → entry_from s pid q p f → entry_from s pid0 q0 p f.
Proof.
  intros R. revert p f. induction R as [|pid q d R IH Hd Hdir]; intros p f E.
  - done.
  - apply IH. by eapply entry_below.
Qed.

Lemma entry_from_reach s pid0 q0 p f :
  entry_from s pid0 q0 p f ↔
  ∃ pid q, reach s pid0 q0 pid q ∧ f ∈ children s pid ∧ ¬ isFolder f ∧
           p = filepath_Join q (Name f).
Proof.
  split.
  - induction 1 as [pid prefix f Hf Hn|pid prefix d path f Hd Hdir _ IH].
    + exists pid, prefix. split; [constructor|done].
    + destruct IH as (pid' & q & R & ?). exists pid', q. split; [|done].
      eapply reach_trans; [|done]. eapply reach_step; [constructor|done..].
  - intros (pid & q & R & Hf & Hn & ->).
    eapply reach_entry_from; [done|]. by apply entry_here.
Qed.

Lemma reach_functional s root q0 pid q q' :
  NoDup (FId <$> s) → root ∉ FId <$> s →
  reach s root q0 pid q → reach s root q0 pid q' → q = q'.
Proof.
  intros ND Hroot R. revert q'.
  induction R as [|pid q d R IH Hd Hdir]; intros q' R'.
  - inversion R' as [|pid' q1 d' _ Hd' _ Hid]; [done|].
    destruct Hroot. rewrite <- Hid. apply list_elem_of_fmap_2.
    by apply elem_of_children in Hd' as [? _].
  - inversion R' as [Hid|pid' q1 d' R1 Hd' _ Hid Hq].
    + destruct Hroot. rewrite Hid. apply list_elem_of_fmap_2.
      by apply elem_of_children in Hd as [? _].
    + apply elem_of_children in Hd as (Hd & Hp & _).
      apply elem_of_children in Hd' as (Hd' & Hp' & _).
      assert (d' = d) as -> by by eapply same_id_eq.
      rewrite Hp in Hp'. subst pid'. by rewrite (IH _ R1).
Qed.

Lemma remote_file_functional s root p p' f :
  NoDup (FId <$> s) → root ∉ FId <$> s →
  remote_file s root p f → remote_file s root p' f → p = p'.
Proof.
  intros ND Hroot (pid & q & R & Hf & _ & ->)%entry_from_reach
    (pid' & q' & R' & Hf' & _ & ->)%entry_from_reach.
  apply elem_of_children in Hf as (_ & <- & _).
  apply elem_of_children in Hf' as (_ & <- & _).
  by rewrite (reach_functional _ _ _ _ _ _ ND Hroot R R').
Qed.

Lemma remote_file_elem s root p f : remote_file s root p f → f ∈ s.
Proof.
  intros (pid & q & _ & Hf & _)%entry_from_reach.
  by apply elem_of_children in Hf as [? _].
Qed.

Lemma reach_id s root n q0 pid q :
  wf_drive root s n → reach s root q0 pid q → pid < n.
Proof.
  intros (_ & Hlt & Hroot & _) R. destruct R as [|pid q d _ Hd _]; [done|].
  apply elem_of_children in Hd as [Hd _]. by apply Hlt.
Qed.

(** Paths survive as long as every folder on them does. *)
Lemma reach_mono s s' pid0 q0 pid q :
  (∀ d, d ∈ s → isFolder d → ∃ d', d' ∈ s' ∧ same_meta d d') →
  reach s pid0 q0 pid q → reach s' pid0 q0 pid q.
Proof.
  intros Hs R. induction R as [|pid q d R IH Hd Hdir]; [constructor|].
  apply elem_of_children in Hd as (Hd & Hp & Ht).
  destruct (Hs d Hd Hdir) as (d' & Hd' & Hid & Hname & Hmime & Hpar & Htr).
  rewrite Hid, Hname. eapply reach_step; [done|..].
  - apply elem_of_children. split; [done|]. split; congruence.
  - unfold isFolder in *. congruence.
Qed.

(** A path of [s'] to an object that [s] has already is a path of [s],
    when what [s'] has beyond [s] has fresh ids. *)
Lemma reach_old root s n s' q0 pid q :
  wf_drive root s n →
  (∀ g, g ∈ s' → FId g < n → ∃ g0, g0 ∈ s ∧ same_meta g0 g) →
  reach s' root q0 pid q → pid < n → reach s root q0 pid q.
Proof.
  intros (_ & Hlt & Hroot & _) Hold R.
  induction R as [|pid q d R IH Hd Hdir]; intros Hpid; [constructor|].
  apply elem_of_children in Hd as (Hd & Hp & Ht).
  destruct (Hold d Hd Hpid) as (d0 & Hd0 & Hid & Hname & Hmime & Hpar & Htr).
  rewrite <- Hid, <- Hname. eapply reach_step.
  - apply IH. destruct (Hlt _ Hd0) as [_ ?]. congruence.
  - apply elem_of_children. split; [done|]. split; congruence.
  - unfold isFolder in *. congruence.
Qed.

Lemma same_meta_refl g : same_meta g g.
Proof. done. Qed.

Lemma same_meta_sym g1 g2 : same_meta g1 g2 → same_meta g2 g1.
Proof. unfold same_meta. intuition congruence. Qed.

Lemma same_meta_trans g1 g2 g3 :
  same_meta g1 g2 → same_meta g2 g3 → same_meta g1 g3.
Proof. unfold same_meta. intuition congruence. Qed.

Lemma same_meta_set_md5 id h g : same_meta g (set_md5 id h g).
Proof. unfold set_md5. by case_decide. Qed.

Lemma remote_file_mono s s' root p f f' :
  (∀ d, d ∈ s → isFolder d → ∃ d', d' ∈ s' ∧ same_meta d d') →
  remote_file s root p f → f' ∈ s' → same_meta f f' →
  remote_file s' root p f'.
Proof.
  intros Hs (pid & q & R & Hf & Hn & ->)%entry_from_reach Hf'
    (Hid & Hname & Hmime & Hpar & Htr).
  apply entry_from_reach. exists pid, q. split; [by eapply reach_mono|].
  apply elem_of_children in Hf as (_ & Hp & Ht).
  split; [apply elem_of_children; split; [done|]; split; congruence|].
  split; [unfold isFolder in *; congruence|]. by rewrite Hname.
Qed.

Lemma remote_file_old root s n s' p g :
  wf_drive root s n →
  (∀ g, g ∈ s' → FId g < n → ∃ g0, g0 ∈ s ∧ same_meta g0 g) →
  remote_file s' root p g → FId g < n →
  ∃ g0, g0 ∈ s ∧ same_meta g0 g ∧ remote_file s root p g0.
Proof.
  intros Hwf Hold (pid & q & R & Hg & Hn & ->)%entry_from_reach Hid.
  apply elem_of_children in Hg as (Hg & Hp & Ht).
  destruct (Hold g Hg Hid) as (g0 & Hg0 & Hm).
  exists g0. split; [done|]. split; [done|].
  destruct Hm as (Hid0 & Hname & Hmime & Hpar & Htr).
  apply entry_from_reach. exists pid, q. split.
  - eapply reach_old; [done..|]. destruct Hwf as (_ & Hlt & _).
    destruct (Hlt _ Hg0) as [_ ?]. congruence.
  - split; [apply elem_of_children; split; [done|]; split; congruence|].
    split; [unfold isFolder in *; congruence|]. by rewrite Hname.
Qed.

(** ** The invariant of the walk *)

Section Walk.
Variables (root : Id) (s0 : list File) (n0 : Id) (rf : gmap string File).
Hypothesis wf0 : wf_drive root s0 n0.
Hypothesis rf_sound : ∀ p f, rf !! p = Some f → remote_file s0 root p f.
Hypothesis rf_complete : ∀ p f, remote_file s0 root p f → is_Some (rf !! p).

Lemma rf_inj p p' f f' :
  rf !! p = Some f → rf !! p' = Some f' → FId f = FId f' → p = p'.
Proof.
  intros Hp Hp' Hid. apply rf_sound in Hp, Hp'.
  destruct wf0 as (ND & _ & _ & Hroot).
  assert (f = f') as ->.
  { eapply same_id_eq; [done|..|done]; by eapply remote_file_elem. }
  by eapply remote_file_functional.
Qed.

Lemma walk_inv_init : walk_inv root s0 n0 rf s0 n0 (∅, []).
Proof.
  split; simpl; try done.
  - intros g0 Hg0. by exists g0.
  - intros g Hg _. by exists g.
  - intros k id Hk. by apply elem_of_nil in Hk.
  - intros p f0 Hp _. by eapply remote_file_elem, rf_sound.
  - intros _ p g Hg. left. by rewrite lookup_empty.
Qed.

(** The file the index has for [rel] is still there at [rel], as long as
    [rel] was not visited. *)
Lemma untouched_remote_file s n st rel f0 :
  walk_inv root s0 n0 rf s n st →
  rf !! rel = Some f0 → st.1 !! rel = None →
  remote_file s root rel f0.
Proof.
  intros I Hrf Hst.
  eapply remote_file_mono; [|by apply rf_sound|by eapply inv_untouched|done].
  intros d Hd _. by eapply inv_kept.
Qed.

Lemma walk_inv_skip s n st rel f0 :
  walk_inv root s0 n0 rf s n st →
  rf !! rel = Some f0 → st.1 !! rel = None →
  walk_inv root s0 n0 rf s n (<[rel := Md5Checksum f0]> (st.1), st.2).
Proof.
  intros I Hrf Hst. pose proof (untouched_remote_file _ _ _ _ _ I Hrf Hst) as Hf0.
  destruct I as [Iwf Iage Ikept Iold Icache Iunt Iloc Iall].
  split; simpl; try done.
  - intros p f1 Hp Hn. apply lookup_insert_None in Hn as [Hn _]. eauto.
  - intros rel' h [[<- <-]|[Hne Hh]]%lookup_insert_Some.
    + exists f0. split; [done|]. split; [done|]. left. eauto.
    + eauto.
  - intros Hu p g Hg. destruct (decide (p = rel)) as [->|Hne].
    + right. rewrite lookup_insert_eq. f_equal.
      destruct (Iall Hu _ _ Hg) as [[_ Hg0]|Hs]; [|congruence].
      by rewrite (Hu _ _ _ Hg0 (rf_sound _ _ Hrf)).
    + rewrite lookup_insert_ne by done. eauto.
Qed.

Lemma walk_inv_update s n st rel f0 h :
  walk_inv root s0 n0 rf s n st →
  rf !! rel = Some f0 → st.1 !! rel = None →
  walk_inv root s0 n0 rf (set_md5 (FId f0) h <$> s) n
           (<[rel := h]> (st.1), st.2).
Proof.
  intros I Hrf Hst. pose proof (untouched_remote_file _ _ _ _ _ I Hrf Hst) as Hf0.
  destruct I as [Iwf Iage Ikept Iold Icache Iunt Iloc Iall].
  pose proof Iwf as (ND & Hlt & Hroot & Hnr).
  set (s' := set_md5 (FId f0) h <$> s).
  assert (Hfwd : ∀ g, g ∈ s → set_md5 (FId f0) h g ∈ s').
  { intros g Hg. by apply list_elem_of_fmap_2. }
  assert (Hbwd : ∀ g', g' ∈ s' → ∃ g, g ∈ s ∧ g' = set_md5 (FId f0) h g).
  { intros g' (g & -> & Hg)%list_elem_of_fmap. eauto. }
  assert (Hmono : ∀ d, d ∈ s → isFolder d → ∃ d', d' ∈ s' ∧ same_meta d d').
  { intros d Hd _. eexists. split; [by apply Hfwd|]. apply same_meta_set_md5. }
  assert (Hback : ∀ d, d ∈ s' → isFolder d → ∃ d', d' ∈ s ∧ same_meta d d').
  { intros d (g & Hg & ->)%Hbwd _. exists g. split; [done|].
    apply same_meta_sym, same_meta_set_md5. }
  assert (Hkeep : ∀ g, g ∈ s → FId g ≠ FId f0 → g ∈ s').
  { intros g Hg Hne. replace g with (set_md5 (FId f0) h g); [by apply Hfwd|].
    unfold set_md5. by rewrite decide_False. }
  assert (Hf0s : f0 ∈ s) by by eapply remote_file_elem.
  split; simpl; try done.
  - (* wf *)
    unfold wf_drive, s'. rewrite fmap_FId_set_md5.
    split; [done|]. split; [|done].
    intros g' (g & Hg & ->)%Hbwd.
    destruct (same_meta_set_md5 (FId f0) h g) as (<- & _ & _ & <- & _). eauto.
  - intros g0 Hg0. destruct (Ikept _ Hg0) as (g & Hg & Hm).
    eexists. split; [by apply Hfwd|].
    eapply same_meta_trans; [done|apply same_meta_set_md5].
  - intros g' (g & Hg & ->)%Hbwd Hid.
    destruct (same_meta_set_md5 (FId f0) h g) as (Hi & _).
    rewrite <- Hi in Hid. destruct (Iold _ Hg Hid) as (g0 & Hg0 & Hm).
    exists g0. split; [done|].
    eapply same_meta_trans; [done|apply same_meta_set_md5].
  - intros k id Hk. eapply reach_mono; [done|]. eauto.
  - intros p f1 Hp Hn. apply lookup_insert_None in Hn as [Hn Hne].
    apply Hkeep; [by eauto|]. intros Hid. apply Hne.
    symmetry. by eapply rf_inj.
  - intros rel' h' [[<- <-]|[Hne Hh]]%lookup_insert_Some.
    + exists (set_md5 (FId f0) h f0). split.
      { eapply remote_file_mono; [done..|by apply Hfwd|].
        apply same_meta_set_md5. }
      split.
      { unfold set_md5. by rewrite decide_True. }
      left. exists f0. split; [done|].
      by destruct (same_meta_set_md5 (FId f0) h f0) as [? _].
    + destruct (Iloc _ _ Hh) as (f & Hf & Hmd & Hkind).
      exists f. split; [|done].
      eapply remote_file_mono; [done..| |done].
      apply Hkeep; [by eapply remote_file_elem|].
      destruct Hkind as [(f1 & Hf1 & <-)|Hnew].
      * intros Hid. apply Hne. by eapply rf_inj.
      * destruct wf0 as (_ & Hlt0 & _).
        destruct (Hlt0 f0 (remote_file_elem _ _ _ _ (rf_sound _ _ Hrf))).
        lia.
  - intros Hu p g' Hg'.
    destruct (Hbwd g' (remote_file_elem _ _ _ _ Hg')) as (g & Hg & ->).
    assert (Hgs : remote_file s root p g).
    { eapply remote_file_mono; [done..|].
      apply same_meta_sym, same_meta_set_md5. }
    destruct (decide (FId g = FId f0)) as [Hid|Hid].
    + assert (g = f0) as -> by by eapply same_id_eq.
      assert (p = rel) as -> by by eapply remote_file_functional.
      right. rewrite lookup_insert_eq. unfold set_md5.
      by rewrite decide_True.
    + assert (set_md5 (FId f0) h g = g) as ->.
      { unfold set_md5. by rewrite decide_False. }
      destruct (decide (p = rel)) as [->|Hne].
      * destruct (Iall Hu _ _ Hgs) as [[_ Hg0]|Hs]; [|congruence].
        destruct Hid. by rewrite (Hu _ _ _ Hg0 (rf_sound _ _ Hrf)).
      * rewrite lookup_insert_ne by done. eauto.
Qed.

(** What appending a fresh object does. *)
Lemma append_fresh s n g :
  wf_drive root s n → FId g = n → Parent g < n →
  wf_drive root (s ++ [g]) (S n) ∧
  (∀ d, d ∈ s → isFolder d → ∃ d', d' ∈ s ++ [g] ∧ same_meta d d') ∧
  (∀ g', g' ∈ s ++ [g] → FId g' < n → g' ∈ s) ∧
  (∀ p g', remote_file (s ++ [g]) root p g' → g' ∈ s →
           remote_file s root p g').
Proof.
  intros Hwf Hid Hpar. pose proof Hwf as (ND & Hlt & Hroot & Hnr).
  assert (Hfresh : n ∉ FId <$> s).
  { intros (f & Hf & Hin)%list_elem_of_fmap.
    destruct (Hlt _ Hin) as [? _]. lia. }
  assert (Hold : ∀ g', g' ∈ s ++ [g] → FId g' < n → g' ∈ s).
  { intros g' [?|Hg'%list_elem_of_singleton]%elem_of_app ?; [done|].
    subst g'. lia. }
  split; [|split; [|split; [done|]]].
  - unfold wf_drive. rewrite fmap_app. simpl. split.
    { apply NoDup_app. split; [done|]. split; [|apply NoDup_singleton].
      intros x Hx Hx'%list_elem_of_singleton. subst x. by rewrite Hid in Hx. }
    split.
    { intros f [Hf|Hf%list_elem_of_singleton]%elem_of_app.
      - destruct (Hlt _ Hf). lia.
      - subst f. lia. }
    split; [lia|].
    intros [?|Hx%list_elem_of_singleton]%elem_of_app; [done|lia].
  - intros d Hd _. exists d. split; [|done]. apply elem_of_app. by left.
  - intros p g' Hg' Hin.
    destruct (remote_file_old root s n (s ++ [g]) p g' Hwf)
      as (g0 & Hg0 & Hm & Hr); [|done|by destruct (Hlt _ Hin)|].
    { intros x Hx Hlx. exists x. split; [by apply Hold|done]. }
    assert (g0 = g') as ->; [|done].
    destruct Hm as [? _]. by eapply same_id_eq.
Qed.

Lemma walk_inv_add_folder s n st name pid :
  walk_inv root s0 n0 rf s n st → pid < n →
  walk_inv root s0 n0 rf (s ++ [mkFile n name folderMime "" pid false])
           (S n) st.
Proof.
  intros [Iwf Iage Ikept Iold Icache Iunt Iloc Iall] Hpid.
  set (d := mkFile n name folderMime "" pid false).
  destruct (append_fresh s n d Iwf eq_refl Hpid) as (Hwf' & Hmono & Hold & Hback).
  assert (Hsub : ∀ g, g ∈ s → g ∈ s ++ [d]).
  { intros g Hg. apply elem_of_app. by left. }
  split; simpl; try done.
  - lia.
  - intros g0 Hg0. destruct (Ikept _ Hg0) as (g & Hg & Hm). eauto.
  - intros g Hg Hlt. apply Iold; [|done]. apply Hold; [done|lia].
  - intros k id Hk. eapply reach_mono; [done|]. eauto.
  - eauto.
  - intros rel h Hh. destruct (Iloc _ _ Hh) as (f & Hf & Hrest).
    exists f. split; [|done].
    eapply remote_file_mono; [done..| |done].
    by eapply Hsub, remote_file_elem.
  - intros Hu p g Hg. apply (Iall Hu). apply Hback; [done|].
    apply remote_file_elem in Hg as Hin.
    apply elem_of_app in Hin as [?|Hin%list_elem_of_singleton]; [done|].
    subst g. by apply entry_from_not_folder in Hg.
Qed.

Lemma walk_inv_cache s n st k id :
  walk_inv root s0 n0 rf s n st → reach s root "" id (key_path k) →
  walk_inv root s0 n0 rf s n (st.1, (k, id) :: st.2).
Proof.
  intros [Iwf Iage Ikept Iold Icache Iunt Iloc Iall] Hr.
  split; simpl; try done.
  intros k' id' [[= -> ->]|Hk]%elem_of_cons; eauto.
Qed.

Lemma walk_inv_add_file s n st name pid q rel h :
  walk_inv root s0 n0 rf s n st →
  rf !! rel = None → st.1 !! rel = None →
  reach s root "" pid q → filepath_Join q name = rel →
  walk_inv root s0 n0 rf (s ++ [mkFile n name uploadMime h pid false])
           (S n) (<[rel := h]> (st.1), st.2).
Proof.
  intros [Iwf Iage Ikept Iold Icache Iunt Iloc Iall] Hrf Hst Hr Hrel.
  set (f := mkFile n name uploadMime h pid false).
  assert (Hpid : pid < n) by by eapply reach_id.
  destruct (append_fresh s n f Iwf eq_refl Hpid) as (Hwf' & Hmono & Hold & Hback).
  assert (Hsub : ∀ g, g ∈ s → g ∈ s ++ [f]).
  { intros g Hg. apply elem_of_app. by left. }
  assert (Hnew : remote_file (s ++ [f]) root rel f).
  { apply entry_from_reach. exists pid, q.
    split; [by eapply reach_mono|].
    split; [apply elem_of_children; split; [|done]; apply elem_of_app;
            right; by apply list_elem_of_singleton|].
    split; [done|]. done. }
  split; simpl; try done.
  - lia.
  - intros g0 Hg0. destruct (Ikept _ Hg0) as (g & Hg & Hm). eauto.
  - intros g Hg Hlt. apply Iold; [|done]. apply Hold; [done|lia].
  - intros k id Hk. eapply reach_mono; [done|]. eauto.
  - intros p f1 Hp Hn. apply lookup_insert_None in Hn as [Hn _]. eauto.
  - intros rel' h' [[<- <-]|[Hne Hh]]%lookup_insert_Some.
    + exists f. split; [done|]. split; [done|]. by right.
    + destruct (Iloc _ _ Hh) as (g & Hg & Hrest).
      exists g. split; [|done].
      eapply remote_file_mono; [done..| |done].
      by eapply Hsub, remote_file_elem.
  - intros Hu p g Hg.
    apply remote_file_elem in Hg as Hin.
    apply elem_of_app in Hin as [Hin|Hin%list_elem_of_singleton];
      [|subst g].
    + apply Hback in Hg; [|done].
      destruct (decide (p = rel)) as [->|Hne].
      * destruct (Iall Hu _ _ Hg) as [[_ Hg0]|Hs]; [|congruence].
        apply rf_complete in Hg0 as [? ?]. congruence.
      * rewrite lookup_insert_ne by done. eauto.
    + assert (p = rel) as ->.
      { destruct Hwf' as (ND' & _ & _ & Hnr').
        by eapply remote_file_functional. }
      right. by rewrite lookup_insert_eq.
Qed.

Lemma Files_Create_Ok name mime parent media w w' f :
  Files_Create name mime parent media w = (w', Ok f) →
  f = mkFile (next_id w) name (if decide (mime = "") then uploadMime else mime)
             (media_md5 media) parent false ∧
  store w' = store w ++ [f] ∧ next_id w' = S (next_id w) ∧
  media_readable media = true.
Proof.
  unfold Files_Create. destruct (api_fails w); [done|].
  destruct (media_readable media); [|done]. simpl.
  intros [= <- <-]. done.
Qed.

Lemma Files_Update_Ok id media w w' :
  Files_Update id media w = (w', Ok tt) →
  store w' = set_md5 id (media_md5 (Some media)) <$> store w ∧
  next_id w' = next_id w ∧ media_readable (Some media) = true.
Proof.
  unfold Files_Update. destruct (api_fails w); [done|].
  destruct (media_readable (Some media)); [|done]. simpl.
  case_decide; [|done]. intros [= <-]. done.
Qed.

Lemma Files_Delete_Ok id w w' :
  Files_Delete id w = (w', Ok tt) →
  store w' = filter (λ f, FId f ≠ id) (store w) ∧ next_id w' = next_id w.
Proof.
  unfold Files_Delete. destruct (api_fails w); [done|].
  case_decide; [|done]. intros [= <-]. done.
Qed.

Lemma createOrGetFolder_inv name pid q st w w' id :
  walk_inv root s0 n0 rf (store w) (next_id w) st →
  reach (store w) root "" pid q →
  createOrGetFolder name pid w = (w', Ok id) →
  walk_inv root s0 n0 rf (store w') (next_id w') st ∧
  reach (store w') root "" id (filepath_Join q name).
Proof.
  intros I R E. unfold createOrGetFolder in E.
  apply bind_Ok in E as (w1 & [files next] & E1 & E).
  apply wrap_Ok, Files_List_Ok in E1 as [-> Hpage]. symmetry in Hpage.
  destruct files as [|f files].
  - apply bind_Ok in E as (w2 & g & E2 & E). inversion E; subst.
    apply wrap_Ok, Files_Create_Ok in E2 as (Hg & -> & -> & _). simpl in *.
    subst g. simpl.
    assert (Hpid : pid < next_id w) by (eapply reach_id; [apply I|done]).
    split; [by apply walk_inv_add_folder|].
    eapply (reach_step _ _ _ pid q (mkFile _ name _ _ _ _)).
    + eapply reach_mono; [|done]. intros d Hd _. exists d.
      split; [|done]. apply elem_of_app. by left.
    + apply elem_of_children. split; [|done]. apply elem_of_app. right.
      by apply list_elem_of_singleton.
    + done.
  - inversion E; subst. simpl. split; [done|].
    assert (Hf : f ∈ filter (matches (FolderNamed name pid)) (store w)).
    { eapply page_of_subseteq; [done|]. by left. }
    apply list_elem_of_filter in Hf as [(Hn & Hp & Hd & Ht) Hf].
    rewrite <- Hn. eapply reach_step; [done| |done].
    by apply elem_of_children.
Qed.

Lemma take_S_lookup {A} (l : list A) i x :
  l !! i = Some x → take (S i) l = take i l ++ [x].
Proof. intros Hx. by apply take_S_r. Qed.

Lemma resolve_parts_inv rel i todo pid cache lf w w' pid' cache' :
  let parts := strings_Split rel in
  walk_inv root s0 n0 rf (store w) (next_id w) (lf, cache) →
  todo `prefix_of` drop i parts →
  reach (store w) root "" pid (foldl filepath_Join "" (take i parts)) →
  resolve_parts parts i todo pid cache w = (w', Ok (pid', cache')) →
  walk_inv root s0 n0 rf (store w') (next_id w') (lf, cache') ∧
  reach (store w') root "" pid'
        (foldl filepath_Join "" (take (i + length todo) parts)).
Proof.
  intros parts. revert i pid cache w.
  induction todo as [|part rest IH]; intros i pid cache w I Hpre R; simpl.
  - intros [= <- <- <-]. by rewrite Nat.add_0_r.
  - assert (Hi : parts !! i = Some part).
    { destruct Hpre as [k Hk]. pose proof (lookup_drop parts i 0) as Hl.
      rewrite Hk, Nat.add_0_r in Hl. by simpl in Hl. }
    assert (Hrest : rest `prefix_of` drop (S i) parts).
    { destruct Hpre as [k Hk]. exists k.
      pose proof (drop_drop parts 1 i) as Hd. rewrite Hk in Hd.
      simpl in Hd. rewrite drop_0 in Hd.
      by replace (S i) with (i + 1) by lia. }
    assert (Hlen : i < length (strings_Split rel)) by by eapply lookup_lt_Some.
    assert (Htake : foldl filepath_Join "" (take (S i) parts)
                    = filepath_Join (foldl filepath_Join "" (take i parts)) part).
    { rewrite (take_S_lookup _ _ _ Hi), foldl_app. done. }
    replace (i + S (length rest)) with (S i + length rest) by lia.
    destruct (cache_lookup _ cache) as [cachedID|] eqn:Hc.
    + intros E. eapply IH; [done|done| |done].
      assert (Hin : (strings_Join (take (S i) parts), cachedID) ∈ cache).
      { clear -Hc. induction cache as [|[k id] c IHc]; [done|].
        simpl in Hc. case_decide.
        - inversion Hc; subst. by left.
        - right. by apply IHc. }
      apply (inv_cache _ _ _ _ _ _ _ I) in Hin. simpl in Hin.
      unfold parts in *. by rewrite key_path_prefix in Hin.
    + intros E. apply bind_Ok in E as (w1 & id & E1 & E).
      apply wrap_Ok in E1.
      destruct (createOrGetFolder_inv _ _ _ _ _ _ _ I R E1) as [I1 R1].
      rewrite <- Htake in R1.
      eapply IH; [|done|done|done].
      apply (walk_inv_cache _ _ (lf, cache)); [done|].
      unfold parts in *. by rewrite key_path_prefix.
Qed.

Lemma take_last_parts (parts : list string) :
  parts ≠ [] →
  parts = take (length parts - 1) parts ++ [List.last parts ""].
Proof.
  induction parts as [|x [|y rest] IH]; [done|done|]. intros _.
  specialize (IH ltac:(done)).
  change (List.last (x :: y :: rest) "") with (List.last (y :: rest) "").
  replace (length (x :: y :: rest) - 1) with (S (length (y :: rest) - 1))
    by (simpl; lia).
  rewrite firstn_cons. simpl app. f_equal. exact IH.
Qed.

Lemma uploadFile_inv filePath rel cache lf w w' cache' :
  walk_inv root s0 n0 rf (store w) (next_id w) (lf, cache) →
  rf !! rel = None → lf !! rel = None → canonical rel →
  uploadFile filePath rel root cache w = (w', Ok cache') →
  ∃ c, fs w !! filePath = Some (Content c) ∧
       walk_inv root s0 n0 rf (store w') (next_id w')
                (<[rel := md5hex c]> lf, cache').
Proof.
  intros I Hrf Hlf Hcan E. unfold uploadFile, filepath_ToSlash in E.
  set (parts := strings_Split rel) in *.
  apply bind_Ok in E as (w1 & [pid c1] & E1 & E).
  pose proof E1 as X1. apply emits_resolve_parts in X1 as (evs1 & X1 & _).
  eapply (resolve_parts_inv rel) in E1 as [I1 R1]; [|done| |constructor].
  2:{ rewrite drop_0. apply prefix_take. }
  rewrite length_take in R1. fold parts in R1.
  replace (0 + (length parts - 1) `min` length parts) with (length parts - 1)
    in R1 by lia.
  apply bind_Ok in E as (w2 & file & E2 & E).
  apply wrap_Ok, os_Open_Ok in E2 as (-> & Hfile & _).
  apply bind_Ok in E as (w3 & g & E3 & E).
  apply wrap_Ok, Files_Create_Ok in E3 as (Hg & Hs3 & Hn3 & Hread).
  unfold bind, printf, ret in E. inversion E; subst w' cache'. simpl.
  destruct file as [e|e|c]; [done|done|]. exists c. split.
  { destruct X1 as (_ & _ & _ & <- & _). done. }
  rewrite Hs3, Hn3, Hg. rewrite decide_True by done. simpl.
  eapply (walk_inv_add_file _ _ (lf, c1)); [done..|].
  unfold canonical, filepath_ToSlash in Hcan. fold parts in Hcan.
  rewrite (take_last_parts parts) in Hcan at 1.
  - by rewrite foldl_app in Hcan.
  - intros Hnil. pose proof (strings_Split_length rel) as Hl.
    fold parts in Hl. rewrite Hnil in Hl. simpl in Hl. lia.
Qed.

Lemma uploadOrUpdateFile_inv filePath rel c cache lf w w' cache' :
  walk_inv root s0 n0 rf (store w) (next_id w) (lf, cache) →
  lf !! rel = None → canonical rel →
  fs w !! filePath = Some (Content c) →
  uploadOrUpdateFile filePath rel (md5hex c) rf root cache w
    = (w', Ok cache') →
  walk_inv root s0 n0 rf (store w') (next_id w')
           (<[rel := md5hex c]> lf, cache').
Proof.
  intros I Hlf Hcan Hfs E. unfold uploadOrUpdateFile in E.
  destruct (rf !! rel) as [f0|] eqn:Hrf.
  - case_decide as Hmd5.
    + unfold bind, printf, ret in E. inversion E; subst. simpl.
      rewrite <- Hmd5. by apply (walk_inv_skip _ _ (lf, cache')).
    + apply bind_Ok in E as (w1 & [] & E1 & E). inversion E1; subst w1.
      apply bind_Ok in E as (w2 & [] & E2 & E). inversion E; subst.
      unfold updateFile in E2.
      apply bind_Ok in E2 as (w3 & file & E3 & E2).
      apply wrap_Ok, os_Open_Ok in E3 as (-> & Hfile & _). simpl in Hfile.
      rewrite Hfs in Hfile. inversion Hfile; subst file.
      apply bind_Ok in E2 as (w4 & [] & E4 & E2).
      apply wrap_Ok, Files_Update_Ok in E4 as (Hs & Hn & _).
      unfold printf in E2. inversion E2; subst. simpl in *.
      rewrite Hs, Hn. by apply (walk_inv_update _ _ (lf, cache')).
  - apply bind_Ok in E as (w1 & [] & E1 & E). inversion E1; subst w1.
    eapply uploadFile_inv in E as (c' & Hc' & I'); [|done..].
    simpl in Hc'. rewrite Hfs in Hc'. by inversion Hc'; subst.
Qed.

Lemma walk_visits_inv st visits w w' st' :
  walk_inv root s0 n0 rf (store w) (next_id w) st →
  NoDup (file_rels visits) →
  (∀ rel, rel ∈ file_rels visits → st.1 !! rel = None ∧ canonical rel) →
  walk_visits (walkFn root rf) st visits w = (w', Ok st') →
  walk_inv root s0 n0 rf (store w') (next_id w') st'.
Proof.
  revert st w. induction visits as [|v rest IH]; intros st w I ND Hrels.
  - simpl. by intros [= <- <-].
  - cbn [walk_visits]. intros E. apply bind_Ok in E as (w1 & st1 & E1 & E).
    rewrite file_rels_cons in ND, Hrels.
    apply NoDup_app in ND as (_ & Hdisj & ND).
    apply walkFn_Ok in E1
      as [Herr [(Hdir & -> & ->)|
                (Hdir & rel & c & cache & Hrel & Hfs & E1 & ->)]].
    + eapply IH; [done..| |done]. intros rel Hin. apply Hrels.
      apply elem_of_app. by right.
    + assert (Hv : file_rels [v] = [rel]).
      { unfold file_rels. simpl. by rewrite Herr, Hdir, Hrel. }
      rewrite Hv in Hrels, Hdisj.
      destruct (Hrels rel) as [Hnone Hcan].
      { apply elem_of_app. left. by left. }
      eapply IH; [|done| |done].
      * destruct st as [lf cache0]. by eapply uploadOrUpdateFile_inv.
      * intros rel' Hin. simpl. destruct (Hrels rel') as [Hn' Hc'].
        { apply elem_of_app. by right. }
        split; [|done]. rewrite lookup_insert_ne; [done|].
        intros ->. eapply Hdisj; [|done]. by left.
Qed.

End Walk.

(** ** The local index and the delete pass, in terms of the Drive *)

Lemma walk_visits_keeps root rf st visits w w' st' :
  walk_visits (walkFn root rf) st visits w = (w', Ok st') →
  ∀ rel, rel ∉ file_rels visits → st'.1 !! rel = st.1 !! rel.
Proof.
  revert st w. induction visits as [|v rest IH]; intros st w.
  - simpl. by intros [= <- <-].
  - cbn [walk_visits]. intros E rel Hrel.
    apply bind_Ok in E as (w1 & st1 & E1 & E).
    rewrite file_rels_cons in Hrel. apply not_elem_of_app in Hrel as [Hv Hrest].
    rewrite (IH _ _ E _ Hrest).
    apply walkFn_Ok in E1
      as [Herr [(Hdir & -> & ->)|
                (Hdir & rel' & c & cache & Hrel' & Hfs & E1 & ->)]]; [done|].
    simpl. apply lookup_insert_ne. intros ->. apply Hv.
    unfold file_rels. simpl. rewrite Herr, Hdir, Hrel'. by left.
Qed.

(** After a walk that went through, the local index has, for every
    regular file visited, the digest of its content. *)
Lemma walk_visits_digests root rf st visits w w' st' :
  walk_visits (walkFn root rf) st visits w = (w', Ok st') →
  NoDup (file_rels visits) →
  ∀ v rel, v ∈ visits → v_isDir v = false → v_rel v = Good rel →
    ∃ c, fs w !! v_path v = Some (Content c) ∧
         st'.1 !! rel = Some (md5hex c).
Proof.
  revert st w. induction visits as [|v rest IH]; intros st w.
  - intros _ _ v rel Hv. by apply elem_of_nil in Hv.
  - cbn [walk_visits]. intros E ND v' rel Hv' Hdir' Hrel'.
    apply bind_Ok in E as (w1 & st1 & E1 & E).
    rewrite file_rels_cons in ND. apply NoDup_app in ND as (_ & Hdisj & ND).
    assert (Hfs1 : fs w1 = fs w).
    { destruct (emits_walkFn _ _ _ _ _ _ _ E1) as (? & (_ & _ & _ & ? & _) & _).
      done. }
    apply elem_of_cons in Hv' as [->|Hv'].
    + apply walkFn_Ok in E1
        as [Herr [(Hdir & _)|(Hdir & r0 & c & cache & Hr0 & Hfs & E1 & ->)]];
        [congruence|].
      assert (r0 = rel) as -> by congruence.
      exists c. split; [done|].
      rewrite (walk_visits_keeps _ _ _ _ _ _ _ E).
      * simpl. by rewrite lookup_insert_eq.
      * intros Hin. eapply Hdisj; [|done].
        unfold file_rels. simpl. rewrite Herr, Hdir, Hr0. by left.
    + rewrite <- Hfs1. by eapply IH.
Qed.

Lemma delete_loop_store localFiles items w w' :
  delete_loop localFiles items w = (w', Ok tt) →
  next_id w' = next_id w ∧
  ∀ g, g ∈ store w' ↔
       g ∈ store w ∧
       FId g ∉ (λ pf : string * File, FId pf.2) <$>
                 filter (λ pf, localFiles !! pf.1 = None) items.
Proof.
  revert w. induction items as [|[p f] rest IH]; intros w; simpl.
  - intros [= <-]. split; [done|]. intros g.
    split; [|by intros [? _]]. intros Hg. split; [done|]. apply not_elem_of_nil.
  - rewrite filter_cons. simpl. destruct (localFiles !! p) eqn:Hp.
    { rewrite decide_False by done. apply IH. }
    rewrite decide_True by done. intros E.
    apply bind_Ok in E as (w1 & [] & E1 & E). inversion E1; subst w1.
    apply bind_Ok in E as (w2 & [] & E2 & E).
    apply wrap_Ok, Files_Delete_Ok in E2 as [Hs Hn]. simpl in Hs, Hn.
    apply IH in E as [Hn' Hg']. split; [congruence|].
    intros g. rewrite Hg', Hs, list_elem_of_filter, fmap_cons, not_elem_of_cons.
    simpl. tauto.
Qed.

(** ** A run that succeeds, end to end *)

Lemma elem_of_orphan_ids (lf : gmap string string) (rf : gmap string File) id :
  id ∈ (λ pf : string * File, FId pf.2) <$>
         filter (λ pf, lf !! pf.1 = None) (rangeFiles rf) ↔
  ∃ p f, rf !! p = Some f ∧ lf !! p = None ∧ FId f = id.
Proof.
  rewrite list_elem_of_fmap. split.
  - intros ([p f] & -> & Hin). apply list_elem_of_filter in Hin as [Hn Hin].
    rewrite (rangeFiles_perm rf) in Hin. apply elem_of_map_to_list in Hin.
    by exists p, f.
  - intros (p & f & Hrf & Hn & <-). exists (p, f). split; [done|].
    apply list_elem_of_filter. split; [done|].
    rewrite (rangeFiles_perm rf). by apply elem_of_map_to_list.
Qed.

(** What a successful run leaves: the Drive [store w'] is the Drive after
    the walk without the orphans of the index. *)
Lemma syncFiles_Ok_inv fuel localDir root w w' :
  wf_drive root (store w) (next_id w) →
  tidy_walk (walk_script localDir w) →
  syncFiles fuel localDir root w = (w', Ok tt) →
  ∃ w1 rf w2 st,
    fetchRemoteFiles fuel root "" ∅ w = (w1, Ok rf) ∧
    filepath_Walk localDir (walkFn root rf) (∅, []) w1 = (w2, Ok st) ∧
    fs w' = fs w ∧ walks w' = walks w ∧
    walk_inv root (store w) (next_id w) rf (store w2) (next_id w2) st ∧
    next_id w' = next_id w2 ∧
    (∀ g, g ∈ store w' ↔
          g ∈ store w2 ∧
          ¬ ∃ p f, rf !! p = Some f ∧ st.1 !! p = None ∧ FId f = FId g).
Proof.
  intros Hwf [ND Hcan] E.
  pose proof E as (evs & (_ & _ & _ & Hfs & Hwalks & _) & _)%emits_syncFiles.
  apply syncFiles_inv in E
    as [(r0 & _ & _ & Hr)|(w1 & rf & E1 & [(r1 & _ & _ & Hr)|(w2 & st & E2 & E)])];
    [by destruct (Hr tt)|by destruct (Hr tt)|].
  exists w1, rf, w2, st. split; [done|]. split; [done|].
  split; [done|]. split; [done|].
  pose proof E1 as [Hs1 Hn1]%keeps_store_fetch_from.
  pose proof E1 as (evs1 & (_ & _ & _ & _ & Hw1 & _) & _)%emits_fetchRemoteFiles.
  assert (I : walk_inv root (store w) (next_id w) rf (store w2) (next_id w2) st).
  { unfold filepath_Walk in E2.
    eapply (walk_visits_inv root (store w) (next_id w) rf Hwf) in E2; [done|..].
    - intros p f. by eapply fetchRemoteFiles_sound.
    - intros p f. by eapply fetchRemoteFiles_complete.
    - simpl. rewrite Hs1, Hn1.
      apply walk_inv_init; [done|]. intros p f.
      by eapply fetchRemoteFiles_sound.
    - unfold walk_script in *. by rewrite Hw1.
    - intros rel Hrel. simpl. split; [apply lookup_empty|].
      unfold walk_script in *. rewrite Hw1 in Hrel.
      by eapply Forall_forall in Hcan. }
  split; [done|].
  apply wrap_Ok in E. unfold deleteRemoteFiles in E.
  apply delete_loop_store in E as [Hn Hg]. split; [done|].
  intros g. rewrite Hg. by rewrite elem_of_orphan_ids.
Qed.

Lemma syncFiles_Ok_final fuel localDir root w w' :
  wf_drive root (store w) (next_id w) →
  tidy_walk (walk_script localDir w) →
  syncFiles fuel localDir root w = (w', Ok tt) →
  ∃ w1 rf w2 st,
    fetchRemoteFiles fuel root "" ∅ w = (w1, Ok rf) ∧
    filepath_Walk localDir (walkFn root rf) (∅, []) w1 = (w2, Ok st) ∧
    fs w' = fs w ∧ walks w' = walks w ∧
    (∀ rel h, st.1 !! rel = Some h →
       ∃ f, remote_file (store w') root rel f ∧ Md5Checksum f = h) ∧
    (∀ p f, rf !! p = Some f → st.1 !! p = None →
            FId f ∉ FId <$> store w') ∧
    (unique_paths (store w) root →
     ∀ p g, remote_file (store w') root p g →
            st.1 !! p = Some (Md5Checksum g)).
Proof.
  intros Hwf Htidy E.
  destruct (syncFiles_Ok_inv _ _ _ _ _ Hwf Htidy E)
    as (w1 & rf & w2 & st & E1 & E2 & Hfs & Hwalks & I & Hn & Hg).
  exists w1, rf, w2, st. split; [done|]. split; [done|].
  split; [done|]. split; [done|].
  assert (Hsound : ∀ p f, rf !! p = Some f → remote_file (store w) root p f).
  { intros p f. by eapply fetchRemoteFiles_sound. }
  assert (Hcomplete : ∀ p f, remote_file (store w) root p f → is_Some (rf !! p)).
  { intros p f. by eapply fetchRemoteFiles_complete. }
  pose proof Hwf as (ND0 & Hlt0 & Hroot0 & Hnr0).
  (* the object an orphan names is a file of the scan *)
  assert (Hfolders : ∀ d, d ∈ store w2 → isFolder d →
                          ∃ d', d' ∈ store w' ∧ same_meta d d').
  { intros d Hd Hdir. exists d. split; [|done]. apply Hg. split; [done|].
    intros (p & f & Hrf & _ & Hid). apply Hsound in Hrf.
    pose proof (remote_file_elem _ _ _ _ Hrf) as Hf.
    apply entry_from_not_folder in Hrf.
    destruct (inv_old _ _ _ _ _ _ _ I d Hd) as (d0 & Hd0 & Hm).
    { rewrite <- Hid. by destruct (Hlt0 _ Hf). }
    assert (d0 = f) as ->.
    { destruct Hm as [? _]. eapply same_id_eq; [done..|congruence]. }
    destruct Hm as (_ & _ & Hmime & _). unfold isFolder in *. congruence. }
  split; [|split].
  - intros rel h Hh.
    destruct (inv_local _ _ _ _ _ _ _ I _ _ Hh) as (f & Hf & Hmd & Hkind).
    exists f. split; [|done].
    eapply remote_file_mono; [done..| |done].
    apply Hg. split; [by eapply remote_file_elem|].
    intros (p & f1 & Hrf1 & Hnone & Hid).
    destruct Hkind as [(f0 & Hrf0 & Hid0)|Hnew].
    + assert (p = rel) as ->; [|congruence].
      eapply (rf_inj root (store w) (next_id w) rf Hwf Hsound); [done..|].
      congruence.
    + apply Hsound, remote_file_elem, Hlt0 in Hrf1 as [? _].
      pose proof (inv_age _ _ _ _ _ _ _ I). lia.
  - intros p f Hrf Hnone (g & Hid & Hin)%list_elem_of_fmap.
    apply Hg in Hin as [_ Hno]. apply Hno. by exists p, f.
  - intros Hu p g Hpg.
    pose proof (remote_file_elem _ _ _ _ Hpg) as Hin.
    apply Hg in Hin as [Hin2 Hno].
    assert (Hpg2 : remote_file (store w2) root p g).
    { eapply remote_file_mono; [|done|done|done].
      intros d Hd _. exists d. split; [|done]. by apply Hg in Hd as [? _]. }
    destruct (inv_all _ _ _ _ _ _ _ I Hu _ _ Hpg2) as [[Hnone Hpg0]|Hs];
      [|done].
    destruct (Hcomplete _ _ Hpg0) as [g' Hg']. destruct Hno.
    exists p, g'. split; [done|]. split; [done|].
    by rewrite (Hu _ _ _ (Hsound _ _ Hg') Hpg0).
Qed.

(** C1, as the code has it.  After a run that succeeds on a well-formed
    Drive and a walk whose files have distinct, canonical relative paths:
    every path of the local index has a remote file with the digest the
    index holds; every entry of the remote index whose path the local
    index lacks has been deleted; and a remote file seen at scan time at
    a path the local index lacks has been deleted whenever it was the only
    remote file at that path.  (The index keeps one file per path, so a
    second file at the same path is not deleted.) *)
Theorem run_converges fuel localDir root w w' :
  wf_drive root (store w) (next_id w) →
  tidy_walk (walk_script localDir w) →
  syncFiles fuel localDir root w = (w', Ok tt) →
  ∃ w1 rf w2 st,
    fetchRemoteFiles fuel root "" ∅ w = (w1, Ok rf) ∧
    filepath_Walk localDir (walkFn root rf) (∅, []) w1 = (w2, Ok st) ∧
    (∀ rel h, st.1 !! rel = Some h →
       ∃ f, remote_file (store w') root rel f ∧ Md5Checksum f = h) ∧
    (∀ p f, rf !! p = Some f → st.1 !! p = None →
            FId f ∉ FId <$> store w') ∧
    (∀ p f, remote_file (store w) root p f → st.1 !! p = None →
            (∀ f', remote_file (store w) root p f' → f' = f) →
            FId f ∉ FId <$> store w').
Proof.
  intros Hwf Htidy E.
  destruct (syncFiles_Ok_final _ _ _ _ _ Hwf Htidy E)
    as (w1 & rf & w2 & st & E1 & E2 & _ & _ & HA & HB & _).
  exists w1, rf, w2, st. split; [done|]. split; [done|].
  split; [done|]. split; [done|].
  intros p f Hpf Hnone Honly.
  destruct (fetchRemoteFiles_complete _ _ _ _ _ E1 _ _ Hpf) as [f' Hf'].
  rewrite <- (Honly f' (fetchRemoteFiles_sound _ _ _ _ _ E1 _ _ Hf')).
  by eapply HB.
Qed.

(** ** A second run *)

Lemma walkFn_silent root rf st v w w' r :
  in_sync (fs w) rf [v] →
  walkFn root rf st v w = (w', r) →
  ∃ evs, extends w w' evs ∧ Forall silent evs.
Proof.
  intros Hsync E. unfold walkFn in E.
  destruct (v_err v) as [err|].
  { revert E. apply emits_fail. }
  destruct (v_isDir v) eqn:Hdir.
  { revert E. apply emits_ret. }
  destruct (v_rel v) as [rel|e] eqn:Hrel.
  2:{ cbv beta delta [bind wrap lift fail] in E. simpl in E.
      inversion E; subst. exists []. split; [apply extends_refl|done]. }
  apply bind_inv in E as [(w1 & rel' & E1 & E)|[(e & E & _)|[E _]]]; [|done..].
  inversion E1; subst rel' w1; clear E1.
  apply bind_inv in E as [(w1 & checksum & E1 & E)|[(e & E & ->)|[E ->]]].
  - apply wrap_Ok, computeMD5_Ok in E1 as (-> & c & Hc & ->).
    destruct (Hsync v rel c) as (g & Hg & Hmd); [by left|done..|].
    unfold uploadOrUpdateFile in E. rewrite Hg, decide_True in E by done.
    unfold bind, printf, ret in E. inversion E; subst.
    exists []. split; [apply extends_print|done].
  - destruct (emits_wrap _ _ _ (emits_computeMD5 silent (v_path v)) _ _ _ E)
      as (evs & X & F). eauto.
  - destruct (emits_wrap _ _ _ (emits_computeMD5 silent (v_path v)) _ _ _ E)
      as (evs & X & F). eauto.
Qed.

Lemma walk_visits_silent root rf st visits w w' r :
  in_sync (fs w) rf visits →
  walk_visits (walkFn root rf) st visits w = (w', r) →
  ∃ evs, extends w w' evs ∧ Forall silent evs.
Proof.
  revert st w. induction visits as [|v rest IH]; intros st w Hsync.
  - simpl. apply emits_ret.
  - cbn [walk_visits]. intros E.
    assert (Hv : in_sync (fs w) rf [v]).
    { intros v' rel c ->%list_elem_of_singleton. apply Hsync. by left. }
    apply bind_inv in E as [(w1 & st1 & E1 & E)|[(e & E & ->)|[E ->]]].
    + apply (walkFn_silent _ _ _ _ _ _ _ Hv) in E1 as (evs1 & X1 & F1).
      apply IH in E as (evs2 & X2 & F2).
      * exists (evs1 ++ evs2). split; [by eapply extends_trans|].
        by apply Forall_app.
      * destruct X1 as (_ & _ & _ & -> & _).
        intros v' rel c Hin. apply Hsync. by right.
    + by apply (walkFn_silent _ _ _ _ _ _ _ Hv) in E.
    + by apply (walkFn_silent _ _ _ _ _ _ _ Hv) in E.
Qed.

Lemma delete_loop_no_orphans (localFiles : gmap string string) items w :
  (∀ pf, pf ∈ items → is_Some (localFiles !! pf.1)) →
  delete_loop localFiles items w = (w, Ok tt).
Proof.
  induction items as [|[p f] rest IH]; intros Hall; simpl; [done|].
  destruct (Hall (p, f)) as [h Hh]; [by left|]. simpl in Hh. rewrite Hh.
  apply IH. intros pf Hpf. apply Hall. by right.
Qed.

(** After a run that succeeded, a second run on the same local tree
    makes no create, update or delete call. *)
Lemma rerun_makes_no_write fuel localDir root w w1 fl fuel2 w2 r2 :
  wf_drive root (store w) (next_id w) →
  tidy_walk (walk_script localDir w) →
  unique_paths (store w) root →
  syncFiles fuel localDir root w = (w1, Ok tt) →
  syncFiles fuel2 localDir root (set_faults fl w1) = (w2, r2) →
  Forall silent (new_events (set_faults fl w1) w2).
Proof.
  intros Hwf Htidy Hu Run1 Run2.
  destruct (syncFiles_Ok_final _ _ _ _ _ Hwf Htidy Run1)
    as (wa & rf & wb & st & Ea & Eb & Hfs & Hwalks & HA & _ & HC).
  specialize (HC Hu).
  set (wS := set_faults fl w1) in *.
  set (visits := walk_script localDir w).
  (* what the first walk recorded *)
  pose proof Ea as (evsa & (_ & _ & _ & Hfsa & Hwa & _) & _)%emits_fetchRemoteFiles.
  assert (Hva : walk_script localDir wa = visits).
  { unfold visits, walk_script. by rewrite Hwa. }
  pose proof (filepath_Walk_index _ _ _ _ _ _ Eb) as Hidx1.
  rewrite Hva in Hidx1.
  assert (Hdig : ∀ v rel, v ∈ visits → v_isDir v = false → v_rel v = Good rel →
                   ∃ c, fs w !! v_path v = Some (Content c) ∧
                        st.1 !! rel = Some (md5hex c)).
  { unfold filepath_Walk in Eb. rewrite Hva in Eb.
    intros v rel Hv Hdir Hrel.
    destruct (walk_visits_digests _ _ _ _ _ _ _ Eb (proj1 Htidy) v rel)
      as (c & Hc & Hst); [done..|].
    exists c. split; [|done]. simpl in Hc. by rewrite <- Hfsa. }
  assert (HvS : walk_script localDir wS = visits).
  { unfold visits, walk_script. simpl. by rewrite Hwalks. }
  apply syncFiles_inv in Run2
    as [(r0 & E & _)|(w3 & rf2 & E1 & [(r1 & E & _)|(w4 & st2 & E2 & E)])].
  - apply emits_fetch_from in E as (evs & X & F).
    rewrite (extends_new_events _ _ _ X).
    eapply Forall_impl; [done|]. by intros e (? & ? & ? & ->).
  - assert (Hsync : in_sync (fs w) rf2 visits).
    { intros v rel c Hv Hdir Hrel Hc.
      destruct (Hdig v rel Hv Hdir Hrel) as (c' & Hc' & Hst).
      assert (c' = c) as -> by congruence.
      destruct (HA _ _ Hst) as (f & Hf & _).
      destruct (fetchRemoteFiles_complete _ _ _ _ _ E1 _ _ Hf) as [g Hg].
      exists g. split; [done|].
      apply (fetchRemoteFiles_sound _ _ _ _ _ E1), HC in Hg. congruence. }
    pose proof E1 as (evs1 & X1 & F1)%emits_fetch_from.
    unfold filepath_Walk in E.
    apply walk_visits_silent in E as (evs2 & X2 & F2).
    2:{ simpl. destruct X1 as (_ & _ & _ & -> & Hw3 & _). simpl. rewrite Hfs.
        unfold walk_script. rewrite Hw3. fold (walk_script localDir wS).
        by rewrite HvS. }
    assert (X : extends wS w2 (evs1 ++ [WalkDir localDir] ++ evs2)).
    { eapply extends_trans; [done|].
      eapply extends_trans; [by apply extends_log|done]. }
    rewrite (extends_new_events _ _ _ X).
    apply Forall_app. split.
    { eapply Forall_impl; [done|]. by intros e (? & ? & ? & ->). }
    by constructor.
  - assert (Hsync : in_sync (fs w) rf2 visits).
    { intros v rel c Hv Hdir Hrel Hc.
      destruct (Hdig v rel Hv Hdir Hrel) as (c' & Hc' & Hst).
      assert (c' = c) as -> by congruence.
      destruct (HA _ _ Hst) as (f & Hf & _).
      destruct (fetchRemoteFiles_complete _ _ _ _ _ E1 _ _ Hf) as [g Hg].
      exists g. split; [done|].
      apply (fetchRemoteFiles_sound _ _ _ _ _ E1), HC in Hg. congruence. }
    pose proof E1 as (evs1 & X1 & F1)%emits_fetch_from.
    assert (Hv3 : walk_script localDir w3 = visits).
    { destruct X1 as (_ & _ & _ & _ & Hw3 & _). unfold walk_script.
      rewrite Hw3. fold (walk_script localDir wS). by rewrite HvS. }
    pose proof (filepath_Walk_index _ _ _ _ _ _ E2) as Hidx2.
    rewrite Hv3 in Hidx2.
    unfold filepath_Walk in E2.
    apply walk_visits_silent in E2 as (evs2 & X2 & F2).
    2:{ simpl. destruct X1 as (_ & _ & _ & -> & _). simpl. rewrite Hfs.
        by rewrite Hv3. }
    assert (Hdel : delete_loop (st2.1) (rangeFiles rf2) w4 = (w4, Ok tt)).
    { apply delete_loop_no_orphans. intros [p g] Hin. simpl.
      rewrite (rangeFiles_perm rf2) in Hin. apply elem_of_map_to_list in Hin.
      apply Hidx2, Hidx1.
      apply (fetchRemoteFiles_sound _ _ _ _ _ E1), HC in Hin. by eexists. }
    unfold wrap, deleteRemoteFiles in E. rewrite Hdel in E.
    inversion E; subst.
    assert (X : extends wS w2 (evs1 ++ [WalkDir localDir] ++ evs2)).
    { eapply extends_trans; [done|].
      eapply extends_trans; [by apply extends_log|done]. }
    rewrite (extends_new_events _ _ _ X).
    apply Forall_app. split.
    { eapply Forall_impl; [done|]. by intros e (? & ? & ? & ->). }
    by constructor.
Qed.

(** Calls that are no create, update or delete call, and calls that
    failed, leave the Drive as it is. *)
Lemma replay_silent evs d : Forall silent evs → replay evs d = d.
Proof.
  intros F. revert d. induction F as [|e evs He _ IH]; intros d; [done|].
  unfold replay. simpl. etrans; [apply IH|].
  by destruct e as [[q tok|name mime parent media|id media|id] [|]|r].
Qed.

(** C2, as the code has it.  On a well-formed Drive in which no two
    remote files have the same path, and for a walk whose files have
    distinct, canonical relative paths: after a run that succeeds, a
    second run on the same local tree makes no create, update or delete
    call, whichever of its calls fail, and leaves the Drive as the first
    run left it. *)
Theorem second_run_silent fuel localDir root w w1 fl fuel2 w2 r2 :
  wf_drive root (store w) (next_id w) →
  tidy_walk (walk_script localDir w) →
  unique_paths (store w) root →
  syncFiles fuel localDir root w = (w1, Ok tt) →
  syncFiles fuel2 localDir root (set_faults fl w1) = (w2, r2) →
  Forall (λ e, is_write e = false) (new_events (set_faults fl w1) w2) ∧
  store w2 = store w1 ∧ next_id w2 = next_id w1.
Proof.
  intros Hwf Htidy Hu Run1 Run2.
  pose proof (rerun_makes_no_write _ _ _ _ _ _ _ _ _ Hwf Htidy Hu Run1 Run2)
    as F.
  split; [done|].
  apply emits_syncFiles in Run2 as (evs & X & _).
  rewrite (extends_new_events _ _ _ X) in F.
  destruct X as (_ & _ & _ & _ & _ & R).
  rewrite (replay_silent _ _ F) in R. simpl in R. by inversion R.
Qed.

(** ** Fuel: the scan returns, and its result does not depend on fuel *)

Lemma scan_page_halts s recur path files rf w w' :
  (∀ c p rf0 w0 w0', c ∈ files → isFolder c → store w0 = s →
                     recur (FId c) p rf0 w0 ≠ (w0', Timeout)) →
  (∀ id p rf0, keeps_store (recur id p rf0)) →
  store w = s →
  scan_page recur path files rf w ≠ (w', Timeout).
Proof.
  intros Hrec Hkeep. revert rf w.
  induction files as [|file rest IH]; intros rf w Hs; simpl; [done|].
  assert (Hrest : ∀ rf0 w0, store w0 = s →
                    scan_page recur path rest rf0 w0 ≠ (w', Timeout)).
  { intros rf0 w0 Hs0. apply IH; [|done].
    intros c p rf1 w1 w1' Hc. apply Hrec. by right. }
  case_decide as Hdir; [|by apply Hrest].
  intros E. apply bind_inv in E as [(w1 & rf1 & E1 & E)|[(e & _ & ?)|[E _]]].
  - eapply Hrest; [|done]. apply Hkeep in E1 as [-> _]. done.
  - done.
  - eapply Hrec; [by left|done|done|done].
Qed.

(** On a Drive whose folders form a forest, the scan returns once it has
    the fuel of [scan_budget]. *)
Lemma fetch_from_halts s rank fuel r parentID path tok rf w w' :
  ranked s rank → store w = s → rank parentID ≤ r →
  scan_budget s r (length (children s parentID)) tok ≤ fuel →
  fetch_from fuel parentID path tok rf w ≠ (w', Timeout).
Proof.
  intros Hrank. revert r parentID path tok rf w w'.
  induction fuel as [|k IH]; intros r parentID path tok rf w w' Hs Hr Hfuel.
  { unfold scan_budget in Hfuel. lia. }
  simpl. intros E.
  apply bind_inv in E as [(w1 & [files next] & E1 & E)|[(e & _ & ?)|[E _]]].
  2: done.
  2:{ apply wrap_run in E as (r0 & E & Hr0 & _).
      by apply Files_List_ev in E as [? _]; auto. }
  apply wrap_Ok, Files_List_Ok in E1 as [-> Hpage]. symmetry in Hpage.
  rewrite Hs in Hpage. fold (children s parentID) in Hpage.
  assert (Hlen : ∀ pid, length (children s pid) ≤ length s).
  { intros pid. apply length_filter. }
  apply bind_inv in E as [(w2 & rf1 & E2 & E)|[(e & _ & ?)|[E _]]].
  - case_decide as Hnext; [done|].
    apply page_of_inv in Hpage as [_ [[? _]|(Hn & Hlt & _)]]; [done|].
    assert (Hs2 : store w2 = s).
    { eapply keeps_store_scan_page in E2 as [-> _]; [done|].
      intros. apply keeps_store_fetch_from. }
    eapply (IH r); [done|done| |done].
    assert (0 < page_len w) by (unfold page_len; lia).
    unfold scan_budget in *. lia.
  - done.
  - eapply (scan_page_halts s _ path files rf
              (log (Api (CallList (InParents parentID) tok) true) w));
      [| |exact Hs|exact E].
    + intros c p rf0 w0 w0' Hc Hdir Hs0.
      assert (Hcs : c ∈ children s parentID) by by eapply page_of_subseteq.
      apply elem_of_children in Hcs as (Hcs & Hp & _).
      pose proof (Hrank c Hcs Hdir) as Hlt. rewrite Hp in Hlt.
      apply (IH (r - 1)); [done|lia|].
      specialize (Hlen (FId c)). unfold scan_budget in *.
      destruct r as [|r']; [lia|]. simpl. rewrite Nat.sub_0_r. lia.
    + intros. apply keeps_store_fetch_from.
Qed.

Lemma scan_page_fuel recur recur' path files rf w w' r :
  (∀ id p rf0 w0 w0' r0, recur id p rf0 w0 = (w0', r0) → r0 ≠ Timeout →
                         recur' id p rf0 w0 = (w0', r0)) →
  scan_page recur path files rf w = (w', r) → r ≠ Timeout →
  scan_page recur' path files rf w = (w', r).
Proof.
  intros Hrec. revert rf w.
  induction files as [|file rest IH]; intros rf w; simpl; [done|].
  case_decide; [|apply IH]. intros E Hr. unfold bind in *.
  destruct (recur (FId file) _ rf w) as [w1 [rf1|e|]] eqn:E1.
  - rewrite (Hrec _ _ _ _ _ _ E1) by done. by apply IH.
  - rewrite (Hrec _ _ _ _ _ _ E1) by done. done.
  - by inversion E; subst.
Qed.

(** More fuel does not change what a scan that returned gave. *)
Lemma fetch_from_fuel fuel fuel' parentID path tok rf w w' r :
  fuel ≤ fuel' →
  fetch_from fuel parentID path tok rf w = (w', r) → r ≠ Timeout →
  fetch_from fuel' parentID path tok rf w = (w', r).
Proof.
  revert fuel' parentID path tok rf w w' r.
  induction fuel as [|k IH]; intros fuel' parentID path tok rf w w' r Hle.
  { simpl. by intros [= <- <-]. }
  destruct fuel' as [|k']; [lia|]. simpl. unfold bind.
  destruct (wrap _ _ w) as [w1 [[files next]|e|]]; [|done..].
  destruct (scan_page _ path files rf w1) as [w2 [rf1|e|]] eqn:E2;
    intros E Hr.
  - assert (E2' : scan_page (λ id p rf0, fetch_from k' id p 0 rf0)
                             path files rf w1 = (w2, Ok rf1)).
    { eapply scan_page_fuel; [|exact E2|done].
      intros. apply IH; [lia|done..]. }
    rewrite E2'. case_decide; [done|]. apply IH; [lia|done..].
  - assert (E2' : scan_page (λ id p rf0, fetch_from k' id p 0 rf0)
                             path files rf w1 = (w2, Err e)).
    { eapply scan_page_fuel; [|exact E2|done].
      intros. apply IH; [lia|done..]. }
    by rewrite E2'.
  - by inversion E; subst.
Qed.

(** On a Drive whose folders form a forest, [syncFiles] returns once it
    has the fuel of [scan_budget] for the root. *)
Lemma syncFiles_halts rank r fuel localDir root w w' :
  ranked (store w) rank → rank root ≤ r →
  scan_budget (store w) r (length (children (store w) root)) 0 ≤ fuel →
  syncFiles fuel localDir root w ≠ (w', Timeout).
Proof.
  intros Hrank Hr Hfuel E. unfold syncFiles in E.
  apply bind_inv in E as [(w1 & rf & _ & E)|[(e & _ & ?)|[E _]]]; [|done|].
  - apply bind_inv in E as [(w2 & st & _ & E)|[(e & _ & ?)|[E _]]]; [|done|].
    + apply wrap_run in E as (r0 & E & Hr0 & _).
      apply delete_loop_calls in E as [? _]. auto.
    + unfold filepath_Walk in E.
      by apply walk_visits_counted in E as [? _].
  - apply wrap_run in E as (r0 & E & Hr0 & _). rewrite (Hr0 eq_refl) in E.
    by eapply fetch_from_halts in E.
Qed.

(** C6, as the code has it.  A scan that succeeds lists each folder page
    by page up to its last page token; after it has fetched a page and
    before it asks for the next one, it scans the folders that page
    lists, in the order of the page.  A subfolder is therefore visited
    after the page of its parent that lists it, not after the parent's
    last page. *)
Theorem scan_visits_folders_page_by_page fuel root path rf w w' rf' :
  fetchRemoteFiles fuel root path rf w = (w', Ok rf') →
  scan_trace (store w) (page_len w) root 0 (new_events w w').
Proof.
  intros E. apply fetch_from_scanned in E as (evs & X & _ & Sc).
  rewrite (extends_new_events _ _ _ X). by eapply scanned_scan_trace.
Qed.

(** C7, as the code has it.  The remote index holds files only, each at
    its path: a folder never makes a path present.  A local file whose
    path no remote file has, whether or not a remote folder has it, takes
    the branch for absent paths (upload); a local file whose path a
    remote file has takes the branch for present paths, the comparison
    of the digest of the index entry of that path with the local one,
    followed by nothing or by the update of that entry; and for a local
    directory the walk function returns at once, without any decision. *)
Theorem presence_is_by_files_only
    fuel root w w1 rf filePath rel checksum cache :
  fetchRemoteFiles fuel root "" ∅ w = (w1, Ok rf) →
  (∀ p f, rf !! p = Some f → ¬ isFolder f ∧ remote_file (store w) root p f) ∧
  ((∀ f, ¬ remote_file (store w) root rel f) →
   uploadOrUpdateFile filePath rel checksum rf root cache
   = (printf ("Uploading new file: " +:+ rel);;
      uploadFile filePath rel root cache)) ∧
  (∀ f, remote_file (store w) root rel f →
        ∃ remoteFile,
          rf !! rel = Some remoteFile ∧
          remote_file (store w) root rel remoteFile ∧
          uploadOrUpdateFile filePath rel checksum rf root cache
          = (if decide (Md5Checksum remoteFile = checksum)
             then printf ("File already exists and is identical: " +:+ rel);;
                  ret cache
             else printf ("Updating file: " +:+ rel);;
                  updateFile filePath (FId remoteFile);;
                  ret cache)) ∧
  (∀ st v, v_err v = None → v_isDir v = true →
           walkFn root rf st v = ret st).
Proof.
  intros E. split; [|split; [|split]].
  - intros p f Hpf. apply (fetchRemoteFiles_sound _ _ _ _ _ E) in Hpf.
    split; [|done]. by eapply entry_from_not_folder.
  - intros Hno. unfold uploadOrUpdateFile.
    destruct (rf !! rel) as [f|] eqn:Hrel; [|done].
    apply (fetchRemoteFiles_sound _ _ _ _ _ E) in Hrel. by destruct (Hno f).
  - intros f Hf.
    destruct (fetchRemoteFiles_complete _ _ _ _ _ E _ _ Hf) as [g Hg].
    exists g. split; [done|]. split; [by eapply fetchRemoteFiles_sound|].
    unfold uploadOrUpdateFile. by rewrite Hg.
  - intros st v He Hd. unfold walkFn. by rewrite He, Hd.
Qed.

End Proofs.

(** * Further properties of the program *)

Section More.
Context `{Platform}.

Lemma scan_outcome_refl {A} w (a : A) : scan_outcome w w (Ok a).
Proof.
  split; [done|]. split; [done|]. split; [done|].
  exists []. split; [apply extends_refl|done].
Qed.

Lemma scan_outcome_trans {A B} w w1 w' (a : A) (r : res B) :
  scan_outcome w w1 (Ok a) → scan_outcome w1 w' r → scan_outcome w w' r.
Proof.
  intros (O1 & S1 & N1 & evs1 & X1 & F1) (O2 & S2 & N2 & evs2 & X2 & F2).
  split; [congruence|]. split; [congruence|]. split; [congruence|].
  exists (evs1 ++ evs2). split; [by eapply extends_trans|].
  destruct r as [b|e|].
  - by apply Forall_app.
  - destruct F2 as (-> & pre & last & -> & Fp & Fl).
    split; [done|]. exists (evs1 ++ pre), last.
    split; [by rewrite app_assoc|]. split; [by apply Forall_app|done].
  - by apply Forall_app.
Qed.

Lemma scan_outcome_bind {A B} (m : M A) (k : A → M B) w w' r :
  (∀ w1 r1, m w = (w1, r1) → scan_outcome w w1 r1) →
  (∀ a w1 w2 r2, k a w1 = (w2, r2) → scan_outcome w1 w2 r2) →
  bind m k w = (w', r) → scan_outcome w w' r.
Proof.
  intros Hm Hk E.
  apply bind_inv in E as [(w1 & a & E1 & E2)|[(e & E & ->)|[E ->]]].
  - eapply scan_outcome_trans; [by apply Hm|by eapply Hk].
  - by apply Hm in E.
  - by apply Hm in E.
Qed.

Lemma scan_outcome_list parent tok w w' r :
  wrap "unable to list files: " (Files_List (InParents parent) tok) w = (w', r) →
  scan_outcome w w' r.
Proof.
  unfold wrap, Files_List. simpl. destruct (api_fails w); intros [= <- <-].
  - split; [done|]. split; [done|]. split; [done|].
    eexists [_]. split; [by apply extends_log|].
    split; [done|]. exists [], (Api (CallList (InParents parent) tok) false).
    split; [done|]. split; [done|]. by eexists _, _.
  - split; [done|]. split; [done|]. split; [done|].
    eexists [_]. split; [by apply extends_log|].
    constructor; [by eexists _, _|done].
Qed.

Lemma scan_outcome_page recur path files rf w w' r :
  (∀ id p rf0 w1 w2 r2, recur id p rf0 w1 = (w2, r2) → scan_outcome w1 w2 r2) →
  scan_page recur path files rf w = (w', r) → scan_outcome w w' r.
Proof.
  intros Hrec. revert rf w w' r.
  induction files as [|file rest IH]; intros rf w w' r; simpl.
  - intros [= <- <-]. apply scan_outcome_refl.
  - case_decide; [|apply IH].
    apply scan_outcome_bind; [intros; by eapply Hrec|].
    intros a w1 w2 r2. apply IH.
Qed.

Lemma scan_outcome_fetch_from fuel parentID path tok rf w w' r :
  fetch_from fuel parentID path tok rf w = (w', r) → scan_outcome w w' r.
Proof.
  revert parentID path tok rf w w' r.
  induction fuel as [|k IH]; intros parentID path tok rf w w' r; simpl.
  - intros [= <- <-].
    split; [done|]. split; [done|]. split; [done|].
    exists []. split; [apply extends_refl|done].
  - apply scan_outcome_bind; [intros; by eapply scan_outcome_list|].
    intros [files next] w1 w2 r2.
    apply scan_outcome_bind.
    { intros w3 r3. apply scan_outcome_page. intros. by eapply IH. }
    intros rf' w3 w4 r4. case_decide.
    + intros [= <- <-]. apply scan_outcome_refl.
    + apply IH.
Qed.

(** X1.  Whatever its outcome, the scan of the remote tree prints nothing,
    leaves the Drive as it is and makes listing calls only; every listing
    succeeded, except that a scan that fails has one failed listing, its
    last call, and returns that error with the prefix of the listing
    once, however deep the folder that failed. *)
Theorem scan_lists_until_first_failure fuel root path rf w w' r :
  fetchRemoteFiles fuel root path rf w = (w', r) →
  out w' = out w ∧ store w' = store w ∧ next_id w' = next_id w ∧
  match r with
  | Err e =>
      e = "unable to list files: googleapi: Error" ∧
      ∃ pre last, new_events w w' = pre ++ [last] ∧
                  Forall ok_listing pre ∧ failed_listing last
  | _ => Forall ok_listing (new_events w w')
  end.
Proof.
  intros E. apply scan_outcome_fetch_from in E as (O & S & N & evs & X & F).
  rewrite (extends_new_events _ _ _ X).
  split; [done|]. split; [done|]. split; [done|].
  destruct r as [a|e|]; [done| |done].
  destruct F as (-> & F). done.
Qed.

(** X2.  When the scan fails, the run returns its error with one more
    prefix, in the world the scan left: the local tree is not walked, no
    create, update or delete call is made and the Drive is as it was. *)
Theorem scan_failure_ends_run fuel localDir root w w1 e :
  fetchRemoteFiles fuel root "" ∅ w = (w1, Err e) →
  syncFiles fuel localDir root w
    = (w1, Err ("failed to fetch remote files: " +:+ e)) ∧
  e = "unable to list files: googleapi: Error" ∧
  Forall list_only (new_events w w1) ∧
  store w1 = store w ∧ next_id w1 = next_id w.
Proof.
  intros E. split.
  { unfold syncFiles, bind, wrap. by rewrite E. }
  pose proof E as (O & S & N & evs & X & -> & F)%scan_outcome_fetch_from.
  split; [done|].
  apply emits_fetch_from in E as (evs' & X' & F').
  rewrite (extends_new_events _ _ _ X'). done.
Qed.

Lemma take_page_nil {A} (n : nat) (l : list A) : take (Nat.max 1 n) l = [] → l = [].
Proof. destruct l; [done|]. by destruct n. Qed.

Lemma head_page (w : world) (l : list File) :
  head (page_of (page_len w) 0 l).1 = head l.
Proof. unfold page_of, page_len. simpl. rewrite drop_0. destruct l; [by rewrite take_nil|]. by destruct (pageSize w). Qed.

Lemma new_events_log e w : new_events w (log e w) = [e].
Proof. unfold new_events. simpl. by rewrite drop_app_length. Qed.

Lemma createOrGetFolder_cases name parent w w' r :
  createOrGetFolder name parent w = (w', r) →
  let found := filter (matches (FolderNamed name parent)) (store w) in
  let lookup := Api (CallList (FolderNamed name parent) 0) in
  ((api_fails w = true ∨ has_quote name = true) ∧
   w' = log (lookup false) w ∧
   ∃ e, r = Err ("unable to query folders: " +:+ e)) ∨
  ((api_fails w = false ∧ has_quote name = false) ∧
   ((∃ g, head found = Some g ∧ w' = log (lookup true) w ∧ r = Ok (FId g)) ∨
    (found = [] ∧
     ∃ r1, wrap "unable to create folder: "
                (Files_Create name folderMime parent None)
                (log (lookup true) w) = (w', r1) ∧
           match r1 with
           | Ok f => r = Ok (FId f)
           | Err e => r = Err e
           | Timeout => r = Timeout
           end))).
Proof.
  unfold createOrGetFolder, bind. unfold wrap at 1.
  unfold Files_List, query_ok. destruct (api_fails w) eqn:Ef.
  { intros [= <- <-]. left. split; [by left|]. split; [done|by eexists]. }
  destruct (has_quote name) eqn:Eq; cbn [negb].
  { intros [= <- <-]. left. split; [by right|]. split; [done|by eexists]. }
  intros E. right. split; [done|].
  pose proof (head_page w (filter (matches (FolderNamed name parent)) (store w))) as Hh.
  destruct (page_of _ _ _) as [files next] eqn:Ep. simpl in Hh.
  destruct files as [|g rest].
  - right. split.
    { unfold page_of, page_len in Ep. injection Ep as Et _.
      rewrite drop_0 in Et. by apply take_page_nil in Et. }
    destruct (wrap _ _ _) as [w1 [f|e|]] eqn:E1; simpl in E;
      inversion E; subst; eexists; (split; [done|]); done.
  - left. exists g. simpl in Hh. simpl in E. inversion E; subst. done.
Qed.

(** X3.  Where the parent has a folder of that name that is not trashed,
    [createOrGetFolder] makes its lookup and nothing else: it creates
    nothing, the Drive is as before, and what it returns, unless the lookup
    fails, is the id of the first such folder of the listing. *)
Theorem createOrGetFolder_reuses_folder name parent g w w' r :
  g ∈ store w → matches (FolderNamed name parent) g →
  createOrGetFolder name parent w = (w', r) →
  store w' = store w ∧ next_id w' = next_id w ∧
  (∃ ok, new_events w w' = [Api (CallList (FolderNamed name parent) 0) ok]) ∧
  ∀ id, r = Ok id →
        ∃ g', head (filter (matches (FolderNamed name parent)) (store w))
                = Some g' ∧ FId g' = id.
Proof.
  intros Hg Hm E.
  apply createOrGetFolder_cases in E
    as [(_ & -> & e & ->)|[_ [(g' & Hh & -> & ->)|(Hnil & _)]]].
  - split; [done|]. split; [done|]. split; [|done].
    exists false. apply new_events_log.
  - split; [done|]. split; [done|]. split.
    + exists true. apply new_events_log.
    + intros id [= <-]. by exists g'.
  - assert (g ∈ filter (matches (FolderNamed name parent)) (store w))
      by by apply list_elem_of_filter.
    rewrite Hnil in *. by apply elem_of_nil in H0.
Qed.

(** X4.  A folder that [createOrGetFolder] returned is in the Drive under
    that name and parent, and a second call finds it: it returns the same
    id after its lookup alone, so that asking twice never makes two
    folders. *)
Theorem createOrGetFolder_twice name parent w w1 id :
  createOrGetFolder name parent w = (w1, Ok id) →
  (∃ g, g ∈ store w1 ∧ matches (FolderNamed name parent) g ∧ FId g = id) ∧
  (api_fails w1 = false →
   createOrGetFolder name parent w1
     = (log (Api (CallList (FolderNamed name parent) 0) true) w1, Ok id)).
Proof.
  intros E.
  assert (Hh : has_quote name = false ∧
               ∃ g, head (filter (matches (FolderNamed name parent)) (store w1))
                      = Some g ∧ FId g = id).
  { apply createOrGetFolder_cases in E
      as [(_ & _ & ? & ?)|[[_ Hq] [(g & Hh & -> & [= ->])|(Hnil & r1 & E1 & Hr)]]];
      [done|by split; [|exists g]|].
    split; [done|].
    destruct r1 as [f|e|]; [|done..]. injection Hr as ->.
    apply wrap_Ok, Files_Create_Ok in E1 as (Hf & Hs & _ & _).
    simpl in Hs. rewrite Hs, filter_app, Hnil. simpl.
    exists f. rewrite filter_cons_True; [done|].
    rewrite Hf. simpl. done. }
  destruct Hh as (Hq & g & Hh & <-). split.
  - exists g. apply head_Some_elem_of in Hh.
    apply list_elem_of_filter in Hh as [? ?]. done.
  - intros Ef. unfold createOrGetFolder, bind, wrap, Files_List, query_ok.
    rewrite Ef, Hq. cbn [negb].
    pose proof (head_page w1 (filter (matches (FolderNamed name parent)) (store w1))) as Hp.
    rewrite Hh in Hp.
    destruct (page_of _ _ _) as [[|g' rest] next]; simpl in Hp; [done|].
    by injection Hp as ->.
Qed.

Lemma new_events_self w : new_events w w = [].
Proof. unfold new_events. by rewrite drop_all. Qed.

(** X5.  For a relative path without a slash, a file right under the
    local root, [uploadFile] looks up and creates no folder and leaves
    the cache as it is: its one remote call creates the file under the
    folder it was given, with the path as its name, and on success the
    new object is the last of the Drive, with the digest of the local
    content. *)
Theorem uploadFile_at_root filePath rel parentID cache w w' r :
  noslash rel →
  uploadFile filePath rel parentID cache w = (w', r) →
  (new_events w w' = [] ∨
   ∃ media ok,
     new_events w w' = [Api (CallCreate rel "" parentID (Some media)) ok]) ∧
  ∀ cache', r = Ok cache' →
    cache' = cache ∧
    ∃ c, fs w !! filePath = Some (Content c) ∧
         new_events w w'
           = [Api (CallCreate rel "" parentID (Some (Content c))) true] ∧
         store w' = store w ++ [mkFile (next_id w) rel uploadMime (md5hex c)
                                       parentID false].
Proof.
  intros Hrel. unfold uploadFile, strings_Split, filepath_ToSlash.
  rewrite (split_aux_noslash _ Hrel). simpl.
  unfold bind at 1. simpl. unfold bind at 1.
  unfold wrap at 1, os_Open.
  destruct (fs w !! filePath) as [[e|e|c]|] eqn:Ef.
  1,4: intros [= <- <-]; split; [left; by rewrite new_events_self|done].
  - unfold bind, wrap, Files_Create. simpl. rewrite orb_true_r.
    intros [= <- <-]. split; [|done].
    right. eexists _, _. apply new_events_log.
  - unfold bind, wrap, Files_Create, printf. simpl. rewrite orb_false_r.
    destruct (api_fails w) eqn:Ea; intros [= <- <-].
    + split; [|done]. right. eexists _, _. apply new_events_log.
    + split.
      * right. eexists _, _. unfold new_events. simpl.
        by rewrite drop_app_length.
      * intros cache' [= <-]. split; [done|]. exists c. split; [done|].
        split; [|done]. unfold new_events. simpl. by rewrite drop_app_length.
Qed.

(** X6.  The cache key of a directory, the join of the first parts of a
    split path, splits back into those parts: two chains of directories
    get the same key of [folderCache] only when they are the same
    chain. *)
Theorem cache_keys_are_injective a b i j :
  strings_Join (take (S i) (strings_Split (filepath_ToSlash a)))
  = strings_Join (take (S j) (strings_Split (filepath_ToSlash b))) →
  take (S i) (strings_Split (filepath_ToSlash a))
  = take (S j) (strings_Split (filepath_ToSlash b)).
Proof.
  intros E. apply (f_equal strings_Split) in E.
  rewrite !strings_Split_Join in E; [done|..].
  - pose proof (strings_Split_length (filepath_ToSlash b)).
    destruct (strings_Split (filepath_ToSlash b)); [simpl in *; lia|done].
  - apply Forall_take, strings_Split_noslash.
  - pose proof (strings_Split_length (filepath_ToSlash a)).
    destruct (strings_Split (filepath_ToSlash a)); [simpl in *; lia|done].
  - apply Forall_take, strings_Split_noslash.
Qed.

Lemma append_assoc (a b c : string) : (a +:+ b) +:+ c = a +:+ (b +:+ c).
Proof.
  induction a as [|x a IH]; [done|].
  change (String x ((a +:+ b) +:+ c) = String x (a +:+ (b +:+ c))).
  by rewrite IH.
Qed.

Lemma append_nil_r (a : string) : a +:+ "" = a.
Proof.
  induction a as [|x a IH]; [done|].
  change (String x (a +:+ "") = String x a). by rewrite IH.
Qed.

Lemma strings_Join_snoc parts x :
  parts ≠ [] → strings_Join (parts ++ [x]) = strings_Join parts +:+ "/" +:+ x.
Proof.
  induction parts as [|p [|q rest] IH]; intros Hne; [done|done|].
  change (strings_Join ((p :: q :: rest) ++ [x]))
    with (p +:+ "/" +:+ strings_Join ((q :: rest) ++ [x])).
  rewrite IH by done.
  change (strings_Join (p :: q :: rest))
    with (p +:+ "/" +:+ strings_Join (q :: rest)).
  by rewrite !append_assoc.
Qed.

Lemma strings_Join_head p rest :
  ∃ t, strings_Join (p :: rest) = p +:+ t.
Proof.
  destruct rest as [|q rest].
  - exists "". simpl. by rewrite append_nil_r.
  - by eexists.
Qed.

Lemma clean_step_plain stack parts :
  Forall plain parts →
  foldl (clean_step false) stack parts = rev parts ++ stack.
Proof.
  intros F. revert stack. induction F as [|x parts (_ & H1 & H2 & H3) _ IH];
    intros stack; [done|].
  simpl. rewrite <- app_assoc. simpl. rewrite <- IH. f_equal.
  unfold clean_step. by rewrite !decide_False.
Qed.

Lemma filepath_Clean_plain parts :
  parts ≠ [] → Forall plain parts →
  filepath_Clean (strings_Join parts) = strings_Join parts.
Proof.
  intros Hne F. destruct parts as [|p rest]; [done|].
  pose proof (Forall_inv F) as (Hs & Hp & _).
  assert (S : strings_Split (strings_Join (p :: rest)) = p :: rest).
  { apply strings_Split_Join; [done|].
    eapply Forall_impl; [done|]. by intros ? []. }
  destruct (strings_Join_head p rest) as [t Ht].
  destruct p as [|c p']; [done|]. destruct Hs as [Hc _].
  assert (R : is_rooted (strings_Join (String c p' :: rest)) = false).
  { rewrite Ht. simpl. by rewrite bool_decide_eq_false_2. }
  assert (N : strings_Join (String c p' :: rest) ≠ "") by by rewrite Ht.
  unfold filepath_Clean. rewrite decide_False by done. cbv zeta.
  rewrite R, S, clean_step_plain by done.
  rewrite app_nil_r, rev_involutive. by rewrite decide_False.
Qed.

Lemma filepath_Join_plain parts x :
  Forall plain parts → plain x →
  filepath_Join (strings_Join parts) x = strings_Join (parts ++ [x]).
Proof.
  intros F Hx. destruct parts as [|p rest].
  - simpl. unfold filepath_Join. simpl. rewrite decide_False by apply Hx.
    apply (filepath_Clean_plain [x]); [done|by constructor].
  - rewrite strings_Join_snoc by done.
    rewrite <- strings_Join_snoc by done.
    unfold filepath_Join. rewrite decide_False.
    + rewrite <- strings_Join_snoc by done.
      apply filepath_Clean_plain; [by destruct rest|].
      apply Forall_app. split; [done|by constructor].
    + destruct (strings_Join_head p rest) as [t ->].
      pose proof (Forall_inv F) as (_ & Hp & _). by destruct p.
Qed.

Lemma foldl_Join_plain parts :
  Forall plain parts → foldl filepath_Join "" parts = strings_Join parts.
Proof.
  induction parts as [|x parts IH] using rev_ind; intros F; [done|].
  apply Forall_app in F as [F Fx]. rewrite foldl_app. simpl.
  rewrite IH by done. apply filepath_Join_plain; [done|by apply Forall_inv in Fx].
Qed.

(** X7.  For names that are not empty, [.] or [..] and hold no slash, the
    path the scan builds with [filepath.Join] down a chain of folders is
    the names joined with slashes, which [uploadFile] splits into those
    names again: such a path is canonical, so the scan and the upload
    agree on the path of a file. *)
Theorem plain_paths_are_canonical parts :
  parts ≠ [] → Forall plain parts →
  foldl filepath_Join "" parts = strings_Join parts ∧
  strings_Split (filepath_ToSlash (strings_Join parts)) = parts ∧
  canonical (strings_Join parts).
Proof.
  intros Hne F.
  assert (S : strings_Split (filepath_ToSlash (strings_Join parts)) = parts).
  { apply strings_Split_Join; [done|].
    eapply Forall_impl; [done|]. by intros ? []. }
  split; [by apply foldl_Join_plain|]. split; [done|].
  unfold canonical. rewrite S. by apply foldl_Join_plain.
Qed.

Lemma filter_all {A} (P : A → Prop) `{∀ x, Decision (P x)} (l : list A) :
  (∀ x, P x) → filter P l = l.
Proof.
  intros HP. induction l as [|x l IH]; [done|].
  rewrite filter_cons_True by done. by rewrite IH.
Qed.

Lemma delete_loop_filter localFiles items w w' :
  delete_loop localFiles items w = (w', Ok tt) →
  let ids := (λ pf : string * File, FId pf.2) <$>
               filter (λ pf, localFiles !! pf.1 = None) items in
  store w' = filter (λ g, FId g ∉ ids) (store w) ∧
  NoDup ids ∧ ∀ id, id ∈ ids → id ∈ FId <$> store w.
Proof.
  revert w. induction items as [|[p f] rest IH]; intros w; simpl.
  - intros [= <-]. split; [|split; [constructor|by intros ? ?%elem_of_nil]].
    symmetry. apply filter_all. intros g. apply not_elem_of_nil.
  - destruct (localFiles !! p) eqn:Ep.
    { rewrite filter_cons_False by (simpl; congruence). apply IH. }
    rewrite filter_cons_True by done. simpl.
    intros E. apply bind_Ok in E as (w1 & [] & E1 & E).
    inversion E1; subst. clear E1.
    apply bind_Ok in E as (w2 & [] & E2 & E).
    apply wrap_Ok in E2.
    assert (Hin : FId f ∈ FId <$> store w).
    { revert E2. unfold Files_Delete. destruct (api_fails _); [done|].
      by case_decide. }
    apply Files_Delete_Ok in E2 as [S2 _]. simpl in S2.
    destruct (IH _ E) as (S & ND & Hall).
    set (ids := (λ pf : string * File, FId pf.2) <$>
                  filter (λ pf, localFiles !! pf.1 = None) rest) in *.
    assert (Hnew : ∀ id, id ∈ ids → id ≠ FId f ∧ id ∈ FId <$> store w).
    { intros id Hid. apply Hall in Hid. rewrite S2 in Hid.
      apply list_elem_of_fmap in Hid as (g & -> & Hg).
      apply list_elem_of_filter in Hg as [Hne Hg].
      split; [done|]. apply list_elem_of_fmap. eauto. }
    split; [|split].
    + rewrite S, S2, list_filter_filter. apply list_filter_iff.
      intros g. rewrite not_elem_of_cons. tauto.
    + apply NoDup_cons. split; [|done]. intros Hid. by apply Hnew in Hid as [? _].
    + intros id [->|Hid]%elem_of_cons; [done|]. by apply Hnew.
Qed.

(** X8.  A delete pass that succeeds removes from the Drive the objects
    whose id the remote index holds at a path the local index lacks, and
    nothing else; the other objects stay as they are, in their order.  The
    result does not depend on the order in which Go ranges over the map;
    and the pass can only succeed when those ids are distinct objects of
    the Drive, a delete of an object that is gone being an error. *)
Theorem delete_pass_removes_orphans localFiles remoteFiles w w' :
  deleteRemoteFiles localFiles remoteFiles w = (w', Ok tt) →
  store w' = filter (λ g, FId g ∉ orphan_ids localFiles remoteFiles) (store w) ∧
  next_id w' = next_id w ∧
  NoDup (orphan_ids localFiles remoteFiles) ∧
  (∀ id, id ∈ orphan_ids localFiles remoteFiles → id ∈ FId <$> store w) ∧
  new_events w w'
    ≡ₚ (λ id, Api (CallDelete id) true) <$> orphan_ids localFiles remoteFiles.
Proof.
  unfold deleteRemoteFiles. intros E.
  pose proof (delete_loop_filter _ _ _ _ E) as (S & ND & Hall).
  pose proof (delete_loop_store _ _ _ _ E) as [N _].
  apply delete_loop_calls in E as (_ & evs & X & _ & _ & Hok).
  assert (P : (λ pf : string * File, FId pf.2) <$>
                filter (λ pf, localFiles !! pf.1 = None) (rangeFiles remoteFiles)
              ≡ₚ orphan_ids localFiles remoteFiles).
  { unfold orphan_ids, orphans. by rewrite (rangeFiles_perm remoteFiles). }
  split; [|split; [done|split; [|split]]].
  - rewrite S. apply list_filter_iff. intros g. by rewrite P.
  - by rewrite <- P.
  - intros id Hid. apply Hall. by rewrite P.
  - rewrite (extends_new_events _ _ _ X), (Hok eq_refl).
    rewrite <- P, <- list_fmap_compose. done.
Qed.

Lemma delete_loop_Err localFiles items w w' e :
  delete_loop localFiles items w = (w', Err e) →
  ∃ p f e0 pre,
    (p, f) ∈ items ∧ localFiles !! p = None ∧
    e = ("failed to delete file " +:+ p +:+ ": ") +:+ e0 ∧
    (e0 = apiError ∨ e0 = notFound ∧ FId f ∉ FId <$> store w') ∧
    new_events w w' = pre ++ [Api (CallDelete (FId f)) false] ∧
    Forall (λ ev, ∃ id, ev = Api (CallDelete id) true) pre.
Proof.
  revert w. induction items as [|[p f] rest IH]; intros w; simpl; [done|].
  destruct (localFiles !! p) eqn:Ep.
  { intros E. destruct (IH _ E) as (p' & f' & e0 & pre & Hin & Hrest).
    exists p', f', e0, pre. split; [by right|done]. }
  intros E. apply bind_inv in E as [(w1 & [] & E1 & E)|[(? & E & _)|[E _]]];
    [|done..].
  inversion E1; subst. clear E1.
  apply bind_inv in E as [(w2 & [] & E2 & E)|[(e1 & E & He)|[_ ?]]]; [| |done].
  - apply wrap_Ok in E2.
    assert (T2 : trace w2 = trace w ++ [Api (CallDelete (FId f)) true]).
    { revert E2. unfold Files_Delete. simpl. destruct (api_fails _); [done|].
      case_decide; [|done]. by intros [= <-]. }
    destruct (IH _ E) as (p' & f' & e0 & pre & Hin & Hp & He & H0 & Hev & Hpre).
    exists p', f', e0, (Api (CallDelete (FId f)) true :: pre).
    split; [by right|]. split; [done|]. split; [done|]. split; [done|].
    split; [|constructor; [by eexists|done]].
    pose proof E as (evs3 & X3 & _)%emits_delete_loop.
    rewrite (extends_new_events _ _ _ X3) in Hev. subst evs3.
    destruct X3 as (T3 & _).
    unfold new_events. rewrite T3, T2, <- app_assoc, drop_app_length. reflexivity.
  - injection He as ->.
    apply wrap_inv in E as [[E Hne]|(e0 & E & [= ->])]; [by destruct (Hne e1)|].
    exists p, f, e0, []. split; [by left|]. split; [done|]. split; [done|].
    revert E. unfold Files_Delete. simpl.
    destruct (api_fails _).
    + intros [= <- <-]. split; [by left|]. split; [|done].
      unfold new_events. simpl. by rewrite drop_app_length.
    + case_decide; [done|]. intros [= <- <-]. split; [by right|]. split; [|done].
      unfold new_events. simpl. by rewrite drop_app_length.
Qed.

(** X9.  An error of [syncFiles] is one of three: the error of the scan
    with its prefix, no local entry having been visited; the error of the
    walk as the walk function returned it, with no prefix; or the error of
    the first delete call that failed, which names the path of its entry,
    was the last call of the run and came after delete calls that all
    succeeded. *)
Theorem run_errors_by_phase fuel localDir root w w' e :
  syncFiles fuel localDir root w = (w', Err e) →
  (e = "failed to fetch remote files: unable to list files: googleapi: Error" ∧
   fetchRemoteFiles fuel root "" ∅ w
     = (w', Err "unable to list files: googleapi: Error")) ∨
  (∃ w1 rf, fetchRemoteFiles fuel root "" ∅ w = (w1, Ok rf) ∧
            filepath_Walk localDir (walkFn root rf) (∅, []) w1 = (w', Err e)) ∨
  (∃ w1 rf w2 st p f e0 pre,
     fetchRemoteFiles fuel root "" ∅ w = (w1, Ok rf) ∧
     filepath_Walk localDir (walkFn root rf) (∅, []) w1 = (w2, Ok st) ∧
     rf !! p = Some f ∧ st.1 !! p = None ∧
     e = "failed to delete remote files: "
           +:+ ("failed to delete file " +:+ p +:+ ": ") +:+ e0 ∧
     new_events w2 w' = pre ++ [Api (CallDelete (FId f)) false] ∧
     Forall (λ ev, ∃ id, ev = Api (CallDelete id) true) pre).
Proof.
  unfold syncFiles. intros E.
  apply bind_inv in E as [(w1 & rf & E1 & E)|[(e1 & E & He)|[_ ?]]]; [| |done].
  - apply wrap_Ok in E1. right.
    apply bind_inv in E as [(w2 & st & E2 & E)|[(e2 & E & He)|[_ ?]]];
      [| |done].
    + right.
      apply wrap_inv in E as [[E Hne]|(e3 & E & [= ->])]; [by destruct (Hne e)|].
      unfold deleteRemoteFiles in E.
      apply delete_loop_Err in E
        as (p & f & e0 & pre & Hin & Hp & -> & _ & Hev & Hpre).
      rewrite (rangeFiles_perm rf) in Hin. apply elem_of_map_to_list in Hin.
      exists w1, rf, w2, st, p, f, e0, pre. done.
    + left. injection He as ->. by exists w1, rf.
  - left. injection He as ->.
    apply wrap_inv in E as [[E Hne]|(e0 & E & [= ->])]; [by destruct (Hne e1)|].
    pose proof E as (_ & _ & _ & _ & _ & -> & _)%scan_outcome_fetch_from.
    done.
Qed.

Lemma aims_at_other rf e :
  is_update e = false → is_delete e = false → aims_at rf e.
Proof.
  intros Hu Hd id [(media & ok & ->)|(ok & ->)]; done.
Qed.

Lemma aims_createOrGetFolder rf name parentID :
  emits (aims_at rf) (createOrGetFolder name parentID).
Proof.
  unfold createOrGetFolder. apply emits_bind.
  { apply emits_wrap, emits_Files_List. intros. by apply aims_at_other. }
  intros [[|f files] next]; [|apply emits_ret].
  apply emits_bind; [|intros; apply emits_ret].
  apply emits_wrap, emits_Files_Create. intros. by apply aims_at_other.
Qed.

Lemma aims_resolve_parts rf parts i todo parentID cache :
  emits (aims_at rf) (resolve_parts parts i todo parentID cache).
Proof.
  revert i parentID cache.
  induction todo as [|part rest IH]; intros i parentID cache; simpl.
  - apply emits_ret.
  - destruct (cache_lookup _ _); [apply IH|].
    apply emits_bind; [apply emits_wrap, aims_createOrGetFolder|].
    intros id. apply IH.
Qed.

Lemma aims_uploadOrUpdateFile filePath rel checksum rf parentID cache :
  emits (aims_at rf)
        (uploadOrUpdateFile filePath rel checksum rf parentID cache).
Proof.
  unfold uploadOrUpdateFile. destruct (rf !! rel) as [remoteFile|] eqn:Erf.
  - case_decide.
    + apply emits_bind; [apply emits_printf|intros; apply emits_ret].
    + apply emits_bind; [apply emits_printf|intros].
      apply emits_bind; [|intros; apply emits_ret].
      unfold updateFile. apply emits_bind; [apply emits_wrap, emits_os_Open|].
      intros file. apply emits_bind; [|intros; apply emits_printf].
      apply emits_wrap, emits_Files_Update.
      intros ok id [(media & ok' & [= <- _ _])|(ok' & ?)]; [|done].
      by exists rel, remoteFile.
  - apply emits_bind; [apply emits_printf|intros].
    unfold uploadFile. apply emits_bind; [apply aims_resolve_parts|].
    intros [pid c]. apply emits_bind; [apply emits_wrap, emits_os_Open|].
    intros file. apply emits_bind.
    { apply emits_wrap, emits_Files_Create. intros. by apply aims_at_other. }
    intros _. apply emits_bind; [apply emits_printf|intros; apply emits_ret].
Qed.

Lemma aims_walkFn root rf st v : emits (aims_at rf) (walkFn root rf st v).
Proof.
  unfold walkFn. destruct (v_err v); [apply emits_fail|].
  destruct (v_isDir v); [apply emits_ret|].
  apply emits_bind; [apply emits_wrap, emits_lift|]. intros rel.
  apply emits_bind; [apply emits_wrap, emits_computeMD5|]. intros checksum.
  apply emits_bind; [apply aims_uploadOrUpdateFile|intros; apply emits_ret].
Qed.

Lemma aims_delete_loop rf localFiles items :
  (∀ p f, (p, f) ∈ items → rf !! p = Some f) →
  emits (aims_at rf) (delete_loop localFiles items).
Proof.
  induction items as [|[p f] rest IH]; intros Hin; simpl; [apply emits_ret|].
  assert (Hrest : emits (aims_at rf) (delete_loop localFiles rest)).
  { apply IH. intros p' f' Hi. apply Hin. by right. }
  destruct (localFiles !! p); [done|].
  apply emits_bind; [apply emits_printf|intros _].
  apply emits_bind; [|by intros _].
  apply emits_wrap, emits_Files_Delete.
  intros ok id [(media & ok' & ?)|(ok' & [= <- _])]; [done|].
  exists p, f. split; [|done]. apply Hin. by left.
Qed.

(** X10.  Every update and every delete call of a run, succeeding or not,
    is for an object that the scan found below the root and that is a file:
    the run never updates or deletes a folder, nor anything outside the
    tree of its root. *)
Theorem run_touches_scanned_files_only fuel localDir root w w' r id e :
  syncFiles fuel localDir root w = (w', r) →
  e ∈ new_events w w' → touches id e →
  ∃ p f, remote_file (store w) root p f ∧ FId f = id ∧ ¬ isFolder f.
Proof.
  intros E He Ht.
  assert (A : ∃ w1 rf, fetchRemoteFiles fuel root "" ∅ w = (w1, Ok rf) ∧
                       aims_at rf e).
  { unfold syncFiles in E.
    apply bind_inv in E as [(w1 & rf & E1 & E)|[(e1 & E & _)|[E _]]].
    - apply wrap_Ok in E1. exists w1, rf. split; [done|].
      pose proof E1 as (evs1 & X1 & F1)%emits_fetch_from.
      assert (∃ evs, extends w1 w' evs ∧ Forall (aims_at rf) evs)
        as (evs & X & F).
      { revert E. apply emits_bind.
        - apply emits_filepath_Walk; [by apply aims_at_other|].
          intros. apply aims_walkFn.
        - intros st. apply emits_wrap, aims_delete_loop.
          intros p f Hin. rewrite (rangeFiles_perm rf) in Hin.
          by apply elem_of_map_to_list in Hin. }
      rewrite (extends_new_events _ _ _ (extends_trans _ _ _ _ _ X1 X)) in He.
      apply elem_of_app in He as [He|He].
      + apply (proj1 (Forall_forall _ _) F1) in He as (? & ? & ? & ->).
        by apply aims_at_other.
      + by apply (proj1 (Forall_forall _ _) F).
    - apply wrap_run in E as (r0 & E & _).
      apply emits_fetch_from in E as (evs & X & F).
      rewrite (extends_new_events _ _ _ X) in He.
      apply (proj1 (Forall_forall _ _) F) in He as (? & ? & ? & ->).
      by destruct Ht as [(? & ? & ?)|(? & ?)].
    - apply wrap_run in E as (r0 & E & _).
      apply emits_fetch_from in E as (evs & X & F).
      rewrite (extends_new_events _ _ _ X) in He.
      apply (proj1 (Forall_forall _ _) F) in He as (? & ? & ? & ->).
      by destruct Ht as [(? & ? & ?)|(? & ?)]. }
  destruct A as (w1 & rf & E1 & A). destruct (A id Ht) as (p & f & Hf & <-).
  exists p, f. pose proof (fetchRemoteFiles_sound _ _ _ _ _ E1 _ _ Hf) as R.
  split; [done|]. split; [done|]. by eapply entry_from_not_folder.
Qed.

(** X11.  A regular file of the walk that cannot be opened or read stops
    the walk at its entry: the walk function returns the error of
    [computeMD5] with the path in its prefix, in the world as it was, no
    remote call having been made for the file and nothing printed. *)
Theorem unreadable_file_stops_walk root rf st v rel w :
  v_err v = None → v_isDir v = false → v_rel v = Good rel →
  (∀ c, fs w !! v_path v ≠ Some (Content c)) →
  ∃ e, walkFn root rf st v w
       = (w, Err (("failed to compute checksum for " +:+ v_path v +:+ ": ")
                    +:+ e)) ∧
       ((∃ e0, e = "unable to open file: " +:+ e0) ∨
        (∃ e0, e = "unable to compute hash: " +:+ e0)).
Proof.
  intros He Hd Hr Hc. unfold walkFn. rewrite He, Hd, Hr.
  unfold bind, wrap, lift, ret, computeMD5, bind, wrap, os_Open.
  destruct (fs w !! v_path v) as [[e|e|c]|] eqn:Ef.
  - eexists. split; [done|]. left. by eexists.
  - eexists. split; [done|]. right. by eexists.
  - by destruct (Hc c).
  - eexists. split; [done|]. left. by eexists.
Qed.

Lemma walk_index_digests localDir root rf w w' st :
  NoDup (file_rels (walk_script localDir w)) →
  filepath_Walk localDir (walkFn root rf) (∅, []) w = (w', Ok st) →
  ∀ rel h, st.1 !! rel = Some h
           ↔ local_digest (fs w) (walk_script localDir w) rel h.
Proof.
  intros ND E rel h.
  pose proof (filepath_Walk_index _ _ _ _ _ _ E rel) as Hidx.
  unfold filepath_Walk in E.
  pose proof (walk_visits_digests _ _ _ _ _ _ _ E ND) as Hdig.
  simpl in Hdig. split.
  - intros Hst. destruct (proj1 Hidx (mk_is_Some _ _ Hst))
      as (v & Hv & _ & Hd & Hr).
    destruct (Hdig v rel Hv Hd Hr) as (c & Hc & Hst').
    exists v, c. repeat split; try done. congruence.
  - intros (v & c & Hv & Hd & Hr & Hc & ->).
    destruct (Hdig v rel Hv Hd Hr) as (c' & Hc' & Hst'). congruence.
Qed.

Lemma walk_visits_no_err root rf st visits w w' st' :
  walk_visits (walkFn root rf) st visits w = (w', Ok st') →
  Forall (λ v, v_err v = None) visits.
Proof.
  revert st w. induction visits as [|v rest IH]; intros st w E; [done|].
  simpl in E. apply bind_Ok in E as (w1 & st1 & E1 & E).
  apply walkFn_Ok in E1 as [He _]. constructor; [done|]. by eapply IH.
Qed.

(** X12.  After a walk that went through, over files with distinct
    relative paths, the local index holds exactly the regular files
    visited, each under its relative path with the MD5 digest of its
    content; directories have no entry. *)
Theorem local_index_is_exact localDir root rf w w' st :
  NoDup (file_rels (walk_script localDir w)) →
  filepath_Walk localDir (walkFn root rf) (∅, []) w = (w', Ok st) →
  (∀ rel h, st.1 !! rel = Some h
            ↔ local_digest (fs w) (walk_script localDir w) rel h) ∧
  Forall (λ v, v_err v = None) (walk_script localDir w) ∧
  fs w' = fs w.
Proof.
  intros ND E. split; [by eapply walk_index_digests|].
  pose proof E as (evs & (_ & _ & _ & Hfs & _) & _)%emits_walk.
  split; [|done]. unfold filepath_Walk in E.
  by eapply walk_visits_no_err.
Qed.

(** X13.  On a well-formed Drive in which no two remote files have the
    same path, for a walk whose files have distinct, canonical relative
    paths, a run that succeeds leaves below the root the mirror of the
    local tree: there is a remote file at a path with a digest exactly
    when a regular file of the walk has that relative path and content
    with that digest. *)
Theorem run_mirrors_local_tree fuel localDir root w w' :
  wf_drive root (store w) (next_id w) →
  tidy_walk (walk_script localDir w) →
  unique_paths (store w) root →
  syncFiles fuel localDir root w = (w', Ok tt) →
  ∀ p h, (∃ g, remote_file (store w') root p g ∧ Md5Checksum g = h)
         ↔ local_digest (fs w) (walk_script localDir w) p h.
Proof.
  intros Hwf Htidy Hu Run p h.
  destruct (syncFiles_Ok_final _ _ _ _ _ Hwf Htidy Run)
    as (w1 & rf & w2 & st & E1 & E2 & _ & _ & HA & _ & HC).
  pose proof E1 as (evs1 & (_ & _ & _ & Hfs & Hw & _) & _)%emits_fetchRemoteFiles.
  assert (Hv : walk_script localDir w1 = walk_script localDir w).
  { unfold walk_script. by rewrite Hw. }
  assert (ND : NoDup (file_rels (walk_script localDir w1))).
  { rewrite Hv. apply Htidy. }
  pose proof (walk_index_digests _ _ _ _ _ _ ND E2 p h) as Hidx.
  rewrite Hv, Hfs in Hidx. rewrite <- Hidx. split.
  - intros (g & Hg & <-). by apply HC.
  - intros Hst. destruct (HA _ _ Hst) as (f & Hf & Hh). by exists f.
Qed.

Lemma api_fails_calm w : faults w = [] → api_fails w = false.
Proof.
  intros Hf. unfold api_fails. rewrite Hf. apply bool_decide_eq_false_2.
  apply not_elem_of_nil.
Qed.

Lemma same_after {A} P (m : M A) w w' r :
  emits P m → m w = (w', r) →
  faults w' = faults w ∧ fs w' = fs w ∧ walks w' = walks w.
Proof. intros Hm E. by apply Hm in E as (evs & (_ & ? & _ & ? & ? & _) & _). Qed.

Lemma ids_after {A} (m : M A) w w' r :
  emits no_delete m → m w = (w', r) →
  ∀ id, id ∈ FId <$> store w → id ∈ FId <$> store w'.
Proof.
  intros Hm E id Hid. apply Hm in E as (evs & (_ & _ & _ & _ & _ & R) & F).
  pose proof (replay_keeps_ids _ (store w, next_id w) F) as [k K].
  rewrite <- R in K. simpl in K. rewrite K. apply elem_of_app. by left.
Qed.

Lemma literal_no_quote s : literal s = true → has_quote s = false.
Proof.
  induction s as [|c s IH]; [done|]. simpl.
  intros [[Hq _]%andb_true_iff Hs]%andb_true_iff.
  rewrite (IH Hs). by destruct (bool_decide _).
Qed.

Lemma createOrGetFolder_calm name pid w :
  faults w = [] → literal name = true →
  ∃ w' id, createOrGetFolder name pid w = (w', Ok id).
Proof.
  intros Hf Hl. unfold createOrGetFolder, bind, wrap, Files_List, query_ok.
  rewrite (api_fails_calm _ Hf), (literal_no_quote _ Hl). cbn [negb].
  destruct (page_of _ _ _) as [[|f files] next]; [|by eexists _, _].
  unfold Files_Create. rewrite api_fails_calm by done. simpl.
  by eexists _, _.
Qed.

Lemma resolve_parts_calm parts i todo pid cache w :
  faults w = [] → Forall (λ part, literal part = true) todo →
  ∃ w' x, resolve_parts parts i todo pid cache w = (w', Ok x).
Proof.
  revert i pid cache w.
  induction todo as [|part rest IH]; intros i pid cache w Hf Hl; simpl.
  - by eexists _, _.
  - apply Forall_cons in Hl as [Hp Hl].
    destruct (cache_lookup _ _); [by apply IH|].
    destruct (createOrGetFolder_calm part pid w Hf Hp) as (w1 & id & E1).
    unfold bind at 1. unfold wrap. rewrite E1. apply IH; [|done].
    apply (same_after _ _ _ _ _ (emits_createOrGetFolder _ _)) in E1 as [? _].
    congruence.
Qed.

Lemma uploadFile_calm filePath rel parentID cache c w :
  faults w = [] → literal_dirs rel → fs w !! filePath = Some (Content c) →
  ∃ w' cache', uploadFile filePath rel parentID cache w = (w', Ok cache').
Proof.
  intros Hf Hl Hc. unfold uploadFile.
  destruct (resolve_parts_calm (strings_Split (filepath_ToSlash rel)) 0
              (take (length (strings_Split (filepath_ToSlash rel)) - 1)
                    (strings_Split (filepath_ToSlash rel))) parentID cache w
              Hf Hl)
    as (w1 & [pid cache1] & E1).
  unfold bind at 1. rewrite E1.
  apply (same_after _ _ _ _ _ (emits_resolve_parts _ _ _ _ _)) in E1
    as (Hf1 & Hfs1 & _).
  unfold bind, wrap, os_Open, Files_Create, printf, ret.
  rewrite Hfs1, Hc. rewrite api_fails_calm by congruence. simpl.
  by eexists _, _.
Qed.

Lemma updateFile_calm filePath id c w :
  faults w = [] → fs w !! filePath = Some (Content c) →
  id ∈ FId <$> store w →
  ∃ w', updateFile filePath id w = (w', Ok tt).
Proof.
  intros Hf Hc Hid.
  unfold updateFile, bind, wrap, os_Open, Files_Update, printf.
  rewrite Hc. rewrite api_fails_calm by done. simpl.
  rewrite decide_True by done. by eexists.
Qed.

Lemma walkFn_calm root rf st v w :
  faults w = [] → readable (fs w) v →
  (∀ p f, rf !! p = Some f → FId f ∈ FId <$> store w) →
  ∃ w' st', walkFn root rf st v w = (w', Ok st').
Proof.
  intros Hf [He Hv] Hids. unfold walkFn. rewrite He.
  destruct (v_isDir v); [by eexists _, _|].
  destruct (Hv eq_refl) as (rel & c & Hr & Hl & Hc). rewrite Hr.
  unfold bind at 1. unfold wrap at 1. simpl.
  unfold bind at 1. unfold wrap at 1.
  unfold computeMD5, bind at 1, wrap at 1, os_Open. rewrite Hc. simpl.
  unfold uploadOrUpdateFile.
  destruct (rf !! rel) as [remoteFile|] eqn:Erf.
  - case_decide.
    + unfold bind, printf, ret. by eexists _, _.
    + destruct (updateFile_calm (v_path v) (FId remoteFile) c
                  (print ("Updating file: " +:+ rel) w))
        as (w1 & E1); [done|done|by eapply Hids|].
      unfold bind, printf, ret. rewrite E1. by eexists _, _.
  - destruct (uploadFile_calm (v_path v) rel root (st.2) c
                (print ("Uploading new file: " +:+ rel) w))
      as (w1 & cache1 & E1); [done|done|done|].
    unfold bind, printf, ret. rewrite E1. by eexists _, _.
Qed.

Lemma walk_visits_calm root rf st visits w :
  faults w = [] → Forall (readable (fs w)) visits →
  (∀ p f, rf !! p = Some f → FId f ∈ FId <$> store w) →
  ∃ w' st', walk_visits (walkFn root rf) st visits w = (w', Ok st').
Proof.
  revert st w. induction visits as [|v rest IH]; intros st w Hf Hr Hids; simpl.
  - by eexists _, _.
  - apply Forall_cons in Hr as [Hv Hr].
    destruct (walkFn_calm root rf st v w Hf Hv Hids) as (w1 & st1 & E1).
    unfold bind. rewrite E1.
    pose proof (same_after _ _ _ _ _ (emits_walkFn _ _ _ _) E1) as (Hf1 & Hfs1 & _).
    apply IH.
    + congruence.
    + by rewrite Hfs1.
    + intros p f Hpf. eapply ids_after; [apply emits_walkFn|done|by eapply Hids].
Qed.

Lemma delete_loop_calm localFiles items w :
  faults w = [] →
  let ids := (λ pf : string * File, FId pf.2) <$>
               filter (λ pf, localFiles !! pf.1 = None) items in
  NoDup ids → (∀ id, id ∈ ids → id ∈ FId <$> store w) →
  ∃ w', delete_loop localFiles items w = (w', Ok tt).
Proof.
  revert w. induction items as [|[p f] rest IH]; intros w Hf; simpl.
  - by eexists.
  - destruct (localFiles !! p) eqn:Ep.
    { rewrite filter_cons_False by (simpl; congruence). by apply IH. }
    rewrite filter_cons_True by done. simpl. intros ND Hall.
    apply NoDup_cons in ND as [Hnew ND].
    unfold bind at 1. unfold printf at 1. unfold bind at 1. unfold wrap.
    unfold Files_Delete. rewrite api_fails_calm by done. simpl.
    rewrite decide_True by (apply Hall; by left).
    apply IH; [done|done|]. simpl.
    intros id Hid. assert (id ≠ FId f) by (by intros ->).
    assert (id ∈ FId <$> store w) as (g & -> & Hg)%list_elem_of_fmap
      by (apply Hall; by right).
    apply list_elem_of_fmap. exists g. split; [done|].
    by apply list_elem_of_filter.
Qed.

Lemma listing_calm parent tok w w' r :
  faults w = [] →
  wrap "unable to list files: " (Files_List (InParents parent) tok) w
    = (w', r) →
  faults w' = [] ∧ ∃ a, r = Ok a.
Proof.
  intros Hf. unfold wrap, Files_List. rewrite api_fails_calm by done.
  simpl.
  intros [= <- <-]. split; [done|by eexists].
Qed.

Lemma scan_page_calm recur path files rf w w' e :
  (∀ id p rf0 w1 w2 e2, faults w1 = [] → recur id p rf0 w1 ≠ (w2, Err e2)) →
  (∀ id p rf0, emits list_only (recur id p rf0)) →
  faults w = [] → scan_page recur path files rf w ≠ (w', Err e).
Proof.
  intros Hrec Hem. revert rf w.
  induction files as [|file rest IH]; intros rf w Hf; simpl.
  - done.
  - case_decide; [|by apply IH].
    intros E. apply bind_inv in E as [(w1 & a & E1 & E)|[(e1 & E & _)|[_ ?]]];
      [| |done].
    + eapply IH; [|done].
      apply (same_after _ _ _ _ _ (Hem _ _ _)) in E1 as [? _]. congruence.
    + by eapply Hrec.
Qed.

Lemma fetch_from_calm fuel parentID path tok rf w w' e :
  faults w = [] → fetch_from fuel parentID path tok rf w ≠ (w', Err e).
Proof.
  revert parentID path tok rf w w' e.
  induction fuel as [|k IH]; intros parentID path tok rf w w' e Hf; simpl.
  - done.
  - intros E.
    apply bind_inv in E as [(w1 & [files next] & E1 & E)|[(e1 & E & _)|[_ ?]]];
      [|by apply listing_calm in E as [_ [? ?]]|done].
    apply listing_calm in E1 as [Hf1 _]; [|done].
    apply bind_inv in E as [(w2 & rf' & E2 & E)|[(e1 & E & _)|[_ ?]]];
      [| |done].
    + case_decide; [by inversion E|]. eapply IH; [|done].
      apply (same_after list_only) in E2 as [? _]; [congruence|].
      apply emits_scan_page. intros. apply emits_fetch_from.
    + eapply scan_page_calm in E; [done| | |done].
      * intros. by eapply IH.
      * intros. apply emits_fetch_from.
Qed.

(** X14.  A run succeeds when nothing stands in its way: on a Drive with
    unique ids whose folders form a forest, when no remote call fails for
    a reason of its own and every entry of the walk can be handled (no
    error from the walk, and for every regular file a relative path whose
    directories have names without quote or backslash, which the search
    query of [createOrGetFolder] holds as they are, and readable
    content), [syncFiles] returns [nil]. *)
Theorem undisturbed_run_succeeds rank r fuel localDir root w :
  faults w = [] →
  wf_drive root (store w) (next_id w) →
  ranked (store w) rank → rank root ≤ r →
  scan_budget (store w) r (length (children (store w) root)) 0 ≤ fuel →
  Forall (readable (fs w)) (walk_script localDir w) →
  ∃ w', syncFiles fuel localDir root w = (w', Ok tt).
Proof.
  intros Hf Hwf Hrank Hr Hfuel Hread.
  destruct (fetchRemoteFiles fuel root "" ∅ w) as [w1 r1] eqn:E1.
  destruct r1 as [rf|e|].
  2:{ by eapply fetch_from_calm in E1. }
  2:{ by eapply fetch_from_halts in E1. }
  pose proof (same_after _ _ _ _ _ (emits_fetch_from _ _ _ _ _) E1)
    as (Hf1 & Hfs1 & Hw1).
  pose proof (keeps_store_fetch_from _ _ _ _ _ _ _ _ E1) as [Hs1 _].
  assert (Hidx : ∀ p f, rf !! p = Some f → remote_file (store w) root p f).
  { by eapply fetchRemoteFiles_sound. }
  assert (Hids : ∀ p f, rf !! p = Some f → FId f ∈ FId <$> store w1).
  { intros p f Hpf. rewrite Hs1. apply list_elem_of_fmap. exists f.
    split; [done|]. eapply remote_file_elem. by eapply Hidx. }
  destruct (walk_visits_calm root rf (∅, []) (walk_script localDir w1)
              (log (WalkDir localDir) w1)) as (w2 & st & E2).
  { simpl. congruence. }
  { simpl. unfold walk_script. by rewrite Hw1, Hfs1. }
  { done. }
  fold (filepath_Walk localDir (walkFn root rf) (∅, []) w1) in E2.
  pose proof (same_after _ _ _ _ _ (emits_walk _ _ _ _) E2) as (Hf2 & _ & _).
  destruct (delete_loop_calm (st.1) (rangeFiles rf) w2) as (w3 & E3).
  { congruence. }
  { apply NoDup_fmap_2_strong.
    - intros [p f] [p' f'] [_ Hin]%list_elem_of_filter
             [_ Hin']%list_elem_of_filter Heq. simpl in Heq.
      rewrite (rangeFiles_perm rf) in Hin, Hin'.
      apply elem_of_map_to_list in Hin, Hin'.
      assert (p = p') as <- by by eapply (rf_inj root (store w)).
      congruence.
    - apply NoDup_filter. rewrite (rangeFiles_perm rf).
      apply NoDup_map_to_list. }
  { intros id ([p f] & -> & [_ Hin]%list_elem_of_filter)%list_elem_of_fmap.
    rewrite (rangeFiles_perm rf) in Hin. apply elem_of_map_to_list in Hin.
    eapply ids_after; [apply emits_walk|done|by eapply Hids]. }
  exists w3. unfold syncFiles, bind, wrap, deleteRemoteFiles.
  by rewrite E1, E2, E3.
Qed.

(** X15.  On a Drive whose folders form a forest the scan of a folder
    returns: with the budget of the folder's rank as fuel it gives a result
    or an error, and every larger amount of fuel gives the same, so the
    outcome of the scan is that of the recursion of the source. *)
Theorem scan_returns_on_forest rank r fuel root path rf w :
  ranked (store w) rank → rank root ≤ r →
  scan_budget (store w) r (length (children (store w) root)) 0 ≤ fuel →
  ∃ w' res,
    fetchRemoteFiles fuel root path rf w = (w', res) ∧ res ≠ Timeout ∧
    ∀ fuel', fuel ≤ fuel' →
             fetchRemoteFiles fuel' root path rf w = (w', res).
Proof.
  intros Hrank Hr Hfuel.
  destruct (fetchRemoteFiles fuel root path rf w) as [w' res] eqn:E.
  assert (Hres : res ≠ Timeout).
  { intros ->. by eapply fetch_from_halts in E. }
  exists w', res. split; [done|]. split; [done|].
  intros fuel' Hle. by eapply fetch_from_fuel.
Qed.

Lemma adds_createOrGetFolder name parentID :
  emits (λ e, is_update e = false ∧ is_delete e = false)
        (createOrGetFolder name parentID).
Proof.
  unfold createOrGetFolder. apply emits_bind.
  { apply emits_wrap, emits_Files_List. done. }
  intros [[|f files] next]; [|apply emits_ret].
  apply emits_bind; [|intros; apply emits_ret].
  apply emits_wrap, emits_Files_Create. done.
Qed.

Lemma adds_resolve_parts parts i todo parentID cache :
  emits (λ e, is_update e = false ∧ is_delete e = false)
        (resolve_parts parts i todo parentID cache).
Proof.
  revert i parentID cache.
  induction todo as [|part rest IH]; intros i parentID cache; simpl.
  - apply emits_ret.
  - destruct (cache_lookup _ _); [apply IH|].
    apply emits_bind; [apply emits_wrap, adds_createOrGetFolder|].
    intros id. apply IH.
Qed.

Lemma adds_uploadFile filePath rel parentID cache :
  emits (λ e, is_update e = false ∧ is_delete e = false)
        (uploadFile filePath rel parentID cache).
Proof.
  unfold uploadFile. apply emits_bind; [apply adds_resolve_parts|].
  intros [pid c]. apply emits_bind; [apply emits_wrap, emits_os_Open|].
  intros file. apply emits_bind.
  { apply emits_wrap, emits_Files_Create. done. }
  intros _. apply emits_bind; [apply emits_printf|intros; apply emits_ret].
Qed.

Lemma replay_adds evs d :
  Forall (λ e, is_update e = false ∧ is_delete e = false) evs →
  d.1 `prefix_of` (replay evs d).1.
Proof.
  intros F. revert d. induction F as [|e evs [Hu Hd] _ IH]; intros d; [done|].
  unfold replay. simpl. etrans; [|apply IH].
  destruct e as [[q tok|name mime parent media|id media|id] [|]|r]; simpl;
    try done.
  by apply prefix_app_r.
Qed.

Lemma replay_next evs d : d.2 ≤ (replay evs d).2.
Proof.
  revert d. induction evs as [|e evs IH]; intros d; [done|].
  unfold replay. simpl. etrans; [|apply IH]. destruct d as [s n].
  destruct e as [[q tok|name mime parent media|id media|id] [|]|r]; simpl; lia.
Qed.

Lemma next_id_after {A} P (m : M A) w w' r :
  emits P m → m w = (w', r) → next_id w ≤ next_id w'.
Proof.
  intros Hm E. apply Hm in E as (evs & (_ & _ & _ & _ & _ & R) & _).
  pose proof (replay_next evs (store w, next_id w)) as K.
  by rewrite <- R in K.
Qed.

Lemma uploadFile_new_file root s0 n0 rf filePath rel cache lf w w' cache' :
  walk_inv root s0 n0 rf (store w) (next_id w) (lf, cache) →
  canonical rel →
  uploadFile filePath rel root cache w = (w', Ok cache') →
  ∃ c f, fs w !! filePath = Some (Content c) ∧
         remote_file (store w') root rel f ∧
         Md5Checksum f = md5hex c ∧ next_id w ≤ FId f.
Proof.
  intros I Hcan E. unfold uploadFile, filepath_ToSlash in E.
  set (parts := strings_Split rel) in *.
  apply bind_Ok in E as (w1 & [pid c1] & E1 & E).
  pose proof E1 as X1. apply emits_resolve_parts in X1 as (evs1 & X1 & _).
  pose proof (next_id_after _ _ _ _ _ (emits_resolve_parts _ _ _ _ _) E1) as Hn1.
  eapply (resolve_parts_inv root s0 n0 rf rel) in E1 as [I1 R1];
    [|done| |constructor].
  2:{ rewrite drop_0. apply prefix_take. }
  rewrite length_take in R1. fold parts in R1.
  replace (0 + (length parts - 1) `min` length parts) with (length parts - 1)
    in R1 by lia.
  apply bind_Ok in E as (w2 & file & E2 & E).
  apply wrap_Ok, os_Open_Ok in E2 as (-> & Hfile & _).
  apply bind_Ok in E as (w3 & g & E3 & E).
  apply wrap_Ok, Files_Create_Ok in E3 as (Hg & Hs3 & Hn3 & Hread).
  unfold bind, printf, ret in E. inversion E; subst w' cache'. simpl.
  destruct file as [e|e|c]; [done|done|]. exists c, g. split.
  { destruct X1 as (_ & _ & _ & <- & _). done. }
  assert (Hrel : filepath_Join (foldl filepath_Join "" (take (length parts - 1) parts))
                               (List.last parts "") = rel).
  { unfold canonical, filepath_ToSlash in Hcan. fold parts in Hcan.
    rewrite (take_last_parts parts) in Hcan at 1.
    - by rewrite foldl_app in Hcan.
    - intros Hnil. pose proof (strings_Split_length rel) as Hl.
      fold parts in Hl. rewrite Hnil in Hl. simpl in Hl. lia. }
  split; [|split].
  - rewrite Hs3. apply entry_from_reach. eexists pid, _. split.
    { eapply reach_mono; [|exact R1]. intros d Hd _. exists d.
      split; [|done]. apply elem_of_app. by left. }
    split.
    { apply elem_of_children. split.
      - apply elem_of_app. right. by apply list_elem_of_singleton.
      - by rewrite Hg. }
    split.
    { rewrite Hg. unfold isFolder. simpl. discriminate. }
    rewrite Hg. simpl. by rewrite Hrel.
  - by rewrite Hg.
  - rewrite Hg. simpl. lia.
Qed.

(** X16.  At any point of the walk of a run, after the scan of a
    well-formed Drive and the entries visited so far, [uploadFile] called
    as the walk function calls it, with the root and the folder cache of
    that point, for a canonical relative path: when it succeeds it has put
    a new file at that path below the root, with the digest of the local
    content; it changed and removed nothing, the objects the Drive had
    being the first of those it has now. *)
Theorem uploadFile_puts_file_at_path
    fuel localDir root w0 w1 rf visits st w filePath rel w' cache' :
  wf_drive root (store w0) (next_id w0) →
  fetchRemoteFiles fuel root "" ∅ w0 = (w1, Ok rf) →
  NoDup (file_rels visits) → Forall canonical (file_rels visits) →
  walk_visits (walkFn root rf) (∅, []) visits (log (WalkDir localDir) w1)
    = (w, Ok st) →
  canonical rel →
  uploadFile filePath rel root (st.2) w = (w', Ok cache') →
  ∃ c f, fs w !! filePath = Some (Content c) ∧
         remote_file (store w') root rel f ∧
         Md5Checksum f = md5hex c ∧ next_id w ≤ FId f ∧
         store w `prefix_of` store w'.
Proof.
  intros Hwf E1 ND Hcans E2 Hcan E.
  pose proof (keeps_store_fetch_from _ _ _ _ _ _ _ _ E1) as [Hs Hn].
  assert (Hsound : ∀ p f, rf !! p = Some f → remote_file (store w1) root p f).
  { rewrite Hs. by eapply fetchRemoteFiles_sound. }
  assert (Hcompl : ∀ p f, remote_file (store w1) root p f → is_Some (rf !! p)).
  { rewrite Hs. by eapply fetchRemoteFiles_complete. }
  assert (Hwf' : wf_drive root (store w1) (next_id w1)) by by rewrite Hs, Hn.
  pose proof (walk_inv_init root (store w1) (next_id w1) rf Hwf' Hsound) as I0.
  assert (I : walk_inv root (store w1) (next_id w1) rf (store w) (next_id w) st).
  { eapply (walk_visits_inv root (store w1) (next_id w1) rf Hwf' Hsound Hcompl
              (∅, []) visits (log (WalkDir localDir) w1));
      [exact I0|exact ND| |exact E2].
    intros r Hr. split; [apply lookup_empty|].
    by apply (proj1 (Forall_forall _ _) Hcans). }
  destruct st as [lf cache].
  destruct (uploadFile_new_file _ _ _ _ _ _ _ _ _ _ _ I Hcan E)
    as (c & f & Hc & Hf & Hh & Hnew).
  exists c, f. split; [done|]. split; [done|]. split; [done|]. split; [done|].
  apply adds_uploadFile in E as (evs & (_ & _ & _ & _ & _ & R) & F).
  pose proof (replay_adds _ (store w, next_id w) F) as K.
  by rewrite <- R in K.
Qed.

Lemma rangeFiles_empty : rangeFiles ∅ = [].
Proof.
  pose proof (rangeFiles_perm ∅) as P. rewrite map_to_list_empty in P.
  by apply Permutation_nil_r in P.
Qed.

Lemma scan_of_empty_folder fuel root w w1 rf :
  children (store w) root = [] →
  fetchRemoteFiles fuel root "" ∅ w = (w1, Ok rf) → rf = ∅.
Proof.
  intros Hc E. apply map_eq. intros p. rewrite lookup_empty.
  destruct (rf !! p) as [f|] eqn:Ef; [|done].
  apply (fetchRemoteFiles_sound _ _ _ _ _ E) in Ef.
  inversion Ef as [? ? ? Hin|? ? d ? ? Hin]; subst; rewrite Hc in Hin;
    by apply elem_of_nil in Hin.
Qed.

Lemma adds_walkFn_empty root st v :
  emits (λ e, is_update e = false ∧ is_delete e = false)
        (walkFn root ∅ st v).
Proof.
  unfold walkFn. destruct (v_err v); [apply emits_fail|].
  destruct (v_isDir v); [apply emits_ret|].
  apply emits_bind; [apply emits_wrap, emits_lift|]. intros rel.
  apply emits_bind; [apply emits_wrap, emits_computeMD5|]. intros checksum.
  apply emits_bind; [|intros; apply emits_ret].
  unfold uploadOrUpdateFile. rewrite lookup_empty.
  apply emits_bind; [apply emits_printf|intros; apply adds_uploadFile].
Qed.

(** X17.  A run on a root folder that has no child makes no update and no
    delete call, whatever its outcome: it only lists and creates, and the
    objects the Drive had, elsewhere, are the first of those it has
    after the run, unchanged. *)
Theorem sync_into_empty_folder_only_adds fuel localDir root w w' r :
  children (store w) root = [] →
  syncFiles fuel localDir root w = (w', r) →
  Forall (λ e, is_update e = false ∧ is_delete e = false) (new_events w w') ∧
  store w `prefix_of` store w'.
Proof.
  intros Hc E.
  assert (∃ evs, extends w w' evs ∧
                 Forall (λ e, is_update e = false ∧ is_delete e = false) evs)
    as (evs & X & F).
  { revert E. unfold syncFiles. intros E.
    apply bind_inv in E as [(w1 & rf & E1 & E)|[(e1 & E & _)|[E _]]].
    - apply wrap_Ok in E1.
      pose proof (scan_of_empty_folder _ _ _ _ _ Hc E1) as ->.
      apply emits_fetch_from in E1 as (evs1 & X1 & F1).
      assert (∃ evs, extends w1 w' evs ∧
                Forall (λ e, is_update e = false ∧ is_delete e = false) evs)
        as (evs2 & X2 & F2).
      { revert E. apply emits_bind.
        - apply emits_filepath_Walk; [done|]. intros. apply adds_walkFn_empty.
        - intros st. unfold deleteRemoteFiles. rewrite rangeFiles_empty.
          apply emits_wrap, emits_ret. }
      exists (evs1 ++ evs2). split; [by eapply extends_trans|].
      apply Forall_app. split; [|done].
      eapply Forall_impl; [done|]. by intros e (? & ? & ? & ->).
    - apply wrap_run in E as (r0 & E & _).
      apply emits_fetch_from in E as (evs & X & F). exists evs. split; [done|].
      eapply Forall_impl; [done|]. by intros e (? & ? & ? & ->).
    - apply wrap_run in E as (r0 & E & _).
      apply emits_fetch_from in E as (evs & X & F). exists evs. split; [done|].
      eapply Forall_impl; [done|]. by intros e (? & ? & ? & ->). }
  rewrite (extends_new_events _ _ _ X). split; [done|].
  destruct X as (_ & _ & _ & _ & _ & R).
  pose proof (replay_adds _ (store w, next_id w) F) as K.
  by rewrite <- R in K.
Qed.

Lemma walk_visits_no_files root rf st visits w w' st' :
  file_rels visits = [] →
  walk_visits (walkFn root rf) st visits w = (w', Ok st') →
  w' = w ∧ st' = st.
Proof.
  revert st w. induction visits as [|v rest IH]; intros st w Hr; simpl.
  - by intros [= <- <-].
  - intros E. apply bind_Ok in E as (w1 & st1 & E1 & E).
    apply walkFn_Ok in E1
      as [He [(Hd & -> & ->)|(Hd & rel & c & cache & Hrel & _)]].
    + apply IH; [|done]. revert Hr. unfold file_rels. simpl.
      by rewrite He, Hd.
    + revert Hr. unfold file_rels. simpl. by rewrite He, Hd, Hrel.
Qed.

(** X18.  When the walk of the local tree goes through without meeting
    a regular file, as for an empty local directory, a run that succeeds
    has deleted every entry of the remote index and made no other
    create, update or delete call: its calls after the scan are one
    delete call per entry. *)
Theorem empty_local_tree_deletes_all fuel localDir root w w' :
  file_rels (walk_script localDir w) = [] →
  syncFiles fuel localDir root w = (w', Ok tt) →
  ∃ w1 rf,
    fetchRemoteFiles fuel root "" ∅ w = (w1, Ok rf) ∧
    new_events w1 w'
      ≡ₚ WalkDir localDir ::
         ((λ pf, Api (CallDelete (FId pf.2)) true) <$> map_to_list rf) ∧
    ∀ p f, rf !! p = Some f → FId f ∉ FId <$> store w'.
Proof.
  intros Hnone E. unfold syncFiles in E.
  apply bind_Ok in E as (w1 & rf & E1 & E). apply wrap_Ok in E1.
  apply bind_Ok in E as (w2 & st & E2 & E). apply wrap_Ok in E.
  exists w1, rf. split; [done|].
  pose proof (same_after _ _ _ _ _ (emits_fetch_from _ _ _ _ _) E1)
    as (_ & _ & Hw1).
  unfold filepath_Walk in E2.
  apply walk_visits_no_files in E2 as [-> ->].
  2:{ unfold walk_script in *. by rewrite Hw1. }
  unfold deleteRemoteFiles in E. simpl in E.
  split.
  - pose proof E as (_ & evs & X & _ & _ & Hok)%delete_loop_calls.
    rewrite filter_all in Hok by (intros; apply lookup_empty).
    assert (X' : extends w1 w' ([WalkDir localDir] ++ evs)).
    { eapply extends_trans; [by apply extends_log|done]. }
    rewrite (extends_new_events _ _ _ X'), (Hok eq_refl). simpl.
    by rewrite (rangeFiles_perm rf).
  - intros p f Hpf Hin.
    apply delete_loop_filter in E as (S & _ & _).
    rewrite S in Hin. apply list_elem_of_fmap in Hin as (g & Hg & Hin).
    apply list_elem_of_filter in Hin as [Hnot _]. apply Hnot.
    rewrite <- Hg. apply list_elem_of_fmap. exists (p, f). split; [done|].
    apply list_elem_of_filter. split; [apply lookup_empty|].
    rewrite (rangeFiles_perm rf). by apply elem_of_map_to_list.
Qed.

(** X19.  When the local root is not there, the walk reports the error
    of [os.Lstat] for it and the walk function returns it: after the
    scan the run ends with that error and has made no create, update or
    delete call, so a local directory that is missing leaves the Drive
    as it is, where one that is empty empties the remote folder. *)
Theorem missing_local_root_changes_nothing fuel localDir root w w1 rf :
  walks w !! localDir = None →
  fetchRemoteFiles fuel root "" ∅ w = (w1, Ok rf) →
  syncFiles fuel localDir root w
    = (log (WalkDir localDir) w1,
       Err ("lstat " +:+ localDir +:+ ": no such file or directory")) ∧
  Forall silent (new_events w (log (WalkDir localDir) w1)) ∧
  store (log (WalkDir localDir) w1) = store w.
Proof.
  intros Hnone E1.
  pose proof (same_after _ _ _ _ _ (emits_fetch_from _ _ _ _ _) E1)
    as (_ & _ & Hw1).
  pose proof (keeps_store_fetch_from _ _ _ _ _ _ _ _ E1) as [Hs1 _].
  split; [|split; [|done]].
  - unfold syncFiles, bind, wrap. rewrite E1.
    unfold filepath_Walk, walk_script. simpl. by rewrite Hw1, Hnone.
  - apply emits_fetch_from in E1 as (evs1 & X1 & F1).
    assert (X : extends w (log (WalkDir localDir) w1) (evs1 ++ [WalkDir localDir])).
    { eapply extends_trans; [done|by apply extends_log]. }
    rewrite (extends_new_events _ _ _ X). apply Forall_app. split.
    + eapply Forall_impl; [done|]. by intros e (? & ? & ? & ->).
    + by constructor.
Qed.

End More.


(** ** Folders are made once *)

Section Folders.
Context `{Platform}.

Lemma folders_made_app evs1 evs2 :
  folders_made (evs1 ++ evs2) = folders_made evs1 + folders_made evs2.
Proof. unfold folders_made. by rewrite filter_app, length_app. Qed.

Lemma split_aux_Join s h t : split_aux s = (h, t) → strings_Join (h :: t) = s.
Proof.
  revert h t. induction s as [|c s IH]; intros h t; simpl.
  - by intros [= <- <-].
  - destruct (split_aux s) as [h' t'] eqn:E. specialize (IH _ _ eq_refl).
    case_decide as Hc; intros [= <- <-].
    + change (strings_Join ("" :: h' :: t'))
        with ("" +:+ "/" +:+ strings_Join (h' :: t')).
      rewrite IH. by subst c.
    + destruct t' as [|x t'].
      * simpl in *. by subst.
      * change (strings_Join (String c h' :: x :: t'))
          with (String c (h' +:+ "/" +:+ strings_Join (x :: t'))).
        by rewrite <- IH.
Qed.

Lemma strings_Join_Split s : strings_Join (strings_Split s) = s.
Proof.
  unfold strings_Split. destruct (split_aux s) as [h t] eqn:E.
  by apply split_aux_Join.
Qed.

Lemma plain_path_canonical rel : plain_path rel → canonical rel.
Proof.
  intros Hp. unfold canonical. rewrite foldl_Join_plain by done.
  apply strings_Join_Split.
Qed.

Lemma plain_key parts :
  parts ≠ [] → Forall plain parts →
  key_path (strings_Join parts) = strings_Join parts.
Proof.
  intros Hne F. unfold key_path. rewrite strings_Split_Join; [|done|].
  - by apply foldl_Join_plain.
  - eapply Forall_impl; [done|]. by intros ? [].
Qed.

Lemma plain_key_nonempty parts :
  parts ≠ [] → Forall plain parts → strings_Join parts ≠ "".
Proof.
  intros Hne F. destruct parts as [|p rest]; [done|].
  destruct (strings_Join_head p rest) as [t ->].
  apply Forall_inv in F as (_ & Hp & _). by destruct p.
Qed.

Section Run.
Variables (root : Id) (s0 : list File) (n0 : Id) (rf : gmap string File).
Hypothesis wf0 : wf_drive root s0 n0.
Hypothesis rf_sound : ∀ p f, rf !! p = Some f → remote_file s0 root p f.
Hypothesis rf_complete : ∀ p f, remote_file s0 root p f → is_Some (rf !! p).

Lemma dirs_inv_init : dirs_inv n0 s0 [] [].
Proof.
  split; simpl; [|done| |constructor].
  - intros d Hd _ Hn. destruct wf0 as (_ & Hlt & _).
    destruct (Hlt _ Hd). lia.
  - intros k Hk. by apply elem_of_nil in Hk.
Qed.

(** A folder that a lookup finds is none that this run made. *)
Lemma found_folder_is_old name pid q lf cache evs k g w :
  walk_inv root s0 n0 rf (store w) (next_id w) (lf, cache) →
  dirs_inv n0 (store w) cache evs →
  reach (store w) root "" pid q →
  cache_lookup k cache = None → filepath_Join q name = k →
  g ∈ store w → matches (FolderNamed name pid) g →
  FId g < n0.
Proof.
  intros I D R Hmiss Hk Hg (Hn & Hp & Hd & Ht).
  destruct (decide (FId g < n0)) as [|Hnew]; [done|]. exfalso.
  assert (Hge : n0 ≤ FId g) by lia.
  destruct (proj1 (list_elem_of_fmap _ _ _) (dirs_new _ _ _ _ D g Hg Hd Hge))
    as ([k' id'] & Hid & Hin).
  simpl in Hid. subst id'.
  pose proof (inv_cache _ _ _ _ _ _ _ I _ _ Hin) as R'. simpl in R'.
  destruct (dirs_keys _ _ _ _ D k') as (parts & Hne & Hpl & ->).
  { apply list_elem_of_fmap. by exists (k', FId g). }
  rewrite plain_key in R' by done.
  assert (R2 : reach (store w) root "" (FId g) (filepath_Join q (Name g))).
  { eapply reach_step; [done| |done]. by apply elem_of_children. }
  destruct (inv_wf _ _ _ _ _ _ _ I) as (ND & _ & _ & Hroot).
  pose proof (reach_functional _ _ _ _ _ _ ND Hroot R' R2) as Heq.
  apply cache_lookup_None in Hmiss. apply Hmiss.
  apply list_elem_of_fmap. exists (strings_Join parts, FId g).
  split; [|done]. simpl. congruence.
Qed.

Lemma createOrGetFolder_dirs name pid q lf cache evs k w w' id :
  walk_inv root s0 n0 rf (store w) (next_id w) (lf, cache) →
  dirs_inv n0 (store w) cache evs →
  reach (store w) root "" pid q →
  cache_lookup k cache = None → filepath_Join q name = k →
  (∃ parts, parts ≠ [] ∧ Forall plain parts ∧ k = strings_Join parts) →
  createOrGetFolder name pid w = (w', Ok id) →
  ∃ evs1, extends w w' evs1 ∧
          dirs_inv n0 (store w') ((k, id) :: cache) (evs ++ evs1).
Proof.
  intros I D R Hmiss Hk Hplain E.
  pose proof E as (evs1 & X1 & _)%emits_createOrGetFolder.
  exists evs1. split; [done|].
  pose proof (extends_new_events _ _ _ X1) as Hev.
  assert (Hkeys : ∀ k0, k0 ∈ ((k, id) :: cache).*1 →
            ∃ parts, parts ≠ [] ∧ Forall plain parts ∧ k0 = strings_Join parts).
  { intros k0 [->|Hk0]%elem_of_cons; [done|]. by eapply dirs_keys. }
  assert (Honce : NoDup ((k, id) :: cache).*1).
  { simpl. apply NoDup_cons. split; [by apply cache_lookup_None|].
    by eapply dirs_once. }
  apply createOrGetFolder_cases in E
    as [(_ & _ & ? & ?)|[_ [(g & Hh & -> & [= ->])|(Hnil & r1 & E1 & Hr)]]];
    [done| |].
  - (* found *)
    apply head_Some_elem_of, list_elem_of_filter in Hh as [Hm Hg].
    assert (Hold : FId g < n0) by by eapply found_folder_is_old.
    rewrite new_events_log in Hev. subst evs1.
    split; simpl; [| |done|done].
    + intros d Hd Hf Hn. right. by eapply dirs_new.
    + rewrite folders_made_app. unfold folders_made at 2. simpl.
      rewrite filter_cons. simpl. destruct (decide (n0 ≤ FId g)); [lia|].
      rewrite (dirs_made _ _ _ _ D). apply Nat.add_0_r.
  - (* made *)
    destruct r1 as [f|e|]; [|done..]. injection Hr as ->.
    apply wrap_Ok in E1. pose proof E1 as E1'.
    apply Files_Create_Ok in E1 as (Hf & Hs & Hn & _). simpl in Hs, Hn.
    assert (Hev1 : evs1 = [Api (CallList (FolderNamed name pid) 0) true;
                           Api (CallCreate name folderMime pid None) true]).
    { rewrite <- Hev. revert E1'. unfold Files_Create. simpl.
      destruct (api_fails _); [done|]. simpl. intros [= <- _].
      unfold new_events. simpl. rewrite <- app_assoc.
      by rewrite drop_app_length. }
    subst evs1.
    assert (Hid : FId f = next_id w) by by rewrite Hf.
    pose proof (inv_age _ _ _ _ _ _ _ I) as Hage.
    split; simpl; [| |done|done].
    + intros d Hd Hfd Hnd. rewrite Hs in Hd.
      apply elem_of_app in Hd as [Hd|Hd%list_elem_of_singleton].
      * right. by eapply dirs_new.
      * subst d. by left.
    + rewrite folders_made_app, ?Hev1. unfold folders_made at 2. simpl.
      rewrite filter_cons. simpl. destruct (decide (n0 ≤ FId f)); [|lia]. simpl.
      rewrite (dirs_made _ _ _ _ D). apply Nat.add_1_r.
Qed.

Lemma resolve_parts_dirs rel i todo pid cache lf evs w w' pid' cache' :
  let parts := strings_Split rel in
  Forall plain parts →
  walk_inv root s0 n0 rf (store w) (next_id w) (lf, cache) →
  dirs_inv n0 (store w) cache evs →
  todo `prefix_of` drop i parts →
  reach (store w) root "" pid (foldl filepath_Join "" (take i parts)) →
  resolve_parts parts i todo pid cache w = (w', Ok (pid', cache')) →
  ∃ evs1, extends w w' evs1 ∧ dirs_inv n0 (store w') cache' (evs ++ evs1).
Proof.
  intros parts Hplain. revert i pid cache evs w.
  induction todo as [|part rest IH]; intros i pid cache evs w I D Hpre R; simpl.
  - intros [= <- <- <-]. exists []. split; [apply extends_refl|].
    by rewrite app_nil_r.
  - assert (Hi : parts !! i = Some part).
    { destruct Hpre as [k Hk]. pose proof (lookup_drop parts i 0) as Hl.
      rewrite Hk, Nat.add_0_r in Hl. by simpl in Hl. }
    assert (Hrest : rest `prefix_of` drop (S i) parts).
    { destruct Hpre as [k Hk]. exists k.
      pose proof (drop_drop parts 1 i) as Hd. rewrite Hk in Hd.
      simpl in Hd. rewrite drop_0 in Hd.
      by replace (S i) with (i + 1) by lia. }
    assert (Hlen : i < length (strings_Split rel)) by by eapply lookup_lt_Some.
    assert (Htake : foldl filepath_Join "" (take (S i) parts)
                    = filepath_Join (foldl filepath_Join "" (take i parts)) part).
    { rewrite (take_S_lookup _ _ _ Hi), foldl_app. done. }
    assert (Hkp : Forall plain (take (S i) parts)) by by apply Forall_take.
    assert (Hkn : take (S i) parts ≠ []).
    { rewrite (take_S_lookup _ _ _ Hi). by destruct (take i parts). }
    destruct (cache_lookup _ cache) as [cachedID|] eqn:Hc.
    + intros E. eapply IH; [done|done|done| |done].
      assert (Hin : (strings_Join (take (S i) parts), cachedID) ∈ cache).
      { clear -Hc. induction cache as [|[k id] c IHc]; [done|].
        simpl in Hc. case_decide.
        - inversion Hc; subst. by left.
        - right. by apply IHc. }
      apply (inv_cache _ _ _ _ _ _ _ I) in Hin. simpl in Hin.
      unfold parts in *. by rewrite key_path_prefix in Hin.
    + intros E. apply bind_Ok in E as (w1 & id & E1 & E).
      apply wrap_Ok in E1.
      pose proof E1 as E1'.
      eapply (createOrGetFolder_inv root s0 n0 rf) in E1' as [I1 R1];
        [|done..].
      rewrite <- Htake in R1.
      destruct (createOrGetFolder_dirs part pid _ lf cache evs
                  (strings_Join (take (S i) parts)) w w1 id I D R Hc)
        as (evs1 & X1 & D1); [|by eexists|done|].
      { rewrite <- Htake. by apply foldl_Join_plain. }
      destruct (IH (S i) id ((strings_Join (take (S i) parts), id) :: cache)
                  (evs ++ evs1) w1) as (evs2 & X2 & D2); [|done|done| |done|].
      * eapply (walk_inv_cache root s0 n0 rf _ _ (lf, cache)); [done|].
        unfold parts in *. by rewrite key_path_prefix.
      * done.
      * exists (evs1 ++ evs2). split; [by eapply extends_trans|].
        by rewrite app_assoc.
Qed.

Lemma folders_made_none evs :
  Forall (λ e, is_folder_made e = false) evs → folders_made evs = 0.
Proof.
  unfold folders_made. induction 1 as [|e evs He _ IH]; [done|].
  rewrite filter_cons. destruct (decide _); [congruence|done].
Qed.

Lemma folders_made_le evs : folders_made evs ≤ folder_creates evs.
Proof.
  unfold folders_made, folder_creates.
  induction evs as [|e evs IH]; [done|]. rewrite !filter_cons.
  destruct e as [[| ? ? ? [?|] | |] []|]; simpl; lia.
Qed.

(** Calls that make no folder keep what holds of the cache, when the
    Drive gets no new folder. *)
Lemma dirs_inv_more s s' cache evs evs1 :
  dirs_inv n0 s cache evs →
  (∀ d, d ∈ s' → isFolder d → ∃ d0, d0 ∈ s ∧ isFolder d0 ∧ FId d0 = FId d) →
  Forall (λ e, is_folder_made e = false) evs1 →
  dirs_inv n0 s' cache (evs ++ evs1).
Proof.
  intros D Hs F. split.
  - intros d Hd Hf Hn. destruct (Hs d Hd Hf) as (d0 & Hd0 & Hf0 & Hid).
    rewrite <- Hid. eapply dirs_new; [done..|lia].
  - rewrite folders_made_app, (folders_made_none _ F), Nat.add_0_r.
    by eapply dirs_made.
  - by eapply dirs_keys.
  - by eapply dirs_once.
Qed.

Lemma uploadFile_dirs filePath rel cache lf evs w w' cache' :
  plain_path rel →
  walk_inv root s0 n0 rf (store w) (next_id w) (lf, cache) →
  dirs_inv n0 (store w) cache evs →
  uploadFile filePath rel root cache w = (w', Ok cache') →
  ∃ evs1, extends w w' evs1 ∧ dirs_inv n0 (store w') cache' (evs ++ evs1).
Proof.
  intros Hp I D E. unfold uploadFile in E. unfold plain_path in Hp.
  unfold filepath_ToSlash in *. set (parts := strings_Split rel) in *.
  apply bind_Ok in E as (w1 & [pid c1] & E1 & E).
  eapply (resolve_parts_dirs rel) in E1 as (evs1 & X1 & D1);
    [|done|done|done| |constructor].
  2:{ rewrite drop_0. apply prefix_take. }
  apply bind_Ok in E as (w2 & file & E2 & E).
  apply wrap_Ok, os_Open_Ok in E2 as (-> & Hfile & _).
  apply bind_Ok in E as (w3 & g & E3 & E). apply wrap_Ok in E3.
  pose proof E3 as (evs3 & X3 & F3)%(emits_Files_Create
    (λ e, is_folder_made e = false)); [|done].
  apply Files_Create_Ok in E3 as (Hg & Hs3 & Hn3 & Hread).
  unfold bind, printf, ret in E. inversion E; subst w' cache'. simpl.
  exists (evs1 ++ evs3 ++ []). split.
  { eapply extends_trans; [done|].
    eapply extends_trans; [done|apply extends_print]. }
  rewrite app_nil_r, app_assoc. eapply dirs_inv_more; [done| |done].
  intros d Hd Hf. rewrite Hs3 in Hd.
  apply elem_of_app in Hd as [Hd|Hd%list_elem_of_singleton]; [by exists d|].
  subst d g. unfold isFolder in Hf. simpl in Hf. done.
Qed.

Lemma uploadOrUpdateFile_dirs filePath rel h cache lf evs w w' cache' :
  plain_path rel →
  walk_inv root s0 n0 rf (store w) (next_id w) (lf, cache) →
  dirs_inv n0 (store w) cache evs →
  uploadOrUpdateFile filePath rel h rf root cache w = (w', Ok cache') →
  ∃ evs1, extends w w' evs1 ∧ dirs_inv n0 (store w') cache' (evs ++ evs1).
Proof.
  intros Hp I D E. unfold uploadOrUpdateFile in E.
  destruct (rf !! rel) as [f0|] eqn:Hrf.
  - case_decide as Hmd5.
    + unfold bind, printf, ret in E. inversion E; subst. simpl.
      exists []. split; [apply extends_print|]. by rewrite app_nil_r.
    + apply bind_Ok in E as (w1 & [] & E1 & E). inversion E1; subst w1.
      apply bind_Ok in E as (w2 & [] & E2 & E). inversion E; subst.
      unfold updateFile in E2.
      apply bind_Ok in E2 as (w3 & file & E3 & E2).
      apply wrap_Ok, os_Open_Ok in E3 as (-> & Hfile & _). simpl in Hfile.
      apply bind_Ok in E2 as (w4 & [] & E4 & E2). apply wrap_Ok in E4.
      pose proof E4 as (evs4 & X4 & F4)%(emits_Files_Update
        (λ e, is_folder_made e = false)); [|done].
      apply Files_Update_Ok in E4 as (Hs & Hn & _).
      unfold printf in E2. inversion E2; subst. simpl in *.
      exists ([] ++ evs4 ++ []). split.
      { eapply extends_trans; [apply extends_print|].
        eapply extends_trans; [done|apply extends_print]. }
      rewrite app_nil_r. simpl. eapply dirs_inv_more; [done| |done].
      intros d Hd Hf. rewrite Hs in Hd.
      apply list_elem_of_fmap in Hd as (d0 & -> & Hd0). exists d0.
      split; [done|]. unfold set_md5, isFolder in *.
      by case_decide.
  - apply bind_Ok in E as (w1 & [] & E1 & E). inversion E1; subst w1.
    eapply uploadFile_dirs in E as (evs1 & X1 & D1); [|done..].
    exists ([] ++ evs1). split; [|done].
    eapply extends_trans; [apply extends_print|done].
Qed.

Lemma walk_visits_dirs st visits evs w w' st' :
  walk_inv root s0 n0 rf (store w) (next_id w) st →
  dirs_inv n0 (store w) (st.2) evs →
  NoDup (file_rels visits) →
  (∀ rel, rel ∈ file_rels visits → st.1 !! rel = None ∧ plain_path rel) →
  walk_visits (walkFn root rf) st visits w = (w', Ok st') →
  ∃ evs1, extends w w' evs1 ∧ dirs_inv n0 (store w') (st'.2) (evs ++ evs1).
Proof.
  revert st evs w. induction visits as [|v rest IH]; intros st evs w I D ND Hrels.
  - simpl. intros [= <- <-]. exists []. split; [apply extends_refl|].
    by rewrite app_nil_r.
  - cbn [walk_visits]. intros E. apply bind_Ok in E as (w1 & st1 & E1 & E).
    rewrite file_rels_cons in ND, Hrels.
    apply NoDup_app in ND as (_ & Hdisj & ND).
    apply walkFn_Ok in E1
      as [Herr [(Hdir & -> & ->)|
                (Hdir & rel & c & cache & Hrel & Hfs & E1 & ->)]].
    + eapply IH; [done..| |done]. intros rel Hin. apply Hrels.
      apply elem_of_app. by right.
    + assert (Hv : file_rels [v] = [rel]).
      { unfold file_rels. simpl. by rewrite Herr, Hdir, Hrel. }
      rewrite Hv in Hrels, Hdisj.
      destruct (Hrels rel) as [Hnone Hpl].
      { apply elem_of_app. left. by left. }
      destruct st as [lf cache0]. simpl in D, E1, Hnone.
      pose proof E1 as E1'.
      eapply uploadOrUpdateFile_dirs in E1' as (evs1 & X1 & D1); [|done..].
      eapply (uploadOrUpdateFile_inv root s0 n0 rf) in E1;
        [|done..|by apply plain_path_canonical|done].
      eapply IH in E as (evs2 & X2 & D2); [|done|done|done|].
      * exists (evs1 ++ evs2). split; [by eapply extends_trans|].
        by rewrite app_assoc.
      * intros rel' Hin. simpl. destruct (Hrels rel') as [Hn' Hc'].
        { apply elem_of_app. by right. }
        split; [|done]. rewrite lookup_insert_ne; [done|].
        intros ->. eapply Hdisj; [|done]. by left.
Qed.

End Run.
End Folders.

Section FoldersRun.
Context `{Platform}.

Lemma cache_entry_unique (c : list (string * Id)) k id id' :
  NoDup (c.*1) → (k, id) ∈ c → (k, id') ∈ c → id = id'.
Proof.
  induction c as [|[k0 i0] c IH]; simpl; intros ND H1 H2.
  { by apply elem_of_nil in H1. }
  apply NoDup_cons in ND as [Hk ND].
  apply elem_of_cons in H1 as [E1|H1];
    apply elem_of_cons in H2 as [E2|H2].
  - congruence.
  - inversion E1; subst. destruct Hk. apply list_elem_of_fmap.
    by exists (k0, id').
  - inversion E2; subst. destruct Hk. apply list_elem_of_fmap.
    by exists (k0, id).
  - by apply IH.
Qed.

Lemma quiet_makes_none evs :
  Forall (λ e, is_folder_lookup e = false ∧ is_folder_create e = false) evs →
  Forall (λ e, is_folder_made e = false) evs.
Proof.
  intros F. eapply Forall_impl; [done|].
  intros [[| ? ? ? [?|] | |] []|] [_ ?]; done.
Qed.

(** What holds of the cache when the walk of a run is over. *)
Lemma walk_dirs_inv fuel localDir root w w1 rf w2 st :
  wf_drive root (store w) (next_id w) →
  plain_walk (walk_script localDir w) →
  fetchRemoteFiles fuel root "" ∅ w = (w1, Ok rf) →
  filepath_Walk localDir (walkFn root rf) (∅, []) w1 = (w2, Ok st) →
  extends w w2 (new_events w w2) ∧
  walk_inv root (store w) (next_id w) rf (store w2) (next_id w2) st ∧
  dirs_inv (next_id w) (store w2) (st.2) (new_events w w2).
Proof.
  intros Hwf [ND Hpl] E1 E2.
  pose proof E1 as [Hs1 Hn1]%keeps_store_fetch_from.
  pose proof E1 as (evs1 & X1 & F1)%quiet_fetchRemoteFiles.
  assert (Hw1 : walks w1 = walks w) by by destruct X1 as (_ & _ & _ & _ & ? & _).
  assert (Hsound : ∀ p f, rf !! p = Some f → remote_file (store w) root p f).
  { intros p f. by eapply fetchRemoteFiles_sound. }
  assert (Hcomplete : ∀ p f, remote_file (store w) root p f → is_Some (rf !! p)).
  { intros p f. by eapply fetchRemoteFiles_complete. }
  assert (I0 : walk_inv root (store w) (next_id w) rf
                 (store (log (WalkDir localDir) w1))
                 (next_id (log (WalkDir localDir) w1)) (∅, [])).
  { simpl. rewrite Hs1, Hn1. by apply walk_inv_init. }
  assert (Hrels : ∀ rel, rel ∈ file_rels (walk_script localDir w1) →
            (∅ : gmap string string) !! rel = None ∧ plain_path rel).
  { intros rel Hrel. split; [apply lookup_empty|].
    unfold walk_script in *. rewrite Hw1 in Hrel.
    by eapply Forall_forall in Hpl. }
  assert (ND1 : NoDup (file_rels (walk_script localDir w1))).
  { unfold walk_script in *. by rewrite Hw1. }
  unfold filepath_Walk in E2.
  assert (X0 : extends w (log (WalkDir localDir) w1) (evs1 ++ [WalkDir localDir])).
  { eapply extends_trans; [done|]. by apply extends_log. }
  assert (D0 : dirs_inv (next_id w) (store (log (WalkDir localDir) w1)) []
                 ([] ++ (evs1 ++ [WalkDir localDir]))).
  { eapply dirs_inv_more; [by apply (dirs_inv_init root)| |].
    - simpl. rewrite Hs1. intros d Hd Hf. by exists d.
    - apply Forall_app. split; [by apply quiet_makes_none|].
      by repeat constructor. }
  simpl in D0.
  pose proof E2 as E2'.
  eapply (walk_visits_dirs root (store w) (next_id w) rf Hwf Hsound Hcomplete)
    in E2' as (evs2 & X2 & D2); [|done..].
  eapply (walk_visits_inv root (store w) (next_id w) rf Hwf Hsound Hcomplete)
    in E2; [|done|done|].
  2:{ intros rel Hrel. destruct (Hrels rel Hrel).
      split; [done|]. by apply plain_path_canonical. }
  pose proof (extends_trans _ _ _ _ _ X0 X2) as X.
  rewrite (extends_new_events _ _ _ X). done.
Qed.

(** C3.  In one run of [syncFiles] there are at most as many folder
    creations as folder lookups, and at most as many folder lookups as the
    files visited have distinct ancestor directory paths, however many
    files share an ancestor.  When the walk goes through, no directory
    path was written to the folder cache twice, the folder lookups of the
    run are as many as the cache has entries, one per directory path
    resolved, and every ancestor directory of a file that was uploaded is
    in the cache.  On a well-formed Drive and a walk of plain names, the
    run made as many folders as the cache has entries with a new id, and
    every ancestor directory of an uploaded file is, after the walk, a
    folder of the Drive at that path with the id of its cache entry; when
    the Drive had no folder at that path before the run, this folder is
    one the run made, and the only folder at that path: it was made once,
    however many files are below it. *)
Theorem folders_resolved_once fuel localDir root w w' r :
  syncFiles fuel localDir root w = (w', r) →
  folder_creates (new_events w w') ≤ folder_lookups (new_events w w') ∧
  folder_lookups (new_events w w')
    ≤ size (walk_dirs (walk_script localDir w)) ∧
  ∀ w1 rf w2 st,
    fetchRemoteFiles fuel root "" ∅ w = (w1, Ok rf) →
    filepath_Walk localDir (walkFn root rf) (∅, []) w1 = (w2, Ok st) →
    NoDup (st.2.*1) ∧
    folder_lookups (new_events w w') = length (st.2) ∧
    (∀ rel k, rel ∈ file_rels (walk_script localDir w) → rf !! rel = None →
              k ∈ dir_keys rel → k ∈ st.2.*1) ∧
    (wf_drive root (store w) (next_id w) →
     plain_walk (walk_script localDir w) →
     folders_made (new_events w w')
       = length (filter (λ kid, next_id w ≤ kid.2) (st.2)) ∧
     ∀ rel k, rel ∈ file_rels (walk_script localDir w) → rf !! rel = None →
              k ∈ dir_keys rel →
       ∃ id, (k, id) ∈ st.2 ∧ reach (store w2) root "" id k ∧
             ((∀ id0, ¬ reach (store w) root "" id0 k) →
              next_id w ≤ id ∧
              ∀ id', reach (store w2) root "" id' k → id' = id)).
Proof.
  intros E. pose proof (folders_counted _ _ _ _ _ _ E) as (H1 & H2 & H3).
  split; [done|]. split; [done|]. intros w1 rf w2 st E1 E2.
  destruct (H3 _ _ _ _ E1 E2) as (ND & HL & Hkeys).
  split; [done|]. split; [done|]. split; [done|].
  intros Hwf Hpl.
  destruct (walk_dirs_inv _ _ _ _ _ _ _ _ Hwf Hpl E1 E2) as (X & I & D).
  apply syncFiles_inv in E
    as [(r0 & E & Hr0 & _)|(w1' & rf' & E1' & [(r1 & E & Hr1 & _)|(w2' & st' & E2' & E)])].
  { rewrite E1 in E. inversion E; subst. by destruct (Hr0 rf). }
  { rewrite E1 in E1'. inversion E1'; subst. rewrite E2 in E.
    inversion E; subst. by destruct (Hr1 st). }
  rewrite E1 in E1'. inversion E1'; subst w1' rf'.
  rewrite E2 in E2'. inversion E2'; subst w2' st'.
  apply quiet_deleteRemoteFiles in E as (evs3 & X3 & F3).
  split.
  { rewrite (extends_new_events _ _ _ (extends_trans _ _ _ _ _ X X3)).
    rewrite folders_made_app, (folders_made_none evs3), Nat.add_0_r.
    - by eapply dirs_made.
    - by apply quiet_makes_none. }
  intros rel k Hrel Hrf Hk.
  pose proof (Hkeys _ _ Hrel Hrf Hk) as Hin.
  pose proof Hin as ([k' id] & Hk' & Hin')%list_elem_of_fmap.
  simpl in Hk'. subst k'. exists id. split; [done|].
  destruct (dirs_keys _ _ _ _ D k Hin) as (parts & Hne & Hplain & Hkp).
  assert (Hpath : key_path k = k) by (subst k; by apply plain_key).
  pose proof (inv_cache _ _ _ _ _ _ _ I _ _ Hin') as R. rewrite Hpath in R.
  split; [done|]. intros Habsent.
  assert (Hnew : ∀ id', reach (store w2) root "" id' k → next_id w ≤ id').
  { intros id' R'. destruct (decide (next_id w ≤ id')) as [|Hold]; [done|].
    destruct (Habsent id'). eapply reach_old; [done| |done|lia].
    apply (inv_old _ _ _ _ _ _ _ I). }
  split; [by apply Hnew|]. intros id' R'.
  pose proof (Hnew _ R') as Hid'.
  assert (Hc : id' ∈ st.2.*2).
  { inversion R' as [Hroot Hq|pid q d Rp Hd Hf Hid Hq].
    - destruct (plain_key_nonempty parts Hne Hplain). congruence.
    - apply elem_of_children in Hd as [Hd _].
      eapply dirs_new; [done..|]. by rewrite Hid. }
  apply list_elem_of_fmap in Hc as ([k' i'] & Hi' & Hc). simpl in Hi'. subst i'.
  pose proof (inv_cache _ _ _ _ _ _ _ I _ _ Hc) as R2. simpl in R2.
  destruct (dirs_keys _ _ _ _ D k') as (parts' & Hne' & Hplain' & Hkp').
  { apply list_elem_of_fmap. by exists (k', id'). }
  assert (Hpath' : key_path k' = k') by (subst k'; by apply plain_key).
  rewrite Hpath' in R2.
  destruct (inv_wf _ _ _ _ _ _ _ I) as (NDs & _ & _ & Hroot).
  pose proof (reach_functional _ _ _ _ _ _ NDs Hroot R' R2) as Heq.
  rewrite <- Heq in Hc. by eapply cache_entry_unique.
Qed.

End FoldersRun.


(** ** Goroutines *)

Section Conc.
Context `{Platform}.

Lemma run_atom {A} (a : M A) w : run (Steps.atom a) w = a w.
Proof. simpl. by destruct (a w). Qed.

Lemma run_bind {A B} (p : prog A) (k : A → prog B) w :
  run (Steps.bind p k) w = bind (run p) (λ x, run (k x)) w.
Proof.
  revert w. induction p as [[a|e|]|X a k1 IH]; intros w; try done.
  simpl. unfold bind in *. simpl. destruct (a w) as [w1 r]. apply IH.
Qed.

Lemma run_wrap {A} msg (p : prog A) w :
  run (Steps.wrap msg p) w = wrap msg (run p) w.
Proof.
  revert w. induction p as [[a|e|]|X a k1 IH]; intros w; try done.
  simpl. unfold wrap in *. simpl. destruct (a w) as [w1 r]. apply IH.
Qed.

Lemma run_catch {A} (p : prog A) w :
  run (Steps.catch p) w = catch (run p) w.
Proof.
  revert w. induction p as [[a|e|]|X a k1 IH]; intros w; try done.
  simpl. unfold catch in *. simpl. destruct (a w) as [w1 r]. apply IH.
Qed.

Lemma bind_ext {A B} (m m' : M A) (k k' : A → M B) w :
  (∀ w, m w = m' w) → (∀ x w, k x w = k' x w) → bind m k w = bind m' k' w.
Proof.
  intros Hm Hk. unfold bind. rewrite Hm. by destruct (m' w) as [w1 [x|e|]].
Qed.

Lemma wrap_ext {A} msg (m m' : M A) w :
  (∀ w, m w = m' w) → wrap msg m w = wrap msg m' w.
Proof. intros Hm. unfold wrap. by rewrite Hm. Qed.

Ltac run_simpl :=
  repeat first
    [ rewrite run_bind | rewrite run_wrap | rewrite run_catch
    | apply bind_ext; intros | apply wrap_ext; intros
    | progress unfold Steps.printf, Steps.Files_List, Steps.Files_Create,
        Steps.Files_Update, Steps.Files_Delete, Steps.os_Open
    | rewrite run_atom | reflexivity ].

Lemma run_scan_page recur recur' path files rf w :
  (∀ id p rf w, run (recur id p rf) w = recur' id p rf w) →
  run (Steps.scan_page recur path files rf) w
  = scan_page recur' path files rf w.
Proof.
  intros Hr. revert rf w. induction files as [|f files IH]; intros rf w; [done|].
  cbn [Steps.scan_page scan_page]. destruct (decide (isFolder f)); [|apply IH]. rewrite run_bind.
  apply bind_ext; [apply Hr|intros; apply IH].
Qed.

Lemma run_fetch_from fuel parentID path tok rf w :
  run (Steps.fetch_from fuel parentID path tok rf) w
  = fetch_from fuel parentID path tok rf w.
Proof.
  revert parentID path tok rf w.
  induction fuel as [|k IH]; intros parentID path tok rf w; [done|].
  cbn [Steps.fetch_from fetch_from]. rewrite run_bind. apply bind_ext; [intros; run_simpl|].
  intros [files next] w1. rewrite run_bind. apply bind_ext.
  - intros w2. by apply run_scan_page.
  - intros rf1 w2. destruct (decide (next = 0)); [done|apply IH].
Qed.

Lemma run_computeMD5 filePath w :
  run (Steps.computeMD5 filePath) w = computeMD5 filePath w.
Proof.
  unfold Steps.computeMD5, computeMD5. run_simpl. by destruct x.
Qed.

Lemma run_updateFile filePath id w :
  run (Steps.updateFile filePath id) w = updateFile filePath id w.
Proof. unfold Steps.updateFile, updateFile. run_simpl. Qed.

Lemma run_createOrGetFolder name pid w :
  run (Steps.createOrGetFolder name pid) w = createOrGetFolder name pid w.
Proof.
  unfold Steps.createOrGetFolder, createOrGetFolder. run_simpl.
  destruct x as [[|f files] next]; run_simpl.
Qed.

Lemma run_resolve_parts parts i todo pid cache w :
  run (Steps.resolve_parts parts i todo pid cache) w
  = resolve_parts parts i todo pid cache w.
Proof.
  revert i pid cache w. induction todo as [|part rest IH]; intros; [done|].
  cbn [Steps.resolve_parts resolve_parts]. destruct (cache_lookup _ _); [apply IH|].
  rewrite run_bind. apply bind_ext; [|intros; apply IH].
  intros. rewrite run_wrap. apply wrap_ext. apply run_createOrGetFolder.
Qed.

Lemma run_uploadFile filePath rel pid cache w :
  run (Steps.uploadFile filePath rel pid cache) w
  = uploadFile filePath rel pid cache w.
Proof.
  unfold Steps.uploadFile, uploadFile. rewrite run_bind.
  apply bind_ext; [apply run_resolve_parts|]. intros [pid' cache'] w1.
  run_simpl.
Qed.

Lemma run_uploadOrUpdateFile filePath rel h rf pid cache w :
  run (Steps.uploadOrUpdateFile filePath rel h rf pid cache) w
  = uploadOrUpdateFile filePath rel h rf pid cache w.
Proof.
  unfold Steps.uploadOrUpdateFile, uploadOrUpdateFile.
  destruct (rf !! rel) as [f|]; [destruct (decide (Md5Checksum f = h))|];
    run_simpl.
  - apply run_updateFile.
  - apply run_uploadFile.
Qed.

Lemma run_delete_loop localFiles items w :
  run (Steps.delete_loop localFiles items) w = delete_loop localFiles items w.
Proof.
  revert w. induction items as [|[p f] items IH]; intros w; [done|].
  cbn [Steps.delete_loop delete_loop]. destruct (localFiles !! p); [apply IH|]. run_simpl. apply IH.
Qed.

Lemma run_walkFn root rf st v w :
  run (Steps.walkFn root rf st v) w = walkFn root rf st v w.
Proof.
  unfold Steps.walkFn, walkFn. destruct (v_err v); [done|].
  destruct (v_isDir v); [done|]. run_simpl.
  - by destruct (v_rel v).
  - apply run_computeMD5.
  - apply run_uploadOrUpdateFile.
Qed.

Lemma run_walk_visits fn fn' st visits w :
  (∀ st v w, run (fn st v) w = fn' st v w) →
  run (Steps.walk_visits fn st visits) w = walk_visits fn' st visits w.
Proof.
  intros Hfn. revert st w. induction visits as [|v rest IH]; intros; [done|].
  cbn [Steps.walk_visits walk_visits]. rewrite run_bind. apply bind_ext; [apply Hfn|intros; apply IH].
Qed.

(** Run on its own, the program of a goroutine is [syncFiles]. *)
Lemma run_syncFiles fuel localDir root w :
  run (Steps.syncFiles fuel localDir root) w = syncFiles fuel localDir root w.
Proof.
  unfold Steps.syncFiles, syncFiles. rewrite run_bind. apply bind_ext.
  { intros. rewrite run_wrap. apply wrap_ext. intros. apply run_fetch_from. }
  intros rf w1. rewrite run_bind. apply bind_ext.
  - intros w2. unfold Steps.filepath_Walk, filepath_Walk. simpl.
    apply run_walk_visits. apply run_walkFn.
  - intros st w2. rewrite run_wrap. apply wrap_ext. intros.
    apply run_delete_loop.
Qed.

End Conc.

Section Pool.
Context `{Platform}.

Lemma interleave_app s1 s2 c :
  interleave (s1 ++ s2) c = interleave s2 (interleave s1 c).
Proof. apply foldl_app. Qed.

Lemma interleave_snoc s i c :
  interleave (s ++ [i]) c = step i (interleave s c).
Proof. by rewrite interleave_app. Qed.

Lemma step_length i c : length (step i c).2 = length c.2.
Proof.
  unfold step. destruct (c.2 !! i) as [[r|X a k]|]; [done| |done].
  destruct (a c.1). simpl. apply length_insert.
Qed.

Lemma interleave_length s c : length (interleave s c).2 = length c.2.
Proof.
  induction s as [|i s IH] using rev_ind; [done|].
  by rewrite interleave_snoc, step_length.
Qed.

(** A step of one goroutine leaves the others where they are. *)
Lemma step_other i j c : i ≠ j → (step i c).2 !! j = c.2 !! j.
Proof.
  intros Hij. unfold step. destruct (c.2 !! i) as [[r|X a k]|]; [done| |done].
  destruct (a c.1). simpl. by apply list_lookup_insert_ne.
Qed.

(** A goroutine that has made its last call stays as it is. *)
Lemma step_done i j c r :
  c.2 !! j = Some (Done r) → (step i c).2 !! j = Some (Done r).
Proof.
  intros Hj. destruct (decide (i = j)) as [->|Hij].
  - unfold step. by rewrite Hj.
  - by rewrite step_other.
Qed.

Lemma interleave_done s j c r :
  c.2 !! j = Some (Done r) → (interleave s c).2 !! j = Some (Done r).
Proof.
  intros Hj. induction s as [|i s IH] using rev_ind; [done|].
  rewrite interleave_snoc. by apply step_done.
Qed.

(** The step of a goroutine that has a call left. *)
Lemma step_call {X} i c (a : M X) k :
  c.2 !! i = Some (Atomic a k) →
  step i c = ((a c.1).1, <[i := k (a c.1).2]> c.2).
Proof. intros Hi. unfold step. rewrite Hi. by destruct (a c.1). Qed.

Lemma reaches_refl {A} (p : prog A) : reaches p p.
Proof. destruct p; by left. Qed.

Lemma reaches_next {A X} (a : M X) (k : res X → prog A) w :
  reaches (Atomic a k) (k (a w).2).
Proof. right. exists w. apply reaches_refl. Qed.

Lemma reaches_trans {A} (p q q' : prog A) :
  reaches p q → reaches q q' → reaches p q'.
Proof.
  revert q q'. induction p as [r|X a k IH]; intros q q' [->|R] R'; try done.
  destruct R as [w R]. right. exists w. by eapply IH.
Qed.

Lemma step_reaches i j c p0 p p' :
  reaches p0 p → c.2 !! j = Some p → (step i c).2 !! j = Some p' →
  reaches p0 p'.
Proof.
  intros R Hj Hj'. destruct (decide (i = j)) as [->|Hij].
  2:{ rewrite step_other in Hj' by done. congruence. }
  destruct p as [r|X a k].
  { erewrite step_done in Hj' by done. congruence. }
  rewrite (step_call _ _ _ _ Hj) in Hj'. simpl in Hj'.
  rewrite list_lookup_insert_eq in Hj' by by eapply lookup_lt_Some.
  injection Hj' as <-. eapply reaches_trans; [done|apply reaches_next].
Qed.

(** Every goroutine is at a place it can get to from where it began. *)
Lemma interleave_reaches s c j p :
  (interleave s c).2 !! j = Some p →
  ∃ p0, c.2 !! j = Some p0 ∧ reaches p0 p.
Proof.
  revert p. induction s as [|i s IH] using rev_ind; intros p Hp.
  { exists p. split; [done|apply reaches_refl]. }
  rewrite interleave_snoc in Hp.
  destruct ((interleave s c).2 !! j) as [q|] eqn:Hq.
  2:{ apply lookup_lt_Some in Hp. rewrite step_length in Hp.
      apply lookup_ge_None in Hq. lia. }
  destruct (IH q eq_refl) as (p0 & Hp0 & R). exists p0. split; [done|].
  by eapply step_reaches.
Qed.

Lemma ends_in_reaches {A} (P : res A → Prop) (p q : prog A) :
  ends_in P p → reaches p q → ends_in P q.
Proof.
  revert q. induction p as [r|X a k IH]; intros q E [->|R]; try done.
  destruct R as [w R]. eapply IH; [|done]. apply E.
Qed.

End Pool.

Section Places.
Context `{Platform}.

Lemma ends_in_mono {A} (P Q : res A → Prop) (p : prog A) :
  (∀ r, P r → Q r) → ends_in P p → ends_in Q p.
Proof.
  intros HPQ. induction p as [r|X a k IH]; simpl; [apply HPQ|].
  intros E w. apply IH, E.
Qed.

Lemma ends_in_bind {A B} (P : res A → Prop) (Q : res B → Prop)
    (p : prog A) (f : A → prog B) :
  ends_in P p →
  (∀ x, P (Ok x) → ends_in Q (f x)) →
  (∀ e, P (Err e) → Q (Err e)) → (P Timeout → Q Timeout) →
  ends_in Q (Steps.bind p f).
Proof.
  intros E Hf He Ht. induction p as [[x|e|]|X a k IH]; simpl in *; auto.
Qed.

(** What is caught is no error any more. *)
Lemma ends_in_catch {A} (p : prog A) :
  ends_in (λ r, ∀ e, r ≠ Err e) (Steps.catch p).
Proof. induction p as [[x|e|]|X a k IH]; simpl; auto; done. Qed.

(** A goroutine does not end with an error. *)
Lemma goroutine_ends fuel mapping :
  ends_in (λ r, r = Ok tt ∨ r = Timeout) (Steps.goroutine fuel mapping).
Proof.
  destruct mapping as [localDir id]. unfold Steps.goroutine.
  eapply (ends_in_bind (λ r, r = Ok tt)); [by intros w| |done|done].
  intros _ _. eapply ends_in_bind; [apply ends_in_catch| | |by right].
  - intros [[]|e] _; simpl; [by left|]. intros w. by left.
  - intros e He. by destruct (He e).
Qed.

Lemma reaches_bind {A B} (p : prog A) (f : A → prog B) q' :
  reaches (Steps.bind p f) q' →
  (∃ q, reaches p q ∧ q' = Steps.bind q f) ∨
  (∃ x, reaches p (Done (Ok x)) ∧ reaches (f x) q').
Proof.
  induction p as [[x|e|]|X a k IH]; simpl.
  - intros R. right. exists x. split; [by left|done].
  - intros [->|[]]. left. exists (Done (Err e)). split; [by left|done].
  - intros [->|[]]. left. exists (Done Timeout). split; [by left|done].
  - intros [->|[w R]].
    + left. exists (Atomic a k). split; [by left|done].
    + destruct (IH _ R) as [(q & Rq & ->)|(x & Rx & Rf)].
      * left. exists q. split; [|done]. right. by exists w.
      * right. exists x. split; [|done]. right. by exists w.
Qed.

Lemma reaches_catch {A} (p : prog A) q' :
  reaches (Steps.catch p) q' → ∃ q, reaches p q ∧ q' = Steps.catch q.
Proof.
  induction p as [[x|e|]|X a k IH]; simpl.
  - intros [->|[]]. exists (Done (Ok x)). split; [by left|done].
  - intros [->|[]]. exists (Done (Err e)). split; [by left|done].
  - intros [->|[]]. exists (Done Timeout). split; [by left|done].
  - intros [->|[w R]].
    + exists (Atomic a k). split; [by left|done].
    + destruct (IH _ R) as (q & Rq & ->). exists q. split; [|done].
      right. by exists w.
Qed.

(** Where a goroutine can be: at its start, in its [syncFiles], or at its
    end. *)
Lemma goroutine_places fuel localDir id p :
  reaches (Steps.goroutine fuel (localDir, id)) p →
  p = Steps.goroutine fuel (localDir, id) ∨
  (∃ q, reaches (Steps.syncFiles fuel localDir id) q ∧
        p = Steps.bind (Steps.catch q) (Steps.report localDir)) ∨
  p = Done (Ok tt).
Proof.
  intros [->|[w R]]; [by left|]. right. simpl in R.
  apply reaches_bind in R as [(q' & R & ->)|(x & R & Rx)].
  - left. apply reaches_catch in R as (q & R & ->). by exists q.
  - apply reaches_catch in R as (q & R & Hq).
    destruct x as [[]|e]; simpl in Rx.
    + right. by destruct Rx as [->|[]].
    + destruct Rx as [->|[w' [->|[]]]]; [|by right].
      left. exists q. split; [done|].
      destruct q as [[x|e'|]|]; simpl in Hq; try done.
      by injection Hq as ->.
Qed.

End Places.

Section Fair.
Context `{Platform}.
Variables (σ : nat → nat) (c : world * list (prog unit)).
Hypothesis Hfair : fair (length c.2) σ.

Lemma sched_S n : σ <$> seq 0 (S n) = (σ <$> seq 0 n) ++ [σ n].
Proof. by rewrite seq_S, fmap_app. Qed.

Lemma sched_le n m :
  n ≤ m → ∃ s, σ <$> seq 0 m = (σ <$> seq 0 n) ++ s.
Proof.
  intros Hle. exists (σ <$> seq n (m - n)).
  rewrite <- fmap_app. f_equal. replace m with (n + (m - n)) at 1 by lia.
  apply seq_app.
Qed.

Lemma done_stays n m i r :
  n ≤ m →
  (interleave (σ <$> seq 0 n) c).2 !! i = Some (Done r) →
  (interleave (σ <$> seq 0 m) c).2 !! i = Some (Done r).
Proof.
  intros Hle Hn. destruct (sched_le n m Hle) as [s ->].
  rewrite interleave_app. by apply interleave_done.
Qed.

Lemma next_call {X} n m0 i (a : M X) k :
  n ≤ m0 → σ m0 = i →
  (interleave (σ <$> seq 0 n) c).2 !! i = Some (Atomic a k) →
  ∃ m r, n < m ∧ (interleave (σ <$> seq 0 m) c).2 !! i = Some (k r).
Proof.
  intros Hle Hm0. remember (m0 - n) as d eqn:Hd.
  revert n Hle Hd. induction d as [|d IH]; intros n Hle Hd Hi.
  - assert (m0 = n) as -> by lia. exists (S n). eexists. split; [lia|].
    rewrite sched_S, interleave_snoc, Hm0, (step_call _ _ _ _ Hi). simpl.
    apply list_lookup_insert_eq. by eapply lookup_lt_Some.
  - destruct (decide (σ n = i)) as [Hn|Hn].
    + exists (S n). eexists. split; [lia|].
      rewrite sched_S, interleave_snoc, Hn, (step_call _ _ _ _ Hi). simpl.
      apply list_lookup_insert_eq. by eapply lookup_lt_Some.
    + destruct (IH (S n)) as (m & r & Hlt & Hm); [lia|lia| |].
      * rewrite sched_S, interleave_snoc. by rewrite step_other.
      * exists m, r. split; [lia|done].
Qed.

(** Under a fair schedule every goroutine makes its last call. *)
Lemma goroutine_finishes n i p :
  (interleave (σ <$> seq 0 n) c).2 !! i = Some p →
  ∃ m r, n ≤ m ∧ (interleave (σ <$> seq 0 m) c).2 !! i = Some (Done r).
Proof.
  revert n. induction p as [r|X a k IH]; intros n Hp.
  { by exists n, r. }
  assert (Hi : i < length c.2).
  { apply lookup_lt_Some in Hp. by rewrite interleave_length in Hp. }
  destruct (Hfair i n Hi) as (m0 & Hle & Hm0).
  destruct (next_call n m0 i a k Hle Hm0 Hp) as (m & r & Hlt & Hm).
  destruct (IH r m Hm) as (m' & r' & Hle' & Hm').
  exists m', r'. split; [lia|done].
Qed.

Lemma goroutines_finish_upto j :
  j ≤ length c.2 →
  ∃ n, ∀ i, i < j →
    ∃ r, (interleave (σ <$> seq 0 n) c).2 !! i = Some (Done r).
Proof.
  induction j as [|j IH]; intros Hj.
  { exists 0. intros i Hi. lia. }
  destruct IH as [n Hn]; [lia|].
  destruct ((interleave (σ <$> seq 0 n) c).2 !! j) as [p|] eqn:Hp.
  2:{ apply lookup_ge_None in Hp. rewrite interleave_length in Hp. lia. }
  destruct (goroutine_finishes n j p Hp) as (m & r & Hle & Hm).
  exists m. intros i Hi. destruct (decide (i = j)) as [->|Hne]; [by exists r|].
  destruct (Hn i) as [r' Hr']; [lia|]. exists r'. by eapply done_stays.
Qed.

(** Under a fair schedule there is a time by which all goroutines have
    made their last call. *)
Lemma goroutines_finish :
  ∃ n, ∀ m, n ≤ m →
    Forall (λ p, ∃ r, p = Done r) (interleave (σ <$> seq 0 m) c).2.
Proof.
  destruct (goroutines_finish_upto (length c.2)) as [n Hn]; [done|].
  exists n. intros m Hle. apply Forall_lookup. intros i p Hp.
  assert (Hi : i < length c.2).
  { apply lookup_lt_Some in Hp. by rewrite interleave_length in Hp. }
  destruct (Hn i Hi) as [r Hr]. exists r.
  rewrite (done_stays n m i r Hle Hr) in Hp. congruence.
Qed.

End Fair.

(** ** Fuel for goroutines *)

Section BudgetProofs.
Context `{Platform} {budget : Budget}.

Lemma good_weaken {A} (post : nat → nat → A → Prop) lo c p lo' c' :
  monotone post → good post lo c p → lo ≤ lo' → c ≤ c' → good post lo' c' p.
Proof.
  intros Hm. revert lo c lo' c'.
  induction p as [[x|e|]|X a k IH]; intros lo c lo' c' G Hlo Hc; simpl in *;
    [by eapply Hm|done|done|].
  intros w Hw Hlo' Hn Hl.
  destruct (G w Hw) as (Hw1 & Hn1 & c1 & Hc1 & Hl1 & G1); [lia..|].
  split; [done|]. split; [done|]. exists (c1 + (c' - c)).
  split; [lia|]. split; [lia|]. eapply IH; [done|lia|lia].
Qed.

Lemma good_mono {A} (post post' : nat → nat → A → Prop) lo c p :
  (∀ lo c x, post lo c x → post' lo c x) →
  good post lo c p → good post' lo c p.
Proof.
  intros Hpq. revert lo c.
  induction p as [[x|e|]|X a k IH]; intros lo c G; simpl in *; auto.
  intros w Hw Hlo Hn Hl.
  destruct (G w Hw Hlo Hn Hl) as (Hw1 & Hn1 & c1 & Hc1 & Hl1 & G1).
  split; [done|]. split; [done|]. exists c1. auto.
Qed.

(** The next id and the budget at the end are no less and no more than
    at the start. *)
Lemma good_within {A} (post : nat → nat → A → Prop) lo0 lo c p :
  lo0 ≤ lo →
  good post lo c p →
  good (λ lo' c' x, lo0 ≤ lo' ∧ post lo' c' x) lo c p.
Proof.
  revert lo c. induction p as [[x|e|]|X a k IH]; intros lo c Hlo G;
    simpl in *; auto.
  intros w Hw Hlo' Hn Hl.
  destruct (G w Hw Hlo' Hn Hl) as (Hw1 & Hn1 & c1 & Hc1 & Hl1 & G1).
  split; [done|]. split; [done|]. exists c1.
  split; [done|]. split; [done|]. apply IH; [lia|done].
Qed.

Lemma good_bind {A B} (post : nat → nat → A → Prop)
    (post2 : nat → nat → B → Prop) lo c p (f : A → prog B) :
  good post lo c p →
  (∀ lo' c' x, post lo' c' x → good post2 lo' c' (f x)) →
  good post2 lo c (Steps.bind p f).
Proof.
  intros G Hf. revert lo c G.
  induction p as [[x|e|]|X a k IH]; intros lo c G; simpl in *; auto.
  intros w Hw Hlo Hn Hl.
  destruct (G w Hw Hlo Hn Hl) as (Hw1 & Hn1 & c1 & Hc1 & Hl1 & G1).
  split; [done|]. split; [done|]. exists c1. auto.
Qed.

Lemma good_wrap {A} (post : nat → nat → A → Prop) lo c msg p :
  good post lo c p → good post lo c (Steps.wrap msg p).
Proof.
  revert lo c. induction p as [[x|e|]|X a k IH]; intros lo c G;
    simpl in *; auto.
  intros w Hw Hlo Hn Hl.
  destruct (G w Hw Hlo Hn Hl) as (Hw1 & Hn1 & c1 & Hc1 & Hl1 & G1).
  split; [done|]. split; [done|]. exists c1. auto.
Qed.

Lemma good_catch {A} (post : nat → nat → A → Prop) lo c p :
  good post lo c p →
  good (λ lo' c' r, match r with Good x => post lo' c' x | Bad _ => True end)
       lo c (Steps.catch p).
Proof.
  revert lo c. induction p as [[x|e|]|X a k IH]; intros lo c G;
    simpl in *; auto.
  intros w Hw Hlo Hn Hl.
  destruct (G w Hw Hlo Hn Hl) as (Hw1 & Hn1 & c1 & Hc1 & Hl1 & G1).
  split; [done|]. split; [done|]. exists c1. auto.
Qed.

(** A call that leaves the Drive as it is. *)
Lemma good_read {A} (post : nat → nat → A → Prop) lo c (a : M A) :
  (∀ w, steady w → lo ≤ next_id w → length (store w) + c ≤ start_len + max_new →
        store (a w).1 = store w ∧ next_id (a w).1 = next_id w ∧
        walks (a w).1 = walks w ∧ (a w).2 ≠ Timeout ∧
        ∀ x, (a w).2 = Ok x → post (next_id w) c x) →
  good post lo c (Steps.atom a).
Proof.
  intros Ha w Hw Hlo Hn Hl.
  destruct (Ha w Hw Hlo Hl) as (Hs & Hi & Hk & Ht & Hp).
  destruct Hw as (W1 & W2 & W3 & W4).
  split. { unfold steady. rewrite Hs, Hi, Hk. done. }
  split; [lia|]. exists c. rewrite Hs, Hi. split; [done|]. split; [done|].
  simpl. destruct (a w).2 as [x|e|]; [by apply Hp|done|done].
Qed.

Lemma good_printf {A} (post : nat → nat → A → Prop) lo c line (p : prog A) :
  (∀ lo', lo ≤ lo' → good post lo' c p) →
  good post lo c (Steps.bind (Steps.printf line) (λ _, p)).
Proof.
  intros Hp. eapply good_bind.
  - apply (good_read (λ lo' c' _, lo ≤ lo' ∧ c' = c)). intros w Hw Hlo Hl.
    simpl. done.
  - intros lo' c' _ [Hlo ->]. by apply Hp.
Qed.

End BudgetProofs.

Section BudgetCalls.
Context `{Platform} {budget : Budget}.

Lemma good_atom {A} (post : nat → nat → A → Prop) lo c (a : M A) :
  (∀ w, steady w → lo ≤ next_id w →
        next_id w + c ≤ start_id + max_new →
        length (store w) + c ≤ start_len + max_new →
        steady (a w).1 ∧ next_id w ≤ next_id (a w).1 ∧ (a w).2 ≠ Timeout ∧
        ∃ c', next_id (a w).1 + c' ≤ next_id w + c ∧
              length (store (a w).1) + c' ≤ length (store w) + c ∧
              ∀ x, (a w).2 = Ok x → post (next_id (a w).1) c' x) →
  good post lo c (Steps.atom a).
Proof.
  intros Ha w Hw Hlo Hn Hl.
  destruct (Ha w Hw Hlo Hn Hl) as (Hw1 & Hn1 & Ht & c' & Hc & Hl1 & Hp).
  split; [done|]. split; [done|]. exists c'. split; [done|]. split; [done|].
  simpl. destruct (a w).2 as [x|e|]; [by apply Hp|done|done].
Qed.

Lemma steady_log e w : steady w → steady (log e w).
Proof. done. Qed.

Lemma steady_print line w : steady w → steady (print line w).
Proof. done. Qed.

(** A listing of the children of a folder: the folders among them are
    below it, and the token of the next page is further on and within
    the objects there can be. *)
Lemma good_list_children parent tok lo c :
  good (λ lo' c' '(files, next),
          lo ≤ lo' ∧ c' = c ∧
          (∀ f, f ∈ files → isFolder f →
                run_rank (FId f) < run_rank parent) ∧
          (next = 0 ∨ tok < next ≤ start_len + max_new))
       lo c (Steps.Files_List (InParents parent) tok).
Proof.
  apply good_read. intros w Hw Hlo Hl. unfold Files_List.
  destruct (api_fails w); [done|]. cbn [fst snd query_ok].
  split; [done|]. split; [done|]. split; [done|]. split; [done|].
  intros [files next] [= <- <-]. split; [done|]. split; [done|]. split.
  - intros f Hf Hd.
    assert (Hf' : f ∈ filter (matches (InParents parent)) (store w))
      by by eapply subseteq_drop, subseteq_take.
    apply list_elem_of_filter in Hf' as [[Hp _] Hf'].
    destruct Hw as (Hr & _). rewrite <- Hp. by apply Hr.
  - case_decide as Hlt; [|by left]. right.
    pose proof (length_filter (matches (InParents parent)) (store w)).
    unfold page_len in *. lia.
Qed.

(** A lookup of a folder: what it finds is there. *)
Lemma good_list_folder name parent lo c :
  good (λ lo' c' '(files, next),
          lo ≤ lo' ∧ c' = c ∧ ∀ f, f ∈ files → FId f < lo')
       lo c (Steps.Files_List (FolderNamed name parent) 0).
Proof.
  apply good_read. intros w Hw Hlo Hl. unfold Files_List.
  destruct (api_fails w); [done|]. destruct (query_ok _); [|done].
  cbn [fst snd].
  split; [done|]. split; [done|]. split; [done|]. split; [done|].
  intros [files next] [= <- <-]. split; [done|]. split; [done|].
  intros f Hf.
  assert (Hf' : f ∈ filter (matches (FolderNamed name parent)) (store w))
    by by eapply subseteq_drop, subseteq_take.
  apply list_elem_of_filter in Hf' as [_ Hf'].
  destruct Hw as (_ & Hid & _). by apply Hid.
Qed.

Lemma steady_append w f :
  steady w → FId f = next_id w →
  (isFolder f → run_rank (FId f) < run_rank (Parent f)) →
  steady (set_store (store w ++ [f]) (S (next_id w)) w).
Proof.
  intros (Hr & Hid & Hn & Hk) Hf Hrank. split; [|split; [|split]]; simpl.
  - intros d [Hd|Hd%list_elem_of_singleton]%elem_of_app Hdir.
    + by apply Hr.
    + subst d. by apply Hrank.
  - intros d [Hd|Hd%list_elem_of_singleton]%elem_of_app.
    + specialize (Hid d Hd). lia.
    + subst d. lia.
  - lia.
  - done.
Qed.

(** The creation of a folder in a folder that is there. *)
Lemma good_create_folder name parent lo c :
  parent < lo →
  good (λ lo' c' f, lo ≤ lo' ∧ c' = c ∧ FId f < lo')
       lo (S c) (Steps.Files_Create name folderMime parent None).
Proof.
  intros Hp. apply good_atom. intros w Hw Hlo Hn Hl. unfold Files_Create.
  destruct (_ || _); simpl.
  { split; [done|]. split; [done|]. split; [done|]. exists c.
    split; [lia|]. split; [lia|]. done. }
  split.
  { apply steady_append; [done|done|]. simpl. intros _.
    destruct Hw as (_ & _ & Hge & _). unfold run_rank.
    rewrite (decide_False (P := next_id w < start_id)) by lia.
    case_decide; lia. }
  split; [lia|]. split; [done|]. exists c.
  split; [lia|]. split; [rewrite length_app; simpl; lia|].
  intros f [= <-]. simpl. split; [lia|]. split; [done|]. lia.
Qed.

(** The creation of a file. *)
Lemma good_create_file name parent file lo c :
  good (λ lo' c' _, lo ≤ lo' ∧ c' = c)
       lo (S c) (Steps.Files_Create name "" parent (Some file)).
Proof.
  apply good_atom. intros w Hw Hlo Hn Hl. unfold Files_Create.
  destruct (_ || _); simpl.
  { split; [done|]. split; [done|]. split; [done|]. exists c.
    split; [lia|]. split; [lia|]. done. }
  split.
  { apply steady_append; [done|done|]. simpl. intros Hd. done. }
  split; [lia|]. split; [done|]. exists c.
  split; [lia|]. split; [rewrite length_app; simpl; lia|].
  intros f [= <-]. simpl. split; [lia|done].
Qed.

Lemma good_update id media lo c :
  good (λ lo' c' _, lo ≤ lo' ∧ c' = c) lo c (Steps.Files_Update id media).
Proof.
  apply good_atom. intros w Hw Hlo Hn Hl. unfold Files_Update.
  destruct (_ || _); simpl.
  { split; [done|]. split; [done|]. split; [done|]. exists c. done. }
  case_decide; simpl.
  2:{ split; [done|]. split; [done|]. split; [done|]. exists c. done. }
  split.
  { destruct Hw as (Hr & Hid & Hge & Hk). split; [|split; [|split]]; simpl;
      [| |done|done].
    - intros d (d0 & -> & Hd0)%list_elem_of_fmap Hdir.
      unfold set_md5 in *.
      destruct (decide (FId d0 = id)); simpl in *; by apply (Hr d0).
    - intros d (d0 & -> & Hd0)%list_elem_of_fmap.
      unfold set_md5.
      destruct (decide (FId d0 = id)); simpl; by apply (Hid d0). }
  split; [done|]. split; [done|]. exists c. rewrite length_fmap.
  split; [done|]. split; [done|]. intros [] _. done.
Qed.

Lemma good_delete id lo c :
  good (λ lo' c' _, lo ≤ lo' ∧ c' = c) lo c (Steps.Files_Delete id).
Proof.
  apply good_atom. intros w Hw Hlo Hn Hl. unfold Files_Delete.
  destruct (api_fails w); simpl.
  { split; [done|]. split; [done|]. split; [done|]. exists c. done. }
  case_decide; simpl.
  2:{ split; [done|]. split; [done|]. split; [done|]. exists c. done. }
  split.
  { destruct Hw as (Hr & Hid & Hge & Hk). split; [|split; [|split]]; simpl;
      [| |done|done].
    - intros d [_ Hd]%list_elem_of_filter Hdir. by apply Hr.
    - intros d [_ Hd]%list_elem_of_filter. by apply Hid. }
  split; [done|]. split; [done|]. exists c.
  pose proof (length_filter (λ f, FId f ≠ id) (store w)).
  split; [done|]. split; [lia|]. intros [] _. done.
Qed.

Lemma good_open path lo c :
  good (λ lo' c' _, lo ≤ lo' ∧ c' = c) lo c (Steps.os_Open path).
Proof.
  apply good_read. intros w Hw Hlo Hl. unfold os_Open.
  destruct (fs w !! path) as [[]|]; done.
Qed.

End BudgetCalls.

Section BudgetProgram.
Context `{Platform} {budget : Budget}.

Lemma monotone_kept {A} lo c : monotone (@kept A lo c).
Proof. intros ????? [??] ??. split; lia. Qed.

Lemma monotone_cached lo c : monotone (cached lo c).
Proof.
  intros l1 c1 x l2 c2 (? & ? & Hx) ??. split; [lia|]. split; [lia|].
  intros k id Hin. specialize (Hx k id Hin). lia.
Qed.

Lemma good_kept {A} lo c lo' c' (p : prog A) :
  good (kept lo c) lo c p → lo ≤ lo' → c ≤ c' → good (kept lo c) lo' c' p.
Proof. intros. eapply good_weaken; [apply monotone_kept|done..]. Qed.

Lemma good_scan_page recur path files rf lo c :
  (∀ f rf' lo', f ∈ files → isFolder f → lo ≤ lo' →
     good (kept lo' c) lo' c
          (recur (FId f) (filepath_Join path (Name f)) rf')) →
  good (kept lo c) lo c (Steps.scan_page recur path files rf).
Proof.
  revert rf lo. induction files as [|f files IH]; intros rf lo Hrec.
  { simpl. split; lia. }
  cbn [Steps.scan_page].
  assert (Hrest : ∀ rf' lo', lo ≤ lo' →
            good (kept lo c) lo' c (Steps.scan_page recur path files rf')).
  { intros rf' lo' Hlo. eapply good_mono; [|apply IH].
    - intros l1 c1 ? [??]. split; lia.
    - intros f' rf'' lo'' Hf' Hd Hlo'. apply Hrec; [by right|done|lia]. }
  destruct (decide (isFolder f)) as [Hd|Hd].
  - eapply good_bind; [apply (Hrec f rf lo); [by left|done|done]|].
    intros lo' c' rf' [Hlo Hc]. simpl in Hc.
    eapply (good_weaken _ lo' c);
      [apply monotone_kept|by apply Hrest|done|done].
  - by apply Hrest.
Qed.

(** The scan does not run out of the fuel of [scan_fuel], whatever is
    created in between. *)
Lemma good_fetch_from fuel parent path tok rf lo c :
  scan_fuel parent tok ≤ fuel →
  good (kept lo c) lo c (Steps.fetch_from fuel parent path tok rf).
Proof.
  revert parent path tok rf lo.
  induction fuel as [|k IH]; intros parent path tok rf lo Hfuel.
  { unfold scan_fuel in Hfuel. lia. }
  cbn [Steps.fetch_from].
  eapply good_bind; [apply good_wrap, good_list_children|].
  intros lo1 c1 [files next] (Hlo1 & Hc1 & Hranks & Hnext). subst c1.
  eapply good_bind.
  - apply (good_scan_page _ _ _ _ lo1 c).
    intros f rf' lo' Hf Hd Hlo'. apply IH.
    specialize (Hranks f Hf Hd). unfold scan_fuel in *. nia.
  - intros lo2 c2 rf2 [Hlo2 Hc2]. destruct (decide (next = 0)) as [|Hne].
    { simpl. split; lia. }
    eapply (good_weaken _ lo2 c); [apply monotone_kept| |done|done].
    eapply good_mono; [|apply (IH _ _ _ _ lo2)].
    + intros l c' ? [??]. split; lia.
    + unfold scan_fuel in *. nia.
Qed.

Lemma good_computeMD5 filePath lo c :
  good (kept lo c) lo c (Steps.computeMD5 filePath).
Proof.
  unfold Steps.computeMD5.
  eapply good_bind; [apply good_wrap, good_open|].
  intros lo' c' [e|e|x] [Hlo Hc']; subst c'; simpl; [done|done|].
  split; lia.
Qed.

Lemma good_updateFile filePath id lo c :
  good (kept lo c) lo c (Steps.updateFile filePath id).
Proof.
  unfold Steps.updateFile.
  eapply good_bind; [apply good_wrap, good_open|].
  intros lo1 c1 file [Hlo1 Hc1]. subst c1.
  eapply good_bind; [apply good_wrap, good_update|].
  intros lo2 c2 ? [Hlo2 Hc2]. subst c2.
  apply good_read. intros w Hw Hlo Hl. simpl.
  split; [done|]. split; [done|]. split; [done|]. split; [done|].
  intros ? _. split; lia.
Qed.

(** A folder is found or made, in a folder that is there; its id is
    there afterwards. *)
Lemma good_createOrGetFolder name parent lo c :
  parent < lo →
  good (λ lo' c' id, lo ≤ lo' ∧ c ≤ c' ∧ id < lo')
       lo (S c) (Steps.createOrGetFolder name parent).
Proof.
  intros Hp. unfold Steps.createOrGetFolder.
  eapply good_bind; [apply good_wrap, good_list_folder|].
  intros lo1 c1 [[|f files] next] (Hlo1 & Hc1 & Hfiles); subst c1.
  - eapply good_bind; [apply good_wrap, good_create_folder; lia|].
    intros lo2 c2 g (Hlo2 & Hc2 & Hg). subst c2. simpl.
    split; [lia|]. split; [lia|done].
  - simpl. split; [lia|]. split; [lia|]. apply Hfiles. by left.
Qed.

Lemma monotone_resolved_to lo c : monotone (resolved_to lo c).
Proof.
  intros l1 c1 x l2 c2 (? & ? & ? & Hx) ??.
  split; [lia|]. split; [lia|]. split; [lia|].
  intros k id Hin. specialize (Hx k id Hin). lia.
Qed.

Lemma good_resolve_parts parts i todo parent cache lo c :
  parent < lo → (∀ k id, (k, id) ∈ cache → id < lo) →
  good (resolved_to lo c) lo (length todo + c)
       (Steps.resolve_parts parts i todo parent cache).
Proof.
  revert i parent cache lo.
  induction todo as [|part rest IH]; intros i parent cache lo Hp Hc.
  { simpl. split; [lia|]. split; [lia|]. done. }
  cbn [Steps.resolve_parts length].
  destruct (cache_lookup _ cache) as [cachedID|] eqn:Hlook.
  - assert (Hin : ∃ k, (k, cachedID) ∈ cache).
    { clear -Hlook. induction cache as [|[k id] cache IHc]; [done|].
      simpl in Hlook. case_decide.
      - injection Hlook as ->. exists k. by left.
      - destruct (IHc Hlook) as [k' ?]. exists k'. by right. }
    destruct Hin as [k Hin].
    eapply (good_weaken _ lo (length rest + c));
      [apply monotone_resolved_to| |done|lia].
    apply IH; [by eapply Hc|done].
  - eapply good_bind.
    { apply good_wrap.
      apply (good_createOrGetFolder part parent lo (length rest + c) Hp). }
    intros lo1 c1 id (Hlo1 & Hc1 & Hid).
    eapply (good_weaken _ lo1 (length rest + c));
      [apply monotone_resolved_to| |done|done].
    eapply good_mono; [|apply (IH (S i) id _ lo1)].
    + intros l c' r (? & ? & ? & ?). split; [lia|]. done.
    + done.
    + intros k id' [[= -> ->]|Hin]%elem_of_cons; [done|].
      specialize (Hc k id' Hin). lia.
Qed.

Lemma good_uploadFile filePath rel parent cache lo c :
  parent < lo → (∀ k id, (k, id) ∈ cache → id < lo) →
  good (cached lo c) lo
       (length (strings_Split (filepath_ToSlash rel)) + c)
       (Steps.uploadFile filePath rel parent cache).
Proof.
  intros Hp Hc. unfold Steps.uploadFile.
  set (parts := strings_Split (filepath_ToSlash rel)).
  assert (Hlen : length parts
                 = length (take (length parts - 1) parts) + 1).
  { pose proof (strings_Split_length (filepath_ToSlash rel)) as Hl.
    fold parts in Hl. rewrite length_take. lia. }
  replace (length parts + c)
    with (length (take (length parts - 1) parts) + S c) by lia.
  eapply good_bind; [by apply good_resolve_parts|].
  intros lo1 c1 [id cache1] (Hlo1 & Hc1 & Hid & Hcache1).
  cbn [fst snd] in *.
  eapply good_bind; [apply good_wrap, good_open|].
  intros lo2 c2 file [Hlo2 Hc2]. subst c2.
  destruct c1 as [|c1]; [lia|].
  eapply good_bind; [apply good_wrap, good_create_file|].
  intros lo3 c3 ? [Hlo3 Hc3]. subst c3.
  apply good_printf. intros lo4 Hlo4. simpl.
  split; [lia|]. split; [lia|]. intros k id' Hin.
  specialize (Hcache1 k id' Hin). lia.
Qed.

Lemma good_uploadOrUpdateFile filePath rel h rf parent cache lo c :
  parent < lo → (∀ k id, (k, id) ∈ cache → id < lo) →
  good (cached lo c) lo
       (length (strings_Split (filepath_ToSlash rel)) + c)
       (Steps.uploadOrUpdateFile filePath rel h rf parent cache).
Proof.
  intros Hp Hc. unfold Steps.uploadOrUpdateFile.
  destruct (rf !! rel) as [f|];
    [destruct (decide (Md5Checksum f = h))|].
  - apply good_printf. intros lo1 Hlo1. simpl.
    split; [lia|]. split; [lia|]. intros k id Hin.
    specialize (Hc k id Hin). lia.
  - apply good_printf. intros lo1 Hlo1.
    eapply good_bind.
    { eapply (good_weaken _ lo1 c);
        [apply monotone_kept|apply good_updateFile|done|lia]. }
    intros lo2 c2 ? [Hlo2 Hc2]. simpl.
    split; [lia|]. split; [lia|]. intros k id Hin.
    specialize (Hc k id Hin). lia.
  - apply good_printf. intros lo1 Hlo1.
    eapply good_mono; [|apply (good_uploadFile _ _ _ _ lo1)].
    + intros l c' x (? & ? & ?). split; [lia|]. done.
    + lia.
    + intros k id Hin. specialize (Hc k id Hin). lia.
Qed.

Lemma good_delete_loop localFiles items lo c :
  good (kept lo c) lo c (Steps.delete_loop localFiles items).
Proof.
  revert lo. induction items as [|[p f] items IH]; intros lo.
  { simpl. split; lia. }
  cbn [Steps.delete_loop]. destruct (localFiles !! p); [apply IH|].
  apply good_printf. intros lo1 Hlo1.
  eapply good_bind; [apply good_wrap, good_delete|].
  intros lo2 c2 ? [Hlo2 Hc2]. subst c2.
  eapply good_mono; [|apply (IH lo2)].
  intros l c' ? [??]. split; lia.
Qed.

Lemma good_walkFn root rf st v lo c :
  root < lo → (∀ k id, (k, id) ∈ st.2 → id < lo) →
  good (λ lo' c' st', cached lo c lo' c' (st'.2)) lo (visit_cost v + c)
       (Steps.walkFn root rf st v).
Proof.
  intros Hr Hc. unfold Steps.walkFn, visit_cost.
  destruct (v_err v); [done|]. destruct (v_isDir v).
  { simpl. split; [lia|]. split; [lia|]. done. }
  destruct (v_rel v) as [rel|e]; [|done].
  eapply (good_bind (λ lo' c' x, x = rel ∧ lo' = lo ∧ c' = _)); [done|].
  intros ? ? ? (-> & -> & ->).
  eapply good_bind.
  { apply good_wrap.
    eapply (good_weaken _ lo _); [apply monotone_kept|
      apply good_computeMD5|done|done]. }
  intros lo1 c1 h [Hlo1 Hc1].
  eapply good_bind.
  { eapply (good_weaken _ lo1 _); [apply monotone_cached| |done|exact Hc1].
    apply good_uploadOrUpdateFile; [lia|].
    intros k id Hin. specialize (Hc k id Hin). lia. }
  intros lo2 c2 cache (Hlo2 & Hc2 & Hcache). simpl.
  split; [lia|]. split; [lia|]. done.
Qed.

Lemma good_walk_visits root rf st visits lo c :
  root < lo → (∀ k id, (k, id) ∈ st.2 → id < lo) →
  good (kept lo c) lo (walk_cost visits + c)
       (Steps.walk_visits (Steps.walkFn root rf) st visits).
Proof.
  revert st lo. induction visits as [|v rest IH]; intros st lo Hr Hc.
  { simpl. split; lia. }
  cbn [Steps.walk_visits]. unfold walk_cost. rewrite fmap_cons. simpl sum_list.
  rewrite <- Nat.add_assoc.
  eapply good_bind; [by apply good_walkFn|].
  intros lo1 c1 st1 (Hlo1 & Hc1 & Hcache).
  eapply (good_weaken _ lo1 (walk_cost rest + c));
    [apply monotone_kept| |done|done].
  eapply good_mono; [|apply IH].
  - intros l c' ? [??]. split; lia.
  - lia.
  - done.
Qed.

End BudgetProgram.

Section BudgetRun.
Context `{Platform} {budget : Budget}.

Lemma walk_script_steady root w : steady w → walk_script root w = start_script root.
Proof. intros (_ & _ & _ & Hk). unfold walk_script, start_script. by rewrite Hk. Qed.

Lemma good_filepath_Walk localDir root rf lo c :
  root < lo →
  good (kept lo c) lo (walk_cost (start_script localDir) + c)
       (Steps.filepath_Walk localDir (Steps.walkFn root rf) (∅, [])).
Proof.
  intros Hr. unfold Steps.filepath_Walk.
  eapply (good_bind (λ lo' c' visits,
            lo ≤ lo' ∧ c' = walk_cost (start_script localDir) + c ∧
            visits = start_script localDir)).
  - apply good_read. intros w Hw Hlo Hl. simpl.
    split; [done|]. split; [done|]. split; [done|]. split; [done|].
    intros visits [= <-]. split; [done|]. split; [done|].
    by apply walk_script_steady.
  - intros lo1 c1 visits (Hlo1 & -> & ->).
    eapply good_mono; [|apply (good_walk_visits _ _ _ _ lo1)].
    + intros l c' ? [??]. split; lia.
    + lia.
    + intros k id Hin. by apply elem_of_nil in Hin.
Qed.

(** [syncFiles] as a goroutine runs it, with the fuel of [scan_fuel] for
    its root: it does not run out of fuel, whatever the other goroutines
    do in between. *)
Lemma good_syncFiles fuel localDir root lo c :
  root < lo → scan_fuel root 0 ≤ fuel →
  good (kept lo c) lo (walk_cost (start_script localDir) + c)
       (Steps.syncFiles fuel localDir root).
Proof.
  intros Hr Hfuel. unfold Steps.syncFiles, Steps.fetchRemoteFiles.
  eapply good_bind; [by apply good_wrap, good_fetch_from|].
  intros lo1 c1 rf [Hlo1 Hc1].
  eapply good_bind.
  { eapply (good_weaken _ lo1 _); [apply monotone_kept| |done|exact Hc1].
    apply good_filepath_Walk. lia. }
  intros lo2 c2 st [Hlo2 Hc2]. apply good_wrap.
  eapply good_mono; [|apply good_delete_loop].
  intros l c' ? [??]. split; lia.
Qed.

Lemma good_goroutine fuel localDir root lo :
  root < lo → scan_fuel root 0 ≤ fuel →
  good (λ _ _ _, True) lo (walk_cost (start_script localDir))
       (Steps.goroutine fuel (localDir, root)).
Proof.
  intros Hr Hfuel. unfold Steps.goroutine.
  apply good_printf. intros lo1 Hlo1.
  eapply good_bind.
  { apply good_catch. rewrite <- (Nat.add_0_r (walk_cost _)).
    apply good_syncFiles; [lia|done]. }
  intros lo2 c2 [[]|e] _; simpl; [done|].
  intros w Hw Hlo Hn Hl. simpl. split; [done|]. split; [done|].
  exists c2. done.
Qed.

Lemma sum_list_insert (cs : list nat) i c c' :
  cs !! i = Some c → sum_list (<[i:=c']> cs) + c = sum_list cs + c'.
Proof.
  revert i. induction cs as [|x cs IH]; intros [|i] Hi; simpl in *; try done.
  - injection Hi as ->. lia.
  - specialize (IH i Hi). lia.
Qed.

(** A step of a goroutine keeps the goroutines good. *)
Lemma step_pool_good i w ps cs :
  pool_good w ps cs →
  ∃ cs', pool_good (step i (w, ps)).1 (step i (w, ps)).2 cs'.
Proof.
  intros (Hw & Hgood & Hn & Hl).
  destruct (ps !! i) as [[r|X a k]|] eqn:Hi;
    [exists cs; unfold step; simpl; by rewrite Hi| |
     exists cs; unfold step; simpl; by rewrite Hi].
  rewrite (step_call i (w, ps) a k Hi). simpl.
  destruct (Forall2_lookup_l _ _ _ _ _ Hgood Hi) as (c & Hci & lo & Hlo & G).
  assert (Hsum : c ≤ sum_list cs).
  { pose proof (sum_list_insert cs i c 0 Hci). lia. }
  simpl in G. destruct (G w Hw Hlo) as (Hw1 & Hn1 & c' & Hc' & Hl' & G');
    [lia|lia|].
  pose proof (sum_list_insert cs i c c' Hci) as Hins.
  exists (<[i := c']> cs). split; [done|]. split; [|split; lia].
  apply Forall2_insert; [|by exists (next_id (a w).1)].
  eapply Forall2_impl; [done|]. intros p c0 (lo0 & Hlo0 & G0).
  exists lo0. split; [lia|done].
Qed.

Lemma interleave_pool_good sched w ps cs :
  pool_good w ps cs →
  ∃ cs', pool_good (interleave sched (w, ps)).1 (interleave sched (w, ps)).2 cs'.
Proof.
  intros G. induction sched as [|i sched IH] using rev_ind; [by exists cs|].
  destruct IH as [cs' G']. rewrite interleave_snoc.
  destruct (interleave sched (w, ps)) as [w1 ps1]. by eapply step_pool_good.
Qed.

(** A good goroutine does not end out of fuel. *)
Lemma pool_good_done w ps cs i r :
  pool_good w ps cs → ps !! i = Some (Done r) → r ≠ Timeout.
Proof.
  intros (_ & Hgood & _) Hi ->.
  by destruct (Forall2_lookup_l _ _ _ _ _ Hgood Hi) as (c & _ & lo & _ & G).
Qed.

End BudgetRun.

(** ** [main] and its goroutines *)

Section MainProofs.
Context `{Platform}.

(** After startup [main] starts the goroutines and waits for them. *)
Lemma main_started fuel sched w ms :
  startup_ok w ms →
  main fuel sched w
  = (wg_Wait sched (Steps.goroutine fuel <$> ms);;
     printf "Sync completed successfully!";; ret 0) w.
Proof.
  intros (bx & Hbx & Hjson & Hsrv).
  unfold main, bind, catch, os_ReadFile, getDriveService, wrap, lift.
  rewrite Hbx, Hjson, Hsrv. done.
Qed.

Lemma main_waits fuel sched w ms :
  startup_ok w ms →
  let c := interleave sched (w, Steps.goroutine fuel <$> ms) in
  main fuel sched w
  = if forallb returned c.2
    then (print "Sync completed successfully!" c.1, Ok 0)
    else (c.1, Timeout).
Proof.
  intros Hs. rewrite (main_started _ _ _ _ Hs). unfold bind, wg_Wait. simpl.
  destruct (interleave sched _) as [w1 ps]. simpl.
  by destruct (forallb returned ps).
Qed.

(** No goroutine of [main] ends with an error. *)
Lemma pool_ends fuel ms sched w i r :
  (interleave sched (w, Steps.goroutine fuel <$> ms)).2 !! i = Some (Done r) →
  r = Ok tt ∨ r = Timeout.
Proof.
  intros Hi. apply interleave_reaches in Hi as (p0 & Hp0 & R). simpl in Hp0.
  rewrite list_lookup_fmap in Hp0.
  destruct (ms !! i) as [m|]; [|done]. injection Hp0 as <-.
  apply (ends_in_reaches _ _ _ (goroutine_ends fuel m) R).
Qed.

Lemma returned_cases (p : prog unit) :
  if returned p then ∃ r, p = Done r ∧ r ≠ Timeout
  else p = Done Timeout ∨ ∃ X (a : M X) k, p = Atomic a k.
Proof. destruct p as [[[]|e|]|X a k]; simpl; eauto 6. Qed.

(** The world the goroutines of the mappings start in is good, with the
    fuel of [sync_fuel]. *)
Lemma pool_good_start fuel w ms rank r :
  ranked (store w) rank →
  (∀ f, f ∈ store w → FId f < next_id w ∧ Parent f < next_id w) →
  (∀ localDir id, (localDir, id) ∈ ms → id < next_id w ∧ rank id ≤ r) →
  sync_fuel r w ms ≤ fuel →
  pool_good
    (budget := Build_Budget (next_id w) (sync_cost w ms) (length (store w))
                            rank (walks w))
    w (Steps.goroutine fuel <$> ms)
    ((λ m, walk_cost (walk_script m.1 w)) <$> ms).
Proof.
  intros Hrank Hids Hroots Hfuel.
  set (B := Build_Budget (next_id w) (sync_cost w ms) (length (store w))
                         rank (walks w)).
  assert (Hw : steady (budget := B) w).
  { split; [|split; [|split]]; [|intros f Hf; by apply Hids|done|done].
    intros d Hd Hdir. destruct (Hids d Hd) as [H1 H2].
    unfold run_rank. simpl. rewrite !decide_True by done.
    specialize (Hrank d Hd Hdir). lia. }
  split; [done|]. split; [|split; apply Nat.le_refl].
  apply Forall2_fmap, Forall_Forall2_diag, Forall_forall.
  intros [localDir id] Hin. exists (next_id w). split; [done|].
  destruct (Hroots _ _ Hin) as [Hid Hr]. simpl.
  replace (walk_script localDir w) with (start_script (budget := B) localDir)
    by (symmetry; by apply (walk_script_steady (budget := B))).
  apply (good_goroutine (budget := B)); [done|].
  etrans; [|exact Hfuel]. unfold scan_fuel, sync_fuel, run_rank. simpl.
  rewrite decide_True by done. nia.
Qed.


End MainProofs.


(** ** The theorems at work *)

Module Witness.
Import Demo.

Lemma walk_failure_skips_delete_pass_witness :
  syncFiles 10 "/l" 0 w_fault
    = (run_fault.1, Err "unable to update file: googleapi: Error") ∧
  Forall no_delete (new_events w_fault run_fault.1) ∧
  (store run_fault.1, next_id run_fault.1)
    = replay (new_events w_fault run_fault.1)
             (store w_fault, next_id w_fault) ∧
  FId <$> store w_fault `prefix_of` FId <$> store run_fault.1.
Proof.
  apply (walk_failure_skips_delete_pass 10 "/l" 0 w_fault
           (fetchRemoteFiles 10 0 "" ∅ w_fault).1 index0).
  - vm_compute. reflexivity.
  - vm_compute. reflexivity.
Defined.

Lemma delete_pass_after_walk_witness :
  syncFiles 10 "/l" 0 w0 = (run0.1, Ok tt) ∧
  ∃ pre dels,
    new_events w0 run0.1 = pre ++ dels ∧
    Forall no_delete pre ∧ Forall delete_only dels ∧
    delete_calls dels = [3].
Proof.
  assert (E : syncFiles 10 "/l" 0 w0 = (run0.1, Ok tt)).
  { vm_compute. reflexivity. }
  split; [exact E|].
  destruct (delete_pass_after_walk 10 "/l" 0 w0 run0.1 (Ok tt) E)
    as (pre & dels & Hev & F1 & F2 & _).
  exists pre, dels. split; [exact Hev|]. split; [exact F1|]. split; [exact F2|].
  assert (Hd : delete_calls (new_events w0 run0.1) = [3]).
  { vm_compute. reflexivity. }
  rewrite Hev in Hd. unfold delete_calls in Hd. rewrite omap_app in Hd.
  replace (omap _ pre) with (@nil Id) in Hd; [exact Hd|].
  clear -F1. induction F1 as [|e pre He _ IH]; [reflexivity|].
  simpl. destruct e as [[]|]; try discriminate He; exact IH.
Defined.

(** C4 fails as stated in its second half: of two remote files [x] under
    the root and nothing local, the delete pass has a call for the one
    the index holds and none for the other. *)
Lemma deletes_unobserved_as_stated_counterexample :
  ¬ deletes_unobserved_as_stated 10 "/l" 0 w_twins.
Proof.
  intros Hclaim.
  assert (Hin : FId twin1 ∈ delete_calls (new_events w_twins run_twins.1)).
  { apply (Hclaim scan_twins.1 {["x" := twin2]} walk_twins.1 (∅, [])
                  run_twins.1) with (p := "x").
    - vm_compute. reflexivity.
    - vm_compute. reflexivity.
    - vm_compute. reflexivity.
    - apply (entry_here _ 0 "" twin1).
      + apply list_elem_of_filter. split; [done|]. apply list_elem_of_here.
      + discriminate.
    - reflexivity. }
  vm_compute in Hin. apply list_elem_of_In in Hin. simpl in Hin.
  destruct Hin as [Hin|[]]. discriminate Hin.
Qed.

Lemma present_path_skip_or_update_witness :
  index0 !! "sub/b.txt" = Some b_txt ∧
  Md5Checksum b_txt ≠ "md5:B" ∧
  ∃ w', uploadOrUpdateFile "/l/sub/b.txt" "sub/b.txt" "md5:B" index0 0 [] w0
          = (w', Ok []) ∧
        new_events w0 w' = [Api (CallUpdate 2 (Content "B")) true] ∧
        store w' = set_md5 2 "md5:B" <$> store w0.
Proof.
  assert (Hidx : index0 !! "sub/b.txt" = Some b_txt).
  { vm_compute. reflexivity. }
  assert (Hne : Md5Checksum b_txt ≠ "md5:B").
  { vm_compute. discriminate. }
  split; [exact Hidx|]. split; [exact Hne|].
  pose (r := uploadOrUpdateFile "/l/sub/b.txt" "sub/b.txt" "md5:B" index0 0 [] w0).
  assert (E : r = (r.1, Ok [])).
  { vm_compute. reflexivity. }
  exists r.1. split; [exact E|].
  destruct (present_path_skip_or_update _ _ _ _ _ _ _ _ _ _ Hidx E)
    as [_ Hupd].
  destruct (Hupd Hne) as (_ & _ & _ & Hok).
  destruct (Hok [] eq_refl) as (_ & c & Hc & Hev & Hst).
  assert (c = "B") as ->.
  { vm_compute in Hc. congruence. }
  split; [exact Hev|exact Hst].
Defined.

Lemma scan_visits_folders_page_by_page_witness :
  scan_trace (store w0) 1 0 0
    [Api (CallList (InParents 0) 0) true;
     Api (CallList (InParents 1) 0) true;
     Api (CallList (InParents 0) 1) true].
Proof.
  apply (scan_visits_folders_page_by_page 10 0 "" ∅ w0 scan0.1 index0).
  vm_compute. reflexivity.
Defined.

(** C6 fails as stated: with one entry per page, the folder [sub] on the
    first page of the root is listed before the second page of the root
    is fetched. *)
Lemma parent_pages_before_child_counterexample :
  ¬ parent_pages_before_child 10 0 w0.
Proof.
  intros Hclaim.
  assert (2 < 1); [|lia].
  apply (Hclaim scan0.1 index0 sub 2 1 1 0).
  - vm_compute. reflexivity.
  - apply list_elem_of_here.
  - reflexivity.
  - vm_compute. reflexivity.
  - vm_compute. reflexivity.
Qed.

Lemma presence_is_by_files_only_witness :
  uploadOrUpdateFile "/l/sub" "sub" "md5:S" ∅ 0 []
  = (printf "Uploading new file: sub";; uploadFile "/l/sub" "sub" 0 []) ∧
  walkFn 0 ∅ (∅, []) (mkVisit "/l" None true (Good ".")) = ret (∅, []).
Proof.
  destruct (presence_is_by_files_only 10 0 w_clash scan_clash.1 ∅
              "/l/sub" "sub" "md5:S" [])
    as (_ & Habsent & _ & Hdir).
  - vm_compute. reflexivity.
  - split; [|apply Hdir; reflexivity].
    apply Habsent. intros f Hf. unfold remote_file in Hf.
    inversion Hf as [pid prefix f' Hin Hnf|pid prefix d path f' Hin Hd Hsub];
      subst.
    + apply list_elem_of_filter in Hin as [_ Hin].
      apply list_elem_of_singleton in Hin. subst f. apply Hnf. reflexivity.
    + apply list_elem_of_filter in Hin as [_ Hin].
      apply list_elem_of_singleton in Hin. subst d.
      inversion Hsub as [? ? ? Hin' _|? ? ? ? ? Hin' _ _]; subst;
        apply list_elem_of_filter in Hin' as [[Hp _] Hin'];
        apply list_elem_of_singleton in Hin'; subst; discriminate Hp.
Defined.

(** C7 fails as stated: the folder [sub] under the root does not make the
    path [sub] present in the index. *)
Lemma folder_counts_as_present_counterexample :
  ¬ folder_counts_as_present 10 0 w_clash.
Proof.
  intros Hclaim.
  destruct (Hclaim scan_clash.1 ∅ sub) as [f Hf].
  - vm_compute. reflexivity.
  - apply list_elem_of_filter. split; [done|]. apply list_elem_of_here.
  - reflexivity.
  - vm_compute in Hf. discriminate Hf.
Qed.

Lemma fatal_startup_exits_before_sync_witness :
  startup_fails w_noconfig ∧
  main 10 sched0 w_noconfig
  = (print "Error reading input folder map: open dir_map.json: no such file or directory"
           w_noconfig, Ok 1).
Proof.
  assert (Hs : startup_fails w_noconfig).
  { vm_compute. exact I. }
  split; [exact Hs|].
  destruct (fatal_startup_exits_before_sync 10 sched0 w_noconfig Hs)
    as (line & E & _).
  rewrite E. f_equal. vm_compute in E. congruence.
Defined.

Lemma fair_turns : fair 2 turns.
Proof.
  intros i k Hi. exists (i + k * 2). split; [lia|]. unfold turns.
  rewrite Nat.Div0.mod_add. by apply Nat.mod_small.
Defined.

Lemma forest_w0 : ranked (store w0) Cases.rank0.
Proof.
  intros d Hd Hdir. apply list_elem_of_In in Hd. simpl in Hd.
  destruct Hd as [<-|[<-|[<-|[]]]]; [vm_compute; lia|discriminate Hdir..].
Defined.


Lemma wf_drive_w0 : wf_drive 0 (store w0) (next_id w0).
Proof.
  split; [|split; [|split]].
  - refine (bool_decide_unpack _ _). vm_compute. exact I.
  - refine (proj1 (Forall_forall _ _) _). repeat constructor; simpl; lia.
  - simpl. lia.
  - refine (bool_decide_unpack _ _). vm_compute. exact I.
Defined.

Lemma tidy_walk_local : tidy_walk local_walk.
Proof.
  split.
  - refine (bool_decide_unpack _ _). vm_compute. exact I.
  - repeat constructor; vm_compute; reflexivity.
Defined.

Lemma plain_walk_local : plain_walk local_walk.
Proof.
  split.
  - refine (bool_decide_unpack _ _). vm_compute. exact I.
  - repeat constructor; vm_compute; intuition discriminate.
Defined.

Lemma no_folder_sub_c id0 : ¬ reach (store w0) 0 "" id0 "sub/c".
Proof.
  intros R. inversion R as [|pid q d Rp Hd Hf Hid Hq].
  apply elem_of_children in Hd as (Hd & Hp & _).
  assert (d = sub) as ->.
  { apply list_elem_of_In in Hd. simpl in Hd.
    destruct Hd as [<-|[<-|[<-|[]]]]; [reflexivity|discriminate Hf..]. }
  simpl in Hp. subst pid.
  destruct wf_drive_w0 as (ND & _ & _ & Hroot).
  pose proof (reach_functional _ _ _ _ _ _ ND Hroot Rp
                (reach_here _ _ _)) as ->.
  vm_compute in Hq. discriminate.
Defined.

Lemma folders_resolved_once_witness :
  syncFiles 10 "/l" 0 w0 = (run0.1, Ok tt) ∧
  folder_creates (new_events w0 run0.1) = 1 ∧
  folder_lookups (new_events w0 run0.1) = 2 ∧
  folder_lookups (new_events w0 run0.1)
    ≤ size (walk_dirs (walk_script "/l" w0)) ∧
  wf_drive 0 (store w0) (next_id w0) ∧
  plain_walk (walk_script "/l" w0) ∧
  "sub/c/d.txt" ∈ file_rels (walk_script "/l" w0) ∧
  "sub/c/e.txt" ∈ file_rels (walk_script "/l" w0) ∧
  "sub/c" ∈ dir_keys "sub/c/d.txt" ∧ "sub/c" ∈ dir_keys "sub/c/e.txt" ∧
  (∀ id0, ¬ reach (store w0) 0 "" id0 "sub/c") ∧
  folders_made (new_events w0 run0.1) = 1 ∧
  ∃ id, ("sub/c", id) ∈ Cases.walk0_state.2 ∧
        reach (store Cases.walk0.1) 0 "" id "sub/c" ∧ next_id w0 ≤ id ∧
        ∀ id', reach (store Cases.walk0.1) 0 "" id' "sub/c" → id' = id.
Proof.
  assert (E : syncFiles 10 "/l" 0 w0 = (run0.1, Ok tt)).
  { vm_compute. reflexivity. }
  assert (E1 : fetchRemoteFiles 10 0 "" ∅ w0 = (scan0.1, Ok index0)).
  { vm_compute. reflexivity. }
  assert (E2 : filepath_Walk "/l" (walkFn 0 index0) (∅, []) scan0.1
               = (Cases.walk0.1, Ok Cases.walk0_state)).
  { vm_compute. reflexivity. }
  assert (Hd : "sub/c/d.txt" ∈ file_rels (walk_script "/l" w0)).
  { vm_compute. apply list_elem_of_In. simpl. tauto. }
  assert (Hk : "sub/c" ∈ dir_keys "sub/c/d.txt").
  { vm_compute. apply list_elem_of_In. simpl. tauto. }
  split; [exact E|].
  destruct (folders_resolved_once 10 "/l" 0 w0 run0.1 (Ok tt) E)
    as (_ & Hle & Hrun).
  destruct (Hrun _ _ _ _ E1 E2) as (_ & _ & _ & Hmade).
  destruct (Hmade wf_drive_w0 plain_walk_local) as [Hn Hchain].
  destruct (Hchain "sub/c/d.txt" "sub/c" Hd eq_refl Hk)
    as (id & Hin & R & Hnew).
  destruct (Hnew no_folder_sub_c) as [Hid Huniq].
  split; [vm_compute; reflexivity|]. split; [vm_compute; reflexivity|].
  split; [exact Hle|]. split; [exact wf_drive_w0|].
  split; [exact plain_walk_local|]. split; [exact Hd|].
  split; [vm_compute; apply list_elem_of_In; simpl; tauto|].
  split; [exact Hk|].
  split; [vm_compute; apply list_elem_of_In; simpl; tauto|].
  split; [exact no_folder_sub_c|].
  split; [rewrite Hn; vm_compute; reflexivity|].
  exists id. repeat split; assumption.
Defined.

Lemma run_converges_witness :
  wf_drive 0 (store w0) (next_id w0) ∧
  tidy_walk (walk_script "/l" w0) ∧
  syncFiles 10 "/l" 0 w0 = (run0.1, Ok tt) ∧
  ∃ w1 rf w2 st,
    fetchRemoteFiles 10 0 "" ∅ w0 = (w1, Ok rf) ∧
    filepath_Walk "/l" (walkFn 0 rf) (∅, []) w1 = (w2, Ok st) ∧
    (∀ rel h, st.1 !! rel = Some h →
       ∃ f, remote_file (store run0.1) 0 rel f ∧ Md5Checksum f = h) ∧
    (∀ p f, rf !! p = Some f → st.1 !! p = None →
            FId f ∉ FId <$> store run0.1).
Proof.
  assert (E : syncFiles 10 "/l" 0 w0 = (run0.1, Ok tt)).
  { vm_compute. reflexivity. }
  assert (T : tidy_walk (walk_script "/l" w0)).
  { exact tidy_walk_local. }
  split; [exact wf_drive_w0|]. split; [exact T|]. split; [exact E|].
  destruct (run_converges 10 "/l" 0 w0 run0.1 wf_drive_w0 T E)
    as (w1 & rf & w2 & st & E1 & E2 & HA & HB & _).
  exists w1, rf, w2, st. repeat split; assumption.
Defined.

(** C1 fails as stated: of two remote files [x] under the root, the
    index keeps the second; with nothing local, the run deletes it and
    leaves the first. *)
Lemma converges_as_stated_counterexample :
  ¬ converges_as_stated 10 "/l" 0 w_twins.
Proof.
  intros Hclaim.
  destruct (Hclaim scan_twins.1 {["x" := twin2]} walk_twins.1 (∅, [])
                   run_twins.1) as [_ Hgone].
  - vm_compute. reflexivity.
  - vm_compute. reflexivity.
  - vm_compute. reflexivity.
  - apply (Hgone "x" twin1).
    + apply (entry_here _ 0 "" twin1).
      * apply list_elem_of_filter. split; [done|]. apply list_elem_of_here.
      * discriminate.
    + reflexivity.
    + vm_compute. apply list_elem_of_here.
Qed.

Lemma wf_drive_fresh : wf_drive 0 (store w_fresh) (next_id w_fresh).
Proof.
  split; [|split; [|split]].
  - constructor.
  - intros f Hf. by apply elem_of_nil in Hf.
  - simpl. lia.
  - apply not_elem_of_nil.
Defined.

Lemma unique_paths_fresh : unique_paths (store w_fresh) 0.
Proof.
  intros p f f' Hf _. apply remote_file_elem in Hf.
  by apply elem_of_nil in Hf.
Defined.

Lemma second_run_silent_witness :
  wf_drive 0 (store w_fresh) (next_id w_fresh) ∧
  tidy_walk (walk_script "/l" w_fresh) ∧
  unique_paths (store w_fresh) 0 ∧
  syncFiles 10 "/l" 0 w_fresh = (run_fresh.1, Ok tt) ∧
  length (filter (λ e, is_write e = true) (new_events w_fresh run_fresh.1)) = 6 ∧
  Forall (λ e, is_write e = false)
         (new_events (set_faults [] run_fresh.1) rerun_fresh.1) ∧
  store rerun_fresh.1 = store run_fresh.1 ∧
  next_id rerun_fresh.1 = next_id run_fresh.1.
Proof.
  assert (E : syncFiles 10 "/l" 0 w_fresh = (run_fresh.1, Ok tt)).
  { vm_compute. reflexivity. }
  assert (T : tidy_walk (walk_script "/l" w_fresh)).
  { exact tidy_walk_local. }
  split; [exact wf_drive_fresh|]. split; [exact T|].
  split; [exact unique_paths_fresh|]. split; [exact E|].
  split; [vm_compute; reflexivity|].
  apply (second_run_silent 10 "/l" 0 w_fresh run_fresh.1 [] 10
           rerun_fresh.1 rerun_fresh.2 wf_drive_fresh T unique_paths_fresh E).
  vm_compute. reflexivity.
Defined.

(** C2 fails as stated: of two remote files [x] under the root, the
    first run deletes one and the second run the other. *)
Lemma second_run_silent_as_stated_counterexample :
  ¬ second_run_silent_as_stated 10 "/l" 0 w_twins.
Proof.
  intros Hclaim.
  assert (R1 : syncFiles 10 "/l" 0 w_twins = (run_twins.1, Ok tt)).
  { vm_compute. reflexivity. }
  assert (R2 : syncFiles 10 "/l" 0 (set_faults [] run_twins.1)
               = (rerun_twins.1, Ok tt)).
  { vm_compute. reflexivity. }
  pose proof (Hclaim _ _ _ _ _ R1 R2) as Hsilent.
  assert (Hdel : Api (CallDelete 1) true
                 ∈ new_events (set_faults [] run_twins.1) rerun_twins.1).
  { vm_compute. apply list_elem_of_In. simpl. tauto. }
  pose proof (proj1 (Forall_forall _ _) Hsilent _ Hdel) as Hw.
  discriminate Hw.
Qed.

End Witness.

(** ** The further properties at work *)

Module MoreWitness.
Import Demo Cases.

Lemma scan_lists_until_first_failure_witness :
  fetchRemoteFiles 10 0 "" ∅ w_scanfault
    = (scan_fault.1, Err "unable to list files: googleapi: Error") ∧
  store scan_fault.1 = store w_scanfault ∧
  ∃ pre last,
    new_events w_scanfault scan_fault.1 = pre ++ [last] ∧
    Forall ok_listing pre ∧ failed_listing last.
Proof.
  assert (E : fetchRemoteFiles 10 0 "" ∅ w_scanfault
              = (scan_fault.1, Err "unable to list files: googleapi: Error")).
  { vm_compute. reflexivity. }
  split; [exact E|].
  destruct (scan_lists_until_first_failure _ _ _ _ _ _ _ E)
    as (_ & S & _ & _ & P).
  split; [exact S|exact P].
Defined.

Lemma scan_failure_ends_run_witness :
  syncFiles 10 "/l" 0 w_scanfault
    = (scan_fault.1,
       Err ("failed to fetch remote files: "
              +:+ "unable to list files: googleapi: Error")) ∧
  "unable to list files: googleapi: Error"
    = "unable to list files: googleapi: Error" ∧
  Forall list_only (new_events w_scanfault scan_fault.1) ∧
  store scan_fault.1 = store w_scanfault ∧
  next_id scan_fault.1 = next_id w_scanfault.
Proof.
  apply (scan_failure_ends_run 10 "/l" 0 w_scanfault scan_fault.1).
  vm_compute. reflexivity.
Defined.

Lemma createOrGetFolder_reuses_folder_witness :
  createOrGetFolder "sub" 0 w0 = (find_sub.1, Ok 1) ∧
  store find_sub.1 = store w0 ∧
  ∃ ok, new_events w0 find_sub.1 = [Api (CallList (FolderNamed "sub" 0) 0) ok].
Proof.
  assert (E : createOrGetFolder "sub" 0 w0 = (find_sub.1, Ok 1)).
  { vm_compute. reflexivity. }
  split; [exact E|].
  destruct (createOrGetFolder_reuses_folder "sub" 0 sub w0 find_sub.1 (Ok 1))
    as (S & _ & L & _).
  - apply list_elem_of_In. simpl. tauto.
  - vm_compute. tauto.
  - exact E.
  - split; [exact S|exact L].
Defined.

Lemma createOrGetFolder_twice_witness :
  createOrGetFolder "new" 0 w0 = (make_new.1, Ok 10) ∧
  createOrGetFolder "new" 0 make_new.1
    = (log (Api (CallList (FolderNamed "new" 0) 0) true) make_new.1, Ok 10).
Proof.
  assert (E : createOrGetFolder "new" 0 w0 = (make_new.1, Ok 10)).
  { vm_compute. reflexivity. }
  split; [exact E|].
  apply (createOrGetFolder_twice "new" 0 w0 make_new.1 10 E).
  vm_compute. reflexivity.
Defined.

Lemma uploadFile_at_root_witness :
  uploadFile "/l/a.txt" "a.txt" 0 [] w0 = (upload_a.1, Ok []) ∧
  new_events w0 upload_a.1
    = [Api (CallCreate "a.txt" "" 0 (Some (Content "A"))) true].
Proof.
  assert (E : uploadFile "/l/a.txt" "a.txt" 0 [] w0 = (upload_a.1, Ok [])).
  { vm_compute. reflexivity. }
  split; [exact E|].
  destruct (uploadFile_at_root "/l/a.txt" "a.txt" 0 [] w0 upload_a.1 (Ok []))
    as [_ P].
  - simpl. repeat split; discriminate.
  - exact E.
  - destruct (P [] eq_refl) as (_ & c & Hc & Hev & _).
    assert (c = "A") as -> by (vm_compute in Hc; congruence).
    exact Hev.
Defined.

Lemma cache_keys_are_injective_witness :
  take 2 (strings_Split (filepath_ToSlash "sub/c/d.txt"))
  = take 2 (strings_Split (filepath_ToSlash "sub/c/e.txt")).
Proof.
  apply (cache_keys_are_injective "sub/c/d.txt" "sub/c/e.txt" 1 1).
  vm_compute. reflexivity.
Defined.

Lemma plain_paths_are_canonical_witness :
  foldl filepath_Join "" ["sub"; "c"; "d.txt"] = "sub/c/d.txt" ∧
  strings_Split (filepath_ToSlash "sub/c/d.txt") = ["sub"; "c"; "d.txt"] ∧
  canonical "sub/c/d.txt".
Proof.
  apply (plain_paths_are_canonical ["sub"; "c"; "d.txt"]).
  - discriminate.
  - repeat constructor; simpl; try discriminate; repeat split; discriminate.
Defined.

Lemma delete_pass_removes_orphans_witness :
  deleteRemoteFiles {["sub/b.txt" := "md5:B"]} index0 w0 = (delete0.1, Ok tt) ∧
  store delete0.1 = [sub; b_txt] ∧
  new_events w0 delete0.1 ≡ₚ [Api (CallDelete 3) true].
Proof.
  assert (E : deleteRemoteFiles {["sub/b.txt" := "md5:B"]} index0 w0
              = (delete0.1, Ok tt)).
  { vm_compute. reflexivity. }
  split; [exact E|].
  destruct (delete_pass_removes_orphans _ _ _ _ E) as (S & _ & _ & _ & P).
  split; [vm_compute; reflexivity|exact P].
Defined.

Lemma run_errors_by_phase_witness :
  syncFiles 10 "/l" 0 w_fault
    = (run_fault.1, Err "unable to update file: googleapi: Error") ∧
  ∃ w1 rf,
    fetchRemoteFiles 10 0 "" ∅ w_fault = (w1, Ok rf) ∧
    filepath_Walk "/l" (walkFn 0 rf) (∅, []) w1
      = (run_fault.1, Err "unable to update file: googleapi: Error").
Proof.
  assert (E : syncFiles 10 "/l" 0 w_fault
              = (run_fault.1, Err "unable to update file: googleapi: Error")).
  { vm_compute. reflexivity. }
  split; [exact E|].
  destruct (run_errors_by_phase _ _ _ _ _ _ E)
    as [[He _]|[P|(? & ? & ? & ? & ? & ? & ? & ? & _ & _ & _ & _ & He & _)]].
  - discriminate He.
  - exact P.
  - discriminate He.
Defined.

Lemma run_touches_scanned_files_only_witness :
  ∃ p f, remote_file (store w0) 0 p f ∧ FId f = 3 ∧ ¬ isFolder f.
Proof.
  apply (run_touches_scanned_files_only 10 "/l" 0 w0 run0.1 run0.2 3
           (Api (CallDelete 3) true)).
  - vm_compute. reflexivity.
  - apply list_elem_of_In. vm_compute. tauto.
  - right. exists true. reflexivity.
Defined.

Lemma unreadable_file_stops_walk_witness :
  ∃ e, walkFn 0 ∅ (∅, []) gone_txt w_twins
       = (w_twins,
          Err (("failed to compute checksum for " +:+ "/l/gone.txt" +:+ ": ")
                 +:+ e)) ∧
       ((∃ e0, e = "unable to open file: " +:+ e0) ∨
        (∃ e0, e = "unable to compute hash: " +:+ e0)).
Proof.
  apply (unreadable_file_stops_walk 0 ∅ (∅, []) gone_txt "gone.txt" w_twins).
  - reflexivity.
  - reflexivity.
  - reflexivity.
  - intros c. vm_compute. discriminate.
Defined.

Lemma local_index_is_exact_witness :
  filepath_Walk "/l" (walkFn 0 index0) (∅, []) scan0.1
    = (walk0.1, Ok walk0_state) ∧
  (∀ rel h, walk0_state.1 !! rel = Some h
            ↔ local_digest (fs scan0.1) (walk_script "/l" scan0.1) rel h) ∧
  Forall (λ v, v_err v = None) (walk_script "/l" scan0.1) ∧
  fs walk0.1 = fs scan0.1.
Proof.
  assert (E : filepath_Walk "/l" (walkFn 0 index0) (∅, []) scan0.1
              = (walk0.1, Ok walk0_state)).
  { vm_compute. reflexivity. }
  split; [exact E|].
  apply (local_index_is_exact "/l" 0 index0 scan0.1 walk0.1 walk0_state).
  - exact (proj1 Witness.tidy_walk_local).
  - exact E.
Defined.

Lemma run_mirrors_local_tree_witness :
  syncFiles 10 "/l" 0 w_fresh = (run_fresh.1, Ok tt) ∧
  ∀ p h, (∃ g, remote_file (store run_fresh.1) 0 p g ∧ Md5Checksum g = h)
         ↔ local_digest (fs w_fresh) (walk_script "/l" w_fresh) p h.
Proof.
  assert (E : syncFiles 10 "/l" 0 w_fresh = (run_fresh.1, Ok tt)).
  { vm_compute. reflexivity. }
  split; [exact E|].
  apply (run_mirrors_local_tree 10 "/l" 0 w_fresh run_fresh.1).
  - exact Witness.wf_drive_fresh.
  - exact Witness.tidy_walk_local.
  - exact Witness.unique_paths_fresh.
  - exact E.
Defined.

Lemma ranked_w0 : ranked (store w0) rank0.
Proof.
  intros d Hd Hf. apply list_elem_of_In in Hd. simpl in Hd.
  destruct Hd as [<-|[<-|[<-|[]]]].
  - vm_compute. lia.
  - discriminate Hf.
  - discriminate Hf.
Defined.

Lemma undisturbed_run_succeeds_witness :
  ∃ w', syncFiles 10 "/l" 0 w0 = (w', Ok tt).
Proof.
  apply (undisturbed_run_succeeds rank0 1 10 "/l" 0 w0).
  - reflexivity.
  - exact Witness.wf_drive_w0.
  - exact ranked_w0.
  - vm_compute. lia.
  - vm_compute. lia.
  - repeat apply Forall_cons_2; try apply Forall_nil_2;
      (split; [reflexivity|]); intros Hd; try discriminate Hd;
      eexists _, _;
      (split; [reflexivity|
       split; [vm_compute; repeat constructor|vm_compute; reflexivity]]).
Defined.

Lemma scan_returns_on_forest_witness :
  ∃ w' res,
    fetchRemoteFiles 10 0 "" ∅ w0 = (w', res) ∧ res ≠ Timeout ∧
    ∀ fuel', 10 ≤ fuel' → fetchRemoteFiles fuel' 0 "" ∅ w0 = (w', res).
Proof.
  apply (scan_returns_on_forest rank0 1 10 0 "" ∅ w0).
  - exact ranked_w0.
  - vm_compute. lia.
  - vm_compute. lia.
Defined.

Lemma uploadFile_puts_file_at_path_witness :
  uploadFile "/l/sub/c/e.txt" "sub/c/e.txt" 0 [("sub/c", 11); ("sub", 1)]
             walk_part.1
    = (upload_e.1, Ok [("sub/c", 11); ("sub", 1)]) ∧
  ∃ c f, fs walk_part.1 !! "/l/sub/c/e.txt" = Some (Content c) ∧
         remote_file (store upload_e.1) 0 "sub/c/e.txt" f ∧
         Md5Checksum f = md5hex c ∧ next_id walk_part.1 ≤ FId f ∧
         store walk_part.1 `prefix_of` store upload_e.1.
Proof.
  assert (E : uploadFile "/l/sub/c/e.txt" "sub/c/e.txt" 0
                         [("sub/c", 11); ("sub", 1)] walk_part.1
              = (upload_e.1, Ok [("sub/c", 11); ("sub", 1)])).
  { vm_compute. reflexivity. }
  split; [exact E|].
  apply (uploadFile_puts_file_at_path 10 "/l" 0 w0 scan0.1 index0
           (take 6 local_walk)
           (list_to_map [("sub/c/d.txt", "md5:D"); ("sub/b.txt", "md5:B");
                         ("a.txt", "md5:A")],
            [("sub/c", 11); ("sub", 1)])
           walk_part.1 "/l/sub/c/e.txt" "sub/c/e.txt" upload_e.1
           [("sub/c", 11); ("sub", 1)]).
  - exact Witness.wf_drive_w0.
  - vm_compute. reflexivity.
  - refine (bool_decide_unpack _ _). vm_compute. exact I.
  - repeat constructor; vm_compute; reflexivity.
  - vm_compute. reflexivity.
  - vm_compute. reflexivity.
  - exact E.
Defined.

Lemma sync_into_empty_folder_only_adds_witness :
  Forall (λ e, is_update e = false ∧ is_delete e = false)
         (new_events w_fresh run_fresh.1) ∧
  store w_fresh `prefix_of` store run_fresh.1.
Proof.
  apply (sync_into_empty_folder_only_adds 10 "/l" 0 w_fresh run_fresh.1
           run_fresh.2).
  - reflexivity.
  - vm_compute. reflexivity.
Defined.

Lemma empty_local_tree_deletes_all_witness :
  ∃ w1 rf,
    fetchRemoteFiles 10 0 "" ∅ w_twins = (w1, Ok rf) ∧
    new_events w1 run_twins.1
      ≡ₚ WalkDir "/l" ::
         ((λ pf, Api (CallDelete (FId pf.2)) true) <$> map_to_list rf) ∧
    ∀ p f, rf !! p = Some f → FId f ∉ FId <$> store run_twins.1.
Proof.
  apply (empty_local_tree_deletes_all 10 "/l" 0 w_twins run_twins.1).
  - reflexivity.
  - vm_compute. reflexivity.
Defined.

Lemma missing_local_root_changes_nothing_witness :
  syncFiles 10 "/gone" 0 w0
    = (log (WalkDir "/gone") scan0.1,
       Err ("lstat " +:+ "/gone" +:+ ": no such file or directory")) ∧
  Forall silent (new_events w0 (log (WalkDir "/gone") scan0.1)) ∧
  store (log (WalkDir "/gone") scan0.1) = store w0.
Proof.
  apply (missing_local_root_changes_nothing 10 "/gone" 0 w0 scan0.1 index0).
  - vm_compute. reflexivity.
  - vm_compute. reflexivity.
Defined.

End MoreWitness.
